(** * Firebase-Admin-Utils: schema inference and collection linting

    A shallow embedding of [scripts/inferSchema.js] (kind classifier,
    aggregate model, sampler, schema summarizer, example document,
    profile of a collection and of its subcollections) and of
    [scripts/lintCollectionSchema.js] (flattening, the page-by-page scan,
    the two passes, the report and its issues), with the properties the
    specification states about them and further properties of the code.
    The YAML printers of the two scripts are not part of the embedding.

    Conventions of the embedding.
    - JavaScript values are the inductive [Value]; an object is the list
      of its own enumerable entries, in the order [Object.entries] yields
      them: the array indices first, in ascending order, then the other
      keys in the order of their creation ([Object_fromEntries]).
    - inferSchema.js reads the global [admin] (lines 19, 29-31, 179-181)
      without ever binding it; lintCollectionSchema.js binds it at line
      15. The embedding of inferSchema.js reads the script with [admin]
      bound in the same way; what happens as it is shipped is
      [detectKindIn false].
    - The document store is a list of documents, and its queries are
      answered: a query that the store rejects or fails to answer (a
      path that names no collection, a read error) also ends a run, and
      is outside the embedding.
    - The aggregates are mutable objects that are never aliased: each is
      owned by exactly one parent.  In-place mutation is therefore modelled
      by returning the updated aggregate.
    - A [Map] is an association list in insertion order ([Map_get],
      [Map_set]); an array is a list.
    - Reading a property of [undefined] raises a TypeError in JavaScript;
      functions that can do so return [option], with [None] for the
      exception.
    - Counters are [nat]. The other numbers are binary64 numbers, kept as
      the rationals they are; a numeral and the result of a division are
      rounded to the nearest binary64 number ([toDouble]). *)

From Stdlib Require Import List String Ascii Bool Arith ZArith QArith Qround Lia.
From Stdlib Require Import Qpower Lqa.
From Stdlib Require Import Permutation Sorted.
Import ListNotations.

Local Open Scope string_scope.
Local Open Scope list_scope.
Local Open Scope nat_scope.

Set Implicit Arguments.
Set Warnings "-register-all".

(** Strict equality [===] on strings. *)
Infix "==" := String.eqb (at level 70, no associativity).

(** ** The error monad for TypeErrors *)

Definition obind {A B : Type} (m : option A) (k : A -> option B) : option B :=
  match m with
  | Some a => k a
  | None => None
  end.

Notation "x <- m ;; k" := (obind m (fun x => k))
  (at level 61, m at next level, right associativity).

(** ** JavaScript values *)

(** A JavaScript number: a finite value, kept as an exact rational, or
    one of the three non-finite values. *)
Inductive JsNumber : Type :=
| Finite (q : Q)
| NaN
| PosInfinity
| NegInfinity.

(** [Number.isInteger]. *)
Definition Number_isInteger (n : JsNumber) : bool :=
  match n with
  | Finite q => (Qnum q mod Zpos (Qden q) =? 0)%Z
  | _ => false
  end.

Inductive Value : Type :=
| VNull
| VUndefined
| VBoolean (b : bool)
| VNumber (n : JsNumber)
| VString (s : string)
| VBigInt (z : Z)
| VSymbol
| VFunction
| VTimestamp (seconds nanoseconds : Z)          (* admin.firestore.Timestamp *)
| VGeoPoint (latitude longitude : JsNumber)     (* admin.firestore.GeoPoint *)
| VReference (path : string)                    (* admin.firestore.DocumentReference *)
| VBytes (bytes : list Z)                       (* Buffer / Uint8Array *)
| VArray (elements : list Value)
| VObject (entries : list (string * Value))
    (* an object with the tag [object Object] that is none of the three
       store classes above: an object literal, a Firestore map, an
       instance of any other class (a VectorValue, say), by its own
       enumerable entries *)
| VExotic.
    (* an object with a tag of its own: Date, Map, Set, RegExp, ... *)

(** Structural induction that reaches the elements of arrays and the
    values of object entries. *)
Section ValueInduction.
Variable P : Value -> Prop.
Hypothesis Hnull : P VNull.
Hypothesis Hundefined : P VUndefined.
Hypothesis Hboolean : forall b, P (VBoolean b).
Hypothesis Hnumber : forall n, P (VNumber n).
Hypothesis Hstring : forall s, P (VString s).
Hypothesis Hbigint : forall z, P (VBigInt z).
Hypothesis Hsymbol : P VSymbol.
Hypothesis Hfunction : P VFunction.
Hypothesis Htimestamp : forall s n, P (VTimestamp s n).
Hypothesis Hgeopoint : forall a b, P (VGeoPoint a b).
Hypothesis Hreference : forall p, P (VReference p).
Hypothesis Hbytes : forall bs, P (VBytes bs).
Hypothesis Harray : forall els, Forall P els -> P (VArray els).
Hypothesis Hobject :
  forall es, Forall (fun kv => P (snd kv)) es -> P (VObject es).
Hypothesis Hexotic : P VExotic.

Fixpoint Value_nested_ind (v : Value) : P v :=
  match v with
  | VNull => Hnull
  | VUndefined => Hundefined
  | VBoolean b => Hboolean b
  | VNumber n => Hnumber n
  | VString s => Hstring s
  | VBigInt z => Hbigint z
  | VSymbol => Hsymbol
  | VFunction => Hfunction
  | VTimestamp s n => Htimestamp s n
  | VGeoPoint a b => Hgeopoint a b
  | VReference p => Hreference p
  | VBytes bs => Hbytes bs
  | VArray els =>
      Harray ((fix elems (l : list Value) : Forall P l :=
                 match l with
                 | [] => Forall_nil P
                 | x :: l' => Forall_cons x (Value_nested_ind x) (elems l')
                 end) els)
  | VObject es =>
      Hobject ((fix props (l : list (string * Value))
                  : Forall (fun kv => P (snd kv)) l :=
                  match l with
                  | [] => Forall_nil _
                  | kv :: l' =>
                      Forall_cons kv (Value_nested_ind (snd kv)) (props l')
                  end) es)
  | VExotic => Hexotic
  end.
End ValueInduction.

(** ** Kind classifier (inferSchema.js 26-40, lintCollectionSchema.js 46-63) *)

(** The [typeof] operator. *)
Definition typeof (v : Value) : string :=
  match v with
  | VUndefined => "undefined"
  | VBoolean _ => "boolean"
  | VNumber _ => "number"
  | VString _ => "string"
  | VBigInt _ => "bigint"
  | VSymbol => "symbol"
  | VFunction => "function"
  | _ => "object"
  end.

(** [Object.prototype.toString.call(v)]: instances of ordinary classes
    (Timestamp, GeoPoint, DocumentReference, and those that [VObject]
    stands for) carry the tag [Object], just like object literals. The
    tag of a [VExotic] value is any other one; the code only compares it
    with [[object Object]]. *)
Definition Object_prototype_toString (v : Value) : string :=
  match v with
  | VNull => "[object Null]"
  | VUndefined => "[object Undefined]"
  | VBoolean _ => "[object Boolean]"
  | VNumber _ => "[object Number]"
  | VString _ => "[object String]"
  | VBigInt _ => "[object BigInt]"
  | VSymbol => "[object Symbol]"
  | VFunction => "[object Function]"
  | VTimestamp _ _ => "[object Object]"
  | VGeoPoint _ _ => "[object Object]"
  | VReference _ => "[object Object]"
  | VBytes _ => "[object Uint8Array]"
  | VArray _ => "[object Array]"
  | VObject _ => "[object Object]"
  | VExotic => "[object Date]"
  end.

Definition isPlainObject (v : Value) : bool :=
  Object_prototype_toString v == "[object Object]".

Definition instanceof_Timestamp (v : Value) : bool :=
  match v with VTimestamp _ _ => true | _ => false end.
Definition instanceof_GeoPoint (v : Value) : bool :=
  match v with VGeoPoint _ _ => true | _ => false end.
Definition instanceof_DocumentReference (v : Value) : bool :=
  match v with VReference _ => true | _ => false end.
(** [Buffer.isBuffer(v) || v instanceof Uint8Array]. *)
Definition isBytes (v : Value) : bool :=
  match v with VBytes _ => true | _ => false end.
Definition Array_isArray (v : Value) : bool :=
  match v with VArray _ => true | _ => false end.
Definition isNull (v : Value) : bool :=
  match v with VNull => true | _ => false end.

Definition detectKind (v : Value) : string :=
  if isNull v then "null"
  else if instanceof_Timestamp v then "timestamp"
  else if instanceof_GeoPoint v then "geopoint"
  else if instanceof_DocumentReference v then "reference"
  else if isBytes v then "bytes"
  else if Array_isArray v then "array"
  else
    let t := typeof v in
    if t == "string" then "string"
    else if t == "boolean" then "boolean"
    else if t == "number" then "number"
    else if isPlainObject v then "object"
    else "unknown".

(** What evaluating an expression of a script ends in: a value, or the
    ReferenceError of reading an identifier that is not bound. *)
Inductive Completion (A : Type) : Type :=
| Returns (a : A)
| ReferenceError (name : string).
Arguments Returns {A} a.
Arguments ReferenceError {A} name.

(** [detectKind] in a script in which the identifier [admin] is bound
    ([adminBound], lintCollectionSchema.js) or is not (inferSchema.js): the
    test [v === null] does not read it, the test
    [v instanceof admin.firestore.Timestamp] does. *)
Definition detectKindIn (adminBound : bool) (v : Value) : Completion string :=
  if isNull v then Returns "null"
  else if negb adminBound then ReferenceError "admin"
  else Returns (detectKind v).

(** The closed enumeration of kinds of the data model. *)
Definition Kinds : list string :=
  ["null"; "boolean"; "number"; "string"; "timestamp"; "geopoint";
   "reference"; "bytes"; "array"; "object"; "unknown"].

(** The classification of the data model, by the concrete type of the
    value (specification, section 3): [null]; the four opaque store types;
    arrays; the three scalars; key-value maps; anything else is
    [unknown]. *)
Definition classify (v : Value) : string :=
  match v with
  | VNull => "null"
  | VTimestamp _ _ => "timestamp"
  | VGeoPoint _ _ => "geopoint"
  | VReference _ => "reference"
  | VBytes _ => "bytes"
  | VArray _ => "array"
  | VString _ => "string"
  | VBoolean _ => "boolean"
  | VNumber _ => "number"
  | VObject _ => "object"
  | VUndefined | VBigInt _ | VSymbol | VFunction | VExotic => "unknown"
  end.

(** ** Maps and sets of the JavaScript runtime *)

(** [Map.prototype.get] and [Map.prototype.set] on an insertion-ordered
    association list; also used for the own properties of an object that
    serves as a dictionary ([out[path] = v]). *)
Fixpoint Map_get {A : Type} (k : string) (m : list (string * A)) : option A :=
  match m with
  | [] => None
  | (k', a) :: m' => if k' == k then Some a else Map_get k m'
  end.

Fixpoint Map_set {A : Type} (k : string) (a : A) (m : list (string * A))
  : list (string * A) :=
  match m with
  | [] => [(k, a)]
  | (k', a') :: m' =>
      if k' == k then (k', a) :: m' else (k', a') :: Map_set k a m'
  end.

(** [Map.prototype.has] / [Set.prototype.has]. *)
Definition Map_has {A : Type} (k : string) (m : list (string * A)) : bool :=
  existsb (fun kv => fst kv == k) m.

Definition Set_has (k : string) (s : list string) : bool :=
  existsb (fun x => x == k) s.

(** [Set.prototype.add]. *)
Definition Set_add (k : string) (s : list string) : list string :=
  if Set_has k s then s else s ++ [k].

(** ** Plain objects *)

Definition digitValue (c : ascii) : option N :=
  let n := N_of_ascii c in
  if ((48 <=? n) && (n <=? 57))%N then Some (n - 48)%N else None.

(** The value of a string of decimal digits. *)
Fixpoint numeralValue (acc : N) (s : string) : option N :=
  match s with
  | EmptyString => Some acc
  | String c s' =>
      match digitValue c with
      | Some d => numeralValue (10 * acc + d) s'
      | None => None
      end
  end.

(** An array index: a key that is the canonical numeral of an integer
    from 0 to 2^32 - 2 ("0", or digits that do not start with "0"). *)
Definition arrayIndex (k : string) : option N :=
  match k with
  | EmptyString => None
  | String c rest =>
      if Ascii.eqb c "0"%char && negb (rest == "") then None
      else
        match numeralValue 0 k with
        | Some n => if (n <? 4294967295)%N then Some n else None
        | None => None
        end
  end.

Definition isArrayIndex (k : string) : bool :=
  match arrayIndex k with
  | Some _ => true
  | None => false
  end.

(** An entry whose key is the array index [i], put among entries that
    are sorted by array index. *)
Fixpoint insertByIndex {A : Type} (i : N) (kv : string * A)
  (o : list (string * A)) : list (string * A) :=
  match o with
  | [] => [kv]
  | kv' :: o' =>
      match arrayIndex (fst kv') with
      | Some j => if (j <? i)%N then kv' :: insertByIndex i kv o' else kv :: o
      | None => kv :: o
      end
  end.

(** The entries whose key is an array index, in ascending order. *)
Definition sortByIndex {A : Type} (entries : list (string * A))
  : list (string * A) :=
  fold_right
    (fun kv o =>
       match arrayIndex (fst kv) with
       | Some i => insertByIndex i kv o
       | None => o
       end)
    [] entries.

(** The own entries of the object that the assignments [obj[k] = v] fill,
    one for each entry of a list of distinct keys, as [Object.entries],
    [Object.keys] and a printer enumerate them: the array indices first,
    in ascending order, then the other keys in the order of their
    creation. *)
Definition Object_fromEntries {A : Type} (entries : list (string * A))
  : list (string * A) :=
  sortByIndex entries
  ++ filter (fun kv => negb (isArrayIndex (fst kv))) entries.

(** * scripts/inferSchema.js *)

Module Infer.

(** ** Aggregate model (inferSchema.js 41-54) *)

Record NumberAgg : Type := MkNumberAgg { integerOnly : bool }.

Record ObjectAggOf (F : Type) : Type := MkObjectAgg {
  totalSeen : nat;
  properties : list (string * F)
}.

Record ArrayAggOf (F : Type) : Type := MkArrayAgg {
  arrTotalSeen : nat;                (* [totalSeen] of the array aggregate *)
  emptyCount : nat;
  items : option F
}.

Record VariantOf (F : Type) : Type := MkVariant {
  kind : string;
  count : nat;
  object : option (ObjectAggOf F);
  array : option (ArrayAggOf F);
  number : option NumberAgg
}.

Inductive FieldAgg : Type :=
| MkFieldAgg (presentCount : nat) (variants : list (VariantOf FieldAgg)).

Abbreviation ObjectAgg := (ObjectAggOf FieldAgg).
Abbreviation ArrayAgg := (ArrayAggOf FieldAgg).
Abbreviation Variant := (VariantOf FieldAgg).

Definition presentCount (fa : FieldAgg) : nat :=
  match fa with MkFieldAgg pc _ => pc end.
Definition variants (fa : FieldAgg) : list Variant :=
  match fa with MkFieldAgg _ vs => vs end.

Definition makeFieldAgg : FieldAgg := MkFieldAgg 0 [].
Definition makeObjectAgg : ObjectAgg := MkObjectAgg 0 [].
Definition makeArrayAgg : ArrayAgg := MkArrayAgg 0 0 None.

(** The variant that [getOrCreateVariant] pushes for a kind not seen yet. *)
Definition newVariant (kind : string) : Variant :=
  {| kind := kind;
     count := 0;
     object := if kind == "object" then Some makeObjectAgg else None;
     array := if kind == "array" then Some makeArrayAgg else None;
     number := if kind == "number" then Some (MkNumberAgg true) else None |}.

(** [fieldAgg.variants.find(x => x.kind === kind)]. *)
Definition findVariant (vs : list Variant) (k : string) : option Variant :=
  find (fun x => kind x == k) vs.

(** [getOrCreateVariant]: the variant list after the call (a fresh variant
    is pushed at the end when the kind is new). The variant the call
    returns is [findVariant] of that list. *)
Definition getOrCreateVariant (vs : list Variant) (k : string) : list Variant :=
  match findVariant vs k with
  | Some _ => vs
  | None => vs ++ [newVariant k]
  end.

(** In-place mutation of the variant that [find] returned: the first
    variant of kind [k] is replaced by the outcome of [f]. *)
Fixpoint mutateVariant (k : string) (f : Variant -> option Variant)
  (vs : list Variant) : option (list Variant) :=
  match vs with
  | [] => Some []
  | x :: vs' =>
      if kind x == k then x' <- f x ;; Some (x' :: vs')
      else vs'' <- mutateVariant k f vs' ;; Some (x :: vs'')
  end.

Definition withCount (v : Variant) (n : nat) : Variant :=
  {| kind := kind v; count := n; object := object v; array := array v;
     number := number v |}.
Definition withObject (v : Variant) (oa : ObjectAgg) : Variant :=
  {| kind := kind v; count := count v; object := Some oa; array := array v;
     number := number v |}.
Definition withArray (v : Variant) (aa : ArrayAgg) : Variant :=
  {| kind := kind v; count := count v; object := object v; array := Some aa;
     number := number v |}.
Definition withNumber (v : Variant) (na : NumberAgg) : Variant :=
  {| kind := kind v; count := count v; object := object v; array := array v;
     number := Some na |}.

(** ** Sampler (inferSchema.js 55-95) *)

Section SampleWith.
(** The recursive call of [addValueSample]. *)
Variable add : FieldAgg -> Value -> option FieldAgg.

(** One turn of the loop over [Object.entries]: fetch or create the
    child aggregate of key [k], then fold the value into it. *)
Definition sampleEntry (props : list (string * FieldAgg)) (k : string)
  (v : Value) : option (list (string * FieldAgg)) :=
  let child :=
    match Map_get k props with
    | Some child => child
    | None => makeFieldAgg
    end in
  child' <- add child v ;; Some (Map_set k child' props).

Definition sampleEntries (props : list (string * FieldAgg))
  (entries : list (string * Value)) : option (list (string * FieldAgg)) :=
  fold_left (fun acc kv => ps <- acc ;; sampleEntry ps (fst kv) (snd kv))
    entries (Some props).

Definition sampleElements (it : FieldAgg) (elements : list Value)
  : option FieldAgg :=
  fold_left (fun acc el => a <- acc ;; add a el) elements (Some it).

(** [variant.count++] followed by the [switch (kind)]. The switch is
    written as a match on the value: [detectKind] answers "object",
    "array" and "number" exactly on [VObject], [VArray] and [VNumber]
    (lemmas [detectKind_object], [detectKind_array],
    [detectKind_number]). *)
Definition sampleVariant (value : Value) (variant : Variant)
  : option Variant :=
  let variant := withCount variant (S (count variant)) in
  match value with
  | VObject entries =>
      oa <- object variant ;;
      props <- sampleEntries (properties oa) entries ;;
      Some (withObject variant (MkObjectAgg (S (totalSeen oa)) props))
  | VArray elements =>
      aa <- array variant ;;
      match elements with
      | [] =>
          Some (withArray variant
                  (MkArrayAgg (S (arrTotalSeen aa)) (S (emptyCount aa))
                     (items aa)))
      | _ :: _ =>
          let it0 :=
            match items aa with
            | Some it => it
            | None => makeFieldAgg
            end in
          it <- sampleElements it0 elements ;;
          Some (withArray variant
                  (MkArrayAgg (S (arrTotalSeen aa)) (emptyCount aa) (Some it)))
      end
  | VNumber n =>
      if Number_isInteger n then Some variant
      else _ <- number variant ;; Some (withNumber variant (MkNumberAgg false))
  | _ => Some variant
  end.
End SampleWith.

Fixpoint addValueSample (fieldAgg : FieldAgg) (value : Value) {struct value}
  : option FieldAgg :=
  let k := detectKind value in
  vs <- mutateVariant k (sampleVariant addValueSample value)
          (getOrCreateVariant (variants fieldAgg) k) ;;
  Some (MkFieldAgg (S (presentCount fieldAgg)) vs).

Definition addObjectSample (objAgg : ObjectAgg) (obj : list (string * Value))
  : option ObjectAgg :=
  props <- sampleEntries addValueSample (properties objAgg) obj ;;
  Some (MkObjectAgg (S (totalSeen objAgg)) props).

(** [docs.forEach(d => addObjectSample(agg, d.data()))] in [buildProfile]. *)
Definition foldDocs (agg : ObjectAgg) (docs : list (list (string * Value)))
  : option ObjectAgg :=
  fold_left (fun acc d => a <- acc ;; addObjectSample a d) docs (Some agg).

(** Repeated [addValueSample] on one field aggregate. *)
Definition foldValues (fa : FieldAgg) (vs : list Value) : option FieldAgg :=
  sampleElements addValueSample fa vs.

(** ** Dictionary heuristic (inferSchema.js 97-112) *)

Definition maybeAsMap (objAgg : ObjectAgg) : option string :=
  let props := properties objAgg in
  match props with
  | [] => None
  | _ :: _ =>
      let total := totalSeen objAgg in
      if existsb (fun kf => presentCount (snd kf) =? total) props then None
      else
        kinds <- fold_left
          (fun acc kf =>
             ks <- acc ;;
             match variants (snd kf) with
             | [v] =>
                 if existsb (fun s => s == kind v) ["boolean"; "string"; "number"]
                 then Some (ks ++ [kind v])
                 else None
             | _ => None
             end)
          props (Some []) ;;
        match kinds with
        | [] => None
        | first :: _ =>
            if forallb (fun k => k == first) kinds then Some first else None
        end
  end.

(** ** Field summary (inferSchema.js 114-173) *)

Definition friendlyTypeName (variant : Variant) : option string :=
  let k := kind variant in
  if k == "number" then
    na <- number variant ;; Some (if integerOnly na then "integer" else "number")
  else if k == "timestamp" then Some "timestamp"
  else if k == "reference" then Some "documentReference"
  else if k == "bytes" then Some "bytes(base64)"
  else if k == "geopoint" then Some "geopoint"
  else Some k.

(** A summary node; a key that the object literal does not set is [None]. *)
Inductive Summary : Type := MkSummary {
  s_type : string;
  s_format : option string;
  s_union : option (list string);
  s_items : option Summary;
  s_required : option bool;
  s_nullable : option bool;
  s_requiredFields : option (list string);
  s_fields : option (list (string * Summary))
}.

(** [{ type, required, nullable }]. *)
Definition leaf (type : string) (required nullable : bool) : Summary :=
  MkSummary type None None None (Some required) (Some nullable) None None.

(** [{ type: "any" }]. *)
Definition anySummary : Summary :=
  MkSummary "any" None None None None None None None.

(** [Array.prototype.sort()] without comparator on an array of strings:
    ascending order of code units. *)
Fixpoint insertSorted (s : string) (l : list string) : list string :=
  match l with
  | [] => [s]
  | x :: l' => if String.leb s x then s :: l else x :: insertSorted s l'
  end.

Definition Array_sort (l : list string) : list string :=
  fold_right insertSorted [] l.

(** [Array.prototype.map] with a callback that may throw. *)
Fixpoint mapM {A B : Type} (f : A -> option B) (l : list A) : option (list B) :=
  match l with
  | [] => Some []
  | x :: l' => y <- f x ;; ys <- mapM f l' ;; Some (y :: ys)
  end.

(** [nonNull[0]] handed to [f]: the first variant whose kind is not
    "null" (lemma [firstNonNull_filter]). *)
Fixpoint firstNonNull {B : Type} (f : Variant -> option B) (vs : list Variant)
  : option B :=
  match vs with
  | [] => None
  | v :: vs' => if kind v == "null" then firstNonNull f vs' else f v
  end.

Section SummarizeWith.
(** The recursive call of [summarizeField]. *)
Variable summarize : FieldAgg -> nat -> option Summary.

(** The loop over [v.object.properties.entries()] that fills the object
    [fields], by [fields[k] = summarizeField(...)]. *)
Definition summarizeProperties (oa : ObjectAgg)
  : option (list (string * Summary)) :=
  fields <- mapM (fun kf => s <- summarize (snd kf) (totalSeen oa) ;;
                            Some (fst kf, s))
              (properties oa) ;;
  Some (Object_fromEntries fields).

(** The keys pushed on [req] by the same loop. *)
Definition requiredKeys (oa : ObjectAgg) : list string :=
  map fst
    (filter (fun kf => presentCount (snd kf) =? totalSeen oa) (properties oa)).

(** The [switch (v.kind)] of [summarizeField]. *)
Definition summarizeVariant (required isNullable : bool) (v : Variant)
  : option Summary :=
  let k := kind v in
  if k == "string" then Some (leaf "string" required isNullable)
  else if k == "boolean" then Some (leaf "boolean" required isNullable)
  else if k == "number" then
    na <- number v ;;
    Some (leaf (if integerOnly na then "integer" else "number")
            required isNullable)
  else if k == "timestamp" then
    Some (MkSummary "timestamp" (Some "RFC3339") None None
            (Some required) (Some isNullable) None None)
  else if k == "reference" then
    Some (leaf "documentReference" required isNullable)
  else if k == "bytes" then Some (leaf "bytes(base64)" required isNullable)
  else if k == "geopoint" then
    Some (leaf "geopoint{latitude:number, longitude:number}"
            required isNullable)
  else if k == "array" then
    aa <- array v ;;
    itemsSummary <-
      match items aa with
      | Some it =>
          (* [v.array.items.presentCount || 1] *)
          summarize it (match presentCount it with 0 => 1 | n => n end)
      | None => Some anySummary
      end ;;
    Some (MkSummary "array" None None (Some itemsSummary)
            (Some required) (Some isNullable) None None)
  else if k == "object" then
    oa <- object v ;;
    match maybeAsMap oa with
    | Some mapValueKind =>
        Some (leaf ("map<string, " ++ mapValueKind ++ ">") required isNullable)
    | None =>
        fields <- summarizeProperties oa ;;
        let req := requiredKeys oa in
        Some (MkSummary "object" None None None
                (Some required) (Some isNullable)
                (match req with [] => None | _ :: _ => Some req end)
                (Some fields))
    end
  else Some (leaf "unknown" required isNullable).
End SummarizeWith.

Definition nonNullVariants (fa : FieldAgg) : list Variant :=
  filter (fun v => negb (kind v == "null")) (variants fa).

Fixpoint summarizeField (fa : FieldAgg) (parentTotalSeen : nat) {struct fa}
  : option Summary :=
  let isNullable := existsb (fun v => kind v == "null") (variants fa) in
  let required := presentCount fa =? parentTotalSeen in
  let nonNull := nonNullVariants fa in
  match nonNull with
  | [] => Some (leaf "unknown" required true)
  | _ :: _ :: _ =>
      union <- mapM friendlyTypeName nonNull ;;
      Some (MkSummary "union" None (Some (Array_sort union)) None
              (Some required) (Some isNullable) None None)
  | [_] =>
      firstNonNull (summarizeVariant summarizeField required isNullable)
        (variants fa)
  end.

(** The [document] block of the object that [profileFromAgg] returns. *)
Record Profile : Type := MkProfile {
  collection : string;
  requiredFields : option (list string);
  fields : list (string * Summary)
}.

Definition profileFromAgg (collectionPath : string) (agg : ObjectAgg)
  : option Profile :=
  fields <- summarizeProperties summarizeField agg ;;
  let required := requiredKeys agg in
  Some (MkProfile collectionPath
          (match required with [] => None | _ :: _ => Some required end)
          fields).

(** ** Positions in an aggregate tree *)

(** One step down from a field: into the property [k] of its object
    values, or into the shared element slot of its array values. *)
Inductive Step : Type :=
| Key (k : string)
| Items.

Definition objectOf (fa : FieldAgg) : option ObjectAgg :=
  v <- findVariant (variants fa) "object" ;; object v.
Definition arrayOf (fa : FieldAgg) : option ArrayAgg :=
  v <- findVariant (variants fa) "array" ;; array v.
Definition numberOf (fa : FieldAgg) : option NumberAgg :=
  v <- findVariant (variants fa) "number" ;; number v.

Definition stepField (fa : FieldAgg) (st : Step) : option FieldAgg :=
  match st with
  | Key k => oa <- objectOf fa ;; Map_get k (properties oa)
  | Items => aa <- arrayOf fa ;; items aa
  end.

(** The field aggregate found by following a path from a field. *)
Fixpoint fieldAt (fa : FieldAgg) (p : list Step) : option FieldAgg :=
  match p with
  | [] => Some fa
  | st :: p' => c <- stepField fa st ;; fieldAt c p'
  end.

(** The field aggregate at a field path of the root aggregate. *)
Definition rootFieldAt (agg : ObjectAgg) (p : list Step) : option FieldAgg :=
  match p with
  | Key k :: p' => fa <- Map_get k (properties agg) ;; fieldAt fa p'
  | _ => None
  end.

(** The object aggregate that encloses the fields one [Key] step below
    the path [p] of the root aggregate ([p = []] is the root itself). *)
Definition rootObjectAt (agg : ObjectAgg) (p : list Step) : option ObjectAgg :=
  match p with
  | [] => Some agg
  | _ :: _ => fa <- rootFieldAt agg p ;; objectOf fa
  end.

(** What the aggregate records at a position; nothing recorded counts as
    zero observations. *)
Definition presentCountAt (o : option FieldAgg) : nat :=
  match o with
  | Some fa => presentCount fa
  | None => 0
  end.

Definition countAt (k : string) (o : option FieldAgg) : nat :=
  match o with
  | Some fa =>
      match findVariant (variants fa) k with
      | Some v => count v
      | None => 0
      end
  | None => 0
  end.

Definition integerOnlyAt (o : option FieldAgg) : option bool :=
  fa <- o ;; na <- numberOf fa ;; Some (integerOnly na).

(** The same steps in a summary. *)
Definition stepSummary (s : Summary) (st : Step) : option Summary :=
  match st with
  | Key k => fs <- s_fields s ;; Map_get k fs
  | Items => s_items s
  end.

Fixpoint summaryAt (s : Summary) (p : list Step) : option Summary :=
  match p with
  | [] => Some s
  | st :: p' => c <- stepSummary s st ;; summaryAt c p'
  end.

Definition profileSummaryAt (pr : Profile) (p : list Step) : option Summary :=
  match p with
  | Key k :: p' => s <- Map_get k (fields pr) ;; summaryAt s p'
  | _ => None
  end.

(** ** Observations of a position in the documents themselves *)

(** The values that a value [v], sampled into a field, contributes at
    the path [p] below that field, in the order the sampler visits them. *)
Fixpoint occurrences (p : list Step) (v : Value) : list Value :=
  match p with
  | [] => [v]
  | Key k :: p' =>
      match v with
      | VObject entries =>
          flat_map (fun kv => if fst kv == k then occurrences p' (snd kv) else [])
            entries
      | _ => []
      end
  | Items :: p' =>
      match v with
      | VArray elements => flat_map (occurrences p') elements
      | _ => []
      end
  end.

(** The values a document contributes at a field path of the root. *)
Definition docOccurrences (p : list Step) (doc : list (string * Value))
  : list Value :=
  match p with
  | Key k :: p' =>
      flat_map (fun kv => if fst kv == k then occurrences p' (snd kv) else []) doc
  | _ => []
  end.

(** [Object.entries] never repeats a key: every object inside the value
    has pairwise distinct keys. *)
Fixpoint distinctKeys (ks : list string) : bool :=
  match ks with
  | [] => true
  | k :: ks' => negb (Set_has k ks') && distinctKeys ks'
  end.

Fixpoint wellFormed (v : Value) : bool :=
  match v with
  | VArray elements => forallb wellFormed elements
  | VObject entries =>
      distinctKeys (map fst entries)
      && forallb (fun kv => wellFormed (snd kv)) entries
  | _ => true
  end.

Definition wellFormedDoc (doc : list (string * Value)) : bool :=
  wellFormed (VObject doc).

(** ** Invariants of aggregate trees *)

Section AllNodes.
Variable PF : FieldAgg -> Prop.
Variable PO : ObjectAgg -> Prop.
Variable PA : ArrayAgg -> Prop.

(** [PF] holds of the field aggregate and of every field aggregate
    below it, [PO] of every object aggregate and [PA] of every array
    aggregate below it. *)
Inductive AllNodes : FieldAgg -> Prop :=
| AllNodes_intro : forall fa,
    PF fa ->
    Forall
      (fun v =>
         (forall oa, object v = Some oa ->
                     PO oa /\ Forall (fun kf => AllNodes (snd kf)) (properties oa))
         /\ (forall aa, array v = Some aa ->
                        PA aa /\ forall it, items aa = Some it -> AllNodes it))
      (variants fa) ->
    AllNodes fa.

(** The same for a tree rooted at an object aggregate. *)
Definition AllNodesObject (oa : ObjectAgg) : Prop :=
  PO oa /\ Forall (fun kf => AllNodes (snd kf)) (properties oa).
End AllNodes.

(** The two invariants of the data model. *)
Definition countsAddUp (fa : FieldAgg) : Prop :=
  presentCount fa = list_sum (map (@count FieldAgg) (variants fa)).

Definition presenceBounded (oa : ObjectAgg) : Prop :=
  forall k child, In (k, child) (properties oa) ->
                  presentCount child <= totalSeen oa.

(** What the sampler maintains besides: variants have distinct kinds, a
    positive count and the nested aggregate of their kind; maps have
    distinct keys; every recorded field was seen at least once. The
    presence bound is kept under the flag [b], since it relies on objects
    with distinct keys. *)
Definition variantLocal (v : Variant) : Prop :=
  1 <= count v
  /\ (kind v = "object" -> exists oa, object v = Some oa)
  /\ (kind v = "array" -> exists aa, array v = Some aa)
  /\ (kind v = "number" -> exists na, number v = Some na)
  /\ (forall oa, object v = Some oa -> 1 <= totalSeen oa).

Definition fieldLocal (fa : FieldAgg) : Prop :=
  countsAddUp fa
  /\ NoDup (map (@kind FieldAgg) (variants fa))
  /\ Forall variantLocal (variants fa).

Definition objectLocal (b : bool) (oa : ObjectAgg) : Prop :=
  NoDup (map fst (properties oa))
  /\ Forall (fun kf => 1 <= presentCount (snd kf)
                       /\ (b = true -> presentCount (snd kf) <= totalSeen oa))
       (properties oa).

Definition arrayLocal (aa : ArrayAgg) : Prop :=
  forall it, items aa = Some it -> 1 <= presentCount it.

Definition Inv (b : bool) : FieldAgg -> Prop :=
  AllNodes fieldLocal (objectLocal b) arrayLocal.

Definition InvObject (b : bool) : ObjectAgg -> Prop :=
  AllNodesObject fieldLocal (objectLocal b) arrayLocal.

(** ** Calls on a pair of fresh aggregates *)

Inductive Call : Type :=
| CallAddValueSample (value : Value)
| CallAddObjectSample (obj : list (string * Value)).

Definition wellFormedCall (c : Call) : bool :=
  match c with
  | CallAddValueSample v => wellFormed v
  | CallAddObjectSample obj => wellFormedDoc obj
  end.

Definition runCall (st : FieldAgg * ObjectAgg) (c : Call)
  : option (FieldAgg * ObjectAgg) :=
  match c with
  | CallAddValueSample v => fa <- addValueSample (fst st) v ;; Some (fa, snd st)
  | CallAddObjectSample obj => oa <- addObjectSample (snd st) obj ;; Some (fst st, oa)
  end.

Definition runCalls (st : FieldAgg * ObjectAgg) (cs : list Call)
  : option (FieldAgg * ObjectAgg) :=
  fold_left (fun acc c => s <- acc ;; runCall s c) cs (Some st).

(** ** Merge *)

Definition mergeOpt {A : Type} (f : A -> A -> A) (x y : option A) : option A :=
  match x, y with
  | Some a, Some b => Some (f a b)
  | Some a, None => Some a
  | None, _ => y
  end.

Section MergeWith.
Variable merge : FieldAgg -> FieldAgg -> FieldAgg.

Definition mergeProperties (pa pb : list (string * FieldAgg))
  : list (string * FieldAgg) :=
  map (fun kf => (fst kf,
                  match Map_get (fst kf) pb with
                  | Some fb => merge (snd kf) fb
                  | None => snd kf
                  end)) pa
  ++ filter (fun kf => negb (Map_has (fst kf) pa)) pb.

Definition mergeObjectWith (oa ob : ObjectAgg) : ObjectAgg :=
  MkObjectAgg (totalSeen oa + totalSeen ob)
    (mergeProperties (properties oa) (properties ob)).

Definition mergeArrayWith (aa ab : ArrayAgg) : ArrayAgg :=
  MkArrayAgg (arrTotalSeen aa + arrTotalSeen ab)
    (emptyCount aa + emptyCount ab)
    (mergeOpt merge (items aa) (items ab)).

Definition mergeNumber (na nb : NumberAgg) : NumberAgg :=
  MkNumberAgg (integerOnly na && integerOnly nb).

Definition mergeVariantWith (va vb : Variant) : Variant :=
  {| kind := kind va;
     count := count va + count vb;
     object := mergeOpt mergeObjectWith (object va) (object vb);
     array := mergeOpt mergeArrayWith (array va) (array vb);
     number := mergeOpt mergeNumber (number va) (number vb) |}.

Definition mergeVariants (xs ys : list Variant) : list Variant :=
  map (fun va => match findVariant ys (kind va) with
                 | Some vb => mergeVariantWith va vb
                 | None => va
                 end) xs
  ++ filter (fun vb => match findVariant xs (kind vb) with
                       | Some _ => false
                       | None => true
                       end) ys.
End MergeWith.

(** Modelled from the spec: the merge operation of the aggregate monoid
    (sections 5 and 8); the repository defines no merge function. Counts
    are added, [integerOnly] flags are and-ed, variants are matched by
    kind and properties by key, and nested aggregates are merged
    recursively. *)
Fixpoint mergeField (a b : FieldAgg) {struct a} : FieldAgg :=
  MkFieldAgg (presentCount a + presentCount b)
    (mergeVariants mergeField (variants a) (variants b)).

(** Modelled from the spec: merge of two root aggregates (see
    [mergeField]). *)
Definition mergeObject : ObjectAgg -> ObjectAgg -> ObjectAgg :=
  mergeObjectWith mergeField.

(** ** Configuration and store (inferSchema.js 8-15, 239-245) *)

(** [CONFIG]. [SAMPLE_LIMIT] is [None] when it is not a number; the two
    numeric options hold integers. *)
Record Config : Type := MkConfig {
  COLLECTION_PATH : string;
  INCLUDE_SUBCOLLECTIONS : bool;
  SAMPLE_LIMIT : option Z;
  INCLUDE_EXAMPLE : bool;
  EXAMPLE_SUBDOCS_PER_SUBCOLLECTION : Z
}.

(** A document snapshot of the sampled collection: the entries of
    [d.data()] and, for [d.ref], the subcollections that
    [listCollections] lists, each with the data of its documents in the
    order a query returns them. A listed subcollection may hold no
    document. *)
Record DocSnap : Type := MkDocSnap {
  snap_data : list (string * Value);
  snap_subcollections : list (string * list (list (string * Value)))
}.

(** [ref.limit(n).get()] for [n >= 1]. *)
Definition Query_limit {A : Type} (n : Z) (docs : list A) : list A :=
  firstn (Z.to_nat n) docs.

(** The [limit] that [fetchDocs] and the subcollection queries of
    [buildProfile] apply: only a positive [SAMPLE_LIMIT] limits. *)
Definition sampleLimited {A : Type} (cfg : Config) (docs : list A) : list A :=
  match SAMPLE_LIMIT cfg with
  | Some n => if (0 <? n)%Z then Query_limit n docs else docs
  | None => docs
  end.

(** [fetchDocs], on a store that answers: [allDocs] are the documents
    that the collection under [collectionPath] holds. *)
Definition fetchDocs (cfg : Config) (allDocs : list DocSnap) : list DocSnap :=
  sampleLimited cfg allDocs.

(** ** Example document (inferSchema.js 175-211) *)

Section Runtime.
(** Three conversions of the runtime, used as they are:
    [value.toDate().toISOString()] of a Timestamp,
    [Buffer.from(value).toString("base64")] and [String(value)]. *)
Variable Timestamp_toISOString : Z -> Z -> string.
Variable Buffer_toBase64 : list Z -> string.
Variable String_ : Value -> string.

(** The tests of the source are exclusive on the constructors of
    [Value]; the last case is [String(value)]. *)
Fixpoint sanitizeForExample (value : Value) : Value :=
  match value with
  | VNull | VString _ | VNumber _ | VBoolean _ => value
  | VTimestamp seconds nanoseconds =>
      VString (Timestamp_toISOString seconds nanoseconds)
  | VGeoPoint latitude longitude =>
      VObject [("latitude", VNumber latitude); ("longitude", VNumber longitude)]
  | VReference path => VString path
  | VBytes bytes => VString (Buffer_toBase64 bytes)
  | VArray elements => VArray (map sanitizeForExample elements)
  | VObject entries =>
      VObject (map (fun kv => (fst kv, sanitizeForExample (snd kv))) entries)
  | VUndefined | VBigInt _ | VSymbol | VFunction | VExotic =>
      VString (String_ value)
  end.

(** [Object.keys(d.data() || {}).length]. *)
Definition keyCount (d : DocSnap) : nat := List.length (snap_data d).

(** The loop of [pickExampleDoc] from index 1 on. *)
Definition pickStep (acc : DocSnap * nat) (d : DocSnap) : DocSnap * nat :=
  let cnt := keyCount d in
  if snd acc <? cnt then (d, cnt) else acc.

Definition pickExampleDoc (docSnaps : list DocSnap) : option DocSnap :=
  match docSnaps with
  | [] => None
  | d0 :: rest => Some (fst (fold_left pickStep rest (d0, keyCount d0)))
  end.

(** [x | 0] on an integer: the signed 32-bit value. *)
Definition toInt32 (x : Z) : Z :=
  ((x + 2147483648) mod 4294967296 - 2147483648)%Z.

Record ExampleBlock : Type := MkExampleBlock {
  ex_document : Value;
  ex_subcollections : option (list (string * list Value))
}.

Definition buildExampleBlockForDoc (cfg : Config) (docSnap : DocSnap)
  : ExampleBlock :=
  let document := sanitizeForExample (VObject (snap_data docSnap)) in
  if negb (INCLUDE_SUBCOLLECTIONS cfg) then MkExampleBlock document None
  else
    match snap_subcollections docSnap with
    | [] => MkExampleBlock document None
    | subcols =>
        MkExampleBlock document
          (Some
             (Object_fromEntries
                (fold_left
                   (fun subcollections col =>
                      let snap :=
                        Query_limit
                          (Z.max 1
                             (toInt32 (EXAMPLE_SUBDOCS_PER_SUBCOLLECTION cfg)))
                          (snd col) in
                      match snap with
                      | [] => subcollections
                      | _ :: _ =>
                          Map_set (fst col)
                            (map (fun d => sanitizeForExample (VObject d)) snap)
                            subcollections
                      end)
                   subcols [])))
    end.

(** ** Profile of a collection (inferSchema.js 247-300) *)

(** [mainProfile.document]. *)
Record DocumentBlock : Type := MkDocumentBlock {
  doc_requiredFields : option (list string);
  doc_fields : list (string * Summary)
}.

Record Meta : Type := MkMeta {
  sample_limit : option Z;
  docs_sampled : nat;
  include_subcollections : bool
}.

(** The object that [buildProfile] returns; a key that is not set is
    [None]. *)
Record Output : Type := MkOutput {
  out_document : DocumentBlock;
  out_subcollections : option (list (string * Profile));
  out_example : option ExampleBlock;
  out_meta : Meta
}.

(** The ids that the loop over [d.ref.listCollections()] adds to
    [subIds]. *)
Definition collectSubIds (docs : list DocSnap) : list string :=
  fold_left
    (fun subIds d =>
       fold_left (fun subIds c => Set_add (fst c) subIds)
         (snap_subcollections d) subIds)
    docs [].

(** [d.ref.collection(subId)], limited as [fetchDocs] limits. *)
Definition subcollectionDocs (cfg : Config) (subId : string) (d : DocSnap)
  : list (list (string * Value)) :=
  sampleLimited cfg
    (match Map_get subId (snap_subcollections d) with
     | Some docs => docs
     | None => []
     end).

(** The aggregate of one subcollection id over the sampled documents. *)
Definition subAggOf (cfg : Config) (docs : list DocSnap) (subId : string)
  : option ObjectAgg :=
  fold_left
    (fun acc d => subAgg <- acc ;; foldDocs subAgg (subcollectionDocs cfg subId d))
    docs (Some makeObjectAgg).

Definition subprofilesOf (cfg : Config) (collectionPath : string)
  (docs : list DocSnap) (subIds : list string)
  : option (list (string * Profile)) :=
  fold_left
    (fun acc subId =>
       subprofiles <- acc ;;
       subAgg <- subAggOf cfg docs subId ;;
       if 0 <? totalSeen subAgg then
         profile <- profileFromAgg
                      (collectionPath ++ "/{doc}/" ++ subId) subAgg ;;
         Some (Map_set subId profile subprofiles)
       else Some subprofiles)
    subIds (Some []).

(** [buildProfile], on a store that has answered each of its queries
    ([db.collection], [listCollections], [get]) and with [admin] bound:
    the result is [None] when the computation on the answers throws. A
    query that fails ends the call as well, and the script as it is
    shipped stops at line 19, before the call, on the unbound [admin];
    neither is part of this function. *)
Definition buildProfile (cfg : Config) (collectionPath : string)
  (allDocs : list DocSnap) : option Output :=
  let docs := fetchDocs cfg allDocs in
  agg <- foldDocs makeObjectAgg (map snap_data docs) ;;
  mainProfile <- profileFromAgg collectionPath agg ;;
  subprofiles <-
    (if INCLUDE_SUBCOLLECTIONS cfg && negb (List.length docs =? 0) then
       match collectSubIds docs with
       | [] => Some None
       | subIds =>
           ps <- subprofilesOf cfg collectionPath docs subIds ;;
           Some (Some (Object_fromEntries ps))
       end
     else Some None) ;;
  let exampleBlock :=
    if INCLUDE_EXAMPLE cfg && negb (List.length docs =? 0) then
      match pickExampleDoc docs with
      | Some chosen => Some (buildExampleBlockForDoc cfg chosen)
      | None => None
      end
    else None in
  Some (MkOutput
          (MkDocumentBlock (requiredFields mainProfile) (fields mainProfile))
          subprofiles exampleBlock
          (MkMeta (SAMPLE_LIMIT cfg) (totalSeen agg) (INCLUDE_SUBCOLLECTIONS cfg))).

End Runtime.

(** ** Notions used by the properties *)

Unset Implicit Arguments.

(** One call of [addValueSample] on an aggregate that satisfies the
    invariant: it returns, keeps the invariant and counts one more
    presence. *)
Definition StepOK (b : bool) (v : Value) : Prop :=
  forall fa, Inv b fa ->
    exists fa', addValueSample fa v = Some fa' /\ Inv b fa'
                /\ presentCount fa' = S (presentCount fa).

(** The nested aggregates of a variant satisfy the invariant. *)
Definition variantNodes (b : bool) (v : Variant) : Prop :=
  (forall oa, object v = Some oa ->
              objectLocal b oa /\ Forall (fun kf => Inv b (snd kf)) (properties oa))
  /\ (forall aa, array v = Some aa ->
                 arrayLocal aa /\ forall it, items aa = Some it -> Inv b it).

(** A variant as [getOrCreateVariant] returns it, before its count is
    incremented. *)
Definition variantReady (b : bool) (x : Variant) : Prop :=
  (kind x = "object" -> exists oa, object x = Some oa)
  /\ (kind x = "array" -> exists aa, array x = Some aa)
  /\ (kind x = "number" -> exists na, number x = Some na)
  /\ (kind x <> "object" -> forall oa, object x = Some oa -> 1 <= totalSeen oa)
  /\ variantNodes b x.

Definition subvaluesOK (b : bool) (v : Value) : Prop :=
  match v with
  | VArray els => Forall (StepOK b) els
  | VObject es => Forall (fun kv => StepOK b (snd kv)) es
  | _ => True
  end.

Definition fieldAtOpt (o : option FieldAgg) (p : list Step) : option FieldAgg :=
  fa <- o ;; fieldAt fa p.

(** An observation [f] of a position follows the sampler at the path
    [p]: sampling a value applies [g] once per occurrence of the path in
    the value. *)
Definition ObservedAt (A : Type) (f : option FieldAgg -> A)
  (g : A -> Value -> A) (p : list Step) : Prop :=
  forall fa v fa',
    Inv false fa -> addValueSample fa v = Some fa' ->
    f (fieldAt fa' p) = fold_left g (occurrences p v) (f (fieldAt fa p)).

Definition countKind (k : string) (vs : list Value) : nat :=
  List.length (filter (fun v => detectKind v == k) vs).

Definition numbersOf (vs : list Value) : list JsNumber :=
  flat_map (fun v => match v with VNumber n => [n] | _ => [] end) vs.

Definition integerOnlyOf (vs : list Value) : option bool :=
  match numbersOf vs with
  | [] => None
  | _ :: _ => Some (forallb Number_isInteger (numbersOf vs))
  end.

Definition seeValue (n : nat) (v : Value) : nat := S n.
Definition seeKind (k : string) (n : nat) (v : Value) : nat :=
  if detectKind v == k then S n else n.
Definition seeNumber (o : option bool) (v : Value) : option bool :=
  match v with
  | VNumber n =>
      Some (match o with
            | Some b => b && Number_isInteger n
            | None => Number_isInteger n
            end)
  | _ => o
  end.

(** Two positions record the same [presentCount], the same count of the
    kind [k] and the same [integerOnly] flag. *)
Definition sameRecord (k : string) (x y : option FieldAgg) : Prop :=
  presentCountAt x = presentCountAt y
  /\ countAt k x = countAt k y
  /\ integerOnlyAt x = integerOnlyAt y.

Definition shardDocs1 : list (list (string * Value)) :=
  [[("n", VNumber (Finite 1)); ("o", VObject [("x", VNull)])]].

Definition shardDocs2 : list (list (string * Value)) :=
  [[("n", VNumber (Finite (1 # 2))); ("l", VArray [VString "s"])];
   [("o", VObject [("x", VBoolean true); ("y", VArray [])])]].

(** The height of an aggregate tree. *)
Fixpoint depth (fa : FieldAgg) : nat :=
  S (list_max
       (map (fun v =>
               Nat.max
                 (match object v with
                  | Some oa => list_max (map (fun kf => depth (snd kf)) (properties oa))
                  | None => 0
                  end)
                 (match array v with
                  | Some aa =>
                      match items aa with
                      | Some it => depth it
                      | None => 0
                      end
                  | None => 0
                  end))
          (variants fa))).

Definition leS (a b : string) : Prop := String.leb a b = true.

Definition itemsSeenAt (o : option FieldAgg) : bool :=
  match o with
  | Some fa =>
      match (aa <- arrayOf fa ;; items aa) with
      | Some _ => true
      | None => false
      end
  | None => false
  end.

Definition nonEmptyArray (v : Value) : bool :=
  match v with
  | VArray (_ :: _) => true
  | _ => false
  end.

Definition seeArray (b : bool) (v : Value) : bool := b || nonEmptyArray v.

Definition scalarKinds : list string := ["boolean"; "string"; "number"].

(** The two conditions of the heuristic, for the value kind [K], on an
    object aggregate that has at least one property. *)
Definition isDictionary (K : string) (oa : ObjectAgg) : Prop :=
  properties oa <> []
  /\ Forall (fun kf => presentCount (snd kf) <> totalSeen oa) (properties oa)
  /\ Forall (fun kf => exists v, variants (snd kf) = [v] /\ kind v = K)
       (properties oa).

(** The conditions as the specification words them, without the
    requirement of a property. *)
Definition looksLikeDictionary (K : string) (oa : ObjectAgg) : Prop :=
  Forall (fun kf => presentCount (snd kf) <> totalSeen oa) (properties oa)
  /\ Forall (fun kf => exists v, variants (snd kf) = [v] /\ kind v = K)
       (properties oa).

Definition kindOfProperty (kf : string * FieldAgg) : option string :=
  match variants (snd kf) with
  | [v] =>
      if existsb (fun s => s == kind v) scalarKinds then Some (kind v) else None
  | _ => None
  end.

Definition mapTypeName (K : string) : string := "map<string, " ++ K ++ ">".

(** A value of JSON: null, a scalar, or an array or object of such
    values. *)
Fixpoint isPlainValue (v : Value) : bool :=
  match v with
  | VNull | VBoolean _ | VNumber _ | VString _ => true
  | VArray elements => forallb isPlainValue elements
  | VObject entries => forallb (fun kv => isPlainValue (snd kv)) entries
  | _ => false
  end.

(** The kind of the sanitized value, by the kind of the value. *)
Definition sanitizedKind (k : string) : string :=
  if k == "timestamp" then "string"
  else if k == "reference" then "string"
  else if k == "bytes" then "string"
  else if k == "unknown" then "string"
  else if k == "geopoint" then "object"
  else k.

(** The value of an optional key of an object; nothing when the key is
    not set. *)
Definition orEmpty {A : Type} (o : option (list A)) : list A :=
  match o with
  | Some l => l
  | None => []
  end.

(** The [subprofiles] that [buildProfile] computes. *)
Definition subprofilesPart (cfg : Config) (path : string) (docs : list DocSnap)
  : option (option (list (string * Profile))) :=
  if INCLUDE_SUBCOLLECTIONS cfg && negb (List.length docs =? 0) then
    match collectSubIds docs with
    | [] => Some None
    | subIds =>
        ps <- subprofilesOf cfg path docs subIds ;;
        Some (Some (Object_fromEntries ps))
    end
  else Some None.

(** The type that [summarizeField] gives to a field whose non-null
    values all have the kind [K], a kind other than "object" and "array";
    [integers] tells whether all the numbers were integers. *)
Definition scalarTypeName (K : string) (integers : bool) : string :=
  if K == "number" then (if integers then "integer" else "number")
  else if K == "reference" then "documentReference"
  else if K == "bytes" then "bytes(base64)"
  else if K == "geopoint" then "geopoint{latitude:number, longitude:number}"
  else if K == "string" then "string"
  else if K == "boolean" then "boolean"
  else if K == "timestamp" then "timestamp"
  else "unknown".

Definition objectsSeenAt (o : option FieldAgg) : nat :=
  match (fa <- o ;; objectOf fa) with
  | Some oa => totalSeen oa
  | None => 0
  end.

Definition arraysSeenAt (o : option FieldAgg) : nat :=
  match (fa <- o ;; arrayOf fa) with
  | Some aa => arrTotalSeen aa
  | None => 0
  end.

Definition emptySeenAt (o : option FieldAgg) : nat :=
  match (fa <- o ;; arrayOf fa) with
  | Some aa => emptyCount aa
  | None => 0
  end.

Definition isEmptyArray (v : Value) : bool :=
  match v with
  | VArray [] => true
  | _ => false
  end.

Definition seeEmpty (n : nat) (v : Value) : nat :=
  if isEmptyArray v then S n else n.

(** [value.length] of an array; other values have no element. *)
Definition elementsOf (v : Value) : list Value :=
  match v with
  | VArray elements => elements
  | _ => []
  end.

(** ** Sample inputs *)

Definition sampleCalls : list Call :=
  [CallAddObjectSample [("a", VNumber (Finite 1)); ("b", VObject [("c", VNull)])];
   CallAddValueSample (VArray [VString "x"; VObject [("c", VBoolean true)]]);
   CallAddObjectSample [("b", VObject [("d", VArray [])])]].

Definition shuffledDocs : list (list (string * Value)) :=
  [[("o", VObject [("x", VBoolean true); ("y", VArray [])])];
   [("n", VNumber (Finite 1)); ("o", VObject [("x", VNull)])];
   [("n", VNumber (Finite (1 # 2))); ("l", VArray [VString "s"])]].

Definition unionDocs : list (list (string * Value)) :=
  [[("a", VNumber (Finite 1))]; [("a", VString "x")]].

Definition arrayDocs : list (list (string * Value)) :=
  [[("tags", VArray [])]; [("tags", VArray [VString "x"; VNull])]; [("tags", VNull)]].

Definition dictionaryDocs : list (list (string * Value)) :=
  [[("m", VObject [("a", VBoolean true)])];
   [("m", VObject [("a", VBoolean false)])];
   [("m", VObject [("a", VBoolean true); ("b", VBoolean true)])];
   [("m", VObject [("b", VBoolean false)])];
   [("m", VObject [("b", VBoolean true)])]].

Definition recordDocs : list (list (string * Value)) :=
  [[("m", VObject [("a", VBoolean true); ("b", VBoolean true)])];
   [("m", VObject [("a", VBoolean false); ("b", VBoolean true)])];
   [("m", VObject [("a", VBoolean true); ("b", VBoolean false)])]].

Definition emptyObjectDocs : list (list (string * Value)) :=
  [[("a", VObject [])]].

(** The documents of [dictionaryDocs], without the field around them. *)
Definition rootDictionaryDocs : list (list (string * Value)) :=
  [[("a", VBoolean true)];
   [("a", VBoolean false)];
   [("a", VBoolean true); ("b", VBoolean true)];
   [("b", VBoolean false)];
   [("b", VBoolean true)]].

(** A collection of three documents, the first with a subcollection. *)
Definition lessonSnaps : list DocSnap :=
  [MkDocSnap [("title", VString "a")]
     [("notes", [[("n", VNumber (Finite 1))]])];
   MkDocSnap [("title", VString "b"); ("week", VNumber (Finite 2))] [];
   MkDocSnap [("title", VNull)] []].

Definition zeroLimitConfig : Config :=
  MkConfig "weekly_lessons" true (Some 0%Z) true 1.

Definition indexedDocs : list (list (string * Value)) :=
  [[("m", VObject [("10", VNull); ("b", VNull)])];
   [("m", VObject [("2", VNull); ("a", VNull); ("02", VNull)])]].

Definition nestedDocs : list (list (string * Value)) :=
  [[("a", VNumber (Finite 1)); ("o", VObject [("x", VString "s"); ("y", VNull)])];
   [("o", VObject [("x", VString "t")]);
    ("l", VArray [VObject [("z", VBoolean true); ("w", VString "s")];
                  VObject [("z", VBoolean false)]])]].

Definition nullDocs : list (list (string * Value)) :=
  [[("a", VObject [("b", VNull)])]; [("a", VObject [("b", VString "x")])];
   [("a", VNumber (Finite 1))]].

Definition numberDocs : list (list (string * Value)) :=
  [[("n", VNumber (Finite 3))]; [("n", VNull)]; [("n", VNumber (Finite (5 # 2)))];
   [("m", VNumber (Finite (4 # 2)))]].

Definition rosterDocs : list (list (string * Value)) :=
  [[("name", VString "a"); ("age", VNumber (Finite 3))];
   [("name", VString "b")];
   [("age", VNull); ("name", VNull); ("tag", VBoolean true)]].

Definition listDocs : list (list (string * Value)) :=
  [[("l", VArray [])]; [("l", VArray [VNull; VString "x"])]; [("l", VNull)];
   [("l", VArray [VBoolean true])]].

Set Implicit Arguments.

End Infer.

(** * scripts/lintCollectionSchema.js *)

Module Lint.

(** ** Configuration (lintCollectionSchema.js 17-43) *)

(** What the [regex] property of a rule holds: a regular expression
    (without the flags g and y, which make [test] depend on earlier
    calls), kept as its [test] method; nothing, the property being
    undefined; [null]; or another value without a method [test] (a
    string, a number, an object literal). *)
Inductive RegexProperty : Type :=
| RegExp (test : string -> bool)
| RegexUndefined
| RegexNull
| RegexOther.

(** A rule [{ regex, note }]. *)
Record Rule : Type := MkRule {
  regex : RegexProperty;
  note : option string
}.

(** The message of the TypeError that [rule.regex.test(value)] throws
    when [rule.regex] is no regular expression, as Node.js words it. *)
Definition testErrorMessage (r : RegexProperty) : string :=
  match r with
  | RegexNull => "Cannot read properties of null (reading 'test')"
  | RegexOther => "rule.regex.test is not a function"
  | _ => "Cannot read properties of undefined (reading 'test')"
  end.

(** The options of [CONFIG]. The two thresholds are the decimal numerals
    written in the script; the numbers that the program computes with are
    the binary64 numbers nearest to them, [toDouble] of the numerals
    (see Numbers below). *)
Record Config : Type := MkConfig {
  COLLECTION_PATH : string;
  SAMPLE_LIMIT : option nat;
  BATCH_SIZE : nat;
  REQUIRED_THRESHOLD : Q;
  RARE_FIELD_MAX_PCT : Q;
  EXAMPLES_PER_ISSUE : nat;
  CHECK_FIELD_NAME_VARIANTS : bool;
  STRING_REGEX_RULES : list (string * Rule)
}.

(** A document snapshot: [doc.id] and the entries of [doc.data()]. *)
Record Doc : Type := MkDoc {
  id : string;
  data : list (string * Value)
}.

(** What a statement evaluates to: a value, or a thrown error with its
    message. *)
Inductive Result (A : Type) : Type :=
| Ok (a : A)
| Throw (message : string).
Arguments Ok {A} a.
Arguments Throw {A} message.

(** ** Helpers (lintCollectionSchema.js 45-94) *)

(** [flattenDoc]; [out] is the accumulator object, [out[path] = v] the
    assignment [Map_set]. Only values built by [VObject] are entered: the
    test of the source lets no other one through. *)
Fixpoint flattenDoc (data : Value) (base : string) (out : list (string * Value))
  {struct data} : list (string * Value) :=
  if negb (isPlainObject data) then out
  else
    match data with
    | VObject entries =>
        fold_left
          (fun out kv =>
             let path :=
               if base == "" then fst kv
               else String.append base (String.append "." (fst kv)) in
             let v := snd kv in
             if isPlainObject v
                && negb (instanceof_Timestamp v)
                && negb (instanceof_GeoPoint v)
                && negb (instanceof_DocumentReference v)
             then flattenDoc v path out
             else Map_set path v out)
          entries out
    | _ => out
    end.

(** The entries of [flattenDoc(doc.data() || {})], as [Object.entries]
    and [Object.keys] enumerate them. *)
Definition flat (doc : Doc) : list (string * Value) :=
  Object_fromEntries (flattenDoc (VObject (data doc)) "" []).

Definition pushExample {A : Type} (arr : list A) (value : A) (limit : nat)
  : list A :=
  if limit <=? List.length arr then arr else arr ++ [value].

(** ** Scan (lintCollectionSchema.js 132-159) *)

(** [typeof CONFIG.SAMPLE_LIMIT === "number" && docsSeen >= CONFIG.SAMPLE_LIMIT]. *)
Definition limitReached (cfg : Config) (docsSeen : nat) : bool :=
  match SAMPLE_LIMIT cfg with
  | Some limit => limit <=? docsSeen
  | None => false
  end.

Section Scan.
Variable State : Type.
(** The callback, on the state that it mutates. *)
Variable onDoc : State -> Doc -> Result State.

(** The [for] loop over the documents of one page. *)
Fixpoint scanPage (cfg : Config) (page : list Doc) (docsSeen : nat) (s : State)
  : nat * Result State :=
  match page with
  | [] => (docsSeen, Ok s)
  | doc :: page' =>
      let docsSeen := S docsSeen in
      match onDoc s doc with
      | Ok s' =>
          if limitReached cfg docsSeen then (docsSeen, Ok s')
          else scanPage cfg page' docsSeen s'
      | Throw message => (docsSeen, Throw message)
      end
  end.

(** The [while (true)] loop. The collection is the list of its documents
    in the order of their ids; the query [q] is kept as the documents that
    follow its cursor, of which [q.get()] returns the first [BATCH_SIZE]
    (none under [BATCH_SIZE = 0]). Every turn that goes on has consumed
    a document, so [fuel] is the number of turns at most. *)
Fixpoint scanPages (fuel : nat) (cfg : Config) (rest : list Doc)
  (docsSeen : nat) (s : State) : nat * Result State :=
  match fuel with
  | 0 => (docsSeen, Ok s)
  | S fuel' =>
      if limitReached cfg docsSeen then (docsSeen, Ok s)
      else
        let snap := firstn (BATCH_SIZE cfg) rest in
        match snap with
        | [] => (docsSeen, Ok s)
        | _ :: _ =>
            match scanPage cfg snap docsSeen s with
            | (docsSeen', Ok s') =>
                if List.length snap <? BATCH_SIZE cfg then (docsSeen', Ok s')
                else
                  scanPages fuel' cfg (skipn (List.length snap) rest) docsSeen' s'
            | (docsSeen', Throw message) => (docsSeen', Throw message)
            end
        end
  end.

(** [scanCollectionDocs]: the number of documents seen, and the final
    state or the error that the callback threw. *)
Definition scanCollectionDocs (cfg : Config) (docs : list Doc) (s0 : State)
  : nat * Result State :=
  scanPages (S (List.length docs)) cfg docs 0 s0.
End Scan.

(** The documents that a scan hands to its callback, in order, as long
    as no call throws (lemma [scanCollectionDocs_visit]): the whole
    collection, or its first [SAMPLE_LIMIT] documents; none when
    [BATCH_SIZE] is 0, the first page being empty. *)
Definition scanned (cfg : Config) (docs : list Doc) : list Doc :=
  match BATCH_SIZE cfg with
  | 0 => []
  | _ =>
      match SAMPLE_LIMIT cfg with
      | Some limit => firstn limit docs
      | None => docs
      end
  end.

(** ** Pass 1 (lintCollectionSchema.js 161-235) *)

(** The statistics of one field path ([valueExamples], which the report
    never reads, is left out). *)
Record FieldStat : Type := MkFieldStat {
  presentCount : nat;
  kinds : list (string * nat);
  kindExamples : list (string * list string);
  regexViolations : list (string * string)
}.

Definition makeFieldStat : FieldStat := MkFieldStat 0 [] [] [].

(** The property names that every object literal inherits from
    [Object.prototype] and that a Firestore field may bear (names of the
    form [__x__] are reserved by the store). *)
Definition Object_prototype_names : list string :=
  ["constructor"; "hasOwnProperty"; "isPrototypeOf"; "propertyIsEnumerable";
   "toLocaleString"; "toString"; "valueOf"].

(** [CONFIG.STRING_REGEX_RULES[fieldPath]]: an own property is the
    configured rule; an inherited one is a function, which is truthy and
    has no [regex]. *)
Definition lookupRule (cfg : Config) (fieldPath : string) : option Rule :=
  match Map_get fieldPath (STRING_REGEX_RULES cfg) with
  | Some rule => Some rule
  | None =>
      if Set_has fieldPath Object_prototype_names
      then Some (MkRule RegexUndefined None)
      else None
  end.

(** The body of the loop over [Object.entries(flat)]. *)
Definition recordField (cfg : Config) (docId : string)
  (fieldStats : list (string * FieldStat)) (fieldPath : string) (value : Value)
  : Result (list (string * FieldStat)) :=
  let stat :=
    match Map_get fieldPath fieldStats with
    | Some stat => stat
    | None => makeFieldStat
    end in
  let kind := detectKind value in
  let kinds' :=
    Map_set kind
      (match Map_get kind (kinds stat) with Some n => n | None => 0 end + 1)
      (kinds stat) in
  let kindExamples' :=
    Map_set kind
      (pushExample
         (match Map_get kind (kindExamples stat) with Some a => a | None => [] end)
         docId (EXAMPLES_PER_ISSUE cfg))
      (kindExamples stat) in
  let stat' := MkFieldStat (S (presentCount stat)) kinds' kindExamples' in
  match lookupRule cfg fieldPath, value with
  | Some rule, VString s =>
      match regex rule with
      | RegExp test =>
          Ok (Map_set fieldPath
                (stat' (if test s then regexViolations stat
                        else pushExample (regexViolations stat) (docId, s)
                               (EXAMPLES_PER_ISSUE cfg)))
                fieldStats)
      | notRegExp => Throw (testErrorMessage notRegExp)
      end
  | _, _ => Ok (Map_set fieldPath (stat' (regexViolations stat)) fieldStats)
  end.

(** The [onDoc] callback of pass 1. *)
Definition recordDoc (cfg : Config) (fieldStats : list (string * FieldStat))
  (doc : Doc) : Result (list (string * FieldStat)) :=
  fold_left
    (fun acc kv =>
       match acc with
       | Ok fs => recordField cfg (id doc) fs (fst kv) (snd kv)
       | Throw m => Throw m
       end)
    (flat doc) (Ok fieldStats).

Record Pass1 : Type := MkPass1 {
  fieldStats : list (string * FieldStat);
  totalDocs : nat;
  docsScanned : nat
}.

(** The callback of pass 1 applied to a list of documents in order: the
    number of documents read so far, and the statistics or the error that
    ended the scan. *)
Definition scanStats (cfg : Config) (ds : list Doc)
  : nat * Result (list (string * FieldStat)) :=
  fold_left
    (fun st doc =>
       match snd st with
       | Ok fs => (S (fst st), recordDoc cfg fs doc)
       | Throw m => st
       end)
    ds (0, Ok []).

(** [pass1_buildStats]: the number of documents read, and the result or
    the error that the scan threw; [totalDocs] and [docsSeen] are
    incremented together. *)
Definition pass1_buildStats (cfg : Config) (docs : list Doc)
  : nat * Result Pass1 :=
  let st := scanCollectionDocs (recordDoc cfg) cfg docs [] in
  match snd st with
  | Ok fs => (fst st, Ok (MkPass1 fs (fst st) (fst st)))
  | Throw m => (fst st, Throw m)
  end.

(** ** Pass 2 (lintCollectionSchema.js 237-260) *)

Definition missingStep (cfg : Config) (expectedList : list string)
  (missingExamples : list (string * list string)) (doc : Doc)
  : list (string * list string) :=
  let present := flat doc in
  fold_left
    (fun me f =>
       if Map_has f present then me
       else
         let arr := match Map_get f me with Some arr => arr | None => [] end in
         Map_set f (pushExample arr (id doc) (EXAMPLES_PER_ISSUE cfg)) me)
    expectedList missingExamples.

(** [pass2_missingExamples]; its callback does not throw. *)
Definition pass2_missingExamples (cfg : Config) (docs : list Doc)
  (expectedFields : list string) : list (string * list string) :=
  match
    snd (scanCollectionDocs
           (fun missingExamples doc =>
              Ok (missingStep cfg expectedFields missingExamples doc))
           cfg docs [])
  with
  | Ok missingExamples => missingExamples
  | Throw _ => []
  end.

(** ** Report (lintCollectionSchema.js 262-411) *)

(** *** Numbers

    The numbers of the program are IEEE 754 binary64 numbers. Each is a
    rational, and the model keeps it as that rational; an operation gives
    the binary64 number nearest to the exact result, the one with an even
    significand when two are as near. The numbers met here are far from
    the overflow threshold. *)

(** The integer nearest to [y], the even one of two that are as near. *)
Definition roundHalfEven (y : Q) : Z :=
  let f := Qfloor y in
  match Qcompare (y - inject_Z f) (1 # 2) with
  | Lt => f
  | Gt => (f + 1)%Z
  | Eq => if Z.even f then f else (f + 1)%Z
  end.

(** For [x > 0], the exponent [b] with [2^b <= x < 2^(b+1)]. *)
Definition binade (x : Q) : Z :=
  let k := (Z.log2 (Qnum x) - Z.log2 (Zpos (Qden x)))%Z in
  if Qle_bool (2 ^ k) x then k else (k - 1)%Z.

(** The exponent of the unit in the last place of the binary64 numbers
    next to [x > 0]: 52 places below the leading bit, and -1074 for the
    subnormal numbers. *)
Definition ulpExponent (x : Q) : Z :=
  Z.max (-1074) (binade x - 52).

(** The binary64 number nearest to [x > 0]. *)
Definition nearestDouble (x : Q) : Q :=
  let e := ulpExponent x in
  (inject_Z (roundHalfEven (x * 2 ^ (- e))) * 2 ^ e)%Q.

(** The binary64 number nearest to [x]: the number that a numeral denotes
    and that an arithmetic operation returns for the exact result [x]. *)
Definition toDouble (x : Q) : Q :=
  match Qcompare x 0 with
  | Eq => 0%Q
  | Gt => nearestDouble x
  | Lt => (- nearestDouble (- x))%Q
  end.

(** [a / b] on counters, [b > 0]. *)
Definition ratio (a b : nat) : Q :=
  toDouble (inject_Z (Z.of_nat a) / inject_Z (Z.of_nat b))%Q.

(** The numeral that [x.toFixed(4)] prints for [x >= 0]: the multiple of
    0.0001 nearest to [x], the larger one on a tie. *)
Definition roundTo4 (x : Q) : Q :=
  Qmake (Qfloor (x * 10000 + (1 # 2))%Q) 10000.

(** [Number(x.toFixed(4))] for [x >= 0]: the number that the printed
    numeral denotes. *)
Definition toFixed4 (x : Q) : Q :=
  toDouble (roundTo4 x).

(** [stat.presentCount / totalDocs], guarded as in the source. *)
Definition presenceFraction (totalDocs presentCount : nat) : Q :=
  match totalDocs with
  | 0 => 0%Q
  | _ => ratio presentCount totalDocs
  end.

(** [Array.prototype.sort(compare)], which is stable; [le x y] stands for
    [compare(x, y) <= 0]. *)
Fixpoint insertBy {A : Type} (le : A -> A -> bool) (x : A) (l : list A)
  : list A :=
  match l with
  | [] => [x]
  | y :: l' => if le x y then x :: l else y :: insertBy le x l'
  end.

Definition sortBy {A : Type} (le : A -> A -> bool) (l : list A) : list A :=
  fold_right (insertBy le) [] l.

Record FieldRow : Type := MkFieldRow {
  field : string;
  present_count : nat;
  present_pct : Q;
  row_kinds : list (string * nat);
  type_mismatch : bool
}.

Record MissingIssue : Type := MkMissingIssue {
  issue_field : string;
  missing_count : nat;
  missing_pct : Q;
  example_doc_ids : option (list string)
}.

(** The report, as far as the missing-field pipeline fills it. The two
    thresholds of [meta] are kept as the numerals of the configuration:
    [JSON.stringify] prints a number by the shortest numeral that denotes
    it, which is the numeral of the configuration when that one has up to
    15 significant digits. *)
Record Report : Type := MkReport {
  collection : string;
  meta_sample_limit : option nat;
  meta_docs_scanned : nat;
  meta_docs_total_seen : nat;
  meta_required_threshold : Q;
  meta_rare_field_max_pct : Q;
  meta_examples_per_issue : nat;
  summary_fields_total : nat;
  summary_expected_fields_count : nat;
  summary_missing_fields_issues : nat;
  issues_missing_fields : option (list MissingIssue)
}.

Definition fieldRow (totalDocs : nat) (entry : string * FieldStat) : FieldRow :=
  let stat := snd entry in
  let pct := presenceFraction totalDocs (presentCount stat) in
  let nonNullKinds := filter (fun k => negb (k == "null")) (map fst (kinds stat)) in
  MkFieldRow (fst entry) (presentCount stat) (toFixed4 pct) (kinds stat)
    (1 <? List.length nonNullKinds).

Definition expectedRows (cfg : Config) (rows : list FieldRow) : list FieldRow :=
  sortBy (fun a b => Qle_bool (present_pct b) (present_pct a))
    (filter (fun f => Qle_bool (toDouble (REQUIRED_THRESHOLD cfg)) (present_pct f))
       rows).

(** The callback of [expectedFields.map]; [None] is its [null]. *)
Definition missingIssue (totalDocs : nat)
  (missingExamples : list (string * list string)) (f : FieldRow)
  : option MissingIssue :=
  let missingCount := totalDocs - present_count f in
  if missingCount <=? 0 then None
  else
    let examples :=
      match Map_get (field f) missingExamples with
      | Some arr => arr
      | None => []
      end in
    Some (MkMissingIssue (field f) missingCount
            (toFixed4 (ratio missingCount totalDocs))
            (match examples with [] => None | _ :: _ => Some examples end)).

Fixpoint filterSome {A : Type} (l : list (option A)) : list A :=
  match l with
  | [] => []
  | Some a :: l' => a :: filterSome l'
  | None :: l' => filterSome l'
  end.

Definition missingIssues (cfg : Config) (totalDocs : nat)
  (rows : list FieldRow) (missingExamples : list (string * list string))
  : list MissingIssue :=
  sortBy (fun a b => missing_count b <=? missing_count a)
    (filterSome (map (missingIssue totalDocs missingExamples) (expectedRows cfg rows))).

Definition buildReport (cfg : Config) (pass1 : Pass1)
  (missingExamples : list (string * list string)) : Report :=
  let rows := map (fieldRow (totalDocs pass1)) (fieldStats pass1) in
  let issues := missingIssues cfg (totalDocs pass1) rows missingExamples in
  MkReport (COLLECTION_PATH cfg) (SAMPLE_LIMIT cfg) (docsScanned pass1)
    (totalDocs pass1) (REQUIRED_THRESHOLD cfg) (RARE_FIELD_MAX_PCT cfg)
    (EXAMPLES_PER_ISSUE cfg) (List.length rows) (List.length (expectedRows cfg rows))
    (List.length issues)
    (match issues with [] => None | _ :: _ => Some issues end).

(** ** Run (lintCollectionSchema.js 413-449) *)

(** The expected fields that the main function computes from pass 1. *)
Definition expectedFields (cfg : Config) (pass1 : Pass1) : list string :=
  fold_left
    (fun set entry =>
       let pct := presenceFraction (totalDocs pass1) (presentCount (snd entry)) in
       if Qle_bool (toDouble (REQUIRED_THRESHOLD cfg)) pct
       then Set_add (fst entry) set
       else set)
    (fieldStats pass1) [].

(** How the process ends: exit code 0 after printing the report, or exit
    code 1 after printing the message of the error; [docsRead] counts the
    documents that had been read when the error was thrown. *)
Inductive Outcome : Type :=
| Exit0 (report : Report)
| Exit1 (message : string) (docsRead : nat).

(** The main function. [docs] are the documents that the store holds under
    [COLLECTION_PATH], in the order of the scan; the calls of the store
    ([db.collection], the queries of the scan loop) are taken to answer
    with these documents. A call of the store that fails instead (a path
    that is no collection path, a rejected query) is not modelled: it
    would end the run with exit code 1 as well, before the first page or
    between two pages. *)
Definition run (cfg : Config) (docs : list Doc) : Outcome :=
  match pass1_buildStats cfg docs with
  | (_, Ok pass1) =>
      let expected := expectedFields cfg pass1 in
      let missingExamples :=
        match expected with
        | [] => []
        | _ :: _ => pass2_missingExamples cfg docs expected
        end in
      Exit0 (buildReport cfg pass1 missingExamples)
  | (read, Throw message) => Exit1 message read
  end.

(** ** Field-name variants (lintCollectionSchema.js 86-89, 219-227, 337-360) *)

(** [s.replace(/c/g, "")] for a character [c]. *)
Fixpoint removeChar (c : ascii) (s : string) : string :=
  match s with
  | EmptyString => EmptyString
  | String a s' =>
      if Ascii.eqb a c then removeChar c s' else String a (removeChar c s')
  end.

Section Variants.
(** [String.prototype.toLowerCase], used as it is. *)
Variable String_toLowerCase : string -> string.

Definition normalizeFieldName (path : string) : string :=
  String_toLowerCase (removeChar "_" (removeChar "." path)).

(** What the loop body of pass 1 does to [variantGroups] for one field
    path. *)
Definition recordVariant (variantGroups : list (string * list string))
  (fieldPath : string) : list (string * list string) :=
  let norm := normalizeFieldName fieldPath in
  let set :=
    match Map_get norm variantGroups with
    | Some set => set
    | None => []
    end in
  Map_set norm (Set_add fieldPath set) variantGroups.

(** The [variantGroups] map at the end of a pass 1 that returns: the
    loop body adds every field path of every scanned document, when
    [CHECK_FIELD_NAME_VARIANTS] is on. *)
Definition variantGroupsOf (cfg : Config) (ds : list Doc)
  : list (string * list string) :=
  if CHECK_FIELD_NAME_VARIANTS cfg then
    fold_left
      (fun groups doc =>
         fold_left (fun groups kv => recordVariant groups (fst kv))
           (flat doc) groups)
      ds []
  else [].
End Variants.

(** ** The other issues of the report (lintCollectionSchema.js 304-411) *)

(** [x.length ? x : undefined]. *)
Definition nonEmpty {A : Type} (l : list A) : option (list A) :=
  match l with
  | [] => None
  | _ :: _ => Some l
  end.

(** [Array.prototype.map] with a callback that may throw. *)
Fixpoint mapResult {A B : Type} (f : A -> option B) (l : list A)
  : option (list B) :=
  match l with
  | [] => Some []
  | x :: l' =>
      match f x with
      | Some y =>
          match mapResult f l' with
          | Some ys => Some (y :: ys)
          | None => None
          end
      | None => None
      end
  end.

Record TypeMismatchIssue : Type := MkTypeMismatchIssue {
  tm_field : string;
  tm_kinds : list (string * nat);
  tm_example_doc_ids_by_kind : list (string * list string)
}.

(** [fieldStats.get(f.field)] is [None] when it is undefined; reading a
    property of it then throws. *)
Definition typeMismatchIssues (fieldStats : list (string * FieldStat))
  (rows : list FieldRow) : option (list TypeMismatchIssue) :=
  match
    mapResult
      (fun f =>
         match Map_get (field f) fieldStats with
         | Some stat =>
             Some (MkTypeMismatchIssue (field f) (row_kinds f)
                     (filter (fun ka => negb (List.length (snd ka) =? 0))
                        (kindExamples stat)))
         | None => None
         end)
      (filter type_mismatch rows)
  with
  | Some issues =>
      Some (sortBy
              (fun a b => List.length (tm_kinds b) <=? List.length (tm_kinds a))
              issues)
  | None => None
  end.

Record RareIssue : Type := MkRareIssue {
  rare_field : string;
  rare_present_count : nat;
  rare_present_pct : Q;
  rare_example_doc_ids : option (list string)
}.

Definition rareIssues (cfg : Config) (fieldStats : list (string * FieldStat))
  (rows : list FieldRow) : option (list RareIssue) :=
  match
    mapResult
      (fun f =>
         match Map_get (field f) fieldStats with
         | Some stat =>
             (* [Object.keys(stat.kindExamples)[0]] and its examples *)
             let ex :=
               match kindExamples stat with
               | (anyKind, arr) :: _ => arr
               | [] => []
               end in
             Some (MkRareIssue (field f) (present_count f) (present_pct f)
                     (match ex with [] => None | _ :: _ => Some ex end))
         | None => None
         end)
      (filter (fun f => Qle_bool (present_pct f) (toDouble (RARE_FIELD_MAX_PCT cfg)))
         rows)
  with
  | Some issues =>
      Some (sortBy
              (fun a b => Qle_bool (rare_present_pct a) (rare_present_pct b))
              issues)
  | None => None
  end.

Record VariantEntry : Type := MkVariantEntry {
  ve_field : string;
  ve_present_count : nat
}.

Record VariantGroup : Type := MkVariantGroup {
  normalized : string;
  canonical : option string;
  group_variants : list VariantEntry
}.

(** [fieldStats.get(v)?.presentCount || 0]. *)
Definition presentCountOr0 (fieldStats : list (string * FieldStat)) (v : string)
  : nat :=
  match Map_get v fieldStats with
  | Some stat => presentCount stat
  | None => 0
  end.

(** The loop over [variantGroups.entries()]; [canonical] is
    [variants[0]]. *)
Definition variantGroup (fieldStats : list (string * FieldStat))
  (entry : string * list string) : option VariantGroup :=
  let variants := snd entry in
  if List.length variants <=? 1 then None
  else
    let sorted :=
      sortBy
        (fun a b => presentCountOr0 fieldStats b <=? presentCountOr0 fieldStats a)
        variants in
    Some (MkVariantGroup (fst entry) (hd_error sorted)
            (map (fun v => MkVariantEntry v (presentCountOr0 fieldStats v)) sorted)).

Definition fieldNameVariantIssues (cfg : Config)
  (fieldStats : list (string * FieldStat))
  (variantGroups : list (string * list string)) : option (list VariantGroup) :=
  if CHECK_FIELD_NAME_VARIANTS cfg then
    nonEmpty (filterSome (map (variantGroup fieldStats) variantGroups))
  else None.

(** A regex issue; the text of the regular expression, which the model
    of a rule does not hold, is left out. *)
Record RegexIssue : Type := MkRegexIssue {
  rx_field : string;
  rx_note : option string;
  rx_examples : list (string * string)
}.

Definition regexIssues (cfg : Config) (fieldStats : list (string * FieldStat))
  : list RegexIssue :=
  filterSome
    (map
       (fun entry =>
          match Map_get (fst entry) fieldStats with
          | None => None
          | Some stat =>
              match regexViolations stat with
              | [] => None
              | _ :: _ =>
                  Some (MkRegexIssue (fst entry) (note (snd entry))
                          (regexViolations stat))
              end
          end)
       (STRING_REGEX_RULES cfg)).

(** [new Set(ids).size]. *)
Definition Set_size (ids : list string) : nat :=
  List.length (fold_left (fun set x => Set_add x set) ids []).

Definition docsWithIssuesEstimate (missing : list MissingIssue)
  (mismatches : list TypeMismatchIssue) (regexes : list RegexIssue) : nat :=
  Set_size
    (flat_map
       (fun x => match example_doc_ids x with Some ids => ids | None => [] end)
       missing
     ++ flat_map
          (fun x => flat_map (fun ka => snd ka) (tm_example_doc_ids_by_kind x))
          mismatches
     ++ flat_map (fun x => map fst (rx_examples x)) regexes).

(** The keys of the report that [Report] leaves out. *)
Record ReportRest : Type := MkReportRest {
  summary_type_mismatch_issues : nat;
  summary_regex_issues : nat;
  summary_rare_fields_issues : nat;
  summary_docs_with_issues_examples_count : nat;
  issues_type_mismatches : option (list TypeMismatchIssue);
  issues_regex_violations : option (list RegexIssue);
  issues_rare_fields : option (list RareIssue);
  issues_field_name_variants : option (list VariantGroup)
}.

Definition buildReportRest (cfg : Config) (pass1 : Pass1)
  (variantGroups : list (string * list string))
  (missingExamples : list (string * list string)) : option ReportRest :=
  let rows := map (fieldRow (totalDocs pass1)) (fieldStats pass1) in
  let missing := missingIssues cfg (totalDocs pass1) rows missingExamples in
  match typeMismatchIssues (fieldStats pass1) rows with
  | Some mismatches =>
      match rareIssues cfg (fieldStats pass1) rows with
      | Some rares =>
          let regexes := regexIssues cfg (fieldStats pass1) in
          Some (MkReportRest
                  (List.length mismatches) (List.length regexes)
                  (List.length rares)
                  (docsWithIssuesEstimate missing mismatches regexes)
                  (nonEmpty mismatches) (nonEmpty regexes) (nonEmpty rares)
                  (fieldNameVariantIssues cfg (fieldStats pass1) variantGroups))
      | None => None
      end
  | None => None
  end.

(** The rest of the report that a run prints; [None] when the run
    prints no report, because pass 1 failed or [buildReport] threw a
    TypeError. *)
Definition runRest (String_toLowerCase : string -> string) (cfg : Config)
  (docs : list Doc) : option ReportRest :=
  match pass1_buildStats cfg docs with
  | (_, Ok pass1) =>
      let expected := expectedFields cfg pass1 in
      let missingExamples :=
        match expected with
        | [] => []
        | _ :: _ => pass2_missingExamples cfg docs expected
        end in
      buildReportRest cfg pass1
        (variantGroupsOf String_toLowerCase cfg (scanned cfg docs))
        missingExamples
  | (_, Throw _) => None
  end.

(** ** Notions of the specification *)

(** The missing-field issue that a report holds for a field. *)
Definition issueFor (r : Report) (f : string) : option MissingIssue :=
  match issues_missing_fields r with
  | Some issues => find (fun i => issue_field i == f) issues
  | None => None
  end.

(** The example ids of an issue; an absent list is the empty list. *)
Definition examplesOf (i : MissingIssue) : list string :=
  match example_doc_ids i with
  | Some ids => ids
  | None => []
  end.

(** The ids of the scanned documents that lack a field, in scan order. *)
Definition lackingIds (cfg : Config) (docs : list Doc) (f : string)
  : list string :=
  map id (filter (fun d => negb (Map_has f (flat d))) (scanned cfg docs)).

(** The number of scanned documents that hold a field. *)
Definition holders (cfg : Config) (docs : list Doc) (f : string) : nat :=
  List.length (filter (fun d => Map_has f (flat d)) (scanned cfg docs)).

(** The valid range of the two thresholds: fractions between 0 and 1. *)
Definition thresholdsInRange (cfg : Config) : bool :=
  Qle_bool 0 (REQUIRED_THRESHOLD cfg) && Qle_bool (REQUIRED_THRESHOLD cfg) 1
  && Qle_bool 0 (RARE_FIELD_MAX_PCT cfg) && Qle_bool (RARE_FIELD_MAX_PCT cfg) 1.

(** ** Notions used by the properties *)

Unset Implicit Arguments.

(** The presence count that the statistics hold for a field. *)
Definition countOf (f : string) (fs : list (string * FieldStat)) : nat :=
  match Map_get f fs with
  | Some st => presentCount st
  | None => 0
  end.

(** The number of documents of a list that hold a field. *)
Definition holdersIn (f : string) (ds : list Doc) : nat :=
  List.length (filter (fun d => Map_has f (flat d)) ds).

(** The ids of the documents of a list that lack a field. *)
Definition lackingIn (f : string) (ds : list Doc) : list string :=
  map id (filter (fun d => negb (Map_has f (flat d))) ds).

(** The examples that the main function hands to [buildReport]. *)
Definition examplesOfRun (cfg : Config) (docs : list Doc) (pass1 : Pass1)
  : list (string * list string) :=
  match expectedFields cfg pass1 with
  | [] => []
  | _ :: _ => pass2_missingExamples cfg docs (expectedFields cfg pass1)
  end.

Definition fullDoc (name : string) : Doc :=
  MkDoc name [("x", VBoolean true); ("y", VNumber (Finite 1))].

Definition partDoc (name : string) : Doc :=
  MkDoc name [("y", VNumber (Finite 1)); ("n", VObject [("a", VNull)])].

Definition withThresholds (cfg : Config) (required rare : Q) : Config :=
  MkConfig (COLLECTION_PATH cfg) (SAMPLE_LIMIT cfg) (BATCH_SIZE cfg)
    required rare (EXAMPLES_PER_ISSUE cfg) (CHECK_FIELD_NAME_VARIANTS cfg)
    (STRING_REGEX_RULES cfg).

Definition failed (o : Outcome) : bool :=
  match o with
  | Exit0 _ => false
  | Exit1 _ _ => true
  end.

(** The callback applied to a list of documents in order, counting
    them, until it throws. *)
Definition visit {State : Type} (onDoc : State -> Doc -> Result State)
  (ds : list Doc) (st : nat * Result State) : nat * Result State :=
  fold_left
    (fun st doc =>
       match snd st with
       | Ok s => (S (fst st), onDoc s doc)
       | Throw m => st
       end)
    ds st.

(** The documents of a list that a scan which has seen [n] documents may
    still see. *)
Definition remaining (cfg : Config) (n : nat) (l : list Doc) : list Doc :=
  match SAMPLE_LIMIT cfg with
  | Some limit => firstn (limit - n) l
  | None => l
  end.

(** The statistics of a field path, fresh when the path was not seen. *)
Definition statOr (f : string) (fs : list (string * FieldStat)) : FieldStat :=
  match Map_get f fs with
  | Some st => st
  | None => makeFieldStat
  end.

(** The value that a document holds at a flat path. *)
Definition valueAt (f : string) (d : Doc) : option Value := Map_get f (flat d).

(** The kind that a document shows at a flat path. *)
Definition kindAt (f : string) (d : Doc) : option string :=
  match valueAt f d with
  | Some v => Some (detectKind v)
  | None => None
  end.

Definition hasKindAt (f k : string) (d : Doc) : bool :=
  match kindAt f d with
  | Some k' => k' == k
  | None => false
  end.

(** The documents of a list that show the kind [k] at the path [f]. *)
Definition docsOfKind (f k : string) (ds : list Doc) : list Doc :=
  filter (hasKindAt f k) ds.

(** The outcome of the regex rule of a path on a value: the violation
    to record, if any. A rule without a regular expression records
    nothing here: pass 1 throws on it. *)
Definition violationOf (cfg : Config) (f : string) (docId : string) (v : Value)
  : list (string * string) :=
  match lookupRule cfg f, v with
  | Some rule, VString s =>
      match regex rule with
      | RegExp test => if test s then [] else [(docId, s)]
      | _ => []
      end
  | _, _ => []
  end.

(** The violations of the rule of a path in a list of documents, in
    scan order. *)
Definition violationsIn (cfg : Config) (f : string) (ds : list Doc)
  : list (string * string) :=
  flat_map
    (fun d => match valueAt f d with
              | Some v => violationOf cfg f (id d) v
              | None => []
              end)
    ds.

(** The kind of the first value that a list of documents holds at a
    path. *)
Definition firstKindIn (f : string) (ds : list Doc) : option string :=
  match flat_map (fun d => match kindAt f d with Some k => [k] | None => [] end) ds with
  | k :: _ => Some k
  | [] => None
  end.

Definition kindCountOf (k : string) (st : FieldStat) : option nat :=
  Map_get k (kinds st).

Definition seeKindCount (k : string) (f : string) (a : option nat)
  (docId : string) (v : Value) : option nat :=
  if detectKind v == k
  then Some (match a with Some n => n | None => 0 end + 1)
  else a.

Definition kindExamplesOf (k : string) (st : FieldStat) : option (list string) :=
  Map_get k (kindExamples st).

Definition seeKindExample (N : nat) (k : string) (f : string)
  (a : option (list string)) (docId : string) (v : Value)
  : option (list string) :=
  if detectKind v == k
  then Some (pushExample (match a with Some l => l | None => [] end) docId N)
  else a.

Definition seeViolation (cfg : Config) (f : string) (a : list (string * string))
  (docId : string) (v : Value) : list (string * string) :=
  match violationOf cfg f docId v with
  | [] => a
  | x :: _ => pushExample a x (EXAMPLES_PER_ISSUE cfg)
  end.

Definition firstKindOf (st : FieldStat) : option string :=
  match kindExamples st with
  | (k, _) :: _ => Some k
  | [] => None
  end.

Definition seeFirstKind (f : string) (a : option string) (docId : string)
  (v : Value) : option string :=
  match a with
  | Some k => Some k
  | None => Some (detectKind v)
  end.

Definition kindTotalOf (st : FieldStat) : nat := list_sum (map snd (kinds st)).

Definition tenChars (s : string) : bool := String.length s =? 10.

(** A flattened entry on which pass 1 throws: a string under a path
    whose rule has no regular expression. *)
Definition brokenEntry (cfg : Config) (kv : string * Value) : bool :=
  match lookupRule cfg (fst kv), snd kv with
  | Some rule, VString _ =>
      match regex rule with
      | RegExp _ => false
      | _ => true
      end
  | _, _ => false
  end.

Definition brokenDoc (cfg : Config) (d : Doc) : bool :=
  existsb (brokenEntry cfg) (flat d).

(** The message of the error that pass 1 throws on a flattened entry,
    when it throws. *)
Definition entryError (cfg : Config) (kv : string * Value) : option string :=
  match lookupRule cfg (fst kv), snd kv with
  | Some rule, VString _ =>
      match regex rule with
      | RegExp _ => None
      | notRegExp => Some (testErrorMessage notRegExp)
      end
  | _, _ => None
  end.

(** The message of the error that pass 1 throws on a document: that of
    the first of its flattened entries on which it throws. *)
Definition docError (cfg : Config) (d : Doc) : option string :=
  match find (brokenEntry cfg) (flat d) with
  | Some kv => entryError cfg kv
  | None => None
  end.

(** The messages of the TypeErrors of [rule.regex.test]. *)
Definition testErrorMessages : list string :=
  map testErrorMessage [RegexUndefined; RegexNull; RegexOther].

(** The list under an optional key of the report; nothing when the key
    is not set. *)
Definition issuesOf {A : Type} (o : option (list A)) : list A :=
  match o with
  | Some l => l
  | None => []
  end.

Definition distinctKinds (st : FieldStat) : Prop :=
  NoDup (map fst (kinds st)) /\ NoDup (map fst (kindExamples st)).

Definition hasMismatch (st : FieldStat) : bool :=
  1 <? List.length (filter (fun k => negb (k == "null")) (map fst (kinds st))).

Definition mismatchOf (f : string) (st : FieldStat) : TypeMismatchIssue :=
  MkTypeMismatchIssue f (kinds st)
    (filter (fun ka => negb (List.length (snd ka) =? 0)) (kindExamples st)).

(** The examples of a rare field: those of the kind seen first. *)
Definition firstExamples (st : FieldStat) : list string :=
  match kindExamples st with
  | (anyKind, arr) :: _ => arr
  | [] => []
  end.

Definition rareOf (T : nat) (f : string) (st : FieldStat) : RareIssue :=
  MkRareIssue f (presentCount st)
    (toFixed4 (presenceFraction T (presentCount st)))
    (nonEmpty (firstExamples st)).

Definition isRare (cfg : Config) (T : nat) (st : FieldStat) : bool :=
  Qle_bool (toFixed4 (presenceFraction T (presentCount st)))
    (toDouble (RARE_FIELD_MAX_PCT cfg)).



(** A case mapping for the sample below: the letters A to Z. *)
Definition lowerAscii (c : ascii) : ascii :=
  let n := nat_of_ascii c in
  if (65 <=? n) && (n <=? 90) then ascii_of_nat (n + 32) else c.

Fixpoint asciiToLowerCase (s : string) : string :=
  match s with
  | EmptyString => EmptyString
  | String c s' => String (lowerAscii c) (asciiToLowerCase s')
  end.

(** The test of [flattenDoc] on a value: a map that it descends into. *)
Definition isNestedMap (v : Value) : bool :=
  isPlainObject v
  && negb (instanceof_Timestamp v)
  && negb (instanceof_GeoPoint v)
  && negb (instanceof_DocumentReference v).

(** The path that [flattenDoc] gives the key [k] of a map flattened under
    [base]: [base ? `${base}.${k}` : k]. *)
Definition childPath (base k : string) : string :=
  if base == "" then k else String.append base (String.append "." k).

(** The path of a chain of keys followed from a map flattened under
    [base]. *)
Definition pathOf (base : string) (keys : list string) : string :=
  fold_left childPath keys base.

(** The leaves of a value, each with the chain of keys that leads to it,
    in the order in which [flattenDoc] meets them. *)
Fixpoint leavesOf (v : Value) : list (list string * Value) :=
  match v with
  | VObject entries =>
      flat_map
        (fun kv =>
           if isNestedMap (snd kv)
           then map (fun l => (fst kv :: fst l, snd l)) (leavesOf (snd kv))
           else [([fst kv], snd kv)])
        entries
  | _ => []
  end.

(** [data.k1.k2...]: the value found by following a chain of keys through
    nested maps. *)
Fixpoint lookupPath (keys : list string) (v : Value) : option Value :=
  match keys with
  | [] => Some v
  | k :: keys' =>
      match v with
      | VObject entries => x <- Map_get k entries ;; lookupPath keys' x
      | _ => None
      end
  end.

Fixpoint containsChar (c : ascii) (s : string) : bool :=
  match s with
  | EmptyString => false
  | String a s' => Ascii.eqb a c || containsChar c s'
  end.

(** A key that is not empty and holds no dot. *)
Definition plainKey (k : string) : bool :=
  negb (k == "") && negb (containsChar "." k).

(** Every map of the value, at any depth below maps, has distinct keys,
    as an object has, and only plain keys. *)
Fixpoint wellKeyed (v : Value) : bool :=
  match v with
  | VObject entries =>
      Infer.distinctKeys (map fst entries)
      && forallb (fun kv => plainKey (fst kv) && wellKeyed (snd kv)) entries
  | _ => true
  end.

(** A sample document with nested maps. *)
Definition addressDoc : Doc :=
  MkDoc "u1"
    [("name", VString "Ann");
     ("address",
      VObject [("city", VString "Oslo");
               ("geo", VGeoPoint (Finite 60) (Finite 11));
               ("lines", VArray [VString "a"; VObject [("x.y", VNull)]]);
               ("none", VObject [])]);
     ("seen", VTimestamp 1 0)].

(** The keys after the first one, each behind its dot. *)
Definition dotted (keys : list string) : string :=
  fold_right (fun k rest => String.append "." (String.append k rest)) "" keys.

(** ** Sample inputs *)

Definition usersConfig (threshold : Q) (examples : nat) : Config :=
  MkConfig "users" None 500 threshold (5 # 100) examples true [].

Definition tenDocs : list Doc :=
  [fullDoc "1"; fullDoc "2"; fullDoc "3"; fullDoc "4"; partDoc "5";
   fullDoc "6"; fullDoc "7"; fullDoc "8"; fullDoc "9"; fullDoc "10"].

Definition threeDocs : list Doc := [fullDoc "1"; partDoc "2"; partDoc "3"].

Definition badConfig : Config := usersConfig (3 # 2) 20.

Definition brokenRuleConfig : Config :=
  MkConfig "users" None 500 (9 # 10) (5 # 100) 20 true
    [("date", MkRule RegexUndefined (Some "YYYY-MM-DD"))].

Definition pagedConfig : Config :=
  MkConfig "users" (Some 5) 2 (9 # 10) (5 # 100) 20 true [].

Definition datedConfig : Config :=
  MkConfig "users" None 500 (9 # 10) (5 # 100) 2 true
    [("date", MkRule (RegExp tenChars) (Some "YYYY-MM-DD"))].

Definition datedDocs : list Doc :=
  [MkDoc "1" [("date", VString "2024-01-01"); ("n", VNumber (Finite 1))];
   MkDoc "2" [("date", VString "today"); ("n", VString "1")];
   MkDoc "3" [("date", VNumber (Finite 20240101)); ("n", VNull)];
   MkDoc "4" [("date", VString "soon"); ("first_name", VString "a")];
   MkDoc "5" [("date", VString "later"); ("firstName", VString "b");
              ("n", VNumber (Finite 2))]].

(** A rule table whose rule holds a string where a regular expression
    belongs. *)
Definition otherRuleConfig : Config :=
  MkConfig "users" None 500 (9 # 10) (5 # 100) 20 true
    [("date", MkRule RegexOther (Some "YYYY-MM-DD"))].

Definition ruleDocs : list Doc :=
  [fullDoc "1"; MkDoc "2" [("date", VString "x"); ("toString", VString "y")];
   fullDoc "3"].

Definition brokenRuleDocs : list Doc :=
  [fullDoc "1"; MkDoc "2" [("date", VString "2024-01-01")]; fullDoc "3"].

Definition zeroBatchConfig : Config :=
  MkConfig "users" None 0 (9 # 10) (5 # 100) 20 true [].

Definition rareConfig : Config :=
  MkConfig "users" None 500 (9 # 10) (1 # 4) 2 true [].

Set Implicit Arguments.

End Lint.

(** * Properties *)

(** ** Kind classifier *)

Lemma detectKind_classify : forall v, detectKind v = classify v.
Proof. destruct v; reflexivity. Qed.

Lemma detectKind_object : forall v,
  detectKind v = "object" <-> exists entries, v = VObject entries.
Proof.
  intro v; split.
  - destruct v; cbn; intro H; try discriminate H. eexists; reflexivity.
  - intros [es ->]; reflexivity.
Qed.

Lemma detectKind_array : forall v,
  detectKind v = "array" <-> exists elements, v = VArray elements.
Proof.
  intro v; split.
  - destruct v; cbn; intro H; try discriminate H. eexists; reflexivity.
  - intros [es ->]; reflexivity.
Qed.

Lemma detectKind_number : forall v,
  detectKind v = "number" <-> exists n, v = VNumber n.
Proof.
  intro v; split.
  - destruct v; cbn; intro H; try discriminate H. eexists; reflexivity.
  - intros [n ->]; reflexivity.
Qed.

(** Where [admin] is bound, [detectKind] is a total function into the
    closed enumeration of kinds; its cascade of tests classifies every
    value by its concrete type, null first, then the store types, arrays,
    scalars and plain objects, anything else being "unknown"; a timestamp
    or a geopoint, although a plain object for [isPlainObject], is never
    classified as "object". *)
Lemma detectKind_total_ordered : forall v : Value,
  In (detectKind v) Kinds
  /\ detectKind v = classify v
  /\ (if instanceof_Timestamp v || instanceof_GeoPoint v
      then isPlainObject v = true /\ detectKind v <> "object"
      else True).
Proof.
  intro v. split; [| split].
  - destruct v; cbn; tauto.
  - apply detectKind_classify.
  - destruct v; cbn; try exact I; split; try reflexivity; discriminate.
Qed.

(** C7. In inferSchema.js, where the identifier [admin] is not bound,
    [detectKind] returns for [null] only: on every other value, a string
    for one, it ends in the ReferenceError of reading [admin]. In
    lintCollectionSchema.js, where [admin] is bound, the same cascade
    returns for every value, what it returns is a kind of the closed
    enumeration, and a timestamp or a geopoint, which [isPlainObject]
    accepts, is not classified as "object". *)
Theorem detectKind_needs_admin :
  detectKindIn false (VString "x") = ReferenceError "admin"
  /\ (forall v : Value,
        detectKindIn false v
        = if isNull v then Returns "null" else ReferenceError "admin")
  /\ (forall v : Value,
        detectKindIn true v = Returns (detectKind v)
        /\ In (detectKind v) Kinds)
  /\ (forall v : Value,
        instanceof_Timestamp v || instanceof_GeoPoint v = true ->
        isPlainObject v = true /\ detectKindIn true v <> Returns "object")
  /\ detectKindIn true (VString "x") = Returns "string".
Proof.
  split; [reflexivity |]. split; [intro v; destruct v; reflexivity |].
  split; [| split; [| reflexivity]].
  - intro v. split; [destruct v; reflexivity | destruct v; cbn; tauto].
  - intros v H. destruct v; try discriminate H; split; try reflexivity;
      discriminate.
Qed.

Unset Implicit Arguments.

(** ** Maps *)

Lemma eqb_eq_true : forall a b : string, (a == b) = true <-> a = b.
Proof. intros; apply String.eqb_eq. Qed.

Lemma eqb_eq_false : forall a b : string, (a == b) = false <-> a <> b.
Proof. intros; apply String.eqb_neq. Qed.

Ltac string_cases :=
  repeat match goal with
  | H : (?a == ?b) = true |- _ => apply String.eqb_eq in H; try subst
  | H : (?a == ?b) = false |- _ => apply String.eqb_neq in H
  end.

Section MapFacts.
  Variable A : Type.
  Implicit Types (m : list (string * A)) (k : string) (a : A).

Lemma Map_get_set_eq : forall m k a, Map_get k (Map_set k a m) = Some a.
Proof.
  induction m as [| [k' a'] m IH]; intros k a; cbn.
  - now rewrite String.eqb_refl.
  - destruct (k' == k) eqn:E; cbn; rewrite E; auto.
Qed.

Lemma Map_get_set_neq : forall m k k' a,
  k <> k' -> Map_get k' (Map_set k a m) = Map_get k' m.
Proof.
  induction m as [| [k0 a0] m IH]; intros k k' a Hne; cbn.
  - destruct (k == k') eqn:E; auto. string_cases; contradiction.
  - destruct (k0 == k) eqn:E; cbn.
    + string_cases. apply String.eqb_neq in Hne. now rewrite Hne.
    + rewrite IH; auto.
Qed.

Lemma Map_has_get : forall m k,
  Map_has k m = match Map_get k m with Some _ => true | None => false end.
Proof.
  induction m as [| [k' a'] m IH]; intro k; cbn; auto.
  destruct (k' == k); cbn; auto. apply IH.
Qed.

Lemma Map_has_In : forall m k, Map_has k m = true <-> In k (map fst m).
Proof.
  intros m k. unfold Map_has. rewrite existsb_exists. split.
  - intros [[k' a] [Hin E]]. cbn in E. string_cases.
    change k with (fst (k, a)). now apply in_map.
  - intro Hin. apply in_map_iff in Hin as [[k' a] [E Hin]]. cbn in E; subst.
    exists (k, a). split; auto. cbn. apply String.eqb_refl.
Qed.

Lemma Map_get_In : forall m k a, Map_get k m = Some a -> In (k, a) m.
Proof.
  induction m as [| [k' a'] m IH]; intros k a; cbn; [discriminate |].
  destruct (k' == k) eqn:E; intro H.
  - string_cases. inversion H; subst. now left.
  - right; auto.
Qed.

Lemma Map_get_None : forall m k, Map_get k m = None <-> ~ In k (map fst m).
Proof.
  intros m k. rewrite <- Map_has_In, Map_has_get.
  destruct (Map_get k m); split; intro H; try discriminate; auto.
  exfalso; apply H; reflexivity.
Qed.

Lemma In_Map_get : forall m k a,
  NoDup (map fst m) -> In (k, a) m -> Map_get k m = Some a.
Proof.
  induction m as [| [k' a'] m IH]; intros k a Hnd Hin; [destruct Hin |].
  cbn in *. inversion Hnd as [| ? ? Hnot Hnd']; subst.
  destruct Hin as [E | Hin].
  - inversion E; subst. now rewrite String.eqb_refl.
  - destruct (k' == k) eqn:E.
    + string_cases. exfalso. apply Hnot.
      change k with (fst (k, a)). now apply in_map.
    + auto.
Qed.

Lemma Map_set_keys : forall m k a,
  map fst (Map_set k a m)
  = if Map_has k m then map fst m else map fst m ++ [k].
Proof.
  induction m as [| [k' a'] m IH]; intros k a; cbn; auto.
  destruct (k' == k) eqn:E; cbn; auto.
  rewrite IH. unfold Map_has. destruct (existsb _ m); reflexivity.
Qed.

Lemma Map_set_NoDup : forall m k a,
  NoDup (map fst m) -> NoDup (map fst (Map_set k a m)).
Proof.
  intros m k a Hnd. rewrite Map_set_keys.
  destruct (Map_has k m) eqn:E; auto.
  apply NoDup_app; auto.
  - constructor; [intros [] | constructor].
  - intros x Hin [Ex | []]. subst x. apply Map_has_In in Hin. congruence.
Qed.

Lemma Map_set_Forall : forall (P : string * A -> Prop) m k a,
  Forall P m -> P (k, a) -> Forall P (Map_set k a m).
Proof.
  induction m as [| [k' a'] m IH]; intros k a Hm Hk; cbn.
  - constructor; auto.
  - inversion Hm; subst. destruct (k' == k) eqn:E.
    + string_cases. constructor; auto.
    + constructor; auto.
Qed.

Lemma Map_set_In : forall m k a k' a',
  In (k', a') (Map_set k a m) -> (k' = k /\ a' = a) \/ (k' <> k /\ In (k', a') m)
                                 \/ (k' = k /\ In (k', a') m).
Proof.
  induction m as [| [k0 a0] m IH]; intros k a k' a'; cbn.
  - intros [E | []]. inversion E; auto.
  - destruct (k0 == k) eqn:E; cbn.
    + string_cases. intros [E' | Hin].
      * inversion E'; auto.
      * destruct (String.eqb_spec k' k); auto.
    + intros [E' | Hin].
      * inversion E'; subst. string_cases. right; left; auto.
      * apply IH in Hin. intuition.
Qed.

End MapFacts.

(** ** Plain objects *)

Section ObjectFacts.
Variable A : Type.
Implicit Types (o l : list (string * A)) (kv : string * A) (k : string).

Lemma insertByIndex_get : forall o i kv k,
  arrayIndex (fst kv) = Some i ->
  Map_get k (insertByIndex i kv o)
  = if fst kv == k then Some (snd kv) else Map_get k o.
Proof.
  induction o as [| [k' a'] o IH]; intros i [k0 a0] k Hi;
    cbn [insertByIndex fst snd Map_get] in *; [reflexivity |].
  destruct (arrayIndex k') as [j |] eqn:Ej; [| reflexivity].
  destruct (j <? i)%N eqn:Elt; [| reflexivity].
  cbn [Map_get]. rewrite (IH i (k0, a0) k Hi). cbn [fst snd].
  destruct (k' == k) eqn:E1; [| reflexivity].
  destruct (k0 == k) eqn:E2; [| reflexivity].
  string_cases. rewrite Ej in Hi. inversion Hi; subst.
  apply N.ltb_lt in Elt. lia.
Qed.

Lemma sortByIndex_get : forall l k,
  Map_get k (sortByIndex l) = if isArrayIndex k then Map_get k l else None.
Proof.
  induction l as [| [k0 a0] l IH]; intro k; cbn [sortByIndex fold_right fst].
  - now destruct (isArrayIndex k).
  - fold (sortByIndex l). destruct (arrayIndex k0) as [i |] eqn:Ei.
    + rewrite insertByIndex_get by exact Ei. cbn [fst snd Map_get].
      destruct (k0 == k) eqn:E; [| apply IH].
      string_cases. unfold isArrayIndex. now rewrite Ei.
    + rewrite IH. cbn [Map_get]. destruct (k0 == k) eqn:E; [| reflexivity].
      string_cases. unfold isArrayIndex. now rewrite Ei.
Qed.

Lemma named_entries_get : forall l k,
  Map_get k (filter (fun kv => negb (isArrayIndex (fst kv))) l)
  = if isArrayIndex k then None else Map_get k l.
Proof.
  induction l as [| [k0 a0] l IH]; intro k; cbn [filter fst].
  - now destruct (isArrayIndex k).
  - destruct (isArrayIndex k0) eqn:E0; cbn [negb Map_get].
    + rewrite IH. destruct (k0 == k) eqn:E; [| reflexivity].
      string_cases. now rewrite E0.
    + destruct (k0 == k) eqn:E; [| apply IH]. string_cases. now rewrite E0.
Qed.

Lemma entries_app_get : forall l1 l2 k,
  Map_get k (l1 ++ l2)
  = match Map_get k l1 with Some a => Some a | None => Map_get k l2 end.
Proof.
  induction l1 as [| [k0 a0] l1 IH]; intros l2 k; cbn; [reflexivity |].
  destruct (k0 == k); [reflexivity | apply IH].
Qed.

(** Reading a property does not depend on the order of the keys. *)
Lemma Object_fromEntries_get : forall l k,
  Map_get k (Object_fromEntries l) = Map_get k l.
Proof.
  intros l k. unfold Object_fromEntries.
  rewrite entries_app_get, sortByIndex_get, named_entries_get.
  destruct (isArrayIndex k); [| reflexivity]. now destruct (Map_get k l).
Qed.

Lemma Object_fromEntries_has : forall l k,
  Map_has k (Object_fromEntries l) = Map_has k l.
Proof. intros l k. now rewrite !Map_has_get, Object_fromEntries_get. Qed.

Lemma insertByIndex_perm : forall o i kv,
  Permutation (insertByIndex i kv o) (kv :: o).
Proof.
  induction o as [| kv' o IH]; intros i kv; cbn [insertByIndex]; [reflexivity |].
  destruct (arrayIndex (fst kv')); [| reflexivity].
  destruct (_ <? _)%N; [| reflexivity].
  rewrite IH. apply perm_swap.
Qed.

Lemma sortByIndex_perm : forall l,
  Permutation (sortByIndex l) (filter (fun kv => isArrayIndex (fst kv)) l).
Proof.
  induction l as [| kv l IH]; cbn [sortByIndex fold_right filter]; [reflexivity |].
  fold (sortByIndex l). unfold isArrayIndex at 1.
  destruct (arrayIndex (fst kv)); [| exact IH].
  rewrite insertByIndex_perm. now constructor.
Qed.

(** The object holds the entries it was given, each once. *)
Lemma Object_fromEntries_perm : forall l, Permutation (Object_fromEntries l) l.
Proof.
  intro l. unfold Object_fromEntries. rewrite sortByIndex_perm.
  induction l as [| kv l IH]; cbn [filter]; [reflexivity |].
  destruct (isArrayIndex (fst kv)); cbn [negb app].
  - now constructor.
  - rewrite <- Permutation_middle. now constructor.
Qed.

Lemma Object_fromEntries_In : forall l kv,
  In kv (Object_fromEntries l) <-> In kv l.
Proof.
  intros l kv. split; apply Permutation_in;
    [| symmetry]; apply Object_fromEntries_perm.
Qed.

Lemma Object_fromEntries_NoDup : forall l,
  NoDup (map fst l) -> NoDup (map fst (Object_fromEntries l)).
Proof.
  intros l H. eapply Permutation_NoDup; [| exact H].
  apply Permutation_map. symmetry. apply Object_fromEntries_perm.
Qed.

Lemma Object_fromEntries_length : forall l,
  List.length (Object_fromEntries l) = List.length l.
Proof. intro l. apply Permutation_length, Object_fromEntries_perm. Qed.

End ObjectFacts.

Section ObjectKeys.
Variables A B : Type.
Variable g : string * A -> B.

Local Abbreviation retag := (fun kv : string * A => (fst kv, g kv)).

Lemma insertByIndex_map : forall o i kv,
  insertByIndex i (retag kv) (map retag o) = map retag (insertByIndex i kv o).
Proof.
  induction o as [| kv' o IH]; intros i kv; cbn [insertByIndex map fst];
    [reflexivity |].
  destruct (arrayIndex (fst kv')); [| reflexivity].
  destruct (_ <? _)%N; [| reflexivity].
  cbn [map]. now rewrite IH.
Qed.

Lemma sortByIndex_map : forall l,
  sortByIndex (map retag l) = map retag (sortByIndex l).
Proof.
  induction l as [| kv l IH]; cbn [sortByIndex fold_right map fst];
    [reflexivity |].
  fold (sortByIndex (map retag l)). fold (sortByIndex l). rewrite IH.
  destruct (arrayIndex (fst kv)); [apply insertByIndex_map | reflexivity].
Qed.

(** The order of the keys does not depend on the values. *)
Lemma Object_fromEntries_map : forall l,
  Object_fromEntries (map retag l) = map retag (Object_fromEntries l).
Proof.
  intro l. unfold Object_fromEntries. rewrite sortByIndex_map, map_app.
  f_equal. induction l as [| kv l IH]; cbn [filter map fst]; [reflexivity |].
  destruct (isArrayIndex (fst kv)); cbn [negb map]; now rewrite IH.
Qed.

End ObjectKeys.

Lemma Object_fromEntries_keys :
  forall (A B : Type) (l1 : list (string * A)) (l2 : list (string * B)),
    map fst l1 = map fst l2 ->
    map fst (Object_fromEntries l1) = map fst (Object_fromEntries l2).
Proof.
  intros A B l1 l2 H.
  assert (Hunit : forall (C : Type) (l : list (string * C)),
            map fst (Object_fromEntries l)
            = map fst (Object_fromEntries (map (fun k => (k, tt)) (map fst l)))).
  { intros C l. rewrite map_map.
    rewrite (Object_fromEntries_map C unit (fun _ => tt) l), map_map.
    reflexivity. }
  rewrite (Hunit A l1), (Hunit B l2), H. reflexivity.
Qed.

Lemma Set_has_cons : forall k x s, Set_has k (x :: s) = (x == k) || Set_has k s.
Proof. reflexivity. Qed.

(** ** The error monad *)

Lemma obind_Some : forall (A B : Type) (m : option A) (k : A -> option B) b,
  obind m k = Some b -> exists a, m = Some a /\ k a = Some b.
Proof. intros A B [a |] k b H; cbn in H; [eauto | discriminate]. Qed.

Ltac obind_inv H :=
  let a := fresh "x" in
  let E := fresh "E" in
  apply obind_Some in H as [a [E H]].

Ltac inv_some :=
  repeat match goal with
  | H : Some _ = Some _ |- _ => inversion H; subst; clear H
  | H : None = Some _ |- _ => discriminate H
  end.

Lemma fold_left_obind_None : forall (A B : Type) (f : A -> B -> option A) l,
  fold_left (fun acc x => a <- acc ;; f a x) l None = None.
Proof. induction l; cbn; auto. Qed.

(** * Properties of scripts/inferSchema.js *)

Module InferFacts.
Import Infer.

(** ** Variants *)

Lemma findVariant_kind : forall vs k x, findVariant vs k = Some x -> kind x = k.
Proof.
  intros vs k x H. apply find_some in H as [_ H]. now apply String.eqb_eq.
Qed.

Lemma findVariant_None : forall vs k,
  findVariant vs k = None <-> ~ In k (map (@kind FieldAgg) vs).
Proof.
  intros vs k. split.
  - intros H Hin. apply in_map_iff in Hin as [x [E Hin]].
    apply (find_none _ _ H) in Hin. subst k. now rewrite String.eqb_refl in Hin.
  - intro H. destruct (findVariant vs k) as [x |] eqn:E; auto.
    exfalso; apply H. apply find_some in E as [Hin E]. string_cases.
    now apply in_map.
Qed.

(** The list [getOrCreateVariant] leaves behind, split around the variant
    that the call returns. *)
Lemma getOrCreateVariant_split : forall vs k,
  exists l1 x l2,
    getOrCreateVariant vs k = l1 ++ x :: l2
    /\ Forall (fun y => (kind y == k) = false) l1
    /\ kind x = k
    /\ ((vs = l1 ++ x :: l2 /\ findVariant vs k = Some x)
        \/ (vs = l1 /\ l2 = [] /\ x = newVariant k /\ findVariant vs k = None)).
Proof.
  intros vs k. unfold getOrCreateVariant.
  destruct (findVariant vs k) as [x |] eqn:E.
  - assert (H : exists l1 l2, vs = l1 ++ x :: l2
                              /\ Forall (fun y => (kind y == k) = false) l1).
    { revert E. unfold findVariant. induction vs as [| y vs IH]; cbn; [discriminate |].
      destruct (kind y == k) eqn:Ek; intro H.
      - inversion H; subst. exists [], vs. split; auto.
      - destruct (IH H) as [l1 [l2 [-> Hl1]]]. exists (y :: l1), l2. split; auto. }
    destruct H as [l1 [l2 [Hvs Hl1]]]. exists l1, x, l2.
    repeat split; auto. eapply findVariant_kind; eauto.
  - exists vs, (newVariant k), []. repeat split; auto.
    + apply Forall_forall. intros y Hy. apply (find_none _ _ E); auto.
Qed.

Lemma mutateVariant_split : forall k f l1 x l2,
  Forall (fun y => (kind y == k) = false) l1 -> kind x = k ->
  mutateVariant k f (l1 ++ x :: l2) = (x' <- f x ;; Some (l1 ++ x' :: l2)).
Proof.
  intros k f l1 x l2 Hl1 Hx. induction Hl1 as [| y l1 Hy _ IH]; cbn.
  - subst k. now rewrite String.eqb_refl.
  - rewrite Hy, IH. destruct (f x); reflexivity.
Qed.

Lemma findVariant_split_eq : forall k l1 x l2,
  Forall (fun y => (kind y == k) = false) l1 -> kind x = k ->
  findVariant (l1 ++ x :: l2) k = Some x.
Proof.
  intros k l1 x l2 Hl1 Hx. unfold findVariant.
  induction Hl1 as [| y l1 Hy _ IH]; cbn.
  - subst k. now rewrite String.eqb_refl.
  - now rewrite Hy.
Qed.

Lemma findVariant_split_neq : forall k k' l1 x x' l2,
  kind x = k -> kind x' = k -> k' <> k ->
  findVariant (l1 ++ x' :: l2) k' = findVariant (l1 ++ x :: l2) k'.
Proof.
  intros k k' l1 x x' l2 Hx Hx' Hne. unfold findVariant.
  induction l1 as [| y l1 IH]; cbn.
  - rewrite Hx, Hx'. apply not_eq_sym in Hne. apply String.eqb_neq in Hne. now rewrite Hne.
  - destruct (kind y == k'); auto.
Qed.

(** ** Sampler: equations *)

Lemma addValueSample_eq : forall fa v,
  addValueSample fa v
  = (vs <- mutateVariant (detectKind v) (sampleVariant addValueSample v)
             (getOrCreateVariant (variants fa) (detectKind v)) ;;
     Some (MkFieldAgg (S (presentCount fa)) vs)).
Proof. intros fa v; destruct v; reflexivity. Qed.

(** What one call of [addValueSample] does to the variant list. *)
Lemma addValueSample_inv : forall fa v fa',
  addValueSample fa v = Some fa' ->
  exists l1 x x' l2,
    Forall (fun y => (kind y == detectKind v) = false) l1
    /\ kind x = detectKind v
    /\ ((variants fa = l1 ++ x :: l2 /\ findVariant (variants fa) (detectKind v) = Some x)
        \/ (variants fa = l1 /\ l2 = [] /\ x = newVariant (detectKind v)
            /\ findVariant (variants fa) (detectKind v) = None))
    /\ sampleVariant addValueSample v x = Some x'
    /\ fa' = MkFieldAgg (S (presentCount fa)) (l1 ++ x' :: l2).
Proof.
  intros fa v fa' H. rewrite addValueSample_eq in H.
  destruct (getOrCreateVariant_split (variants fa) (detectKind v))
    as [l1 [x [l2 [Hsplit [Hl1 [Hx Hcase]]]]]].
  rewrite Hsplit, mutateVariant_split in H by auto.
  destruct (sampleVariant addValueSample v x) as [x' |] eqn:Es; cbn in H;
    [| discriminate].
  inversion H; subst fa'. exists l1, x, x', l2. repeat split; auto.
Qed.

Lemma addValueSample_intro : forall fa v l1 x x' l2,
  getOrCreateVariant (variants fa) (detectKind v) = l1 ++ x :: l2 ->
  Forall (fun y => (kind y == detectKind v) = false) l1 ->
  kind x = detectKind v ->
  sampleVariant addValueSample v x = Some x' ->
  addValueSample fa v = Some (MkFieldAgg (S (presentCount fa)) (l1 ++ x' :: l2)).
Proof.
  intros fa v l1 x x' l2 Hsplit Hl1 Hx Hs.
  rewrite addValueSample_eq, Hsplit, mutateVariant_split by auto.
  now rewrite Hs.
Qed.

Lemma sampleVariant_kind : forall add v x x',
  sampleVariant add v x = Some x' -> kind x' = kind x /\ count x' = S (count x).
Proof.
  intros add v x x' H. unfold sampleVariant in H.
  destruct v; cbn in H; try (inversion H; subst; cbn; auto; fail).
  - destruct (Number_isInteger n).
    + inversion H; subst; cbn; auto.
    + obind_inv H. inversion H; subst; cbn; auto.
  - obind_inv H. destruct elements.
    + inversion H; subst; cbn; auto.
    + obind_inv H. inversion H; subst; cbn; auto.
  - obind_inv H. obind_inv H. inversion H; subst; cbn; auto.
Qed.

(** ** Sampler: the loops *)

Lemma sampleEntries_cons : forall add props kv es,
  sampleEntries add props (kv :: es)
  = (ps <- sampleEntry add props (fst kv) (snd kv) ;; sampleEntries add ps es).
Proof.
  intros. unfold sampleEntries. cbn.
  destruct (sampleEntry add props (fst kv) (snd kv)); cbn; auto.
  apply (fold_left_obind_None _ _ (fun ps kv => sampleEntry add ps (fst kv) (snd kv))).
Qed.

Lemma sampleElements_cons : forall add it el els,
  sampleElements add it (el :: els)
  = (a <- add it el ;; sampleElements add a els).
Proof.
  intros. unfold sampleElements. cbn.
  destruct (add it el); cbn; auto.
  apply (fold_left_obind_None _ _ add).
Qed.

(** ** Sampler: invariants *)

Lemma Inv_fresh : forall b, Inv b makeFieldAgg.
Proof.
  intro b. constructor.
  - repeat split; cbn; constructor.
  - constructor.
Qed.

Lemma Inv_fieldLocal : forall b fa, Inv b fa -> fieldLocal fa.
Proof. intros b fa H; inversion H; auto. Qed.

Lemma Inv_object : forall b fa v oa,
  Inv b fa -> In v (variants fa) -> object v = Some oa ->
  objectLocal b oa /\ Forall (fun kf => Inv b (snd kf)) (properties oa).
Proof.
  intros b fa v oa H Hin E. inversion H as [fa0 _ Hvs]; subst.
  rewrite Forall_forall in Hvs. destruct (Hvs v Hin) as [Ho _]. auto.
Qed.

Lemma Inv_array : forall b fa v aa,
  Inv b fa -> In v (variants fa) -> array v = Some aa ->
  arrayLocal aa /\ forall it, items aa = Some it -> Inv b it.
Proof.
  intros b fa v aa H Hin E. inversion H as [fa0 _ Hvs]; subst.
  rewrite Forall_forall in Hvs. destruct (Hvs v Hin) as [_ Ha]. auto.
Qed.

Lemma sampleEntries_Inv : forall b T es props,
  Forall (fun kv => StepOK b (snd kv)) es ->
  (b = true -> distinctKeys (map fst es) = true) ->
  NoDup (map fst props) ->
  Forall (fun kf => Inv b (snd kf) /\ 1 <= presentCount (snd kf)
                    /\ (b = true -> presentCount (snd kf) <= S T
                                    /\ (Set_has (fst kf) (map fst es) = true ->
                                        presentCount (snd kf) <= T))) props ->
  exists props',
    sampleEntries addValueSample props es = Some props'
    /\ NoDup (map fst props')
    /\ Forall (fun kf => Inv b (snd kf) /\ 1 <= presentCount (snd kf)
                         /\ (b = true -> presentCount (snd kf) <= S T)) props'.
Proof.
  intros b T es. induction es as [| [k v] es IH]; intros props Hstep Hkeys Hnd Hprops.
  - exists props. repeat split; auto.
    eapply Forall_impl; [| exact Hprops]. cbn. intros kf [H1 [H2 H3]].
    split; [auto | split; [auto | intro Hb; apply H3; auto]].
  - rewrite sampleEntries_cons. cbn [fst snd]. unfold sampleEntry.
    inversion Hstep as [| ? ? Hv Hes]; subst. cbn in Hv.
    set (child := match Map_get k props with Some c => c | None => makeFieldAgg end).
    assert (Hchild : Inv b child
                     /\ (b = true -> presentCount child <= T)).
    { unfold child. destruct (Map_get k props) as [c |] eqn:E.
      - apply Map_get_In in E. rewrite Forall_forall in Hprops.
        destruct (Hprops _ E) as [H1 [H2 H3]]. split; auto.
        intro Hb. apply H3; auto. cbn [fst map]. rewrite Set_has_cons.
        now rewrite String.eqb_refl.
      - split; [apply Inv_fresh | cbn; lia]. }
    destruct Hchild as [Hinv Hle].
    destruct (Hv child Hinv) as [child' [Eadd [Hinv' Hpc]]].
    rewrite Eadd. cbn [obind].
    apply IH; auto.
    + intro Hb. specialize (Hkeys Hb). cbn in Hkeys.
      apply andb_true_iff in Hkeys. tauto.
    + apply Map_set_NoDup; auto.
    + apply Map_set_Forall.
      * eapply Forall_impl; [| exact Hprops]. cbn. intros kf [H1 [H2 H3]].
        split; [auto | split; [auto |]]. intro Hb. split; [apply H3; auto |].
        intro Hin. apply H3; auto. unfold Set_has in *. cbn. rewrite Hin.
        apply orb_true_r.
      * cbn [fst snd]. split; [auto | split; [lia |]]. intro Hb. split.
        -- specialize (Hle Hb). lia.
        -- intro Hin. specialize (Hkeys Hb). cbn in Hkeys.
           apply andb_true_iff in Hkeys as [Hk _]. rewrite Hin in Hk. discriminate.
Qed.

Lemma sampleElements_Inv : forall b els it,
  Forall (StepOK b) els -> Inv b it ->
  exists it', sampleElements addValueSample it els = Some it' /\ Inv b it'
              /\ presentCount it' = presentCount it + List.length els.
Proof.
  intros b els. induction els as [| el els IH]; intros it Hstep Hinv.
  - exists it. split; [reflexivity | split; [assumption | cbn; lia]].
  - inversion Hstep as [| ? ? Hel Hels]; subst.
    destruct (Hel it Hinv) as [it1 [E1 [Hinv1 Hpc1]]].
    destruct (IH it1 Hels Hinv1) as [it' [E' [Hinv' Hpc']]].
    exists it'. rewrite sampleElements_cons, E1. cbn [obind].
    split; [exact E' | split; [assumption |]]. rewrite Hpc', Hpc1. cbn [List.length]. lia.
Qed.

Lemma Inv_iff : forall b fa,
  Inv b fa <-> fieldLocal fa /\ Forall (variantNodes b) (variants fa).
Proof.
  intros b fa. split.
  - intro H. inversion H; subst. split; auto.
  - intros [H1 H2]. constructor; auto.
Qed.

Lemma variantReady_new : forall b k, variantReady b (newVariant k).
Proof.
  intros b k. unfold variantReady, newVariant; cbn.
  split; [| split; [| split; [| split; [| split]]]].
  - intros ->. cbn. eauto.
  - intros ->. cbn. eauto.
  - intros ->. cbn. eauto.
  - intros Hne oa. destruct (k == "object") eqn:E; [| discriminate].
    string_cases. contradiction.
  - intros oa. destruct (k == "object"); [| discriminate].
    intro H; inversion H; subst. split; [| constructor].
    split; cbn; constructor.
  - intros aa. destruct (k == "array"); [| discriminate].
    intro H; inversion H; subst. split.
    + intros it E; discriminate E.
    + intros it E; discriminate E.
Qed.

Lemma variantReady_old : forall b x,
  variantLocal x -> variantNodes b x -> variantReady b x.
Proof.
  intros b x [H1 [H2 [H3 [H4 H5]]]] Hn.
  unfold variantReady.
  split; [auto | split; [auto | split; [auto | split; [intros _; auto | exact Hn]]]].
Qed.

Lemma sampleVariant_Inv : forall b v x,
  subvaluesOK b v ->
  (b = true -> wellFormed v = true) ->
  kind x = detectKind v ->
  variantReady b x ->
  exists x',
    sampleVariant addValueSample v x = Some x'
    /\ kind x' = kind x /\ count x' = S (count x)
    /\ variantLocal x' /\ variantNodes b x'.
Proof.
  intros b v x Hsub Hwf Hk [Ho [Ha [Hn [Hts Hnodes]]]].
  assert (Hplain : kind x <> "object" -> kind x <> "array" ->
                   exists x', Some (withCount x (S (count x))) = Some x'
                     /\ kind x' = kind x /\ count x' = S (count x)
                     /\ variantLocal x' /\ variantNodes b x').
  { intros N1 N2. eexists; split; [reflexivity |].
    split; [reflexivity | split; [reflexivity | split]].
    - unfold variantLocal; cbn. repeat split; auto; lia.
    - exact Hnodes. }
  destruct v; cbn in Hk; unfold sampleVariant;
    try (apply Hplain; rewrite Hk; discriminate).
  - (* number *)
    destruct (Number_isInteger n).
    + apply Hplain; rewrite Hk; discriminate.
    + destruct (Hn Hk) as [na Ena]. cbn [withCount number]. rewrite Ena. cbn [obind].
      eexists; split; [reflexivity |].
      split; [reflexivity | split; [reflexivity | split]].
      * unfold variantLocal; cbn. repeat split; eauto; try lia.
        apply Hts. rewrite Hk; discriminate.
      * exact Hnodes.
  - (* array *)
    destruct (Ha Hk) as [aa Eaa]. cbn [withCount array]. rewrite Eaa. cbn [obind].
    destruct Hnodes as [Hno Hna]. destruct (Hna aa Eaa) as [Hal Hit].
    destruct elements as [| el els].
    + eexists; split; [reflexivity |].
      split; [reflexivity | split; [reflexivity | split]].
      * unfold variantLocal; cbn. repeat split; eauto; try lia.
        apply Hts. rewrite Hk; discriminate.
      * split; cbn; auto. intros aa' E; inversion E; subst; cbn. split; auto.
    + set (it0 := match items aa with Some it => it | None => makeFieldAgg end).
      assert (Hit0 : Inv b it0).
      { unfold it0. destruct (items aa) eqn:E; [auto | apply Inv_fresh]. }
      destruct (sampleElements_Inv b (el :: els) it0 Hsub Hit0) as [it' [E' [Hinv' Hpc']]].
      rewrite E'. cbn [obind].
      eexists; split; [reflexivity |].
      split; [reflexivity | split; [reflexivity | split]].
      * unfold variantLocal; cbn. repeat split; eauto; try lia.
        apply Hts. rewrite Hk; discriminate.
      * split; cbn; auto. intros aa' E; inversion E; subst; cbn. split.
        -- intros it E1; inversion E1; subst. cbn in Hpc'. lia.
        -- intros it E1; inversion E1; subst. auto.
  - (* object *)
    destruct (Ho Hk) as [oa Eoa]. cbn [withCount object]. rewrite Eoa. cbn [obind].
    destruct Hnodes as [Hno Hna]. destruct (Hno oa Eoa) as [[Hnd Hol] Hch].
    destruct (sampleEntries_Inv b (totalSeen oa) entries (properties oa))
      as [props' [E' [Hnd' Hprops']]]; auto.
    + intro Hb. specialize (Hwf Hb). cbn in Hwf.
      apply andb_true_iff in Hwf. tauto.
    + rewrite Forall_forall in *. intros kf Hin.
      destruct (Hol kf Hin) as [H1 H2].
      split; [auto | split; [auto |]]. intro Hb. specialize (H2 Hb). split; lia.
    + rewrite E'. cbn [obind].
      eexists; split; [reflexivity |].
      split; [reflexivity | split; [reflexivity | split]].
      * unfold variantLocal; cbn. repeat split; eauto; try lia.
        intros oa' E; inversion E; subst; cbn. lia.
      * split; cbn; auto. intros oa' E; inversion E; subst; cbn. split.
        -- split; cbn; auto. eapply Forall_impl; [| exact Hprops']. cbn. tauto.
        -- eapply Forall_impl; [| exact Hprops']. cbn. tauto.
Qed.

Lemma list_sum_count_split : forall (l1 l2 : list Variant) (x x' : Variant),
  count x' = S (count x) ->
  list_sum (map (@count FieldAgg) (l1 ++ x' :: l2))
  = S (list_sum (map (@count FieldAgg) (l1 ++ x :: l2))).
Proof.
  intros l1 l2 x x' H. rewrite !map_app, !list_sum_app. cbn. lia.
Qed.

Lemma wellFormed_elements : forall els,
  wellFormed (VArray els) = true -> Forall (fun el => wellFormed el = true) els.
Proof.
  intros els H. apply Forall_forall. apply forallb_forall. exact H.
Qed.

Lemma wellFormed_entries : forall es,
  wellFormed (VObject es) = true ->
  distinctKeys (map fst es) = true
  /\ Forall (fun kv => wellFormed (snd kv) = true) es.
Proof.
  intros es H.
  change (distinctKeys (map fst es)
          && forallb (fun kv => wellFormed (snd kv)) es = true) in H.
  apply andb_true_iff in H as [H1 H2]. split; auto.
  apply Forall_forall. apply (proj1 (forallb_forall _ _) H2).
Qed.

Lemma addValueSample_step : forall b v,
  subvaluesOK b v -> (b = true -> wellFormed v = true) -> StepOK b v.
Proof.
  intros b v Hsub Hwf fa Hinv.
  apply Inv_iff in Hinv as [[Hsum [Hnd Hloc]] Hnodes].
  destruct (getOrCreateVariant_split (variants fa) (detectKind v))
    as [l1 [x [l2 [Hsplit [Hl1 [Hx Hcase]]]]]].
  assert (Hready : variantReady b x).
  { destruct Hcase as [[Hvs _] | [_ [_ [-> _]]]].
    - rewrite Hvs in Hloc, Hnodes.
      apply Forall_app in Hloc as [_ Hloc]. apply Forall_app in Hnodes as [_ Hnodes].
      inversion Hloc; inversion Hnodes; subst. now apply variantReady_old.
    - apply variantReady_new. }
  destruct (sampleVariant_Inv b v x Hsub Hwf Hx Hready)
    as [x' [Es [Hk' [Hc' [Hloc' Hnodes']]]]].
  exists (MkFieldAgg (S (presentCount fa)) (l1 ++ x' :: l2)).
  split; [eapply addValueSample_intro; eauto | split; [| reflexivity]].
  assert (Hrest : Forall variantLocal l1 /\ Forall variantLocal l2
                  /\ Forall (variantNodes b) l1 /\ Forall (variantNodes b) l2).
  { destruct Hcase as [[Hvs _] | [Hvs [-> _]]].
    - rewrite Hvs in Hloc, Hnodes.
      apply Forall_app in Hloc as [Ha Hb]. apply Forall_app in Hnodes as [Hc Hd].
      inversion Hb; inversion Hd; subst. auto.
    - subst l1. auto. }
  destruct Hrest as [R1 [R2 [R3 R4]]].
  apply Inv_iff. unfold fieldLocal, countsAddUp in *. cbn [variants presentCount].
  split; [split; [| split] |].
  - idtac.
    rewrite (list_sum_count_split l1 l2 x x' Hc'). f_equal.
    destruct Hcase as [[Hvs _] | [Hvs [-> [-> _]]]].
    + now rewrite <- Hvs.
    + subst l1. rewrite Hsum, map_app, list_sum_app. cbn. now rewrite Nat.add_0_r.
  - assert (Hkinds : map (@kind FieldAgg) (l1 ++ x' :: l2)
                     = map (@kind FieldAgg) (l1 ++ x :: l2)).
    { rewrite !map_app. cbn. now rewrite Hk'. }
    rewrite Hkinds.
    destruct Hcase as [[Hvs _] | [Hvs [-> [-> Hnone]]]].
    + now rewrite <- Hvs.
    + subst l1. rewrite map_app. cbn. apply NoDup_app; auto.
      * constructor; [intros [] | constructor].
      * intros k Hin [E | []]. subst k.
        apply findVariant_None in Hnone. contradiction.
  - apply Forall_app; split; auto.
  - apply Forall_app; split; auto.
Qed.

(** Every call of [addValueSample] on an aggregate that satisfies the
    invariant returns and keeps the invariant (the presence bound when
    the value is well formed). *)
Lemma addValueSample_Inv : forall v b,
  (b = true -> wellFormed v = true) -> StepOK b v.
Proof.
  induction v using Value_nested_ind; intros flag Hwf;
    apply addValueSample_step; auto; try exact I.
  - cbn. rewrite Forall_forall in *. intros el Hin. apply H; auto.
    intro Hb. specialize (Hwf Hb). apply wellFormed_elements in Hwf.
    rewrite Forall_forall in Hwf. auto.
  - cbn. rewrite Forall_forall in *. intros kv Hin. apply H; auto.
    intro Hb. specialize (Hwf Hb). apply wellFormed_entries in Hwf as [_ Hwf].
    rewrite Forall_forall in Hwf. auto.
Qed.

Lemma InvObject_fresh : forall b, InvObject b makeObjectAgg.
Proof. intro b. split; [split |]; cbn; constructor. Qed.

Lemma addObjectSample_Inv : forall b oa obj,
  InvObject b oa -> (b = true -> wellFormedDoc obj = true) ->
  exists oa', addObjectSample oa obj = Some oa' /\ InvObject b oa'
              /\ totalSeen oa' = S (totalSeen oa).
Proof.
  intros b oa obj [[Hnd Hloc] Hch] Hwf. unfold addObjectSample.
  destruct (sampleEntries_Inv b (totalSeen oa) obj (properties oa))
    as [props' [E' [Hnd' Hprops']]]; auto.
  - apply Forall_forall. intros kv Hin. apply addValueSample_Inv.
    intro Hb. specialize (Hwf Hb). apply wellFormed_entries in Hwf as [_ Hwf].
    rewrite Forall_forall in Hwf. auto.
  - intro Hb. specialize (Hwf Hb). apply wellFormed_entries in Hwf. tauto.
  - rewrite Forall_forall in *. intros kf Hin.
    destruct (Hloc kf Hin) as [H1 H2].
    split; [exact (Hch kf Hin) | split; [exact H1 |]].
    intro Hb. specialize (H2 Hb). split; lia.
  - rewrite E'. cbn [obind]. eexists; split; [reflexivity |]. split; [| reflexivity].
    split; [split |]; cbn; auto.
    + eapply Forall_impl; [| exact Hprops']. cbn. tauto.
    + eapply Forall_impl; [| exact Hprops']. cbn. tauto.
Qed.

Lemma foldDocs_cons : forall agg d docs,
  foldDocs agg (d :: docs) = (a <- addObjectSample agg d ;; foldDocs a docs).
Proof.
  intros. unfold foldDocs. cbn. destruct (addObjectSample agg d); cbn; auto.
  apply (fold_left_obind_None _ _ addObjectSample).
Qed.

Lemma foldDocs_Inv : forall b docs oa,
  InvObject b oa -> (b = true -> Forall (fun d => wellFormedDoc d = true) docs) ->
  exists oa', foldDocs oa docs = Some oa' /\ InvObject b oa'
              /\ totalSeen oa' = totalSeen oa + List.length docs.
Proof.
  intros b docs. induction docs as [| d docs IH]; intros oa Hinv Hwf.
  - exists oa. split; [reflexivity | split; [assumption | cbn; lia]].
  - destruct (addObjectSample_Inv b oa d Hinv) as [oa1 [E1 [Hinv1 Hts1]]].
    { intro Hb. specialize (Hwf Hb). now inversion Hwf. }
    destruct (IH oa1 Hinv1) as [oa' [E' [Hinv' Hts']]].
    { intro Hb. specialize (Hwf Hb). now inversion Hwf. }
    exists oa'. rewrite foldDocs_cons, E1. cbn [obind].
    split; [exact E' | split; [assumption |]]. rewrite Hts', Hts1. cbn [List.length]. lia.
Qed.

Lemma foldValues_Inv : forall b vs fa,
  Inv b fa -> (b = true -> Forall (fun v => wellFormed v = true) vs) ->
  exists fa', foldValues fa vs = Some fa' /\ Inv b fa'
              /\ presentCount fa' = presentCount fa + List.length vs.
Proof.
  intros b vs fa Hinv Hwf. apply sampleElements_Inv; auto.
  apply Forall_forall. intros v Hin. apply addValueSample_Inv.
  intro Hb. specialize (Hwf Hb). rewrite Forall_forall in Hwf. auto.
Qed.

Lemma AllNodes_impl :
  forall (PF PF' : FieldAgg -> Prop) (PO PO' : ObjectAgg -> Prop)
         (PA PA' : ArrayAgg -> Prop),
  (forall fa, PF fa -> PF' fa) -> (forall oa, PO oa -> PO' oa) ->
  (forall aa, PA aa -> PA' aa) ->
  forall fa, AllNodes PF PO PA fa -> AllNodes PF' PO' PA' fa.
Proof.
  intros PF PF' PO PO' PA PA' HF HO HA. fix IH 2.
  intros fa [fa' Hpf Hvs]. constructor; auto.
  induction Hvs as [| v vs [Ho Ha] _ IHv]; constructor; auto. split.
  - intros oa E. destruct (Ho oa E) as [Hpo Hch]. split; auto.
    induction Hch; constructor; auto.
  - intros aa E. destruct (Ha aa E) as [Hpa Hit]. split; auto.
Qed.

Lemma objectLocal_bounded : forall oa, objectLocal true oa -> presenceBounded oa.
Proof.
  intros oa [_ H] k child Hin. rewrite Forall_forall in H.
  destruct (H _ Hin) as [_ Hb]. cbn in Hb. auto.
Qed.

Lemma fieldLocal_counts : forall fa, fieldLocal fa -> countsAddUp fa.
Proof. intros fa H; apply H. Qed.

Lemma Inv_data_model : forall fa,
  Inv true fa -> AllNodes countsAddUp presenceBounded (fun _ => True) fa.
Proof.
  apply AllNodes_impl; auto using objectLocal_bounded, fieldLocal_counts.
Qed.

Lemma InvObject_data_model : forall oa,
  InvObject true oa ->
  AllNodesObject countsAddUp presenceBounded (fun _ => True) oa.
Proof.
  intros oa [H1 H2]. split; [now apply objectLocal_bounded |].
  eapply Forall_impl; [| exact H2]. intros kf. apply Inv_data_model.
Qed.

Lemma runCalls_cons : forall st c cs,
  runCalls st (c :: cs) = (s <- runCall st c ;; runCalls s cs).
Proof.
  intros. unfold runCalls. cbn. destruct (runCall st c); cbn; auto.
  apply (fold_left_obind_None _ _ runCall).
Qed.

Lemma runCalls_Inv : forall b cs fa oa,
  Inv b fa -> InvObject b oa ->
  (b = true -> Forall (fun c => wellFormedCall c = true) cs) ->
  exists fa' oa', runCalls (fa, oa) cs = Some (fa', oa')
                  /\ Inv b fa' /\ InvObject b oa'.
Proof.
  intros b cs. induction cs as [| c cs IH]; intros fa oa Hf Ho Hwf.
  - exists fa, oa. auto.
  - assert (Hc : b = true -> wellFormedCall c = true).
    { intro Hb. specialize (Hwf Hb). now inversion Hwf. }
    assert (Hcs : b = true -> Forall (fun c => wellFormedCall c = true) cs).
    { intro Hb. specialize (Hwf Hb). now inversion Hwf. }
    rewrite runCalls_cons. destruct c as [v | obj]; cbn [runCall fst snd].
    + destruct (addValueSample_Inv v b Hc fa Hf) as [fa1 [E1 [Hf1 _]]].
      rewrite E1. cbn [obind]. apply IH; auto.
    + destruct (addObjectSample_Inv b oa obj Ho Hc) as [oa1 [E1 [Ho1 _]]].
      rewrite E1. cbn [obind]. apply IH; auto.
Qed.

(** C4. Starting from freshly created aggregates, after any sequence of
    [addValueSample] and [addObjectSample] calls on values whose objects
    have distinct keys, the calls have all returned, every field
    aggregate of the two trees has [presentCount] equal to the sum of its
    variants' counts, and in every object aggregate each property's
    [presentCount] is at most [totalSeen]. *)
Theorem sampler_invariants : forall calls : list Call,
  Forall (fun c => wellFormedCall c = true) calls ->
  exists fa oa,
    runCalls (makeFieldAgg, makeObjectAgg) calls = Some (fa, oa)
    /\ AllNodes countsAddUp presenceBounded (fun _ => True) fa
    /\ AllNodesObject countsAddUp presenceBounded (fun _ => True) oa.
Proof.
  intros calls Hwf.
  destruct (runCalls_Inv true calls makeFieldAgg makeObjectAgg)
    as [fa [oa [E [Hf Ho]]]]; auto using Inv_fresh, InvObject_fresh.
  exists fa, oa. split; [exact E |]. split.
  - now apply Inv_data_model.
  - now apply InvObject_data_model.
Qed.

Lemma sampler_invariants_witness :
  Forall (fun c => wellFormedCall c = true) sampleCalls
  /\ exists fa oa,
       runCalls (makeFieldAgg, makeObjectAgg) sampleCalls = Some (fa, oa)
       /\ AllNodes countsAddUp presenceBounded (fun _ => True) fa
       /\ AllNodesObject countsAddUp presenceBounded (fun _ => True) oa.
Proof.
  assert (H : Forall (fun c => wellFormedCall c = true) sampleCalls).
  { repeat constructor. }
  split; [exact H | exact (sampler_invariants sampleCalls H)].
Defined.

Lemma addValueSample_keeps_Inv : forall b fa v fa',
  (b = true -> wellFormed v = true) ->
  Inv b fa -> addValueSample fa v = Some fa' -> Inv b fa'.
Proof.
  intros b fa v fa' Hwf Hinv E.
  destruct (addValueSample_Inv v b Hwf fa Hinv) as [fa'' [E' [H _]]].
  congruence.
Qed.

Lemma addValueSample_presentCount : forall fa v fa',
  addValueSample fa v = Some fa' -> presentCount fa' = S (presentCount fa).
Proof.
  intros fa v fa' E. apply addValueSample_inv in E
    as [l1 [x [x' [l2 [_ [_ [_ [_ ->]]]]]]]]. reflexivity.
Qed.

Lemma findVariant_snoc_neq : forall (l : list Variant) y k,
  kind y <> k -> findVariant (l ++ [y]) k = findVariant l k.
Proof.
  intros l y k Hne. unfold findVariant. induction l as [| z l IH]; cbn.
  - apply String.eqb_neq in Hne. now rewrite Hne.
  - destruct (kind z == k); auto.
Qed.

(** The variants of other kinds are left alone. *)
Lemma findVariant_add_other : forall fa v fa' k,
  addValueSample fa v = Some fa' -> k <> detectKind v ->
  findVariant (variants fa') k = findVariant (variants fa) k.
Proof.
  intros fa v fa' k E Hne. apply addValueSample_inv in E
    as [l1 [x [x' [l2 [Hl1 [Hx [Hcase [Es ->]]]]]]]]. cbn [variants].
  apply sampleVariant_kind in Es as [Hk' _].
  rewrite (findVariant_split_neq (detectKind v) k l1 x x' l2); try congruence.
  destruct Hcase as [[-> _] | [-> [-> [Hnew _]]]]; auto.
  apply findVariant_snoc_neq. congruence.
Qed.

(** The variant of the sampled kind is the old one, or a new one,
    after [sampleVariant]. *)
Lemma findVariant_add_same : forall fa v fa',
  addValueSample fa v = Some fa' ->
  exists x x',
    findVariant (variants fa') (detectKind v) = Some x'
    /\ sampleVariant addValueSample v x = Some x'
    /\ kind x = detectKind v
    /\ (findVariant (variants fa) (detectKind v) = Some x
        \/ (findVariant (variants fa) (detectKind v) = None
            /\ x = newVariant (detectKind v))).
Proof.
  intros fa v fa' E. apply addValueSample_inv in E
    as [l1 [x [x' [l2 [Hl1 [Hx [Hcase [Es ->]]]]]]]]. cbn [variants].
  exists x, x'. split; [| split; [exact Es | split; [exact Hx |]]].
  - apply findVariant_split_eq; auto.
    apply sampleVariant_kind in Es as [Hk' _]. congruence.
  - destruct Hcase as [[_ H] | [_ [_ [H1 H2]]]]; auto.
Qed.

Lemma Inv_findVariant : forall b fa k x,
  Inv b fa -> findVariant (variants fa) k = Some x ->
  variantLocal x /\ variantNodes b x.
Proof.
  intros b fa k x Hinv E. apply Inv_iff in Hinv as [[_ [_ Hloc]] Hnodes].
  apply find_some in E as [Hin _]. rewrite Forall_forall in *. auto.
Qed.

Lemma Inv_objectOf : forall b fa oa,
  Inv b fa -> objectOf fa = Some oa ->
  objectLocal b oa /\ Forall (fun kf => Inv b (snd kf)) (properties oa).
Proof.
  intros b fa oa Hinv E. unfold objectOf in E. obind_inv E.
  destruct (Inv_findVariant _ _ _ _ Hinv E0) as [_ [Ho _]]. auto.
Qed.

Lemma Inv_arrayOf : forall b fa aa it,
  Inv b fa -> arrayOf fa = Some aa -> items aa = Some it ->
  Inv b it /\ 1 <= presentCount it.
Proof.
  intros b fa aa it Hinv E Eit. unfold arrayOf in E. obind_inv E.
  destruct (Inv_findVariant _ _ _ _ Hinv E0) as [_ [_ Ha]].
  destruct (Ha aa E) as [Hal Hit]. split; auto.
Qed.

Lemma Inv_child : forall b fa st c,
  Inv b fa -> stepField fa st = Some c -> Inv b c.
Proof.
  intros b fa st c Hinv E. destruct st as [k |]; cbn in E.
  - obind_inv E. destruct (Inv_objectOf _ _ _ Hinv E0) as [_ Hch].
    apply Map_get_In in E. rewrite Forall_forall in Hch. apply (Hch _ E).
  - obind_inv E. eapply Inv_arrayOf; eauto.
Qed.

(** The object aggregate of a field after one sample. *)
Lemma objectOf_add : forall fa v fa',
  Inv false fa -> addValueSample fa v = Some fa' ->
  match v with
  | VObject entries =>
      exists props',
        sampleEntries addValueSample
          (match objectOf fa with Some oa => properties oa | None => [] end)
          entries = Some props'
        /\ objectOf fa'
           = Some (MkObjectAgg
                     (S (match objectOf fa with Some oa => totalSeen oa | None => 0 end))
                     props')
  | _ => objectOf fa' = objectOf fa
  end.
Proof.
  intros fa v fa' Hinv E.
  assert (Hother : detectKind v <> "object" -> objectOf fa' = objectOf fa).
  { intro Hne. unfold objectOf. now rewrite (findVariant_add_other _ _ _ _ E) by congruence. }
  destruct v; try (apply Hother; cbn; discriminate).
  destruct (findVariant_add_same _ _ _ E) as [x [x' [Ef' [Es [Hk Hcase]]]]].
  cbn in Ef', Hk, Hcase. unfold objectOf. rewrite Ef'.
  unfold sampleVariant in Es. cbn [withCount object] in Es.
  obind_inv Es. obind_inv Es.
  inversion Es; subst x'. cbn [obind object withObject].
  destruct Hcase as [Hf | [Hf ->]]; rewrite Hf; cbn [obind].
  - rewrite E0. exists x1. split; auto.
  - cbn in E0. inversion E0; subst x0. cbn. exists x1. auto.
Qed.

(** The array aggregate of a field after one sample. *)
Lemma arrayOf_add : forall fa v fa',
  Inv false fa -> addValueSample fa v = Some fa' ->
  match v with
  | VArray [] => (aa' <- arrayOf fa' ;; items aa') = (aa <- arrayOf fa ;; items aa)
  | VArray (el :: els) =>
      exists it',
        sampleElements addValueSample
          (match (aa <- arrayOf fa ;; items aa) with
           | Some it => it
           | None => makeFieldAgg
           end) (el :: els) = Some it'
        /\ (aa' <- arrayOf fa' ;; items aa') = Some it'
  | _ => arrayOf fa' = arrayOf fa
  end.
Proof.
  intros fa v fa' Hinv E.
  assert (Hother : detectKind v <> "array" -> arrayOf fa' = arrayOf fa).
  { intro Hne. unfold arrayOf. now rewrite (findVariant_add_other _ _ _ _ E) by congruence. }
  destruct v; try (apply Hother; cbn; discriminate).
  destruct (findVariant_add_same _ _ _ E) as [x [x' [Ef' [Es [Hk Hcase]]]]].
  cbn in Ef', Hk, Hcase. unfold arrayOf. rewrite Ef'.
  unfold sampleVariant in Es. cbn [withCount array] in Es.
  obind_inv Es. destruct elements as [| el els].
  - inversion Es; subst x'. cbn [obind array withArray items].
    destruct Hcase as [Hf | [Hf ->]]; rewrite Hf; cbn [obind].
    + now rewrite E0.
    + cbn in E0. inversion E0; subst x0. reflexivity.
  - obind_inv Es. inversion Es; subst x'. cbn [obind array withArray items].
    exists x1. split; auto.
    destruct Hcase as [Hf | [Hf ->]]; rewrite Hf; cbn [obind].
    + now rewrite E0.
    + cbn in E0. inversion E0; subst x0. exact E1.
Qed.

Lemma fieldAt_cons : forall fa st p,
  fieldAt fa (st :: p) = fieldAtOpt (stepField fa st) p.
Proof. reflexivity. Qed.

Lemma stepField_fresh : forall st, stepField makeFieldAgg st = None.
Proof. destruct st; reflexivity. Qed.

Section Observation.
  Variable A : Type.
  (** What is read off the aggregate at a position. *)
  Variable f : option FieldAgg -> A.
  (** What one more observed value does to it. *)
  Variable g : A -> Value -> A.
  Hypothesis f_fresh : f (Some makeFieldAgg) = f None.
  Hypothesis f_step : forall fa v fa',
    Inv false fa -> addValueSample fa v = Some fa' ->
    f (Some fa') = g (f (Some fa)) v.

Lemma observe_fresh : forall p, f (fieldAt makeFieldAgg p) = f None.
Proof.
  destruct p as [| st p]; cbn [fieldAt]; auto.
  now rewrite stepField_fresh.
Qed.

Lemma observe_default : forall o p,
  f (fieldAt (match o with Some c => c | None => makeFieldAgg end) p)
  = f (fieldAtOpt o p).
Proof. intros [c |] p; cbn; auto. apply observe_fresh. Qed.

Lemma sampleElements_observed : forall p els it it',
  ObservedAt A f g p -> Inv false it ->
  sampleElements addValueSample it els = Some it' ->
  f (fieldAt it' p)
  = fold_left g (flat_map (occurrences p) els) (f (fieldAt it p)).
Proof.
  intros p els. induction els as [| el els IH]; intros it it' Hp Hinv E.
  - cbn in E. inversion E; subst. reflexivity.
  - rewrite sampleElements_cons in E. obind_inv E.
    cbn [flat_map]. rewrite fold_left_app, <- (Hp it el x Hinv E0).
    apply IH; auto.
    eapply addValueSample_keeps_Inv; eauto. discriminate.
Qed.

Lemma sampleEntries_observed : forall p k es props props',
  ObservedAt A f g p -> Forall (fun kf => Inv false (snd kf)) props ->
  sampleEntries addValueSample props es = Some props' ->
  f (fieldAtOpt (Map_get k props') p)
  = fold_left g
      (flat_map (fun kv => if fst kv == k then occurrences p (snd kv) else []) es)
      (f (fieldAtOpt (Map_get k props) p)).
Proof.
  intros p k es. induction es as [| [k0 v0] es IH]; intros props props' Hp Hinv E.
  - cbn in E. inversion E; subst. reflexivity.
  - rewrite sampleEntries_cons in E. obind_inv E. cbn [fst snd] in E0.
    unfold sampleEntry in E0. obind_inv E0. inversion E0; subst x. clear E0.
    set (child := match Map_get k0 props with
                  | Some c => c
                  | None => makeFieldAgg
                  end) in *.
    assert (Hchild : Inv false child).
    { unfold child. destruct (Map_get k0 props) eqn:Eg; [| apply Inv_fresh].
      apply Map_get_In in Eg. rewrite Forall_forall in Hinv. apply (Hinv _ Eg). }
    assert (Hchild' : Inv false x0).
    { eapply addValueSample_keeps_Inv; eauto. discriminate. }
    cbn [flat_map fst snd]. rewrite fold_left_app.
    rewrite (IH (Map_set k0 x0 props) props' Hp); auto.
    + f_equal. destruct (k0 == k) eqn:Ek.
      * string_cases. rewrite Map_get_set_eq. cbn [fieldAtOpt obind].
        rewrite (Hp child v0 x0 Hchild E1). f_equal.
        unfold child. apply observe_default.
      * string_cases. rewrite Map_get_set_neq by auto. reflexivity.
    + apply Map_set_Forall; auto.
Qed.

Lemma observed_everywhere : forall p, ObservedAt A f g p.
Proof.
  induction p as [| st p IH]; intros fa v fa' Hinv E.
  - cbn. now apply f_step.
  - rewrite !fieldAt_cons. destruct st as [k |].
    + (* into a property *)
      pose proof (objectOf_add fa v fa' Hinv E) as Ho.
      cbn [stepField occurrences].
      destruct v;
        try (rewrite Ho; reflexivity).
      destruct Ho as [props' [Es Eo]]. rewrite Eo. cbn [obind properties].
      rewrite (fun H => sampleEntries_observed p k entries _ props' IH H Es).
      * f_equal. destruct (objectOf fa); reflexivity.
      * destruct (objectOf fa) as [oa |] eqn:Eoa; [| constructor].
        apply (Inv_objectOf _ _ _ Hinv Eoa).
    + (* into the elements *)
      pose proof (arrayOf_add fa v fa' Hinv E) as Ha.
      cbn [stepField occurrences].
      destruct v;
        try (rewrite Ha; reflexivity).
      destruct elements as [| el els].
      * rewrite Ha. reflexivity.
      * destruct Ha as [it' [Es Ea]]. rewrite Ea.
        cbn [fieldAtOpt obind].
        rewrite (fun H => sampleElements_observed p (el :: els) _ it' IH H Es).
        -- f_equal. apply observe_default.
        -- destruct (aa <- arrayOf fa ;; items aa) as [it |] eqn:Eit;
             [| apply Inv_fresh].
           obind_inv Eit. eapply Inv_arrayOf; eauto.
Qed.

(** The same at the root aggregate, for one document and for a run of
    documents. *)
Lemma addObjectSample_observed : forall p agg doc agg',
  InvObject false agg -> addObjectSample agg doc = Some agg' ->
  f (rootFieldAt agg' p)
  = fold_left g (docOccurrences p doc) (f (rootFieldAt agg p)).
Proof.
  intros p agg doc agg' [_ Hch] E. unfold addObjectSample in E. obind_inv E.
  inversion E; subst agg'. clear E.
  destruct p as [| [k |] p]; try reflexivity.
  cbn [rootFieldAt docOccurrences properties].
  apply (sampleEntries_observed p k doc (properties agg) x); auto.
  apply observed_everywhere.
Qed.

Lemma foldDocs_observed : forall p docs agg agg',
  InvObject false agg -> foldDocs agg docs = Some agg' ->
  f (rootFieldAt agg' p)
  = fold_left g (flat_map (docOccurrences p) docs) (f (rootFieldAt agg p)).
Proof.
  intros p docs. induction docs as [| d docs IH]; intros agg agg' Hinv E.
  - cbn in E. inversion E; subst. reflexivity.
  - rewrite foldDocs_cons in E. obind_inv E.
    cbn [flat_map]. rewrite fold_left_app.
    rewrite <- (addObjectSample_observed p agg d x Hinv E0).
    apply IH; auto.
    destruct (addObjectSample_Inv false agg d Hinv) as [agg1 [E1 [H1 _]]];
      [discriminate | congruence].
Qed.

End Observation.

(** ** What a list of observed values amounts to *)

Lemma fold_seeValue : forall vs n, fold_left seeValue vs n = n + List.length vs.
Proof.
  induction vs as [| v vs IH]; intro n; cbn; [lia |].
  rewrite IH. unfold seeValue. lia.
Qed.

Lemma fold_seeKind : forall k vs n,
  fold_left (seeKind k) vs n = n + countKind k vs.
Proof.
  intros k vs. unfold countKind.
  induction vs as [| v vs IH]; intro n; cbn; [lia |].
  rewrite IH. unfold seeKind. destruct (detectKind v == k); cbn; lia.
Qed.

Lemma fold_seeNumber : forall vs o,
  fold_left seeNumber vs o = mergeOpt andb o (integerOnlyOf vs).
Proof.
  induction vs as [| v vs IH]; intro o.
  - destruct o; reflexivity.
  - cbn [fold_left]. rewrite IH. unfold integerOnlyOf.
    destruct v;
      try (change (numbersOf (?v :: vs)) with (numbersOf vs); reflexivity).
    change (numbersOf (VNumber n :: vs)) with (n :: numbersOf vs).
    cbn [seeNumber].
    destruct (numbersOf vs) as [| m ns]; destruct o; cbn;
      rewrite ?andb_true_r, ?andb_assoc; reflexivity.
Qed.

Lemma countKind_app : forall k l1 l2,
  countKind k (l1 ++ l2) = countKind k l1 + countKind k l2.
Proof. intros. unfold countKind. now rewrite filter_app, length_app. Qed.

Lemma countKind_perm : forall k l1 l2,
  Permutation l1 l2 -> countKind k l1 = countKind k l2.
Proof.
  intros k l1 l2 H. unfold countKind.
  induction H; cbn; auto.
  - destruct (detectKind x == k); cbn; auto.
  - destruct (detectKind x == k), (detectKind y == k); cbn; auto.
  - congruence.
Qed.

Lemma numbersOf_perm : forall l1 l2,
  Permutation l1 l2 -> Permutation (numbersOf l1) (numbersOf l2).
Proof. intros. unfold numbersOf. now apply Permutation_flat_map. Qed.

Lemma forallb_perm : forall (A : Type) (p : A -> bool) l1 l2,
  Permutation l1 l2 -> forallb p l1 = forallb p l2.
Proof.
  intros A p l1 l2 H. induction H; cbn; auto.
  - now rewrite IHPermutation.
  - destruct (p x), (p y); reflexivity.
  - congruence.
Qed.

Lemma integerOnlyOf_perm : forall l1 l2,
  Permutation l1 l2 -> integerOnlyOf l1 = integerOnlyOf l2.
Proof.
  intros l1 l2 H. apply numbersOf_perm in H. unfold integerOnlyOf.
  rewrite (forallb_perm _ _ _ _ H).
  destruct (numbersOf l1) as [| a l] eqn:E1.
  - apply Permutation_nil in H. now rewrite H.
  - destruct (numbersOf l2) eqn:E2; auto.
    apply Permutation_sym, Permutation_nil in H. discriminate.
Qed.

Lemma integerOnlyOf_app : forall l1 l2,
  integerOnlyOf (l1 ++ l2) = mergeOpt andb (integerOnlyOf l1) (integerOnlyOf l2).
Proof.
  intros l1 l2. unfold integerOnlyOf, numbersOf. rewrite flat_map_app.
  fold (numbersOf l1) (numbersOf l2).
  destruct (numbersOf l1) as [| a n1]; [destruct (numbersOf l2); reflexivity |].
  destruct (numbersOf l2) as [| c n2].
  - now rewrite app_nil_r.
  - cbn [mergeOpt]. f_equal.
    change ((a :: n1) ++ c :: n2) with ((a :: n1) ++ (c :: n2)).
    now rewrite forallb_app.
Qed.

(** ** The three observations follow the sampler *)

Lemma presentCountAt_step : forall fa v fa',
  Inv false fa -> addValueSample fa v = Some fa' ->
  presentCountAt (Some fa') = seeValue (presentCountAt (Some fa)) v.
Proof. intros fa v fa' _ E. cbn. exact (addValueSample_presentCount fa v fa' E). Qed.

Lemma countAt_step : forall k fa v fa',
  Inv false fa -> addValueSample fa v = Some fa' ->
  countAt k (Some fa') = seeKind k (countAt k (Some fa)) v.
Proof.
  intros k fa v fa' _ E. unfold seeKind, countAt.
  destruct (detectKind v == k) eqn:Ek.
  - string_cases.
    destruct (findVariant_add_same _ _ _ E) as [x [x' [Ef' [Es [Hk Hcase]]]]].
    rewrite Ef'. apply sampleVariant_kind in Es as [_ Hc]. rewrite Hc.
    destruct Hcase as [-> | [-> ->]]; reflexivity.
  - string_cases. now rewrite (findVariant_add_other _ _ _ k E) by auto.
Qed.

Lemma integerOnlyAt_step : forall fa v fa',
  Inv false fa -> addValueSample fa v = Some fa' ->
  integerOnlyAt (Some fa') = seeNumber (integerOnlyAt (Some fa)) v.
Proof.
  intros fa v fa' Hinv E. unfold integerOnlyAt, numberOf. cbn [obind].
  assert (Hother : detectKind v <> "number" ->
                   findVariant (variants fa') "number"
                   = findVariant (variants fa) "number").
  { intro Hne. apply (findVariant_add_other _ _ _ _ E). congruence. }
  destruct v; cbn [seeNumber]; try (rewrite Hother by (cbn; discriminate); reflexivity).
  destruct (findVariant_add_same _ _ _ E) as [x [x' [Ef' [Es [Hk Hcase]]]]].
  cbn in Ef', Hk, Hcase. rewrite Ef'. cbn [obind].
  unfold sampleVariant in Es.
  destruct Hcase as [Hf | [Hf ->]]; rewrite Hf; cbn [obind].
  - destruct (Inv_findVariant _ _ _ _ Hinv Hf) as [[_ [_ [_ [Hn _]]]] _].
    destruct (Hn Hk) as [na Ena]. rewrite Ena. cbn [obind].
    destruct (Number_isInteger n).
    + inversion Es; subst x'. cbn. rewrite Ena. cbn. now rewrite andb_true_r.
    + cbn [withCount number] in Es. rewrite Ena in Es. cbn in Es.
      inversion Es; subst x'. cbn. now rewrite andb_false_r.
  - cbn in Es. destruct (Number_isInteger n); inversion Es; subst x'; reflexivity.
Qed.

(** ** Merge *)

Lemma mergeOpt_None_r : forall (A : Type) (f : A -> A -> A) x, mergeOpt f x None = x.
Proof. intros A f [a |]; reflexivity. Qed.

Lemma mergeField_eq : forall a b,
  mergeField a b
  = MkFieldAgg (presentCount a + presentCount b)
      (mergeVariants mergeField (variants a) (variants b)).
Proof. intros [pa va] b; reflexivity. Qed.

Lemma find_filter_implied : forall (A : Type) (p q : A -> bool) l,
  (forall x, p x = true -> q x = true) -> find p (filter q l) = find p l.
Proof.
  intros A p q l H. induction l as [| x l IH]; cbn; auto.
  destruct (q x) eqn:Eq; cbn.
  - now rewrite IH.
  - destruct (p x) eqn:Ep; auto. apply H in Ep. congruence.
Qed.

Lemma find_app_first : forall (A : Type) (p : A -> bool) l1 l2,
  find p (l1 ++ l2)
  = match find p l1 with
    | Some x => Some x
    | None => find p l2
    end.
Proof.
  intros A p l1 l2. induction l1 as [| x l1 IH]; cbn; auto.
  destruct (p x); auto.
Qed.

Lemma find_map_same : forall (A : Type) (p : A -> bool) (F : A -> A) l,
  (forall x, p (F x) = p x) ->
  find p (map F l) = option_map F (find p l).
Proof.
  intros A p F l H. induction l as [| x l IH]; cbn; auto.
  rewrite H. destruct (p x); auto.
Qed.

Lemma findVariant_mergeVariants : forall merge xs ys k,
  findVariant (mergeVariants merge xs ys) k
  = mergeOpt (mergeVariantWith merge) (findVariant xs k) (findVariant ys k).
Proof.
  intros merge xs ys k. unfold mergeVariants, findVariant.
  rewrite find_app_first, find_map_same.
  - destruct (find (fun x => kind x == k) xs) as [va |] eqn:Ea; cbn [option_map].
    + apply find_some in Ea as [_ Ek]. string_cases.
      fold (findVariant ys (kind va)).
      destruct (findVariant ys (kind va)); reflexivity.
    + rewrite find_filter_implied; [reflexivity |].
      intros vb E. string_cases. fold (findVariant xs (kind vb)).
      unfold findVariant. now rewrite Ea.
  - intro x. fold (findVariant ys (kind x)).
    destruct (findVariant ys (kind x)); reflexivity.
Qed.

Lemma Map_get_app : forall (A : Type) k (l1 l2 : list (string * A)),
  Map_get k (l1 ++ l2)
  = match Map_get k l1 with
    | Some a => Some a
    | None => Map_get k l2
    end.
Proof.
  intros A k l1 l2. induction l1 as [| [k0 a0] l1 IH]; cbn; auto.
  destruct (k0 == k); auto.
Qed.

Lemma Map_get_map : forall (A : Type) (G : string -> A -> A) k (l : list (string * A)),
  Map_get k (map (fun kf => (fst kf, G (fst kf) (snd kf))) l)
  = option_map (G k) (Map_get k l).
Proof.
  intros A G k l. induction l as [| [k0 a0] l IH]; cbn; auto.
  destruct (k0 == k) eqn:E; auto. string_cases. reflexivity.
Qed.

Lemma Map_get_filter : forall (A : Type) (q : string -> bool) k (l : list (string * A)),
  Map_get k (filter (fun kf => q (fst kf)) l)
  = if q k then Map_get k l else None.
Proof.
  intros A q k l. induction l as [| [k0 a0] l IH]; cbn.
  - destruct (q k); reflexivity.
  - destruct (q k0) eqn:E0; cbn.
    + destruct (k0 == k) eqn:E; auto. string_cases. now rewrite E0.
    + rewrite IH. destruct (k0 == k) eqn:E; auto. string_cases. now rewrite E0.
Qed.

Lemma Map_get_mergeProperties : forall merge pa pb k,
  Map_get k (mergeProperties merge pa pb)
  = mergeOpt merge (Map_get k pa) (Map_get k pb).
Proof.
  intros merge pa pb k. unfold mergeProperties.
  rewrite Map_get_app.
  rewrite (Map_get_map _ (fun key a => match Map_get key pb with
                                       | Some fb => merge a fb
                                       | None => a
                                       end) k pa).
  rewrite (Map_get_filter _ (fun key => negb (Map_has key pa)) k pb).
  rewrite Map_has_get.
  destruct (Map_get k pa), (Map_get k pb); reflexivity.
Qed.

Lemma objectOf_mergeField : forall a b,
  objectOf (mergeField a b)
  = mergeOpt (mergeObjectWith mergeField) (objectOf a) (objectOf b).
Proof.
  intros a b. unfold objectOf. rewrite mergeField_eq. cbn [variants].
  rewrite findVariant_mergeVariants.
  destruct (findVariant (variants a) "object") as [va |],
           (findVariant (variants b) "object") as [vb |]; cbn; auto.
  destruct (object va); reflexivity.
Qed.

Lemma arrayOf_mergeField : forall a b,
  arrayOf (mergeField a b)
  = mergeOpt (mergeArrayWith mergeField) (arrayOf a) (arrayOf b).
Proof.
  intros a b. unfold arrayOf. rewrite mergeField_eq. cbn [variants].
  rewrite findVariant_mergeVariants.
  destruct (findVariant (variants a) "array") as [va |],
           (findVariant (variants b) "array") as [vb |]; cbn; auto.
  destruct (array va); reflexivity.
Qed.

Lemma numberOf_mergeField : forall a b,
  numberOf (mergeField a b) = mergeOpt mergeNumber (numberOf a) (numberOf b).
Proof.
  intros a b. unfold numberOf. rewrite mergeField_eq. cbn [variants].
  rewrite findVariant_mergeVariants.
  destruct (findVariant (variants a) "number") as [va |],
           (findVariant (variants b) "number") as [vb |]; cbn; auto.
  destruct (number va); reflexivity.
Qed.

Lemma stepField_mergeField : forall a b st,
  stepField (mergeField a b) st
  = mergeOpt mergeField (stepField a st) (stepField b st).
Proof.
  intros a b [k |]; cbn [stepField].
  - rewrite objectOf_mergeField.
    destruct (objectOf a) as [oa |], (objectOf b) as [ob |]; cbn; auto.
    + apply Map_get_mergeProperties.
    + now rewrite mergeOpt_None_r.
  - rewrite arrayOf_mergeField.
    destruct (arrayOf a) as [aa |], (arrayOf b) as [ab |]; cbn; auto.
    now rewrite mergeOpt_None_r.
Qed.

Lemma fieldAt_merge : forall p x y,
  fieldAtOpt (mergeOpt mergeField x y) p
  = mergeOpt mergeField (fieldAtOpt x p) (fieldAtOpt y p).
Proof.
  induction p as [| st p IH]; intros [a |] [b |];
    cbn [mergeOpt fieldAtOpt obind];
    try (rewrite ?mergeOpt_None_r; reflexivity).
  rewrite !fieldAt_cons, stepField_mergeField. apply IH.
Qed.

Lemma rootFieldAt_mergeObject : forall A B p,
  rootFieldAt (mergeObject A B) p
  = mergeOpt mergeField (rootFieldAt A p) (rootFieldAt B p).
Proof.
  intros A B [| [k |] p]; try reflexivity.
  cbn [rootFieldAt]. unfold mergeObject, mergeObjectWith. cbn [properties].
  rewrite Map_get_mergeProperties. apply (fieldAt_merge p).
Qed.

Lemma presentCountAt_merge : forall x y,
  presentCountAt (mergeOpt mergeField x y) = presentCountAt x + presentCountAt y.
Proof.
  intros [a |] [b |]; cbn; try lia. now rewrite mergeField_eq.
Qed.

Lemma countAt_merge : forall k x y,
  countAt k (mergeOpt mergeField x y) = countAt k x + countAt k y.
Proof.
  intros k [a |] [b |]; cbn [mergeOpt countAt]; try lia.
  rewrite mergeField_eq. cbn [variants]. rewrite findVariant_mergeVariants.
  destruct (findVariant (variants a) k), (findVariant (variants b) k); cbn; lia.
Qed.

Lemma integerOnlyAt_merge : forall x y,
  integerOnlyAt (mergeOpt mergeField x y)
  = mergeOpt andb (integerOnlyAt x) (integerOnlyAt y).
Proof.
  intros [a |] [b |]; cbn [mergeOpt integerOnlyAt obind]; auto.
  - rewrite numberOf_mergeField.
    destruct (numberOf a), (numberOf b); reflexivity.
  - destruct (numberOf a); reflexivity.
Qed.

(** What an aggregate built from documents records at a field path, in
    terms of the values the documents hold there. *)
Lemma foldDocs_records : forall docs agg p k,
  foldDocs makeObjectAgg docs = Some agg ->
  let occs := flat_map (docOccurrences p) docs in
  presentCountAt (rootFieldAt agg p) = List.length occs
  /\ countAt k (rootFieldAt agg p) = countKind k occs
  /\ integerOnlyAt (rootFieldAt agg p) = integerOnlyOf occs.
Proof.
  intros docs agg p k E occs. subst occs.
  pose proof (InvObject_fresh false) as H0.
  assert (Hfresh : rootFieldAt makeObjectAgg p = None).
  { destruct p as [| [k0 |] p]; reflexivity. }
  split; [| split].
  - rewrite (foldDocs_observed _ presentCountAt seeValue eq_refl presentCountAt_step
               p docs makeObjectAgg agg H0 E).
    now rewrite fold_seeValue, Hfresh.
  - rewrite (foldDocs_observed _ (countAt k) (seeKind k) eq_refl (countAt_step k)
               p docs makeObjectAgg agg H0 E).
    now rewrite fold_seeKind, Hfresh.
  - rewrite (foldDocs_observed _ integerOnlyAt seeNumber eq_refl integerOnlyAt_step
               p docs makeObjectAgg agg H0 E).
    now rewrite fold_seeNumber, Hfresh.
Qed.

Lemma foldDocs_returns : forall docs,
  exists agg, foldDocs makeObjectAgg docs = Some agg.
Proof.
  intro docs.
  destruct (foldDocs_Inv false docs makeObjectAgg (InvObject_fresh false))
    as [agg [E _]]; [discriminate | eauto].
Qed.

(** C1. Folding a list of documents into a fresh aggregate records, at
    every field path, the same [presentCount], the same count for every
    kind and the same [integerOnly] flag as merging the aggregates of any
    two groups that partition the list; and so does folding the same
    documents in any other order. *)
Theorem fold_is_merge_of_partition :
  forall (group1 group2 all : list (list (string * Value))),
    Permutation all (group1 ++ group2) ->
    exists agg agg1 agg2,
      foldDocs makeObjectAgg all = Some agg
      /\ foldDocs makeObjectAgg group1 = Some agg1
      /\ foldDocs makeObjectAgg group2 = Some agg2
      /\ (forall (p : list Step) (k : string),
            sameRecord k (rootFieldAt agg p)
              (rootFieldAt (mergeObject agg1 agg2) p))
      /\ (forall reordered,
            Permutation all reordered ->
            exists agg',
              foldDocs makeObjectAgg reordered = Some agg'
              /\ forall (p : list Step) (k : string),
                   sameRecord k (rootFieldAt agg p) (rootFieldAt agg' p)).
Proof.
  intros group1 group2 all Hperm.
  destruct (foldDocs_returns all) as [agg E].
  destruct (foldDocs_returns group1) as [agg1 E1].
  destruct (foldDocs_returns group2) as [agg2 E2].
  exists agg, agg1, agg2. repeat (split; [assumption |]). split.
  - intros p k. unfold sameRecord. rewrite rootFieldAt_mergeObject.
    rewrite presentCountAt_merge, countAt_merge, integerOnlyAt_merge.
    destruct (foldDocs_records all agg p k E) as [-> [-> ->]].
    destruct (foldDocs_records group1 agg1 p k E1) as [-> [-> ->]].
    destruct (foldDocs_records group2 agg2 p k E2) as [-> [-> ->]].
    assert (Hocc : Permutation (flat_map (docOccurrences p) all)
                     (flat_map (docOccurrences p) group1
                      ++ flat_map (docOccurrences p) group2)).
    { rewrite <- flat_map_app. now apply Permutation_flat_map. }
    rewrite (Permutation_length Hocc), length_app.
    rewrite (countKind_perm k _ _ Hocc), countKind_app.
    rewrite (integerOnlyOf_perm _ _ Hocc), integerOnlyOf_app.
    repeat split.
  - intros reordered Hre. destruct (foldDocs_returns reordered) as [agg' E'].
    exists agg'. split; [exact E' |]. intros p k. unfold sameRecord.
    destruct (foldDocs_records all agg p k E) as [-> [-> ->]].
    destruct (foldDocs_records reordered agg' p k E') as [-> [-> ->]].
    assert (Hocc : Permutation (flat_map (docOccurrences p) all)
                     (flat_map (docOccurrences p) reordered)).
    { now apply Permutation_flat_map. }
    rewrite (Permutation_length Hocc), (countKind_perm k _ _ Hocc),
      (integerOnlyOf_perm _ _ Hocc).
    repeat split.
Qed.

Lemma fold_is_merge_of_partition_witness :
  Permutation shuffledDocs (shardDocs1 ++ shardDocs2)
  /\ exists agg agg1 agg2,
       foldDocs makeObjectAgg shuffledDocs = Some agg
       /\ foldDocs makeObjectAgg shardDocs1 = Some agg1
       /\ foldDocs makeObjectAgg shardDocs2 = Some agg2
       /\ (forall (p : list Step) (k : string),
             sameRecord k (rootFieldAt agg p)
               (rootFieldAt (mergeObject agg1 agg2) p))
       /\ (forall reordered,
             Permutation shuffledDocs reordered ->
             exists agg',
               foldDocs makeObjectAgg reordered = Some agg'
               /\ forall (p : list Step) (k : string),
                    sameRecord k (rootFieldAt agg p) (rootFieldAt agg' p)).
Proof.
  assert (H : Permutation shuffledDocs (shardDocs1 ++ shardDocs2)).
  { unfold shuffledDocs, shardDocs1, shardDocs2. cbn [app].
    eapply perm_trans; [apply perm_swap |]. apply perm_skip. apply perm_swap. }
  split; [exact H |].
  exact (fold_is_merge_of_partition shardDocs1 shardDocs2 shuffledDocs H).
Defined.

Lemma depth_eq : forall fa,
  depth fa
  = S (list_max
         (map (fun v =>
                 Nat.max
                   (match object v with
                    | Some oa => list_max (map (fun kf => depth (snd kf)) (properties oa))
                    | None => 0
                    end)
                   (match array v with
                    | Some aa =>
                        match items aa with
                        | Some it => depth it
                        | None => 0
                        end
                    | None => 0
                    end))
            (variants fa))).
Proof. intros [pc vs]; reflexivity. Qed.

Lemma list_max_In : forall l x, In x l -> x <= list_max l.
Proof.
  intros l x Hin. pose proof (list_max_le l (list_max l)) as [H _].
  specialize (H (le_n _)). rewrite Forall_forall in H. auto.
Qed.

Lemma depth_property : forall fa v oa k c,
  In v (variants fa) -> object v = Some oa -> In (k, c) (properties oa) ->
  depth c < depth fa.
Proof.
  intros fa v oa k c Hv Ho Hc. rewrite (depth_eq fa).
  apply Nat.lt_succ_r.
  etransitivity; [| apply list_max_In; apply in_map; exact Hv].
  cbn beta. rewrite Ho.
  etransitivity; [| apply Nat.le_max_l].
  apply list_max_In. change (depth c) with ((fun kf => depth (snd kf)) (k, c)).
  apply in_map. exact Hc.
Qed.

Lemma depth_items : forall fa v aa it,
  In v (variants fa) -> array v = Some aa -> items aa = Some it ->
  depth it < depth fa.
Proof.
  intros fa v aa it Hv Ha Hit. rewrite (depth_eq fa).
  apply Nat.lt_succ_r.
  etransitivity; [| apply list_max_In; apply in_map; exact Hv].
  cbn beta. rewrite Ha, Hit. apply Nat.le_max_r.
Qed.

(** ** Summarizer: equations *)

Lemma firstNonNull_filter : forall (B : Type) (f : Variant -> option B) vs,
  firstNonNull f vs
  = match filter (fun v => negb (kind v == "null")) vs with
    | v :: _ => f v
    | [] => None
    end.
Proof.
  intros B f vs. induction vs as [| v vs IH]; cbn; auto.
  destruct (kind v == "null"); cbn; auto.
Qed.

Lemma summarizeField_eq : forall fa T,
  summarizeField fa T
  = let isNullable := existsb (fun v => kind v == "null") (variants fa) in
    let required := presentCount fa =? T in
    match nonNullVariants fa with
    | [] => Some (leaf "unknown" required true)
    | [v] => summarizeVariant summarizeField required isNullable v
    | _ :: _ :: _ =>
        union <- mapM friendlyTypeName (nonNullVariants fa) ;;
        Some (MkSummary "union" None (Some (Array_sort union)) None
                (Some required) (Some isNullable) None None)
    end.
Proof.
  intros [pc vs] T. cbn [summarizeField]. cbv zeta.
  rewrite firstNonNull_filter. fold (nonNullVariants (MkFieldAgg pc vs)).
  destruct (nonNullVariants (MkFieldAgg pc vs)) as [| v [| w l]]; reflexivity.
Qed.

Lemma nonNull_findVariant : forall fa v,
  nonNullVariants fa = [v] -> findVariant (variants fa) (kind v) = Some v.
Proof.
  intros fa v. unfold nonNullVariants, findVariant.
  induction (variants fa) as [| x vs IH]; cbn; [discriminate |].
  destruct (kind x == "null") eqn:En; cbn.
  - intro H. specialize (IH H).
    destruct (kind x == kind v) eqn:Ek; auto.
    string_cases. apply find_some in IH as [Hin _].
    assert (Hv : In v (filter (fun v0 => negb (kind v0 == "null")) vs)).
    { rewrite H. now left. }
    apply filter_In in Hv as [_ Hv]. rewrite <- Ek, En in Hv. discriminate.
  - intro H. inversion H; subst. now rewrite String.eqb_refl.
Qed.

Lemma nonNull_In : forall fa v, In v (nonNullVariants fa) -> In v (variants fa).
Proof. intros fa v H. apply filter_In in H. tauto. Qed.

Lemma mapM_total : forall (A B : Type) (f : A -> option B) l,
  Forall (fun x => exists y, f x = Some y) l -> exists ys, mapM f l = Some ys.
Proof.
  intros A B f l H. induction H as [| x l [y Ey] _ [ys Eys]]; cbn.
  - eauto.
  - rewrite Ey, Eys. cbn. eauto.
Qed.

Lemma friendlyTypeName_total : forall v,
  variantLocal v -> exists s, friendlyTypeName v = Some s.
Proof.
  intros v [_ [_ [_ [Hn _]]]]. unfold friendlyTypeName.
  destruct (kind v == "number") eqn:E.
  - string_cases. destruct (Hn E) as [na Ena]. rewrite Ena. cbn. eauto.
  - repeat match goal with |- context [if ?c then _ else _] => destruct c end; eauto.
Qed.

(** On an aggregate built by the sampler, [summarizeField] returns. *)
Lemma summarizeField_total_depth : forall n fa T,
  depth fa <= n -> Inv false fa -> exists s, summarizeField fa T = Some s.
Proof.
  induction n as [| n IH]; intros fa T Hd Hinv.
  - rewrite depth_eq in Hd. lia.
  - rewrite summarizeField_eq. cbv zeta.
    pose proof Hinv as Hinv0.
    apply Inv_iff in Hinv as [[_ [_ Hloc]] Hnodes].
    rewrite Forall_forall in Hloc, Hnodes.
    destruct (nonNullVariants fa) as [| v [| w l]] eqn:Enn.
    + eauto.
    + assert (Hv : In v (variants fa)).
      { apply nonNull_In. rewrite Enn. now left. }
      destruct (Hloc v Hv) as [_ [Ho [Ha [Hn _]]]].
      destruct (Hnodes v Hv) as [Hno Hna].
      unfold summarizeVariant.
      destruct (kind v == "string"); [eauto |].
      destruct (kind v == "boolean"); [eauto |].
      destruct (kind v == "number") eqn:Enum.
      { string_cases. destruct (Hn Enum) as [na ->]. cbn. eauto. }
      destruct (kind v == "timestamp"); [eauto |].
      destruct (kind v == "reference"); [eauto |].
      destruct (kind v == "bytes"); [eauto |].
      destruct (kind v == "geopoint"); [eauto |].
      destruct (kind v == "array") eqn:Earr.
      { string_cases. destruct (Ha Earr) as [aa Eaa]. rewrite Eaa. cbn [obind].
        destruct (items aa) as [it |] eqn:Eit; cbn [obind]; eauto.
        destruct (Hna aa Eaa) as [_ Hit].
        destruct (IH it (match presentCount it with 0 => 1 | S m => S m end))
          as [si Esi]; auto.
        { pose proof (depth_items fa v aa it Hv Eaa Eit). lia. }
        rewrite Esi. cbn. eauto. }
      destruct (kind v == "object") eqn:Eobj; [| eauto].
      string_cases. destruct (Ho Eobj) as [oa Eoa]. rewrite Eoa. cbn [obind].
      destruct (maybeAsMap oa); eauto.
      destruct (Hno oa Eoa) as [_ Hch]. rewrite Forall_forall in Hch.
      destruct (mapM_total _ _
                  (fun kf => s <- summarizeField (snd kf) (totalSeen oa) ;;
                             Some (fst kf, s)) (properties oa)) as [fs Efs].
      { apply Forall_forall. intros [k c] Hin. cbn [fst snd].
        destruct (IH c (totalSeen oa)) as [sc Esc]; auto.
        - pose proof (depth_property fa v oa k c Hv Eoa Hin). lia.
        - apply (Hch _ Hin).
        - rewrite Esc. cbn. eauto. }
      unfold summarizeProperties. rewrite Efs. cbn. eauto.
    + destruct (mapM_total _ _ friendlyTypeName (v :: w :: l)) as [names E].
      { apply Forall_forall. intros x Hx. apply friendlyTypeName_total.
        apply Hloc. apply nonNull_In. now rewrite Enn. }
      rewrite E. cbn. eauto.
Qed.

Lemma summarizeField_total : forall fa T,
  Inv false fa -> exists s, summarizeField fa T = Some s.
Proof. intros fa T. apply (summarizeField_total_depth (depth fa)). lia. Qed.

(** ** Fields of an aggregate built from documents *)

Lemma fieldAt_Inv : forall b p fa c,
  Inv b fa -> fieldAt fa p = Some c -> Inv b c.
Proof.
  intros b p. induction p as [| st p IH]; intros fa c Hinv E.
  - cbn in E. now inversion E; subst.
  - rewrite fieldAt_cons in E. unfold fieldAtOpt in E. obind_inv E.
    apply (IH x c); auto. eapply Inv_child; eauto.
Qed.

Lemma rootFieldAt_Inv : forall b agg p fa,
  InvObject b agg -> rootFieldAt agg p = Some fa -> Inv b fa.
Proof.
  intros b agg p fa [_ Hch] E. destruct p as [| [k |] p]; try discriminate E.
  cbn in E. obind_inv E. apply Map_get_In in E0.
  rewrite Forall_forall in Hch. apply (fieldAt_Inv b p x fa); auto.
  apply (Hch _ E0).
Qed.

Lemma foldDocs_total : forall docs,
  exists agg, foldDocs makeObjectAgg docs = Some agg /\ InvObject false agg
              /\ totalSeen agg = List.length docs.
Proof.
  intro docs.
  destruct (foldDocs_Inv false docs makeObjectAgg (InvObject_fresh false))
    as [agg [E [H Hts]]]; [discriminate |].
  exists agg. auto.
Qed.

Lemma built_field_Inv : forall docs agg p fa,
  foldDocs makeObjectAgg docs = Some agg -> rootFieldAt agg p = Some fa ->
  Inv false fa.
Proof.
  intros docs agg p fa E Hp. destruct (foldDocs_total docs) as [agg' [E' [H _]]].
  assert (agg' = agg) by congruence. subst agg'.
  eapply rootFieldAt_Inv; eauto.
Qed.

(** ** Sorting *)

Lemma insertSorted_perm : forall s l, Permutation (insertSorted s l) (s :: l).
Proof.
  intros s l. induction l as [| x l IH]; cbn; auto.
  destruct (String.leb s x); auto.
  rewrite IH. apply perm_swap.
Qed.

Lemma insertSorted_sorted : forall s l, Sorted leS l -> Sorted leS (insertSorted s l).
Proof.
  intros s l H. induction H as [| x l Hs IH Hhd]; cbn.
  - repeat constructor.
  - destruct (String.leb s x) eqn:E.
    + constructor; [constructor; auto | constructor; exact E].
    + constructor; auto.
      assert (Hxs : leS x s).
      { destruct (String.leb_total s x) as [H | H]; [congruence | exact H]. }
      destruct l as [| y l]; cbn.
      * constructor; auto.
      * inversion Hhd; subst. destruct (String.leb s y); constructor; auto.
Qed.

Lemma Array_sort_perm : forall l, Permutation (Array_sort l) l.
Proof.
  induction l as [| s l IH]; cbn; auto.
  rewrite insertSorted_perm. now constructor.
Qed.

Lemma Array_sort_sorted : forall l, Sorted leS (Array_sort l).
Proof.
  induction l as [| s l IH]; cbn; [constructor |].
  now apply insertSorted_sorted.
Qed.

(** ** Summaries *)

(** [required] is always the comparison with the parent total, and
    [nullable] is set. *)
Lemma summarizeField_required : forall fa T s,
  summarizeField fa T = Some s ->
  s_required s = Some (presentCount fa =? T).
Proof.
  intros fa T s E. rewrite summarizeField_eq in E. cbv zeta in E.
  destruct (nonNullVariants fa) as [| v [| w l]].
  - inv_some. reflexivity.
  - unfold summarizeVariant in E.
    destruct (kind v == "string"); [inv_some; reflexivity |].
    destruct (kind v == "boolean"); [inv_some; reflexivity |].
    destruct (kind v == "number"); [obind_inv E; inv_some; reflexivity |].
    destruct (kind v == "timestamp"); [inv_some; reflexivity |].
    destruct (kind v == "reference"); [inv_some; reflexivity |].
    destruct (kind v == "bytes"); [inv_some; reflexivity |].
    destruct (kind v == "geopoint"); [inv_some; reflexivity |].
    destruct (kind v == "array");
      [obind_inv E; obind_inv E; inv_some; reflexivity |].
    destruct (kind v == "object"); [| inv_some; reflexivity].
    obind_inv E. destruct (maybeAsMap x).
    + inv_some. reflexivity.
    + obind_inv E. inv_some. reflexivity.
  - obind_inv E. inv_some. reflexivity.
Qed.

(** C8, as the code has it. For every field of an aggregate built from
    documents whose variant list holds more than one non-null kind,
    [summarizeField] returns a summary of type "union" whose member list
    is the list of the friendly type names of the non-null variants (the
    kind name, but "integer" for an integer-only number,
    "documentReference" for a reference and "bytes(base64)" for bytes),
    in ascending order. *)
Theorem union_lists_sorted_friendly_names :
  forall (docs : list (list (string * Value))) agg p fa T,
    foldDocs makeObjectAgg docs = Some agg ->
    rootFieldAt agg p = Some fa ->
    1 < List.length (nonNullVariants fa) ->
    exists s names friendly,
      summarizeField fa T = Some s
      /\ s_type s = "union"
      /\ s_union s = Some names
      /\ mapM friendlyTypeName (nonNullVariants fa) = Some friendly
      /\ Permutation names friendly
      /\ Sorted leS names.
Proof.
  intros docs agg p fa T Efold Hp Hlen.
  pose proof (built_field_Inv docs agg p fa Efold Hp) as Hinv.
  apply Inv_iff in Hinv as [[_ [_ Hloc]] _]. rewrite Forall_forall in Hloc.
  destruct (mapM_total _ _ friendlyTypeName (nonNullVariants fa)) as [friendly E].
  { apply Forall_forall. intros x Hx. apply friendlyTypeName_total.
    apply Hloc. now apply nonNull_In. }
  rewrite summarizeField_eq. cbv zeta.
  destruct (nonNullVariants fa) as [| v [| w l]] eqn:Enn;
    [cbn in Hlen; lia | cbn in Hlen; lia |].
  rewrite E. cbn [obind].
  eexists; eexists; exists friendly. split; [reflexivity |].
  cbn [s_type s_union]. repeat split; auto.
  - apply Array_sort_perm.
  - apply Array_sort_sorted.
Qed.

Lemma union_lists_sorted_friendly_names_witness :
  exists agg fa,
    foldDocs makeObjectAgg unionDocs = Some agg
    /\ rootFieldAt agg [Key "a"] = Some fa
    /\ 1 < List.length (nonNullVariants fa)
    /\ exists s names friendly,
         summarizeField fa 2 = Some s
         /\ s_type s = "union"
         /\ s_union s = Some names
         /\ mapM friendlyTypeName (nonNullVariants fa) = Some friendly
         /\ Permutation names friendly
         /\ Sorted leS names.
Proof.
  eexists; eexists.
  split; [vm_compute; reflexivity |].
  split; [vm_compute; reflexivity |].
  split; [vm_compute; lia |].
  eapply (union_lists_sorted_friendly_names unionDocs _ [Key "a"] _ 2).
  - vm_compute; reflexivity.
  - vm_compute; reflexivity.
  - vm_compute; lia.
Defined.

(** The member list is not the list of kind names: a field seen as an
    integer and as a string is summarized as the union of "integer" and
    "string", while its kinds are "number" and "string". *)
Lemma union_members_are_not_kind_names :
  exists agg fa s,
    foldDocs makeObjectAgg unionDocs = Some agg
    /\ rootFieldAt agg [Key "a"] = Some fa
    /\ 1 < List.length (nonNullVariants fa)
    /\ summarizeField fa 2 = Some s
    /\ s_union s = Some ["integer"; "string"]
    /\ Array_sort (map (@kind FieldAgg) (nonNullVariants fa)) = ["number"; "string"]
    /\ s_union s <> Some (Array_sort (map (@kind FieldAgg) (nonNullVariants fa))).
Proof.
  eexists; eexists; eexists.
  split; [vm_compute; reflexivity |].
  split; [vm_compute; reflexivity |].
  split; [vm_compute; lia |].
  split; [vm_compute; reflexivity |].
  split; [reflexivity |].
  split; [reflexivity |].
  cbn. discriminate.
Qed.

(** ** Array items *)

Lemma itemsSeenAt_step : forall fa v fa',
  Inv false fa -> addValueSample fa v = Some fa' ->
  itemsSeenAt (Some fa') = seeArray (itemsSeenAt (Some fa)) v.
Proof.
  intros fa v fa' Hinv E. pose proof (arrayOf_add fa v fa' Hinv E) as Ha.
  unfold itemsSeenAt, seeArray.
  destruct v; cbn [nonEmptyArray]; try (rewrite Ha, orb_false_r; reflexivity).
  destruct elements as [| el els].
  - rewrite Ha, orb_false_r. reflexivity.
  - destruct Ha as [it' [_ ->]]. now rewrite orb_true_r.
Qed.

Lemma fold_seeArray : forall vs b,
  fold_left seeArray vs b = b || existsb nonEmptyArray vs.
Proof.
  induction vs as [| v vs IH]; intro b; cbn.
  - now rewrite orb_false_r.
  - rewrite IH. unfold seeArray. now rewrite orb_assoc.
Qed.

(** The shared element slot of a field exists as soon as a non-empty
    array was observed at the field. *)
Lemma itemsSeenAt_built : forall docs agg p,
  foldDocs makeObjectAgg docs = Some agg ->
  itemsSeenAt (rootFieldAt agg p)
  = existsb nonEmptyArray (flat_map (docOccurrences p) docs).
Proof.
  intros docs agg p E.
  rewrite (foldDocs_observed _ itemsSeenAt seeArray eq_refl itemsSeenAt_step
             p docs makeObjectAgg agg (InvObject_fresh false) E).
  rewrite fold_seeArray.
  destruct p as [| [k |] p]; reflexivity.
Qed.

(** C10. For every field of an aggregate built from documents that is
    summarized with the single non-null kind "array": when no non-empty
    array was observed at the field, the summary's items node is exactly
    [{type: "any"}]; otherwise the items node is the summary of the shared
    element aggregate and its [required] is true. *)
Theorem array_items_summary :
  forall (docs : list (list (string * Value))) agg p fa T v,
    foldDocs makeObjectAgg docs = Some agg ->
    rootFieldAt agg p = Some fa ->
    nonNullVariants fa = [v] ->
    kind v = "array" ->
    exists s si,
      summarizeField fa T = Some s
      /\ s_type s = "array"
      /\ s_items s = Some si
      /\ if existsb nonEmptyArray (flat_map (docOccurrences p) docs)
         then s_required si = Some true
         else si = anySummary.
Proof.
  intros docs agg p fa T v Efold Hp Hnn Hk.
  pose proof (built_field_Inv docs agg p fa Efold Hp) as Hinv.
  pose proof (itemsSeenAt_built docs agg p Efold) as Hseen.
  rewrite Hp in Hseen. cbn [itemsSeenAt] in Hseen.
  pose proof (nonNull_findVariant fa v Hnn) as Hfind. rewrite Hk in Hfind.
  unfold arrayOf in Hseen. rewrite Hfind in Hseen. cbn [obind] in Hseen.
  destruct (Inv_findVariant false fa "array" v Hinv Hfind)
    as [[_ [_ [Harr _]]] [_ Hna]].
  destruct (Harr Hk) as [aa Eaa]. rewrite Eaa in Hseen. cbn [obind] in Hseen.
  destruct (Hna aa Eaa) as [Hal Hit].
  rewrite summarizeField_eq, Hnn. cbv zeta. unfold summarizeVariant.
  rewrite Hk. cbn [String.eqb Ascii.eqb Bool.eqb]. rewrite Eaa. cbn [obind].
  destruct (items aa) as [it |] eqn:Eit.
  - destruct (summarizeField_total it
                (match presentCount it with 0 => 1 | S m => S m end) (Hit it eq_refl))
      as [si Esi].
    rewrite Esi. cbn [obind]. eexists; exists si.
    split; [reflexivity |]. split; [reflexivity |]. split; [reflexivity |].
    rewrite <- Hseen.
    rewrite (summarizeField_required _ _ _ Esi). f_equal.
    specialize (Hal it Eit).
    destruct (presentCount it); [lia | apply Nat.eqb_refl].
  - cbn [obind]. eexists; exists anySummary.
    split; [reflexivity |]. split; [reflexivity |]. split; [reflexivity |].
    now rewrite <- Hseen.
Qed.

Lemma array_items_summary_witness :
  exists agg fa v,
    foldDocs makeObjectAgg arrayDocs = Some agg
    /\ rootFieldAt agg [Key "tags"] = Some fa
    /\ nonNullVariants fa = [v]
    /\ kind v = "array"
    /\ exists s si,
         summarizeField fa 3 = Some s
         /\ s_type s = "array"
         /\ s_items s = Some si
         /\ if existsb nonEmptyArray (flat_map (docOccurrences [Key "tags"]) arrayDocs)
            then s_required si = Some true
            else si = anySummary.
Proof.
  eexists; eexists; eexists.
  split; [vm_compute; reflexivity |].
  split; [vm_compute; reflexivity |].
  split; [vm_compute; reflexivity |].
  split; [reflexivity |].
  eapply (array_items_summary arrayDocs _ [Key "tags"] _ 3).
  - vm_compute; reflexivity.
  - vm_compute; reflexivity.
  - vm_compute; reflexivity.
  - reflexivity.
Defined.

(** ** Dictionary heuristic *)

Lemma collectKinds_mapM : forall props ks0,
  fold_left
    (fun acc kf =>
       ks <- acc ;;
       match variants (snd kf) with
       | [v] =>
           if existsb (fun s => s == kind v) ["boolean"; "string"; "number"]
           then Some (ks ++ [kind v])
           else None
       | _ => None
       end) props (Some ks0)
  = (ks' <- mapM kindOfProperty props ;; Some (ks0 ++ ks')).
Proof.
  induction props as [| kf props IH]; intro ks0; cbn [fold_left mapM obind].
  - now rewrite app_nil_r.
  - unfold kindOfProperty at 1. unfold scalarKinds.
    destruct (variants (snd kf)) as [| v [| w l]];
      try (cbn [obind]; apply fold_left_obind_None).
    destruct (existsb (fun s => s == kind v) ["boolean"; "string"; "number"]).
    + cbn [obind]. rewrite IH. destruct (mapM kindOfProperty props); cbn; auto.
      now rewrite <- app_assoc.
    + cbn [obind]. apply fold_left_obind_None.
Qed.

Lemma maybeAsMap_eq : forall oa,
  maybeAsMap oa
  = match properties oa with
    | [] => None
    | _ :: _ =>
        if existsb (fun kf => presentCount (snd kf) =? totalSeen oa) (properties oa)
        then None
        else
          kinds <- mapM kindOfProperty (properties oa) ;;
          match kinds with
          | [] => None
          | first :: _ =>
              if forallb (fun k => k == first) kinds then Some first else None
          end
    end.
Proof.
  intro oa. unfold maybeAsMap. destruct (properties oa) as [| kf props]; auto.
  rewrite collectKinds_mapM.
  destruct (existsb _ (kf :: props)); auto.
  destruct (mapM kindOfProperty (kf :: props)); reflexivity.
Qed.

Lemma kindOfProperty_Some : forall kf K,
  kindOfProperty kf = Some K
  <-> In K scalarKinds /\ exists v, variants (snd kf) = [v] /\ kind v = K.
Proof.
  intros kf K. unfold kindOfProperty. split.
  - destruct (variants (snd kf)) as [| v [| w l]]; try discriminate.
    destruct (existsb _ scalarKinds) eqn:E; [| discriminate].
    intro H; inversion H; subst. split; eauto.
    apply existsb_exists in E as [s [Hin Es]]. string_cases. exact Hin.
  - intros [Hin [v [-> Hk]]]. subst K.
    assert (E : existsb (fun s => s == kind v) scalarKinds = true).
    { apply existsb_exists. exists (kind v). split; auto. apply String.eqb_refl. }
    now rewrite E.
Qed.

Lemma mapM_Forall2 : forall (A B : Type) (f : A -> option B) l ys,
  mapM f l = Some ys <-> Forall2 (fun x y => f x = Some y) l ys.
Proof.
  intros A B f l. induction l as [| x l IH]; intro ys; cbn.
  - split; intro H; [inversion H; constructor | inversion H; reflexivity].
  - split.
    + intro H. obind_inv H. obind_inv H. inversion H; subst.
      constructor; auto. now apply IH.
    + intro H. inversion H; subst. rewrite H2.
      apply IH in H4. rewrite H4. reflexivity.
Qed.

Lemma Forall2_all_equal : forall (A B : Type) (f : A -> option B) l ys K,
  Forall2 (fun x y => f x = Some y) l ys ->
  (forall y, In y ys -> y = K) ->
  Forall (fun x => f x = Some K) l.
Proof.
  intros A B f l ys K H. induction H as [| x y l ys Hxy _ IH]; intro Hall.
  - constructor.
  - constructor.
    + rewrite Hxy. f_equal. apply Hall. now left.
    + apply IH. intros z Hz. apply Hall. now right.
Qed.

Lemma mapM_all_equal : forall (A B : Type) (f : A -> option B) l K,
  Forall (fun x => f x = Some K) l -> mapM f l = Some (map (fun _ => K) l).
Proof.
  intros A B f l K H. induction H as [| x l Hx _ IH]; cbn; auto.
  now rewrite Hx, IH.
Qed.

Lemma maybeAsMap_Some : forall oa K,
  maybeAsMap oa = Some K <-> In K scalarKinds /\ isDictionary K oa.
Proof.
  intros oa K. rewrite maybeAsMap_eq. unfold isDictionary.
  destruct (properties oa) as [| kf props] eqn:Ep.
  - split; [discriminate | intros [_ [H _]]; congruence].
  - set (ps := kf :: props) in *.
    assert (Hstable : existsb (fun kf0 => presentCount (snd kf0) =? totalSeen oa) ps = false
                      <-> Forall (fun kf0 => presentCount (snd kf0) <> totalSeen oa) ps).
    { rewrite Forall_forall. split.
      - intros H x Hx Heq.
        assert (existsb (fun kf0 => presentCount (snd kf0) =? totalSeen oa) ps = true).
        { apply existsb_exists. exists x. split; auto. now apply Nat.eqb_eq. }
        congruence.
      - intro H. destruct (existsb _ ps) eqn:E; auto.
        apply existsb_exists in E as [x [Hx E]]. apply Nat.eqb_eq in E.
        exfalso. apply (H x Hx E). }
    split.
    + destruct (existsb _ ps) eqn:Est; [discriminate |].
      intro H. obind_inv H. apply mapM_Forall2 in E.
      destruct x as [| first ks]; [discriminate |].
      destruct (forallb (fun k => k == first) (first :: ks)) eqn:Eall; [| discriminate].
      inversion H; subst K. clear H.
      rewrite forallb_forall in Eall.
      assert (Hall : Forall (fun kf0 => kindOfProperty kf0 = Some first) ps).
      { apply (Forall2_all_equal _ _ kindOfProperty ps (first :: ks) first E).
        intros y Hy. apply Eall in Hy. now apply String.eqb_eq in Hy. }
      assert (Hfirst : In first scalarKinds).
      { inversion Hall; subst. apply kindOfProperty_Some in H1. tauto. }
      split; [exact Hfirst |]. split; [discriminate |]. split.
      * now apply Hstable.
      * eapply Forall_impl; [| exact Hall]. intros a Ha.
        apply kindOfProperty_Some in Ha. tauto.
    + intros [Hin [_ [Hst Hkinds]]].
      apply Hstable in Hst. rewrite Hst.
      assert (Hm : mapM kindOfProperty ps = Some (map (fun _ => K) ps)).
      { apply mapM_all_equal. eapply Forall_impl; [| exact Hkinds].
        intros a Ha. apply kindOfProperty_Some. auto. }
      rewrite Hm. cbn [obind]. unfold ps at 1. cbn [map].
      assert (Hall : forallb (fun k => k == K) (K :: map (fun _ => K) props) = true).
      { apply forallb_forall. intros z [<- | Hz]; [apply String.eqb_refl |].
        apply in_map_iff in Hz as [_ [<- _]]. apply String.eqb_refl. }
      unfold ps. cbn [map]. now rewrite Hall.
Qed.

Lemma maybeAsMap_None : forall oa,
  maybeAsMap oa = None <-> forall K, In K scalarKinds -> ~ isDictionary K oa.
Proof.
  intro oa. split.
  - intros H K Hin Hd.
    assert (maybeAsMap oa = Some K) by (apply maybeAsMap_Some; auto). congruence.
  - intro H. destruct (maybeAsMap oa) as [K |] eqn:E; auto.
    apply maybeAsMap_Some in E as [Hin Hd]. exfalso. apply (H K Hin Hd).
Qed.

(** The sub-summaries of a fixed-shape object follow its properties. *)
Lemma summarizeEntries_spec : forall summarize (T : nat) props fs,
  mapM (fun kf : string * FieldAgg =>
          s <- summarize (snd kf) T ;; Some (fst kf, s)) props = Some fs ->
  map fst fs = map fst props
  /\ forall k, match Map_get k props with
               | Some c => exists sc : Summary,
                             Map_get k fs = Some sc /\ summarize c T = Some sc
               | None => Map_get k fs = None
               end.
Proof.
  intros summarize T props. induction props as [| [k0 c0] props IH]; intros fs E.
  - cbn in E. inversion E; subst. split; [reflexivity | intro k; reflexivity].
  - cbn [mapM fst snd] in E. obind_inv E. obind_inv E0. inversion E0; subst x.
    obind_inv E. inversion E; subst fs. clear E E0.
    destruct (IH x) as [Hkeys Hget]; auto.
    split; [cbn; now rewrite Hkeys |].
    intro k. cbn [Map_get]. destruct (k0 == k); eauto. apply Hget.
Qed.

Lemma summarizeProperties_spec : forall summarize oa fs,
  summarizeProperties summarize oa = Some fs ->
  map fst fs = map fst (Object_fromEntries (properties oa))
  /\ Permutation (map fst fs) (map fst (properties oa))
  /\ forall k, match Map_get k (properties oa) with
               | Some c => exists sc, Map_get k fs = Some sc
                                       /\ summarize c (totalSeen oa) = Some sc
               | None => Map_get k fs = None
               end.
Proof.
  intros summarize oa fs E. unfold summarizeProperties in E. obind_inv E.
  inversion E; subst fs. clear E.
  destruct (summarizeEntries_spec _ _ _ _ E0) as [Hkeys Hget].
  split; [now apply Object_fromEntries_keys |].
  split.
  - rewrite <- Hkeys. apply Permutation_map, Object_fromEntries_perm.
  - intro k. rewrite Object_fromEntries_get. apply Hget.
Qed.

Lemma mapTypeName_inj : forall K K',
  In K scalarKinds -> In K' scalarKinds -> mapTypeName K' = mapTypeName K -> K' = K.
Proof.
  intros K K' H H'. cbn in H, H'.
  repeat (destruct H as [<- | H]; [| try contradiction]);
    repeat (destruct H' as [<- | H']; [| try contradiction]);
    cbn; intro E; try reflexivity; discriminate E.
Qed.

Lemma summarizeProperties_total : forall oa,
  Forall (fun kf => Inv false (snd kf)) (properties oa) ->
  exists fs, summarizeProperties summarizeField oa = Some fs.
Proof.
  intros oa H. unfold summarizeProperties.
  destruct (mapM_total _ _
              (fun kf : string * FieldAgg =>
                 s <- summarizeField (snd kf) (totalSeen oa) ;; Some (fst kf, s))
              (properties oa)) as [fs0 ->]; [| cbn; eauto].
  eapply Forall_impl; [| exact H]. intros [k c] Hc. cbn [fst snd] in *.
  destruct (summarizeField_total c (totalSeen oa) Hc) as [sc ->]. cbn. eauto.
Qed.

(** C3, as the code has it. For every field of an aggregate built from
    documents whose single non-null kind is "object", the summary has
    type [map<string, K>], for a scalar kind [K], if and only if the
    object aggregate of the field has at least one property, no property
    has [presentCount] equal to [totalSeen], and every property has
    exactly one variant, of kind [K]; otherwise the summary is a
    fixed-shape object with one sub-summary per property, its keys in the
    order of an object's own keys. The root aggregate of a collection,
    which [profileFromAgg] summarizes, is always a fixed shape. Properties
    {a: boolean x3, b: boolean x3} of a field under [totalSeen = 5] give
    [map<string, boolean>]; under [totalSeen = 3] they give a fixed-shape
    object whose two keys are required. *)
Theorem object_summary_map_or_fixed_shape :
  (forall (docs : list (list (string * Value))) agg p fa T v,
     foldDocs makeObjectAgg docs = Some agg ->
     rootFieldAt agg p = Some fa ->
     nonNullVariants fa = [v] ->
     kind v = "object" ->
     exists oa s,
       object v = Some oa
       /\ summarizeField fa T = Some s
       /\ (forall K, In K scalarKinds ->
                     (s_type s = mapTypeName K <-> isDictionary K oa))
       /\ ((forall K, In K scalarKinds -> ~ isDictionary K oa) ->
           s_type s = "object"
           /\ exists fs,
                s_fields s = Some fs
                /\ map fst fs = map fst (Object_fromEntries (properties oa))
                /\ forall k c, Map_get k (properties oa) = Some c ->
                     exists sc, Map_get k fs = Some sc
                                /\ summarizeField c (totalSeen oa) = Some sc))
  /\ (forall (docs : list (list (string * Value))) agg collectionPath,
        foldDocs makeObjectAgg docs = Some agg ->
        exists profile,
          profileFromAgg collectionPath agg = Some profile
          /\ map fst (fields profile)
             = map fst (Object_fromEntries (properties agg))
          /\ forall k c, Map_get k (properties agg) = Some c ->
               exists sc, Map_get k (fields profile) = Some sc
                          /\ summarizeField c (totalSeen agg) = Some sc)
  /\ (exists agg fa oa s,
        foldDocs makeObjectAgg dictionaryDocs = Some agg
        /\ rootFieldAt agg [Key "m"] = Some fa
        /\ objectOf fa = Some oa
        /\ totalSeen oa = 5
        /\ map (fun kf => (fst kf, presentCount (snd kf))) (properties oa)
           = [("a", 3); ("b", 3)]
        /\ summarizeField fa 5 = Some s
        /\ s_type s = "map<string, boolean>")
  /\ (exists agg fa oa s sa sb,
        foldDocs makeObjectAgg recordDocs = Some agg
        /\ rootFieldAt agg [Key "m"] = Some fa
        /\ objectOf fa = Some oa
        /\ totalSeen oa = 3
        /\ map (fun kf => (fst kf, presentCount (snd kf))) (properties oa)
           = [("a", 3); ("b", 3)]
        /\ summarizeField fa 3 = Some s
        /\ s_type s = "object"
        /\ s_requiredFields s = Some ["a"; "b"]
        /\ s_fields s = Some [("a", sa); ("b", sb)]
        /\ s_required sa = Some true /\ s_required sb = Some true).
Proof.
  split; [| split; [| split]].
  - intros docs agg p fa T v Efold Hp Hnn Hk.
    pose proof (built_field_Inv docs agg p fa Efold Hp) as Hinv.
    pose proof (nonNull_findVariant fa v Hnn) as Hfind.
    destruct (Inv_findVariant false fa (kind v) v Hinv Hfind)
      as [[_ [Hobj _]] [Hno _]].
    destruct (Hobj Hk) as [oa Eoa]. destruct (Hno oa Eoa) as [_ Hch].
    exists oa. rewrite summarizeField_eq, Hnn. cbv zeta. unfold summarizeVariant.
    rewrite Hk. cbn [String.eqb Ascii.eqb Bool.eqb]. rewrite Eoa. cbn [obind].
    destruct (maybeAsMap oa) as [K' |] eqn:Em.
    + eexists. split; [reflexivity |]. split; [reflexivity |].
      apply maybeAsMap_Some in Em as [Hin' Hd']. cbn [s_type leaf]. split.
      * intros K Hin. fold (mapTypeName K'). split.
        -- intro E. apply mapTypeName_inj in E; auto. now subst.
        -- intro Hd.
           assert (E1 : maybeAsMap oa = Some K) by (apply maybeAsMap_Some; auto).
           assert (E2 : maybeAsMap oa = Some K') by (apply maybeAsMap_Some; auto).
           congruence.
      * intro Hnone. exfalso. apply (Hnone K' Hin' Hd').
    + destruct (summarizeProperties_total oa Hch) as [fs Efs].
      rewrite Efs. cbn [obind]. eexists. split; [reflexivity |].
      split; [reflexivity |]. cbn [s_type s_fields]. split.
      * intros K Hin. split.
        -- unfold mapTypeName. cbn. discriminate.
        -- intro Hd. exfalso. apply (proj1 (maybeAsMap_None oa) Em K Hin Hd).
      * intros _. split; [reflexivity |]. exists fs. split; [reflexivity |].
        destruct (summarizeProperties_spec summarizeField oa fs Efs)
          as [Hkeys [_ Hget]].
        split; [exact Hkeys |]. intros k c Ec. specialize (Hget k).
        now rewrite Ec in Hget.
  - intros docs agg path Efold.
    destruct (foldDocs_Inv false docs makeObjectAgg (InvObject_fresh false))
      as [agg' [E [[_ Hch] _]]]; [discriminate |].
    assert (agg' = agg) by congruence. subst agg'.
    unfold profileFromAgg.
    destruct (summarizeProperties_total agg Hch) as [fs Efs].
    rewrite Efs. cbn [obind]. eexists. split; [reflexivity |]. cbn [fields].
    destruct (summarizeProperties_spec summarizeField agg fs Efs)
      as [Hkeys [_ Hget]].
    split; [exact Hkeys |]. intros k c Ec. specialize (Hget k).
    now rewrite Ec in Hget.
  - do 4 eexists. repeat (split; [vm_compute; reflexivity |]). vm_compute; reflexivity.
  - do 6 eexists. repeat (split; [vm_compute; reflexivity |]). vm_compute; reflexivity.
Qed.

Lemma object_summary_map_or_fixed_shape_witness :
  exists agg fa v,
    foldDocs makeObjectAgg indexedDocs = Some agg
    /\ rootFieldAt agg [Key "m"] = Some fa
    /\ nonNullVariants fa = [v]
    /\ kind v = "object"
    /\ exists oa s,
         object v = Some oa
         /\ map fst (properties oa) = ["10"; "b"; "2"; "a"; "02"]
         /\ summarizeField fa 2 = Some s
         /\ (forall K, In K scalarKinds ->
                       (s_type s = mapTypeName K <-> isDictionary K oa))
         /\ ((forall K, In K scalarKinds -> ~ isDictionary K oa) ->
             s_type s = "object"
             /\ exists fs,
                  s_fields s = Some fs
                  /\ map fst fs = ["2"; "10"; "b"; "a"; "02"]
                  /\ forall k c, Map_get k (properties oa) = Some c ->
                       exists sc, Map_get k fs = Some sc
                                  /\ summarizeField c (totalSeen oa) = Some sc).
Proof.
  eexists; eexists; eexists.
  split; [vm_compute; reflexivity |].
  split; [vm_compute; reflexivity |].
  split; [vm_compute; reflexivity |].
  split; [reflexivity |].
  destruct (proj1 object_summary_map_or_fixed_shape indexedDocs _ [Key "m"] _ 2 _
              eq_refl eq_refl eq_refl eq_refl) as [oa [s [Eo [Es [Hiff Hfix]]]]].
  exists oa, s. inversion Eo; subst oa. clear Eo.
  split; [reflexivity |]. split; [reflexivity |]. split; [exact Es |].
  split; [exact Hiff |]. exact Hfix.
Defined.

(** Without a property, the two conditions of the specification hold
    for every kind, yet the summary is a fixed-shape object: a field that
    only ever held the empty object. *)
Lemma empty_object_summary :
  exists agg fa v oa s,
    foldDocs makeObjectAgg emptyObjectDocs = Some agg
    /\ rootFieldAt agg [Key "a"] = Some fa
    /\ nonNullVariants fa = [v]
    /\ kind v = "object"
    /\ object v = Some oa
    /\ summarizeField fa 1 = Some s
    /\ looksLikeDictionary "boolean" oa
    /\ s_type s = "object"
    /\ ~ (s_type s = mapTypeName "boolean" <-> looksLikeDictionary "boolean" oa).
Proof.
  do 5 eexists.
  split; [vm_compute; reflexivity |].
  split; [vm_compute; reflexivity |].
  split; [vm_compute; reflexivity |].
  split; [reflexivity |].
  split; [reflexivity |].
  split; [vm_compute; reflexivity |].
  assert (H : looksLikeDictionary "boolean" (@MkObjectAgg FieldAgg 1 [])).
  { split; constructor. }
  split; [exact H |]. split; [reflexivity |].
  intros [_ Hback]. specialize (Hback H). discriminate Hback.
Qed.

(** The root aggregate of [rootDictionaryDocs] has the properties
    {a: boolean x3, b: boolean x3} under [totalSeen = 5] and meets the two
    conditions, yet [profileFromAgg] gives it the fixed shape of the two
    keys. *)
Lemma root_aggregate_summary :
  exists agg profile sa sb,
    foldDocs makeObjectAgg rootDictionaryDocs = Some agg
    /\ totalSeen agg = 5
    /\ map (fun kf => (fst kf, presentCount (snd kf))) (properties agg)
       = [("a", 3); ("b", 3)]
    /\ isDictionary "boolean" agg
    /\ profileFromAgg "c" agg = Some profile
    /\ fields profile = [("a", sa); ("b", sb)]
    /\ s_type sa = "boolean" /\ s_type sb = "boolean"
    /\ requiredFields profile = None.
Proof.
  do 4 eexists.
  split; [vm_compute; reflexivity |].
  split; [reflexivity |].
  split; [reflexivity |].
  split.
  { split; [discriminate |]. split.
    - repeat constructor; cbn; discriminate.
    - repeat constructor; cbn; eexists; split; reflexivity. }
  split; [vm_compute; reflexivity |].
  repeat split.
Qed.

(** C3 as the specification words it fails twice: on an object aggregate
    without a property, and on the root aggregate of a collection. *)
Lemma conditions_do_not_make_a_map :
  (exists agg fa v oa s,
     foldDocs makeObjectAgg emptyObjectDocs = Some agg
     /\ rootFieldAt agg [Key "a"] = Some fa
     /\ nonNullVariants fa = [v]
     /\ kind v = "object"
     /\ object v = Some oa
     /\ summarizeField fa 1 = Some s
     /\ looksLikeDictionary "boolean" oa
     /\ s_type s = "object"
     /\ ~ (s_type s = mapTypeName "boolean"
           <-> looksLikeDictionary "boolean" oa))
  /\ (exists agg profile sa sb,
        foldDocs makeObjectAgg rootDictionaryDocs = Some agg
        /\ totalSeen agg = 5
        /\ map (fun kf => (fst kf, presentCount (snd kf))) (properties agg)
           = [("a", 3); ("b", 3)]
        /\ isDictionary "boolean" agg
        /\ profileFromAgg "c" agg = Some profile
        /\ fields profile = [("a", sa); ("b", sb)]
        /\ s_type sa = "boolean" /\ s_type sb = "boolean"
        /\ requiredFields profile = None).
Proof. split; [exact empty_object_summary | exact root_aggregate_summary]. Qed.

(** ** Required fields *)

(** One step down in a summary is one step down in the aggregate it was
    computed from. *)
Lemma summary_step : forall fa T s st sc,
  Inv false fa -> summarizeField fa T = Some s -> stepSummary s st = Some sc ->
  match st with
  | Key k =>
      exists oa c,
        objectOf fa = Some oa /\ Map_get k (properties oa) = Some c
        /\ summarizeField c (totalSeen oa) = Some sc /\ 1 <= totalSeen oa
  | Items =>
      sc = anySummary
      \/ exists c T', stepField fa Items = Some c /\ summarizeField c T' = Some sc
  end.
Proof.
  intros fa T s st sc Hinv E Hst.
  rewrite summarizeField_eq in E. cbv zeta in E.
  destruct (nonNullVariants fa) as [| v [| w l]] eqn:Enn.
  - inv_some. destruct st; discriminate Hst.
  - pose proof (nonNull_findVariant fa v Enn) as Hfind.
    destruct (Inv_findVariant false fa (kind v) v Hinv Hfind)
      as [[_ [_ [_ [_ Hts]]]] _].
    unfold summarizeVariant in E.
    destruct (kind v == "string"); [inv_some; destruct st; discriminate Hst |].
    destruct (kind v == "boolean"); [inv_some; destruct st; discriminate Hst |].
    destruct (kind v == "number");
      [obind_inv E; inv_some; destruct st; discriminate Hst |].
    destruct (kind v == "timestamp"); [inv_some; destruct st; discriminate Hst |].
    destruct (kind v == "reference"); [inv_some; destruct st; discriminate Hst |].
    destruct (kind v == "bytes"); [inv_some; destruct st; discriminate Hst |].
    destruct (kind v == "geopoint"); [inv_some; destruct st; discriminate Hst |].
    destruct (kind v == "array") eqn:Ea.
    + string_cases. obind_inv E. obind_inv E. inv_some.
      destruct st as [k |]; [discriminate Hst |].
      cbn in Hst. inv_some.
      destruct (items x) as [it |] eqn:Eit.
      * right. exists it. eexists. split; [| exact E1].
        cbn. unfold arrayOf. rewrite <- Ea, Hfind. cbn. now rewrite E0.
      * inv_some. now left.
    + destruct (kind v == "object") eqn:Eo;
        [| inv_some; destruct st; discriminate Hst].
      string_cases. obind_inv E.
      destruct (maybeAsMap x); [inv_some; destruct st; discriminate Hst |].
      obind_inv E. inv_some.
      destruct st as [k |]; [| discriminate Hst].
      cbn in Hst.
      destruct (summarizeProperties_spec summarizeField x x0 E1) as [_ [_ Hget]].
      specialize (Hget k). rewrite Hst in Hget.
      destruct (Map_get k (properties x)) as [c |] eqn:Ec; [| discriminate Hget].
      destruct Hget as [sc' [Esc Hsum]]. inv_some.
      exists x, c. split; [| split; [exact Ec | split; [exact Hsum | auto]]].
      unfold objectOf. rewrite <- Eo, Hfind. exact E0.
  - obind_inv E. inv_some. destruct st; discriminate Hst.
Qed.

Lemma summaryAt_any : forall p sc,
  summaryAt anySummary p = Some sc -> p = [].
Proof. intros [| [k |] p] sc H; auto; discriminate H. Qed.

Lemma summaryAt_key : forall q fa T s k sk,
  Inv false fa -> summarizeField fa T = Some s ->
  summaryAt s (q ++ [Key k]) = Some sk ->
  exists pf oa c,
    fieldAt fa q = Some pf /\ objectOf pf = Some oa
    /\ Map_get k (properties oa) = Some c
    /\ summarizeField c (totalSeen oa) = Some sk /\ 1 <= totalSeen oa.
Proof.
  induction q as [| st q IH]; intros fa T s k sk Hinv E Hat.
  - cbn in Hat. obind_inv Hat. inv_some.
    destruct (summary_step fa T s (Key k) sk Hinv E E0) as [oa [c H]].
    exists fa, oa, c. split; [reflexivity | exact H].
  - cbn [app summaryAt] in Hat. obind_inv Hat.
    pose proof (summary_step fa T s st x Hinv E E0) as Hstep.
    assert (Hsub : exists c T', stepField fa st = Some c
                                /\ summarizeField c T' = Some x).
    { destruct st as [k0 |].
      - destruct Hstep as [oa [c [Ho [Hc [Hs _]]]]]. exists c, (totalSeen oa).
        split; auto. cbn. now rewrite Ho.
      - destruct Hstep as [-> | H]; auto.
        apply summaryAt_any in Hat. destruct q; discriminate Hat. }
    destruct Hsub as [c [T' [Hc Hs]]].
    destruct (IH c T' x k sk) as [pf [oa [c' H]]]; auto.
    { eapply Inv_child; eauto. }
    exists pf, oa, c'. rewrite fieldAt_cons, Hc. exact H.
Qed.

Lemma foldDocs_nil_properties : forall docs agg k fa,
  foldDocs makeObjectAgg docs = Some agg ->
  Map_get k (properties agg) = Some fa -> 1 <= totalSeen agg.
Proof.
  intros docs agg k fa E Hk. destruct (foldDocs_total docs) as [agg' [E' [_ Hts]]].
  assert (agg' = agg) by congruence. subst agg'.
  destruct docs; [| rewrite Hts; cbn; lia].
  cbn in E. inv_some. discriminate Hk.
Qed.

(** C2. In the profile of an aggregate built from documents, the
    summary of every field, at the top level and at every nesting depth,
    has [required] true if and only if the field's [presentCount] equals
    the [totalSeen] of the enclosing object aggregate, and that total is
    then strictly positive. *)
Theorem required_iff_full_presence :
  forall (docs : list (list (string * Value))) (collectionPath : string),
  exists agg profile,
    foldDocs makeObjectAgg docs = Some agg
    /\ profileFromAgg collectionPath agg = Some profile
    /\ forall p k s,
         profileSummaryAt profile (p ++ [Key k]) = Some s ->
         exists oa fa,
           rootObjectAt agg p = Some oa
           /\ Map_get k (properties oa) = Some fa
           /\ (s_required s = Some true
               <-> presentCount fa = totalSeen oa /\ 0 < totalSeen oa).
Proof.
  intros docs collectionPath.
  destruct (foldDocs_total docs) as [agg [Efold [[Hloc Hch] Hts]]].
  destruct (summarizeProperties_total agg Hch) as [fs Efs].
  exists agg. unfold profileFromAgg. rewrite Efs. cbn [obind].
  eexists. split; [exact Efold |]. split; [reflexivity |].
  destruct (summarizeProperties_spec summarizeField agg fs Efs) as [_ [_ Hget]].
  assert (Hfinal : forall T fa s,
             summarizeField fa T = Some s -> 1 <= T ->
             (s_required s = Some true <-> presentCount fa = T /\ 0 < T)).
  { intros T fa s Es Hpos. rewrite (summarizeField_required _ _ _ Es). split.
    - intro H. inversion H as [H']. apply Nat.eqb_eq in H'. split; [auto | lia].
    - intros [H _]. f_equal. now apply Nat.eqb_eq. }
  intros p k s Hat. destruct p as [| [k0 |] q].
  - cbn in Hat. obind_inv Hat. inv_some. specialize (Hget k). rewrite E in Hget.
    destruct (Map_get k (properties agg)) as [fa |] eqn:Ek; [| discriminate Hget].
    destruct Hget as [sc [Esc Hs]]. inv_some.
    exists agg, fa. split; [reflexivity | split; [exact Ek |]].
    apply Hfinal; auto. eapply foldDocs_nil_properties; eauto.
  - cbn [app profileSummaryAt fields] in Hat. obind_inv Hat.
    specialize (Hget k0). rewrite E in Hget.
    destruct (Map_get k0 (properties agg)) as [fa0 |] eqn:Ek0; [| discriminate Hget].
    destruct Hget as [sc [Esc Hs]]. inv_some.
    assert (Hinv0 : Inv false fa0).
    { apply Map_get_In in Ek0. rewrite Forall_forall in Hch. apply (Hch _ Ek0). }
    destruct (summaryAt_key q fa0 (totalSeen agg) sc k s Hinv0 Hs Hat)
      as [pf [oa [c [Hpf [Ho [Hc [Hsum Hpos]]]]]]].
    exists oa, c. split; [| split; [exact Hc | apply Hfinal; auto]].
    cbn [rootObjectAt rootFieldAt]. rewrite Ek0. cbn [obind]. rewrite Hpf. exact Ho.
  - discriminate Hat.
Qed.

Lemma required_iff_full_presence_witness :
  exists agg profile s,
    foldDocs makeObjectAgg nestedDocs = Some agg
    /\ profileFromAgg "users" agg = Some profile
    /\ profileSummaryAt profile ([Key "l"; Items] ++ [Key "z"]) = Some s
    /\ exists oa fa,
         rootObjectAt agg [Key "l"; Items] = Some oa
         /\ Map_get "z" (properties oa) = Some fa
         /\ (s_required s = Some true
             <-> presentCount fa = totalSeen oa /\ 0 < totalSeen oa).
Proof.
  destruct (required_iff_full_presence nestedDocs "users")
    as [agg [profile [E1 [E2 H]]]].
  assert (Hs : exists s, profileSummaryAt profile ([Key "l"; Items] ++ [Key "z"])
                         = Some s).
  { vm_compute in E1. injection E1 as <-.
    vm_compute in E2. injection E2 as <-.
    vm_compute. eexists. reflexivity. }
  destruct Hs as [s Hs].
  exists agg, profile, s. split; [exact E1 |]. split; [exact E2 |].
  split; [exact Hs |]. exact (H [Key "l"; Items] "z" s Hs).
Defined.

(** ** Example document *)

Lemma pickStep_fold : forall rest pre b mid,
  Forall (fun d => keyCount d < keyCount b) pre ->
  Forall (fun d => keyCount d <= keyCount b) mid ->
  exists before after,
    pre ++ b :: mid ++ rest
    = before ++ fst (fold_left pickStep rest (b, keyCount b)) :: after
    /\ Forall (fun d => keyCount d
                        < keyCount (fst (fold_left pickStep rest (b, keyCount b))))
         before
    /\ Forall (fun d => keyCount d
                        <= keyCount (fst (fold_left pickStep rest (b, keyCount b))))
         after.
Proof.
  induction rest as [| d rest IH]; intros pre b mid Hpre Hmid.
  - exists pre, mid. cbn. rewrite app_nil_r. auto.
  - cbn [fold_left]. unfold pickStep at 2 4 6. cbn [fst snd].
    destruct (keyCount b <? keyCount d) eqn:E.
    + apply Nat.ltb_lt in E.
      destruct (IH (pre ++ b :: mid) d []) as [before [after [Heq H]]].
      * apply Forall_app. split.
        -- eapply Forall_impl; [| exact Hpre]. cbn. intros; lia.
        -- constructor; [exact E |].
           eapply Forall_impl; [| exact Hmid]. cbn. intros; lia.
      * constructor.
      * exists before, after. split; [| exact H].
        rewrite <- Heq. cbn [app]. rewrite <- app_assoc. reflexivity.
    + apply Nat.ltb_ge in E.
      destruct (IH pre b (mid ++ [d])) as [before [after [Heq H]]]; auto.
      * apply Forall_app. split; auto.
      * exists before, after. split; [| exact H].
        rewrite <- Heq. rewrite <- app_assoc. reflexivity.
Qed.

Lemma pickExampleDoc_split : forall docSnaps,
  match pickExampleDoc docSnaps with
  | None => docSnaps = []
  | Some best =>
      exists before after,
        docSnaps = before ++ best :: after
        /\ Forall (fun d => keyCount d < keyCount best) before
        /\ Forall (fun d => keyCount d <= keyCount best) after
  end.
Proof.
  intros [| d0 rest]; cbn [pickExampleDoc]; [reflexivity |].
  destruct (pickStep_fold rest [] d0 []) as [before [after H]]; try constructor.
  exists before, after. exact H.
Qed.

(** X1. [pickExampleDoc] returns null exactly on an empty list;
    otherwise it returns the first of the documents with the most
    top-level keys: every document before it has strictly fewer keys, no
    document after it has more. *)
Theorem pickExampleDoc_first_richest : forall docSnaps : list DocSnap,
  (pickExampleDoc docSnaps = None <-> docSnaps = [])
  /\ forall best,
       pickExampleDoc docSnaps = Some best ->
       exists before after,
         docSnaps = before ++ best :: after
         /\ Forall (fun d => keyCount d < keyCount best) before
         /\ Forall (fun d => keyCount d <= keyCount best) after.
Proof.
  intro docSnaps. pose proof (pickExampleDoc_split docSnaps) as H.
  destruct (pickExampleDoc docSnaps) as [b |].
  - split.
    + split; [discriminate |]. intros ->. destruct H as [[| ? ?] [? [E _]]];
        discriminate E.
    + intros best E. inversion E; subst b. exact H.
  - split; [tauto | intros best E; discriminate E].
Qed.

Section RuntimeFacts.
Variable Timestamp_toISOString : Z -> Z -> string.
Variable Buffer_toBase64 : list Z -> string.
Variable String_ : Value -> string.

Local Abbreviation sanitize :=
  (sanitizeForExample Timestamp_toISOString Buffer_toBase64 String_).

Lemma sanitize_plain : forall v, isPlainValue (sanitize v) = true.
Proof.
  induction v using Value_nested_ind; cbn; try reflexivity.
  - rewrite forallb_forall. intros x Hx. apply in_map_iff in Hx as [y [<- Hy]].
    rewrite Forall_forall in H. auto.
  - rewrite forallb_forall. intros x Hx. apply in_map_iff in Hx as [y [<- Hy]].
    rewrite Forall_forall in H. cbn. apply (H y Hy).
Qed.

Lemma sanitize_fixed : forall v, isPlainValue v = true -> sanitize v = v.
Proof.
  induction v using Value_nested_ind; cbn; intro Hp;
    try reflexivity; try discriminate.
  - f_equal. rewrite forallb_forall in Hp. rewrite Forall_forall in H.
    rewrite <- (map_id els) at 2. apply map_ext_in. auto.
  - f_equal. rewrite forallb_forall in Hp. rewrite Forall_forall in H.
    rewrite <- (map_id es) at 2. apply map_ext_in.
    intros [k v] Hin. cbn. f_equal. apply (H _ Hin). apply (Hp _ Hin).
Qed.

(** X2. A sanitized value holds no store type at any depth: it is a
    value of JSON, and its kind is "string" for a timestamp, a reference,
    bytes and any unclassified value, "object" for a geopoint, and the
    kind of the value otherwise. *)
Theorem sanitizeForExample_plain : forall v : Value,
  isPlainValue (sanitize v) = true
  /\ detectKind (sanitize v) = sanitizedKind (detectKind v).
Proof.
  intro v. split; [apply sanitize_plain |]. destruct v; reflexivity.
Qed.

(** X3. [sanitizeForExample] changes nothing but store types: it
    returns a value unchanged exactly when the value is a value of JSON,
    it keeps the keys of every object, in order, and the length of every
    array, and sanitizing twice is sanitizing once. *)
Theorem sanitizeForExample_idempotent : forall v : Value,
  (sanitize v = v <-> isPlainValue v = true)
  /\ sanitize (sanitize v) = sanitize v
  /\ match v with
     | VObject entries =>
         exists entries',
           sanitize v = VObject entries' /\ map fst entries' = map fst entries
     | VArray elements =>
         exists elements',
           sanitize v = VArray elements'
           /\ List.length elements' = List.length elements
     | _ => True
     end.
Proof.
  intro v. split; [| split].
  - split; [| apply sanitize_fixed].
    intro E. rewrite <- E. apply sanitize_plain.
  - apply sanitize_fixed, sanitize_plain.
  - destruct v; try exact I; cbn.
    + eexists. split; [reflexivity |]. apply length_map.
    + eexists. split; [reflexivity |]. rewrite map_map. reflexivity.
Qed.

End RuntimeFacts.

(** ** Profile of a collection *)

Lemma foldDocs_app : forall docs1 docs2 agg,
  foldDocs agg (docs1 ++ docs2) = (a <- foldDocs agg docs1 ;; foldDocs a docs2).
Proof.
  induction docs1 as [| d docs1 IH]; intros docs2 agg; [reflexivity |].
  cbn [app]. rewrite !foldDocs_cons.
  destruct (addObjectSample agg d) as [a |]; cbn [obind]; auto.
Qed.

Lemma profileFromAgg_total : forall path agg,
  InvObject false agg ->
  exists profile, profileFromAgg path agg = Some profile
                  /\ collection profile = path.
Proof.
  intros path agg [_ Hch]. unfold profileFromAgg.
  destruct (summarizeProperties_total agg Hch) as [fs ->]. cbn [obind].
  eexists. split; reflexivity.
Qed.

Lemma sampleLimited_nil : forall (A : Type) cfg (l : list A),
  sampleLimited cfg l = [] <-> l = [].
Proof.
  intros A cfg l. unfold sampleLimited, Query_limit.
  destruct (SAMPLE_LIMIT cfg) as [n |]; [| tauto].
  destruct (0 <? n)%Z eqn:E; [| tauto].
  apply Z.ltb_lt in E. destruct l as [| x l]; [now rewrite firstn_nil |].
  destruct (Z.to_nat n) as [| m] eqn:En; [lia |].
  cbn. split; discriminate.
Qed.

Lemma sampleLimited_length : forall (A : Type) cfg (l : list A),
  List.length (sampleLimited cfg l)
  = match SAMPLE_LIMIT cfg with
    | Some n =>
        if (0 <? n)%Z then Nat.min (Z.to_nat n) (List.length l)
        else List.length l
    | None => List.length l
    end.
Proof.
  intros A cfg l. unfold sampleLimited, Query_limit.
  destruct (SAMPLE_LIMIT cfg) as [n |]; [| reflexivity].
  destruct (0 <? n)%Z; [apply length_firstn | reflexivity].
Qed.

Lemma subAggOf_from : forall cfg subId docs agg0,
  fold_left
    (fun acc d => subAgg <- acc ;; foldDocs subAgg (subcollectionDocs cfg subId d))
    docs (Some agg0)
  = foldDocs agg0 (flat_map (subcollectionDocs cfg subId) docs).
Proof.
  intros cfg subId docs. induction docs as [| d docs IH]; intro agg0; [reflexivity |].
  cbn [fold_left flat_map obind]. rewrite foldDocs_app.
  destruct (foldDocs agg0 (subcollectionDocs cfg subId d)) as [a |]; cbn [obind].
  - apply IH.
  - apply (fold_left_obind_None _ _
             (fun subAgg d => foldDocs subAgg (subcollectionDocs cfg subId d))).
Qed.

Lemma subAggOf_eq : forall cfg docs subId,
  subAggOf cfg docs subId
  = foldDocs makeObjectAgg (flat_map (subcollectionDocs cfg subId) docs).
Proof. intros. apply subAggOf_from. Qed.

Lemma collectSubIds_In : forall docs subId,
  In subId (collectSubIds docs)
  <-> exists d, In d docs /\ In subId (map fst (snap_subcollections d)).
Proof.
  intros docs subId. unfold collectSubIds.
  assert (Hinner : forall cols s,
            In subId (fold_left (fun subIds (c : string * list (list (string * Value))) =>
                                   Set_add (fst c) subIds) cols s)
            <-> In subId s \/ In subId (map fst cols)).
  { induction cols as [| c cols IH]; intro s; cbn [fold_left map]; [cbn; tauto |].
    rewrite IH. unfold Set_add. destruct (Set_has (fst c) s) eqn:Eh.
    - cbn. split; [tauto |]. intros [H | [H | H]]; auto.
      left. subst. clear - Eh. unfold Set_has in Eh.
      apply existsb_exists in Eh as [x [Hx E]]. string_cases. exact Hx.
    - rewrite in_app_iff. cbn. tauto. }
  assert (Houter : forall ds s,
            In subId (fold_left
                        (fun subIds d =>
                           fold_left (fun subIds (c : string * list (list (string * Value))) =>
                                        Set_add (fst c) subIds)
                             (snap_subcollections d) subIds) ds s)
            <-> In subId s
                \/ exists d, In d ds /\ In subId (map fst (snap_subcollections d))).
  { induction ds as [| d ds IH]; intro s; cbn [fold_left].
    - split; [tauto |]. intros [H | [d [[] _]]]. exact H.
    - rewrite IH, Hinner. split.
      + intros [[H | H] | [d' [H1 H2]]]; auto.
        * right. exists d. cbn. auto.
        * right. exists d'. cbn. auto.
      + intros [H | [d' [[<- | H1] H2]]]; auto. right. eauto. }
  rewrite Houter. cbn. split; [intros [[] | H]; exact H | auto].
Qed.

Lemma Map_has_Map_set : forall (A : Type) k' k (a : A) m,
  Map_has k' (Map_set k a m) = true <-> k' = k \/ Map_has k' m = true.
Proof.
  intros A k' k a m. rewrite !Map_has_In, Map_set_keys.
  destruct (Map_has k m) eqn:E.
  - split; [auto | intros [-> | H]; auto]. now apply Map_has_In.
  - rewrite in_app_iff. cbn. split; [intros [H | [H | []]]; auto | intros [-> | H]; auto].
Qed.

Lemma subprofilesOf_spec : forall cfg path docs subIds acc,
  (forall subId profile, Map_get subId acc = Some profile ->
     exists subAgg,
       subAggOf cfg docs subId = Some subAgg /\ 0 < totalSeen subAgg
       /\ profileFromAgg (path ++ "/{doc}/" ++ subId) subAgg = Some profile) ->
  exists ps,
    fold_left
      (fun acc subId =>
         subprofiles <- acc ;;
         subAgg <- subAggOf cfg docs subId ;;
         if 0 <? totalSeen subAgg then
           profile <- profileFromAgg (path ++ "/{doc}/" ++ subId) subAgg ;;
           Some (Map_set subId profile subprofiles)
         else Some subprofiles)
      subIds (Some acc) = Some ps
    /\ (forall subId profile, Map_get subId ps = Some profile ->
          exists subAgg,
            subAggOf cfg docs subId = Some subAgg /\ 0 < totalSeen subAgg
            /\ profileFromAgg (path ++ "/{doc}/" ++ subId) subAgg = Some profile)
    /\ (forall subId, Map_has subId ps = true
                      <-> Map_has subId acc = true
                          \/ (In subId subIds
                              /\ exists subAgg, subAggOf cfg docs subId = Some subAgg
                                                /\ 0 < totalSeen subAgg)).
Proof.
  intros cfg path docs subIds.
  induction subIds as [| s subIds IH]; intros acc Hacc.
  - exists acc. split; [reflexivity | split; [exact Hacc |]].
    intro subId. split; [auto | intros [H | [[] _]]; exact H].
  - cbn [fold_left obind].
    destruct (foldDocs_total (flat_map (subcollectionDocs cfg s) docs))
      as [subAgg [Es [Hinv Hts]]].
    rewrite <- subAggOf_eq in Es. rewrite Es. cbn [obind].
    destruct (0 <? totalSeen subAgg) eqn:Epos.
    + apply Nat.ltb_lt in Epos.
      destruct (profileFromAgg_total (path ++ "/{doc}/" ++ s) subAgg Hinv)
        as [profile [Ep _]].
      rewrite Ep. cbn [obind].
      destruct (IH (Map_set s profile acc)) as [ps [Eps [Hget Hhas]]].
      { intros subId pr Hg. destruct (String.eqb_spec s subId) as [<- | Hne].
        - rewrite Map_get_set_eq in Hg. inversion Hg; subst pr. eauto.
        - rewrite Map_get_set_neq in Hg by auto. auto. }
      exists ps. split; [exact Eps | split; [exact Hget |]].
      intro subId. rewrite Hhas, Map_has_Map_set.
      split.
      * intros [[H | H] | [H1 H2]]; auto.
        -- subst. right. split; [now left | eauto].
        -- right. split; [now right | exact H2].
      * intros [H | [[<- | H1] H2]]; auto.
    + apply Nat.ltb_ge in Epos.
      destruct (IH acc Hacc) as [ps [Eps [Hget Hhas]]].
      exists ps. split; [exact Eps | split; [exact Hget |]].
      intro subId. rewrite Hhas. split.
      * intros [H | [H1 H2]]; auto. right. split; [now right | exact H2].
      * intros [H | [[<- | H1] [a [Ea Ha]]]]; auto.
        -- rewrite Es in Ea. inversion Ea; subst a. lia.
        -- right. eauto.
Qed.

Section ProfileFacts.
Variable Timestamp_toISOString : Z -> Z -> string.
Variable Buffer_toBase64 : list Z -> string.
Variable String_ : Value -> string.

Local Abbreviation sanitize :=
  (sanitizeForExample Timestamp_toISOString Buffer_toBase64 String_).
Local Abbreviation build :=
  (buildProfile Timestamp_toISOString Buffer_toBase64 String_).
Local Abbreviation exampleBlockFor :=
  (buildExampleBlockForDoc Timestamp_toISOString Buffer_toBase64 String_).

Lemma buildProfile_eq : forall cfg path allDocs,
  exists agg profile subprofiles,
    foldDocs makeObjectAgg (map snap_data (fetchDocs cfg allDocs)) = Some agg
    /\ totalSeen agg = List.length (fetchDocs cfg allDocs)
    /\ profileFromAgg path agg = Some profile
    /\ subprofilesPart cfg path (fetchDocs cfg allDocs) = Some subprofiles
    /\ build cfg path allDocs
       = Some (MkOutput
                 (MkDocumentBlock (requiredFields profile) (fields profile))
                 subprofiles
                 (if INCLUDE_EXAMPLE cfg
                     && negb (List.length (fetchDocs cfg allDocs) =? 0)
                  then match pickExampleDoc (fetchDocs cfg allDocs) with
                       | Some chosen => Some (exampleBlockFor cfg chosen)
                       | None => None
                       end
                  else None)
                 (MkMeta (SAMPLE_LIMIT cfg) (totalSeen agg)
                    (INCLUDE_SUBCOLLECTIONS cfg))).
Proof.
  intros cfg path allDocs. unfold buildProfile. cbv zeta.
  set (docs := fetchDocs cfg allDocs).
  destruct (foldDocs_total (map snap_data docs)) as [agg [Ea [Hinv Hts]]].
  rewrite length_map in Hts.
  destruct (profileFromAgg_total path agg Hinv) as [profile [Ep _]].
  assert (Hsub : exists subprofiles, subprofilesPart cfg path docs = Some subprofiles).
  { unfold subprofilesPart.
    destruct (INCLUDE_SUBCOLLECTIONS cfg && negb (List.length docs =? 0));
      [| eauto].
    destruct (collectSubIds docs) as [| s l] eqn:Ec; [eauto |].
    destruct (subprofilesOf_spec cfg path docs (s :: l) []) as [ps [Eps _]];
      [intros ? ? H; discriminate H |].
    unfold subprofilesOf. rewrite Eps. cbn. eauto. }
  destruct Hsub as [subprofiles Es].
  exists agg, profile, subprofiles.
  split; [exact Ea | split; [exact Hts | split; [exact Ep | split; [exact Es |]]]].
  rewrite Ea. cbn [obind]. rewrite Ep. cbn [obind].
  unfold subprofilesPart in Es. rewrite Es. reflexivity.
Qed.

(** X4. What a profile that [buildProfile] returns holds. Its
    [docs_sampled] is the number of documents fetched, which is the size
    of the collection unless [SAMPLE_LIMIT] is a positive number (a limit
    of 0 or less samples everything); its [document] block is the profile
    of the data of the fetched documents; its [sample_limit] is the
    configured one. *)
Theorem buildProfile_sampled :
  forall (cfg : Config) (path : string) (allDocs : list DocSnap) (out : Output),
    build cfg path allDocs = Some out ->
    exists agg profile,
      foldDocs makeObjectAgg (map snap_data (fetchDocs cfg allDocs)) = Some agg
      /\ profileFromAgg path agg = Some profile
      /\ out_document out
         = MkDocumentBlock (requiredFields profile) (fields profile)
      /\ docs_sampled (out_meta out) = List.length (fetchDocs cfg allDocs)
      /\ docs_sampled (out_meta out)
         = match SAMPLE_LIMIT cfg with
           | Some n =>
               if (0 <? n)%Z then Nat.min (Z.to_nat n) (List.length allDocs)
               else List.length allDocs
           | None => List.length allDocs
           end
      /\ sample_limit (out_meta out) = SAMPLE_LIMIT cfg.
Proof.
  intros cfg path allDocs out Hout.
  destruct (buildProfile_eq cfg path allDocs)
    as [agg [profile [subprofiles [Ea [Hts [Ep [_ Eb]]]]]]].
  rewrite Eb in Hout. inversion Hout; subst out. clear Hout.
  exists agg, profile.
  cbn [out_document out_meta docs_sampled sample_limit].
  split; [exact Ea | split; [exact Ep | split; [reflexivity |]]].
  split; [exact Hts | split; [| reflexivity]].
  rewrite Hts. unfold fetchDocs. apply sampleLimited_length.
Qed.

Lemma totalSeen_flat_map : forall cfg subId docs subAgg,
  subAggOf cfg docs subId = Some subAgg ->
  (0 < totalSeen subAgg
   <-> exists d sdocs, In d docs
                       /\ Map_get subId (snap_subcollections d) = Some sdocs
                       /\ sdocs <> []).
Proof.
  intros cfg subId docs subAgg E. rewrite subAggOf_eq in E.
  destruct (foldDocs_total (flat_map (subcollectionDocs cfg subId) docs))
    as [a [Ea [_ Hts]]].
  assert (a = subAgg) by congruence. subst a. rewrite Hts. clear E Ea Hts.
  induction docs as [| d docs IH]; cbn [flat_map].
  - cbn. split; [lia | intros [d [s [[] _]]]].
  - rewrite length_app. split.
    + intro H.
      destruct (subcollectionDocs cfg subId d) as [| x l] eqn:Ed.
      * cbn in H. apply IH in H as [d' [s [H1 H2]]]. exists d', s. cbn. tauto.
      * unfold subcollectionDocs in Ed.
        destruct (Map_get subId (snap_subcollections d)) as [s |] eqn:Eg.
        -- exists d, s. split; [now left | split; [exact Eg |]].
           intros ->. rewrite (proj2 (sampleLimited_nil _ cfg [])) in Ed by reflexivity.
           discriminate Ed.
        -- rewrite (proj2 (sampleLimited_nil _ cfg [])) in Ed by reflexivity.
           discriminate Ed.
    + intros [d' [s [[<- | Hin] [Hg Hne]]]].
      * unfold subcollectionDocs. rewrite Hg.
        destruct (sampleLimited cfg s) as [| x l] eqn:Es.
        -- apply sampleLimited_nil in Es. contradiction.
        -- cbn. lia.
      * assert (0 < List.length (flat_map (subcollectionDocs cfg subId) docs)).
        { apply IH. eauto. }
        lia.
Qed.

(** X5. The [subcollections] block of the profile. It is absent
    exactly when [INCLUDE_SUBCOLLECTIONS] is off or no fetched document
    lists a subcollection. When present, it holds a profile for a
    subcollection id exactly when the subcollection of that id of some
    fetched document holds a document; that profile is named
    [<collection>/{doc}/<id>] and is the profile of the documents that the
    fetched documents hold under that id, taken together. *)
Theorem buildProfile_subcollections :
  forall (cfg : Config) (path : string) (allDocs : list DocSnap),
  exists out,
    build cfg path allDocs = Some out
    /\ (out_subcollections out = None
        <-> INCLUDE_SUBCOLLECTIONS cfg = false
            \/ Forall (fun d => snap_subcollections d = [])
                 (fetchDocs cfg allDocs))
    /\ forall subId,
         (Map_has subId (orEmpty (out_subcollections out)) = true
          <-> INCLUDE_SUBCOLLECTIONS cfg = true
              /\ exists d sdocs,
                   In d (fetchDocs cfg allDocs)
                   /\ Map_get subId (snap_subcollections d) = Some sdocs
                   /\ sdocs <> [])
         /\ forall profile,
              Map_get subId (orEmpty (out_subcollections out)) = Some profile ->
              exists subAgg,
                foldDocs makeObjectAgg
                  (flat_map (subcollectionDocs cfg subId) (fetchDocs cfg allDocs))
                = Some subAgg
                /\ profileFromAgg (path ++ "/{doc}/" ++ subId) subAgg = Some profile
                /\ collection profile = (path ++ "/{doc}/" ++ subId)%string.
Proof.
  intros cfg path allDocs.
  destruct (buildProfile_eq cfg path allDocs)
    as [agg [profile [subprofiles [_ [_ [_ [Es Eb]]]]]]].
  eexists. split; [exact Eb |]. cbn [out_subcollections].
  set (docs := fetchDocs cfg allDocs) in *. clearbody docs. clear Eb.
  unfold subprofilesPart in Es.
  assert (Hnone : forall d, In d docs -> snap_subcollections d = [] ->
                            ~ In d docs \/ True) by auto. clear Hnone.
  assert (Hlisted : collectSubIds docs = []
                    <-> Forall (fun d => snap_subcollections d = []) docs).
  { split.
    - intro Hc. apply Forall_forall. intros d Hd.
      destruct (snap_subcollections d) as [| c cs] eqn:Ed; [reflexivity |].
      assert (Hin : In (fst c) (collectSubIds docs)).
      { apply collectSubIds_In. exists d. rewrite Ed. cbn. auto. }
      rewrite Hc in Hin. destruct Hin.
    - intro Hall. destruct (collectSubIds docs) as [| s l] eqn:Ec; [reflexivity |].
      assert (Hin : In s (collectSubIds docs)) by (rewrite Ec; now left).
      apply collectSubIds_In in Hin as [d [Hd Hs]].
      rewrite Forall_forall in Hall. rewrite (Hall d Hd) in Hs. destruct Hs. }
  destruct (INCLUDE_SUBCOLLECTIONS cfg) eqn:Einc; cbn [andb] in Es.
  2:{ inversion Es; subst subprofiles. split; [tauto |].
      intro subId. cbn. split; [split; [discriminate | intros [H _]; discriminate H] |].
      intros pr H. discriminate H. }
  destruct (List.length docs =? 0) eqn:Elen; cbn [negb] in Es.
  { apply Nat.eqb_eq in Elen. destruct docs; [| discriminate Elen].
    inversion Es; subst subprofiles. split; [split; auto |].
    intro subId. cbn. split.
    - split; [discriminate | intros [_ [d [s [[] _]]]]].
    - intros pr H. discriminate H. }
  destruct (collectSubIds docs) as [| s l] eqn:Ec.
  { inversion Es; subst subprofiles. split.
    - split; [intros _; right; now apply Hlisted | reflexivity].
    - intro subId. cbn. split.
      + split; [discriminate |]. intros [_ [d [sd [Hd [Hg Hne]]]]].
        apply Map_get_In in Hg.
        assert (Hin : In subId (collectSubIds docs)).
        { apply collectSubIds_In. exists d. split; [exact Hd |].
          change subId with (fst (subId, sd)). now apply in_map. }
        rewrite Ec in Hin. destruct Hin.
      + intros pr H. discriminate H. }
  rewrite <- Ec in Es.
  destruct (subprofilesOf_spec cfg path docs (collectSubIds docs) [])
    as [ps [Eps [Hget Hhas]]]; [intros ? ? H; discriminate H |].
  unfold subprofilesOf in Es. rewrite Eps in Es. cbn [obind] in Es.
  inversion Es; subst subprofiles. clear Es. split.
  - split; [discriminate |]. intros [H | H]; [discriminate H |].
    apply Hlisted in H. discriminate H.
  - intro subId. cbn [orEmpty].
    rewrite Object_fromEntries_has, Object_fromEntries_get. split.
    + rewrite Hhas. split.
      * intros [H | [Hin [a [Ea Ha]]]]; [discriminate H |].
        split; [reflexivity |]. now apply (totalSeen_flat_map cfg subId docs a Ea).
      * intros [_ [d [sd [Hd [Hg Hne]]]]]. right.
        split.
        -- apply collectSubIds_In. exists d. split; [exact Hd |].
           apply Map_get_In in Hg. change subId with (fst (subId, sd)).
           now apply in_map.
        -- destruct (foldDocs_total (flat_map (subcollectionDocs cfg subId) docs))
             as [a [Ea _]].
           rewrite <- subAggOf_eq in Ea. exists a. split; [exact Ea |].
           apply (totalSeen_flat_map cfg subId docs a Ea). eauto.
    + intros pr Hg. destruct (Hget subId pr Hg) as [a [Ea [_ Ep]]].
      exists a. rewrite <- subAggOf_eq. split; [exact Ea | split; [exact Ep |]].
      unfold profileFromAgg in Ep. obind_inv Ep. inversion Ep. reflexivity.
Qed.

Lemma exampleSubcollections_In : forall cfg cols acc sub sdocs,
  In (sub, sdocs)
    (fold_left
       (fun subcollections (col : string * list (list (string * Value))) =>
          let snap :=
            Query_limit
              (Z.max 1 (toInt32 (EXAMPLE_SUBDOCS_PER_SUBCOLLECTION cfg)))
              (snd col) in
          match snap with
          | [] => subcollections
          | _ :: _ =>
              Map_set (fst col)
                (map (fun d => sanitize (VObject d)) snap) subcollections
          end)
       cols acc) ->
  In (sub, sdocs) acc
  \/ exists all,
       In (sub, all) cols
       /\ sdocs
          = map (fun d => sanitize (VObject d))
              (Query_limit
                 (Z.max 1 (toInt32 (EXAMPLE_SUBDOCS_PER_SUBCOLLECTION cfg))) all)
       /\ sdocs <> [].
Proof.
  intros cfg cols. induction cols as [| [c all] cols IH]; intros acc sub sdocs Hin.
  - left. exact Hin.
  - cbn [fold_left fst snd] in Hin. cbv zeta in Hin.
    apply IH in Hin as [Hin | [all' [H1 H2]]].
    + destruct (Query_limit _ all) as [| x l] eqn:Eq; [now left |].
      apply Map_set_In in Hin as [[-> ->] | [[_ Hin] | [_ Hin]]];
        [| now left | now left].
      right. exists all. split; [now left |]. rewrite Eq. split; [reflexivity |].
      discriminate.
    + right. exists all'. split; [now right | exact H2].
Qed.

(** X6. The [example] block of the profile. It is absent exactly when
    [INCLUDE_EXAMPLE] is off or no document was fetched. When present, its
    document is the sanitized data of the document that [pickExampleDoc]
    chooses among the fetched ones, and every subcollection it lists is a
    subcollection of that document, shown by the sanitized data of its
    first [max(1, N | 0)] documents, [N] being
    [EXAMPLE_SUBDOCS_PER_SUBCOLLECTION]: at least one document and at
    most that many. *)
Theorem buildProfile_example :
  forall (cfg : Config) (path : string) (allDocs : list DocSnap),
  exists out,
    build cfg path allDocs = Some out
    /\ (out_example out = None
        <-> INCLUDE_EXAMPLE cfg = false \/ fetchDocs cfg allDocs = [])
    /\ forall ex,
         out_example out = Some ex ->
         exists chosen,
           pickExampleDoc (fetchDocs cfg allDocs) = Some chosen
           /\ In chosen (fetchDocs cfg allDocs)
           /\ ex_document ex = sanitize (VObject (snap_data chosen))
           /\ forall sub sdocs,
                In (sub, sdocs) (orEmpty (ex_subcollections ex)) ->
                INCLUDE_SUBCOLLECTIONS cfg = true
                /\ 1 <= List.length sdocs
                /\ (Z.of_nat (List.length sdocs)
                    <= Z.max 1 (toInt32 (EXAMPLE_SUBDOCS_PER_SUBCOLLECTION cfg)))%Z
                /\ exists all,
                     In (sub, all) (snap_subcollections chosen)
                     /\ sdocs
                        = map (fun d => sanitize (VObject d))
                            (Query_limit
                               (Z.max 1
                                  (toInt32 (EXAMPLE_SUBDOCS_PER_SUBCOLLECTION cfg)))
                               all).
Proof.
  intros cfg path allDocs.
  destruct (buildProfile_eq cfg path allDocs)
    as [agg [profile [subprofiles [_ [_ [_ [_ Eb]]]]]]].
  eexists. split; [exact Eb |]. cbn [out_example].
  set (docs := fetchDocs cfg allDocs) in *. clearbody docs. clear Eb.
  pose proof (pickExampleDoc_split docs) as Hpick.
  destruct (INCLUDE_EXAMPLE cfg); cbn [andb].
  2:{ split; [tauto | intros ex H; discriminate H]. }
  destruct docs as [| d0 rest].
  { cbn. split; [tauto | intros ex H; discriminate H]. }
  cbn [List.length Nat.eqb negb].
  destruct (pickExampleDoc (d0 :: rest)) as [chosen |]; [| discriminate Hpick].
  destruct Hpick as [before [after [Hsplit _]]].
  split; [split; [discriminate | intros [H | H]; discriminate H] |].
  intros ex Hex. inversion Hex; subst ex. clear Hex.
  exists chosen. split; [reflexivity |].
  split; [rewrite Hsplit; apply in_elt |].
  unfold buildExampleBlockForDoc. cbv zeta.
  destruct (INCLUDE_SUBCOLLECTIONS cfg); cbn [negb].
  2:{ cbn. split; [reflexivity | intros ? ? []]. }
  destruct (snap_subcollections chosen) as [| c cs] eqn:Ec.
  { cbn. split; [reflexivity | intros ? ? []]. }
  cbn [ex_document ex_subcollections orEmpty]. split; [reflexivity |].
  intros sub sdocs Hin. apply (proj1 (Object_fromEntries_In _ _ _)) in Hin.
  apply exampleSubcollections_In in Hin as [[] | [all [Hall [Hs Hne]]]].
  split; [reflexivity |].
  assert (Hlen : List.length sdocs
                 = Nat.min (Z.to_nat (Z.max 1 (toInt32 (EXAMPLE_SUBDOCS_PER_SUBCOLLECTION cfg))))
                     (List.length all)).
  { rewrite Hs, length_map. unfold Query_limit. apply length_firstn. }
  split; [destruct sdocs; [contradiction | cbn; lia] |].
  split; [lia |].
  exists all. split; [exact Hall | exact Hs].
Qed.

End ProfileFacts.

Lemma buildProfile_sampled_witness :
  exists out,
    buildProfile (fun _ _ => "") (fun _ => "") (fun _ => "")
      zeroLimitConfig "weekly_lessons" lessonSnaps = Some out
    /\ docs_sampled (out_meta out) = 3
    /\ exists agg profile,
         foldDocs makeObjectAgg
           (map snap_data (fetchDocs zeroLimitConfig lessonSnaps)) = Some agg
         /\ profileFromAgg "weekly_lessons" agg = Some profile
         /\ out_document out
            = MkDocumentBlock (requiredFields profile) (fields profile)
         /\ docs_sampled (out_meta out)
            = List.length (fetchDocs zeroLimitConfig lessonSnaps)
         /\ docs_sampled (out_meta out)
            = match SAMPLE_LIMIT zeroLimitConfig with
              | Some n =>
                  if (0 <? n)%Z
                  then Nat.min (Z.to_nat n) (List.length lessonSnaps)
                  else List.length lessonSnaps
              | None => List.length lessonSnaps
              end
         /\ sample_limit (out_meta out) = SAMPLE_LIMIT zeroLimitConfig.
Proof.
  eexists. split; [vm_compute; reflexivity |]. split; [reflexivity |].
  apply (buildProfile_sampled (fun _ _ => "") (fun _ => "") (fun _ => "")
           zeroLimitConfig "weekly_lessons" lessonSnaps).
  vm_compute; reflexivity.
Defined.

(** ** Summaries in terms of the documents *)

Lemma stepField_seen : forall b fa st c,
  Inv b fa -> stepField fa st = Some c -> 1 <= presentCount c.
Proof.
  intros b fa st c Hinv E. destruct st as [k |]; cbn in E; obind_inv E.
  - destruct (Inv_objectOf _ _ _ Hinv E0) as [[_ Hloc] _].
    apply Map_get_In in E. rewrite Forall_forall in Hloc.
    apply (Hloc _ E).
  - eapply Inv_arrayOf; eauto.
Qed.

Lemma fieldAt_seen : forall b p fa c,
  Inv b fa -> 1 <= presentCount fa -> fieldAt fa p = Some c ->
  1 <= presentCount c.
Proof.
  intros b p. induction p as [| st p IH]; intros fa c Hinv Hpc E.
  - cbn in E. now inversion E; subst.
  - rewrite fieldAt_cons in E. unfold fieldAtOpt in E. obind_inv E.
    apply (IH x c); auto.
    + eapply Inv_child; eauto.
    + eapply stepField_seen; eauto.
Qed.

Lemma built_field_seen : forall docs agg p fa,
  foldDocs makeObjectAgg docs = Some agg -> rootFieldAt agg p = Some fa ->
  1 <= presentCount fa.
Proof.
  intros docs agg p fa E Hp. destruct (foldDocs_total docs) as [agg' [E' [H _]]].
  assert (agg' = agg) by congruence. subst agg'.
  destruct H as [[_ Hloc] Hch].
  destruct p as [| [k |] p]; try discriminate Hp.
  cbn in Hp. obind_inv Hp. apply Map_get_In in E0.
  rewrite Forall_forall in Hloc, Hch.
  apply (fieldAt_seen false p x fa); auto.
  - apply (Hch _ E0).
  - apply (Hloc _ E0).
Qed.

Lemma existsb_find : forall (A : Type) (p : A -> bool) l,
  existsb p l = match find p l with Some _ => true | None => false end.
Proof.
  intros A p l. induction l as [| x l IH]; cbn; auto.
  destruct (p x); auto.
Qed.

Lemma countAt_zero : forall fa k,
  Inv false fa ->
  (countAt k (Some fa) = 0 <-> findVariant (variants fa) k = None).
Proof.
  intros fa k Hinv. unfold countAt.
  destruct (findVariant (variants fa) k) as [v |] eqn:E.
  - destruct (Inv_findVariant _ _ _ _ Hinv E) as [[Hc _] _].
    split; [lia | discriminate].
  - tauto.
Qed.

Lemma countKind_null : forall vs,
  (0 <? countKind "null" vs) = existsb isNull vs.
Proof.
  unfold countKind. induction vs as [| v vs IH]; [reflexivity |].
  cbn [filter existsb]. destruct v; cbn; auto.
Qed.

Lemma countKind_zero : forall k vs,
  countKind k vs = 0 <-> Forall (fun v => detectKind v <> k) vs.
Proof.
  intros k vs. unfold countKind. induction vs as [| v vs IH]; cbn [filter].
  - split; [constructor | reflexivity].
  - destruct (detectKind v == k) eqn:E; string_cases.
    + split; [discriminate |]. intro H. inversion H. congruence.
    + rewrite IH. split; [now constructor | intro H; now inversion H].
Qed.

Lemma isNullable_built : forall docs agg p fa,
  foldDocs makeObjectAgg docs = Some agg -> rootFieldAt agg p = Some fa ->
  existsb (fun v => kind v == "null") (variants fa)
  = existsb isNull (flat_map (docOccurrences p) docs).
Proof.
  intros docs agg p fa E Hp.
  pose proof (built_field_Inv docs agg p fa E Hp) as Hinv.
  destruct (foldDocs_records docs agg p "null" E) as [_ [Hc _]].
  rewrite Hp in Hc. rewrite <- countKind_null, <- Hc.
  rewrite existsb_find. fold (findVariant (variants fa) "null").
  unfold countAt. destruct (findVariant (variants fa) "null") as [v |] eqn:Ef.
  - destruct (Inv_findVariant _ _ _ _ Hinv Ef) as [[H1 _] _].
    symmetry. apply Nat.ltb_lt. lia.
  - reflexivity.
Qed.

Lemma summarizeField_nullable : forall fa T s,
  summarizeField fa T = Some s ->
  s_nullable s
  = Some (match nonNullVariants fa with
          | [] => true
          | _ :: _ => existsb (fun v => kind v == "null") (variants fa)
          end).
Proof.
  intros fa T s E. rewrite summarizeField_eq in E. cbv zeta in E.
  destruct (nonNullVariants fa) as [| v [| w l]].
  - inv_some. reflexivity.
  - unfold summarizeVariant in E.
    destruct (kind v == "string"); [inv_some; reflexivity |].
    destruct (kind v == "boolean"); [inv_some; reflexivity |].
    destruct (kind v == "number"); [obind_inv E; inv_some; reflexivity |].
    destruct (kind v == "timestamp"); [inv_some; reflexivity |].
    destruct (kind v == "reference"); [inv_some; reflexivity |].
    destruct (kind v == "bytes"); [inv_some; reflexivity |].
    destruct (kind v == "geopoint"); [inv_some; reflexivity |].
    destruct (kind v == "array");
      [obind_inv E; obind_inv E; inv_some; reflexivity |].
    destruct (kind v == "object"); [| inv_some; reflexivity].
    obind_inv E. destruct (maybeAsMap x).
    + inv_some. reflexivity.
    + obind_inv E. inv_some. reflexivity.
  - obind_inv E. inv_some. reflexivity.
Qed.

(** X7. For every field of an aggregate built from documents, at the
    top level or nested, [summarizeField] returns a summary whose
    [nullable] is true exactly when one of the values that the documents
    hold at that field is null. *)
Theorem nullable_iff_null_observed :
  forall (docs : list (list (string * Value))) agg p fa T,
    foldDocs makeObjectAgg docs = Some agg ->
    rootFieldAt agg p = Some fa ->
    exists s,
      summarizeField fa T = Some s
      /\ s_nullable s = Some (existsb isNull (flat_map (docOccurrences p) docs)).
Proof.
  intros docs agg p fa T E Hp.
  pose proof (built_field_Inv docs agg p fa E Hp) as Hinv.
  destruct (summarizeField_total fa T Hinv) as [s Es].
  exists s. split; [exact Es |].
  rewrite (summarizeField_nullable fa T s Es).
  rewrite <- (isNullable_built docs agg p fa E Hp).
  destruct (nonNullVariants fa) as [| v l] eqn:En; [| reflexivity].
  f_equal. symmetry.
  pose proof (built_field_seen docs agg p fa E Hp) as Hseen.
  destruct (Inv_fieldLocal _ _ Hinv) as [Hsum _]. unfold countsAddUp in Hsum.
  destruct (variants fa) as [| x vs] eqn:Ev; [cbn in Hsum; lia |].
  unfold nonNullVariants in En. rewrite Ev in En.
  cbn [filter existsb] in *.
  destruct (kind x == "null"); [reflexivity | discriminate En].
Qed.

Lemma nullable_iff_null_observed_witness :
  exists agg fa,
    foldDocs makeObjectAgg nullDocs = Some agg
    /\ rootFieldAt agg [Key "a"; Key "b"] = Some fa
    /\ exists s,
         summarizeField fa 2 = Some s
         /\ s_nullable s
            = Some (existsb isNull
                      (flat_map (docOccurrences [Key "a"; Key "b"]) nullDocs)).
Proof.
  eexists; eexists.
  split; [vm_compute; reflexivity |].
  split; [vm_compute; reflexivity |].
  eapply (nullable_iff_null_observed nullDocs _ [Key "a"; Key "b"] _ 2).
  - vm_compute; reflexivity.
  - vm_compute; reflexivity.
Defined.

Lemma filter_single : forall (A : Type) (p : A -> bool) (key : A -> string) l v,
  NoDup (map key l) -> In v l -> p v = true ->
  (forall x, In x l -> p x = true -> key x = key v) ->
  filter p l = [v].
Proof.
  intros A p key l v Hnd. induction l as [| x l IH]; intros Hin Hp Hall;
    [destruct Hin |].
  cbn [map] in Hnd. inversion Hnd as [| ? ? Hnot Hnd']; subst.
  assert (Hrest : forall y, In y l -> p y = true -> key y = key v).
  { intros y Hy. apply Hall. now right. }
  cbn [filter]. destruct Hin as [-> | Hin].
  - rewrite Hp. f_equal.
    assert (Hnone : forall y, In y l -> p y = false).
    { intros y Hy. destruct (p y) eqn:Epy; [| reflexivity].
      exfalso. apply Hnot. rewrite <- (Hrest y Hy Epy). now apply in_map. }
    clear - Hnone. induction l as [| y l IH]; [reflexivity |].
    cbn. rewrite (Hnone y) by now left. apply IH. intros z Hz. apply Hnone. now right.
  - destruct (p x) eqn:Epx.
    + exfalso. apply Hnot. rewrite (Hall x (or_introl eq_refl) Epx).
      now apply in_map.
    + apply IH; auto.
Qed.

(** A field all of whose non-null values have one kind has one non-null
    variant, of that kind. *)
Lemma single_kind_variant : forall docs agg p fa K,
  foldDocs makeObjectAgg docs = Some agg -> rootFieldAt agg p = Some fa ->
  K <> "null" ->
  Forall (fun v => detectKind v = K \/ detectKind v = "null")
    (flat_map (docOccurrences p) docs) ->
  Exists (fun v => detectKind v = K) (flat_map (docOccurrences p) docs) ->
  exists v, nonNullVariants fa = [v] /\ kind v = K.
Proof.
  intros docs agg p fa K E Hp HK Hall Hex.
  pose proof (built_field_Inv docs agg p fa E Hp) as Hinv.
  assert (Hcount : forall k, countAt k (Some fa)
                             = countKind k (flat_map (docOccurrences p) docs)).
  { intro k. destruct (foldDocs_records docs agg p k E) as [_ [Hc _]].
    now rewrite Hp in Hc. }
  assert (HfK : exists v, findVariant (variants fa) K = Some v).
  { destruct (findVariant (variants fa) K) as [v |] eqn:Ef; [eauto |].
    apply (countAt_zero fa K Hinv) in Ef. rewrite Hcount in Ef.
    apply countKind_zero in Ef. apply Exists_exists in Hex as [x [Hx Hk]].
    rewrite Forall_forall in Ef. destruct (Ef x Hx Hk). }
  destruct HfK as [v Ef]. exists v.
  pose proof (findVariant_kind _ _ _ Ef) as Hkv. split; [| exact Hkv].
  destruct (Inv_fieldLocal _ _ Hinv) as [_ [Hnd _]].
  apply find_some in Ef as [Hin _].
  apply (filter_single _ _ (@kind FieldAgg) (variants fa) v Hnd Hin).
  - rewrite Hkv. apply negb_true_iff. now apply String.eqb_neq.
  - intros x Hx Hnn. rewrite Hkv.
    destruct (String.eqb_spec (kind x) K) as [Hk | Hk]; [exact Hk |].
    exfalso.
    assert (Hfx : findVariant (variants fa) (kind x) <> None).
    { unfold findVariant. intro Hnone.
      pose proof (find_none _ _ Hnone x Hx) as Hc. cbv beta in Hc.
      now rewrite String.eqb_refl in Hc. }
    apply Hfx. apply (countAt_zero fa (kind x) Hinv). rewrite Hcount.
    apply countKind_zero. eapply Forall_impl; [| exact Hall].
    cbv beta. intros y [Hy | Hy] Heq.
    + congruence.
    + apply negb_true_iff, String.eqb_neq in Hnn. congruence.
Qed.

Lemma numbersOf_nil : forall vs,
  numbersOf vs = [] <-> Forall (fun v => detectKind v <> "number") vs.
Proof.
  induction vs as [| v vs IH]; [split; [constructor | reflexivity] |].
  destruct v;
    try (change (numbersOf (?v :: vs)) with (numbersOf vs); rewrite IH;
         split; [intro H; constructor; [cbn; discriminate | exact H]
                | intro H; now inversion H]).
  change (numbersOf (VNumber n :: vs)) with (n :: numbersOf vs).
  split; [discriminate |]. intro H. inversion H as [| ? ? Hn _]. now destruct Hn.
Qed.

(** X8. A field of an aggregate built from documents whose non-null
    values all have one kind, other than "object" and "array", is
    summarized with the type of that kind: "string", "boolean",
    "timestamp" (with format RFC3339), "documentReference",
    "bytes(base64)", "geopoint{latitude:number, longitude:number}",
    "unknown", and for numbers "integer" when every number observed at
    the field is an integer, "number" as soon as one is not. *)
Theorem single_kind_type :
  forall (docs : list (list (string * Value))) agg p fa T K,
    foldDocs makeObjectAgg docs = Some agg ->
    rootFieldAt agg p = Some fa ->
    In K ["string"; "boolean"; "number"; "timestamp"; "reference"; "bytes";
          "geopoint"; "unknown"] ->
    Forall (fun v => detectKind v = K \/ detectKind v = "null")
      (flat_map (docOccurrences p) docs) ->
    Exists (fun v => detectKind v = K) (flat_map (docOccurrences p) docs) ->
    exists s,
      summarizeField fa T = Some s
      /\ s_type s
         = scalarTypeName K
             (forallb Number_isInteger
                (numbersOf (flat_map (docOccurrences p) docs)))
      /\ s_format s = (if K == "timestamp" then Some "RFC3339" else None)
      /\ s_union s = None /\ s_items s = None /\ s_fields s = None.
Proof.
  intros docs agg p fa T K E Hp HK Hall Hex.
  assert (Hnn : K <> "null").
  { intros ->. cbn in HK. intuition discriminate. }
  destruct (single_kind_variant docs agg p fa K E Hp Hnn Hall Hex) as [v [Hv Hkv]].
  pose proof (built_field_Inv docs agg p fa E Hp) as Hinv.
  destruct (summarizeField_total fa T Hinv) as [s Es].
  exists s. split; [exact Es |].
  rewrite summarizeField_eq in Es. cbv zeta in Es. rewrite Hv in Es.
  unfold summarizeVariant in Es. rewrite Hkv in Es.
  assert (Hint : K = "number" ->
                 exists na, number v = Some na
                            /\ integerOnly na
                               = forallb Number_isInteger
                                   (numbersOf (flat_map (docOccurrences p) docs))).
  { intros ->. destruct (foldDocs_records docs agg p "number" E) as [_ [_ Hi]].
    rewrite Hp in Hi. unfold integerOnlyAt, numberOf in Hi. cbn [obind] in Hi.
    rewrite <- Hkv in Hi at 1. rewrite (nonNull_findVariant fa v Hv) in Hi.
    cbn [obind] in Hi. unfold integerOnlyOf in Hi.
    destruct (numbersOf (flat_map (docOccurrences p) docs)) as [| n ns] eqn:En.
    - exfalso. apply numbersOf_nil in En. apply Exists_exists in Hex as [x [Hx Hk]].
      rewrite Forall_forall in En. exact (En x Hx Hk).
    - destruct (number v) as [na |]; [| discriminate Hi].
      cbn [obind] in Hi. inversion Hi. eauto. }
  cbn in HK.
  destruct HK as [<- | [<- | [<- | [<- | [<- | [<- | [<- | [<- | []]]]]]]]];
    cbn in Es; try (inv_some; repeat split; reflexivity).
  destruct (Hint eq_refl) as [na [Ena Hi]]. rewrite Ena in Es. cbn in Es.
  inv_some. cbn. rewrite Hi. repeat split; reflexivity.
Qed.

Lemma single_kind_type_witness :
  exists agg fa,
    foldDocs makeObjectAgg numberDocs = Some agg
    /\ rootFieldAt agg [Key "n"] = Some fa
    /\ In "number" ["string"; "boolean"; "number"; "timestamp"; "reference";
                    "bytes"; "geopoint"; "unknown"]
    /\ Forall (fun v => detectKind v = "number" \/ detectKind v = "null")
         (flat_map (docOccurrences [Key "n"]) numberDocs)
    /\ Exists (fun v => detectKind v = "number")
         (flat_map (docOccurrences [Key "n"]) numberDocs)
    /\ exists s,
         summarizeField fa 4 = Some s
         /\ s_type s
            = scalarTypeName "number"
                (forallb Number_isInteger
                   (numbersOf (flat_map (docOccurrences [Key "n"]) numberDocs)))
         /\ s_format s = (if "number" == "timestamp" then Some "RFC3339" else None)
         /\ s_union s = None /\ s_items s = None /\ s_fields s = None.
Proof.
  assert (Hall : Forall (fun v => detectKind v = "number" \/ detectKind v = "null")
                   (flat_map (docOccurrences [Key "n"]) numberDocs)).
  { cbn. constructor; [left; reflexivity |]. constructor; [right; reflexivity |].
    constructor; [left; reflexivity | constructor]. }
  assert (Hex : Exists (fun v => detectKind v = "number")
                  (flat_map (docOccurrences [Key "n"]) numberDocs)).
  { cbn. left. reflexivity. }
  assert (HK : In "number" ["string"; "boolean"; "number"; "timestamp";
                            "reference"; "bytes"; "geopoint"; "unknown"]).
  { cbn. auto. }
  eexists; eexists.
  split; [vm_compute; reflexivity |].
  split; [vm_compute; reflexivity |].
  split; [exact HK | split; [exact Hall | split; [exact Hex |]]].
  eapply (single_kind_type numberDocs _ [Key "n"] _ 4 "number").
  - vm_compute; reflexivity.
  - vm_compute; reflexivity.
  - exact HK.
  - exact Hall.
  - exact Hex.
Defined.

(** ** Keys of the profile *)

Lemma docOccurrences_key : forall k doc,
  docOccurrences [Key k] doc
  = map snd (filter (fun kv => fst kv == k) doc).
Proof.
  intros k doc. cbn [docOccurrences occurrences].
  induction doc as [| kv doc IH]; [reflexivity |].
  cbn [flat_map filter]. destruct (fst kv == k); cbn; now rewrite IH.
Qed.

Lemma docOccurrences_key_nil : forall k doc,
  docOccurrences [Key k] doc = [] <-> Map_has k doc = false.
Proof.
  intros k doc. rewrite docOccurrences_key. unfold Map_has.
  induction doc as [| kv doc IH]; cbn; [tauto |].
  destruct (fst kv == k); cbn; [split; discriminate | exact IH].
Qed.

Lemma distinctKeys_filter : forall k (doc : list (string * Value)),
  distinctKeys (map fst doc) = true ->
  List.length (docOccurrences [Key k] doc) = if Map_has k doc then 1 else 0.
Proof.
  intros k doc. rewrite docOccurrences_key, length_map. unfold Map_has.
  induction doc as [| kv doc IH]; [reflexivity |].
  cbn [map distinctKeys filter existsb]. intro H.
  apply andb_true_iff in H as [Hnot Hd]. specialize (IH Hd).
  destruct (fst kv == k) eqn:E; cbn [orb List.length]; [| exact IH].
  string_cases. apply negb_true_iff in Hnot.
  assert (Hnone : existsb (fun kv0 : string * Value => fst kv0 == fst kv) doc = false).
  { rewrite <- Hnot. unfold Set_has. clear.
    induction doc as [| x doc IH]; cbn; [reflexivity |]. now rewrite IH. }
  rewrite Hnone in IH. now rewrite IH.
Qed.

Lemma occurrences_holders : forall k docs,
  Forall (fun d => distinctKeys (map fst d) = true) docs ->
  List.length (flat_map (docOccurrences [Key k]) docs)
  = List.length (filter (fun d : list (string * Value) => Map_has k d) docs).
Proof.
  intros k docs H. induction H as [| d docs Hd _ IH]; [reflexivity |].
  cbn [flat_map filter]. rewrite length_app, (distinctKeys_filter k d Hd), IH.
  destruct (Map_has k d); reflexivity.
Qed.

Lemma filter_length_all : forall (A : Type) (p : A -> bool) l,
  List.length (filter p l) = List.length l <-> Forall (fun x => p x = true) l.
Proof.
  intros A p l. induction l as [| x l IH]; cbn [filter].
  - split; [constructor | reflexivity].
  - pose proof (filter_length_le p l) as Hle.
    destruct (p x) eqn:E; cbn [List.length].
    + split.
      * intro H. constructor; [exact E | apply IH; lia].
      * intro H. inversion H. f_equal. now apply IH.
    + split; [lia |]. intro H. inversion H. congruence.
Qed.

Lemma built_property : forall docs agg k,
  foldDocs makeObjectAgg docs = Some agg ->
  match Map_get k (properties agg) with
  | Some fa =>
      presentCount fa = List.length (flat_map (docOccurrences [Key k]) docs)
      /\ 1 <= presentCount fa
  | None => flat_map (docOccurrences [Key k]) docs = []
  end.
Proof.
  intros docs agg k E.
  destruct (foldDocs_records docs agg [Key k] "null" E) as [Hpc _].
  cbn [rootFieldAt] in Hpc.
  destruct (Map_get k (properties agg)) as [fa |] eqn:Eg; cbn in Hpc.
  - split; [exact Hpc |].
    apply (built_field_seen docs agg [Key k] fa E). cbn. now rewrite Eg.
  - destruct (flat_map (docOccurrences [Key k]) docs); [reflexivity | discriminate].
Qed.

Lemma flat_map_nil : forall (A B : Type) (f : A -> list B) l,
  flat_map f l = [] <-> Forall (fun x => f x = []) l.
Proof.
  intros A B f l. induction l as [| x l IH]; cbn.
  - split; [constructor | reflexivity].
  - split.
    + intro H. apply app_eq_nil in H as [H1 H2]. constructor; [exact H1 | now apply IH].
    + intro H. inversion H as [| ? ? H1 H2]. rewrite H1. now apply IH.
Qed.

Lemma requiredKeys_In : forall (oa : ObjectAgg) k,
  NoDup (map fst (properties oa)) ->
  (In k (requiredKeys oa)
   <-> exists fa, Map_get k (properties oa) = Some fa
                  /\ presentCount fa = totalSeen oa).
Proof.
  intros oa k Hnd. unfold requiredKeys. rewrite in_map_iff. split.
  - intros [[k' fa] [Hk Hin]]. cbn in Hk. subst k'.
    apply filter_In in Hin as [Hin Heq]. cbn in Heq. apply Nat.eqb_eq in Heq.
    exists fa. split; [now apply In_Map_get | exact Heq].
  - intros [fa [Hg Heq]]. exists (k, fa). split; [reflexivity |].
    apply filter_In. split; [now apply Map_get_In |]. cbn. now apply Nat.eqb_eq.
Qed.

Lemma orEmpty_required : forall req : list string,
  orEmpty (match req with [] => None | _ :: _ => Some req end) = req.
Proof. intros [| x l]; reflexivity. Qed.

(** X9. The profile of a list of documents lists a field for exactly
    the keys that occur in some document, each once; and its
    [requiredFields] are exactly the fields whose summary has [required]
    true. *)
Theorem profile_fields_cover_documents :
  forall (docs : list (list (string * Value))) (collectionPath : string),
  exists agg profile,
    foldDocs makeObjectAgg docs = Some agg
    /\ profileFromAgg collectionPath agg = Some profile
    /\ NoDup (map fst (fields profile))
    /\ (forall k, Map_has k (fields profile) = true
                  <-> exists d, In d docs /\ Map_has k d = true)
    /\ (forall k, In k (orEmpty (requiredFields profile))
                  <-> exists s, Map_get k (fields profile) = Some s
                                /\ s_required s = Some true).
Proof.
  intros docs path.
  destruct (foldDocs_total docs) as [agg [E [Hinv Hts]]].
  destruct (profileFromAgg_total path agg Hinv) as [profile [Ep _]].
  exists agg, profile. split; [exact E | split; [exact Ep |]].
  unfold profileFromAgg in Ep. obind_inv Ep. inversion Ep; subst profile. clear Ep.
  cbn [fields requiredFields]. rewrite orEmpty_required.
  destruct (summarizeProperties_spec summarizeField agg x E0)
    as [Hkeys [Hperm Hget]].
  destruct Hinv as [[Hnd _] _].
  split; [eapply Permutation_NoDup; [symmetry; exact Hperm | exact Hnd] | split].
  - intro k.
    rewrite Map_has_In, Hkeys, <- Map_has_In, Object_fromEntries_has, Map_has_get.
    pose proof (built_property docs agg k E) as Hb.
    destruct (Map_get k (properties agg)) as [fa |].
    + destruct Hb as [Hpc Hpos]. split; [intros _ | reflexivity].
      destruct (flat_map (docOccurrences [Key k]) docs) as [| v l] eqn:Ef;
        [cbn in Hpc; lia |].
      assert (Hne : ~ Forall (fun d => docOccurrences [Key k] d = []) docs).
      { intro H. apply flat_map_nil in H. congruence. }
      apply Exists_Forall_neg in Hne.
      * apply Exists_exists in Hne as [d [Hd Hn]]. exists d. split; [exact Hd |].
        destruct (Map_has k d) eqn:Eh; [reflexivity |].
        apply docOccurrences_key_nil in Eh. contradiction.
      * intro d. destruct (docOccurrences [Key k] d); [left | right]; congruence.
    + split; [discriminate |]. intros [d [Hd Hh]].
      apply flat_map_nil in Hb. rewrite Forall_forall in Hb.
      specialize (Hb d Hd). apply docOccurrences_key_nil in Hb. congruence.
  - intro k. rewrite (requiredKeys_In agg k Hnd). specialize (Hget k). split.
    + intros [fa [Hg Heq]]. rewrite Hg in Hget. destruct Hget as [sc [Hs Hsum]].
      exists sc. split; [exact Hs |].
      rewrite (summarizeField_required _ _ _ Hsum). f_equal. now apply Nat.eqb_eq.
    + intros [s [Hs Hreq]].
      destruct (Map_get k (properties agg)) as [fa |]; [| congruence].
      destruct Hget as [sc [Hs' Hsum]]. exists fa. split; [reflexivity |].
      assert (sc = s) by congruence. subst sc.
      rewrite (summarizeField_required _ _ _ Hsum) in Hreq.
      inversion Hreq as [Hq]. now apply Nat.eqb_eq.
Qed.

(** X10. For documents whose keys are distinct, as the keys of an
    object are, the [requiredFields] of the profile are exactly the keys
    that every document holds; an empty list of documents has none. *)
Theorem requiredFields_in_every_document :
  forall (docs : list (list (string * Value))) (collectionPath : string),
    Forall (fun d => distinctKeys (map fst d) = true) docs ->
    exists agg profile,
      foldDocs makeObjectAgg docs = Some agg
      /\ profileFromAgg collectionPath agg = Some profile
      /\ forall k, In k (orEmpty (requiredFields profile))
                   <-> docs <> []
                       /\ Forall (fun d : list (string * Value) =>
                                    Map_has k d = true) docs.
Proof.
  intros docs path Hdk.
  destruct (foldDocs_total docs) as [agg [E [Hinv Hts]]].
  destruct (profileFromAgg_total path agg Hinv) as [profile [Ep _]].
  exists agg, profile. split; [exact E | split; [exact Ep |]].
  unfold profileFromAgg in Ep. obind_inv Ep. inversion Ep; subst profile. clear Ep.
  cbn [requiredFields]. rewrite orEmpty_required.
  destruct Hinv as [[Hnd _] _].
  intro k. rewrite (requiredKeys_In agg k Hnd).
  pose proof (built_property docs agg k E) as Hb.
  rewrite (occurrences_holders k docs Hdk) in Hb.
  rewrite <- (filter_length_all _ (fun d : list (string * Value) => Map_has k d) docs).
  split.
  - intros [fa [Hg Heq]]. rewrite Hg in Hb. destruct Hb as [Hpc Hpos].
    split; [| congruence]. intros ->. cbn in Hts. lia.
  - intros [Hne Hall]. destruct (Map_get k (properties agg)) as [fa |].
    + exists fa. split; [reflexivity |]. destruct Hb as [Hpc _]. congruence.
    + exfalso. destruct docs as [| d docs]; [now apply Hne |].
      rewrite flat_map_nil in Hb.
      assert (Hlen : List.length
                       (filter (fun d0 : list (string * Value) => Map_has k d0)
                          (d :: docs)) = 0).
      { rewrite <- (occurrences_holders k (d :: docs) Hdk).
        apply length_zero_iff_nil. now apply flat_map_nil. }
      rewrite Hlen in Hall. discriminate Hall.
Qed.

Lemma requiredFields_in_every_document_witness :
  Forall (fun d => distinctKeys (map fst d) = true) rosterDocs
  /\ exists agg profile,
       foldDocs makeObjectAgg rosterDocs = Some agg
       /\ profileFromAgg "roster" agg = Some profile
       /\ forall k, In k (orEmpty (requiredFields profile))
                    <-> rosterDocs <> []
                        /\ Forall (fun d : list (string * Value) =>
                                     Map_has k d = true) rosterDocs.
Proof.
  assert (H : Forall (fun d => distinctKeys (map fst d) = true) rosterDocs).
  { repeat constructor. }
  split; [exact H |].
  exact (requiredFields_in_every_document rosterDocs "roster" H).
Defined.

(** ** Counters of the nested aggregates *)

Lemma objectsSeenAt_step : forall fa v fa',
  Inv false fa -> addValueSample fa v = Some fa' ->
  objectsSeenAt (Some fa') = seeKind "object" (objectsSeenAt (Some fa)) v.
Proof.
  intros fa v fa' Hinv E. pose proof (objectOf_add fa v fa' Hinv E) as Ho.
  unfold objectsSeenAt, seeKind. cbn [obind].
  destruct v; cbn; try (now rewrite Ho).
  destruct Ho as [props' [_ ->]]. reflexivity.
Qed.

Lemma arrayOf_add_counts : forall fa v fa',
  Inv false fa -> addValueSample fa v = Some fa' ->
  match v with
  | VArray elements =>
      exists aa',
        arrayOf fa' = Some aa'
        /\ arrTotalSeen aa'
           = S (match arrayOf fa with Some aa => arrTotalSeen aa | None => 0 end)
        /\ emptyCount aa'
           = (match elements with [] => 1 | _ :: _ => 0 end)
             + match arrayOf fa with Some aa => emptyCount aa | None => 0 end
  | _ => arrayOf fa' = arrayOf fa
  end.
Proof.
  intros fa v fa' Hinv E.
  assert (Hother : detectKind v <> "array" -> arrayOf fa' = arrayOf fa).
  { intro Hne. unfold arrayOf. now rewrite (findVariant_add_other _ _ _ _ E) by congruence. }
  destruct v; try (apply Hother; cbn; discriminate).
  destruct (findVariant_add_same _ _ _ E) as [x [x' [Ef' [Es [Hk Hcase]]]]].
  cbn in Ef', Hk, Hcase. unfold arrayOf. rewrite Ef'.
  unfold sampleVariant in Es. cbn [withCount array] in Es.
  obind_inv Es. destruct elements as [| el els].
  - inversion Es; subst x'. cbn [obind array withArray].
    eexists. split; [reflexivity |]. cbn [arrTotalSeen emptyCount].
    destruct Hcase as [Hf | [Hf ->]]; rewrite Hf; cbn [obind].
    + rewrite E0. auto.
    + cbn in E0. inversion E0; subst x0. auto.
  - obind_inv Es. inversion Es; subst x'. cbn [obind array withArray].
    eexists. split; [reflexivity |]. cbn [arrTotalSeen emptyCount].
    destruct Hcase as [Hf | [Hf ->]]; rewrite Hf; cbn [obind].
    + rewrite E0. auto.
    + cbn in E0. inversion E0; subst x0. auto.
Qed.

Lemma arraysSeenAt_step : forall fa v fa',
  Inv false fa -> addValueSample fa v = Some fa' ->
  arraysSeenAt (Some fa') = seeKind "array" (arraysSeenAt (Some fa)) v.
Proof.
  intros fa v fa' Hinv E. pose proof (arrayOf_add_counts fa v fa' Hinv E) as Ha.
  unfold arraysSeenAt, seeKind. cbn [obind].
  destruct v; cbn; try (now rewrite Ha).
  destruct Ha as [aa' [-> [-> _]]]. reflexivity.
Qed.

Lemma emptySeenAt_step : forall fa v fa',
  Inv false fa -> addValueSample fa v = Some fa' ->
  emptySeenAt (Some fa') = seeEmpty (emptySeenAt (Some fa)) v.
Proof.
  intros fa v fa' Hinv E. pose proof (arrayOf_add_counts fa v fa' Hinv E) as Ha.
  unfold emptySeenAt, seeEmpty. cbn [obind].
  destruct v; cbn [isEmptyArray]; try (now rewrite Ha).
  destruct Ha as [aa' [-> [_ ->]]]. destruct elements; reflexivity.
Qed.

Lemma fold_seeEmpty : forall vs n,
  fold_left seeEmpty vs n = n + List.length (filter isEmptyArray vs).
Proof.
  induction vs as [| v vs IH]; intro n; cbn [fold_left filter]; [cbn; lia |].
  rewrite IH. unfold seeEmpty. destruct (isEmptyArray v); cbn; lia.
Qed.

Lemma occurrences_items : forall p v,
  occurrences (p ++ [Items]) v = flat_map elementsOf (occurrences p v).
Proof.
  induction p as [| [k |] p IH]; intro v.
  - cbn. destruct v; cbn; try reflexivity.
    rewrite app_nil_r. induction elements as [| e es IHe]; cbn; [reflexivity |].
    now rewrite IHe.
  - cbn [app occurrences]. destruct v; try reflexivity.
    induction entries as [| kv es IHe]; [reflexivity |].
    cbn [flat_map]. rewrite flat_map_app, IHe.
    destruct (fst kv == k); [now rewrite IH | reflexivity].
  - cbn [app occurrences]. destruct v; try reflexivity.
    induction elements as [| e es IHe]; [reflexivity |].
    cbn [flat_map]. now rewrite flat_map_app, IHe, IH.
Qed.

Lemma docOccurrences_items : forall p doc,
  docOccurrences (p ++ [Items]) doc = flat_map elementsOf (docOccurrences p doc).
Proof.
  intros [| [k |] p] doc; try reflexivity.
  cbn [app docOccurrences].
  induction doc as [| kv doc IH]; [reflexivity |].
  cbn [flat_map]. rewrite flat_map_app, IH.
  destruct (fst kv == k); [now rewrite occurrences_items | reflexivity].
Qed.

Lemma fieldAt_app : forall p q fa,
  fieldAt fa (p ++ q) = fieldAtOpt (fieldAt fa p) q.
Proof.
  induction p as [| st p IH]; intros q fa; [reflexivity |].
  cbn [app]. rewrite !fieldAt_cons. unfold fieldAtOpt at 1 3.
  destruct (stepField fa st) as [c |]; cbn [obind]; [apply IH | reflexivity].
Qed.

Lemma rootFieldAt_items : forall agg p fa,
  rootFieldAt agg p = Some fa ->
  rootFieldAt agg (p ++ [Items]) = (aa <- arrayOf fa ;; items aa).
Proof.
  intros agg [| [k |] p] fa E; try discriminate E.
  cbn [app rootFieldAt] in *. obind_inv E. rewrite E0. cbn [obind].
  rewrite fieldAt_app, E. cbn.
  destruct (aa <- arrayOf fa ;; items aa); reflexivity.
Qed.

(** X11. The counters of the nested aggregates of a field of an
    aggregate built from documents, in terms of the values that the
    documents hold at the field: the object aggregate has counted the
    objects; the array aggregate has counted the arrays and, in
    [emptyCount], the empty ones; its shared [items] aggregate is absent
    exactly when every array was empty, and has otherwise counted the
    elements of all the arrays. *)
Theorem nested_counters :
  forall (docs : list (list (string * Value))) agg p fa,
    foldDocs makeObjectAgg docs = Some agg ->
    rootFieldAt agg p = Some fa ->
    (forall oa, objectOf fa = Some oa ->
       totalSeen oa = countKind "object" (flat_map (docOccurrences p) docs))
    /\ forall aa, arrayOf fa = Some aa ->
         arrTotalSeen aa = countKind "array" (flat_map (docOccurrences p) docs)
         /\ emptyCount aa
            = List.length (filter isEmptyArray (flat_map (docOccurrences p) docs))
         /\ (items aa = None <-> emptyCount aa = arrTotalSeen aa)
         /\ forall it, items aa = Some it ->
              presentCount it
              = List.length
                  (flat_map elementsOf (flat_map (docOccurrences p) docs)).
Proof.
  intros docs agg p fa E Hp.
  pose proof (InvObject_fresh false) as H0.
  assert (Hfresh : rootFieldAt makeObjectAgg p = None).
  { destruct p as [| [k0 |] p]; reflexivity. }
  split.
  - intros oa Ho.
    pose proof (foldDocs_observed _ objectsSeenAt (seeKind "object") eq_refl
                  objectsSeenAt_step p docs makeObjectAgg agg H0 E) as H.
    rewrite fold_seeKind, Hfresh, Hp in H. unfold objectsSeenAt in H.
    cbn [obind] in H. now rewrite Ho in H.
  - intros aa Ha.
    pose proof (foldDocs_observed _ arraysSeenAt (seeKind "array") eq_refl
                  arraysSeenAt_step p docs makeObjectAgg agg H0 E) as H1.
    rewrite fold_seeKind, Hfresh, Hp in H1. unfold arraysSeenAt in H1.
    cbn [obind] in H1. rewrite Ha in H1. cbn in H1.
    pose proof (foldDocs_observed _ emptySeenAt seeEmpty eq_refl
                  emptySeenAt_step p docs makeObjectAgg agg H0 E) as H2.
    rewrite fold_seeEmpty, Hfresh, Hp in H2. unfold emptySeenAt in H2.
    cbn [obind] in H2. rewrite Ha in H2. cbn in H2.
    pose proof (itemsSeenAt_built docs agg p E) as H3.
    rewrite Hp in H3. unfold itemsSeenAt in H3. rewrite Ha in H3. cbn [obind] in H3.
    split; [exact H1 | split; [exact H2 | split]].
    + rewrite H1, H2. unfold countKind. revert H3.
      generalize (flat_map (docOccurrences p) docs) as occs.
      generalize (items aa) as it. intros it occs H3.
      assert (Hcount : forall vs,
                List.length (filter isEmptyArray vs)
                <= List.length (filter (fun v => detectKind v == "array") vs)
                /\ (existsb nonEmptyArray vs = false
                    <-> List.length (filter isEmptyArray vs)
                        = List.length (filter (fun v => detectKind v == "array") vs))).
      { induction vs as [| v vs IH]; [cbn; split; [lia | split; reflexivity] |].
        destruct IH as [IH1 IH2]. cbn [filter existsb].
        destruct v; cbn [isEmptyArray nonEmptyArray detectKind isNull
                         instanceof_Timestamp instanceof_GeoPoint
                         instanceof_DocumentReference isBytes Array_isArray typeof
                         isPlainObject Object_prototype_toString orb];
          try (cbn; tauto).
        destruct elements as [| e es]; cbn.
        - split; [lia |]. rewrite IH2. lia.
        - split; [lia |]. split; [discriminate | lia]. }
      destruct (Hcount occs) as [_ Hiff]. rewrite <- Hiff.
      destruct it; rewrite <- H3; split; congruence.
    + intros it Hit.
      destruct (foldDocs_records docs agg (p ++ [Items]) "null" E) as [Hpc _].
      rewrite (rootFieldAt_items agg p fa Hp), Ha in Hpc. cbn [obind] in Hpc.
      rewrite Hit in Hpc. cbn in Hpc. rewrite Hpc.
      f_equal. clear. induction docs as [| d docs IH]; [reflexivity |].
      cbn [flat_map]. now rewrite flat_map_app, IH, docOccurrences_items.
Qed.

Lemma nested_counters_witness :
  exists agg fa,
    foldDocs makeObjectAgg listDocs = Some agg
    /\ rootFieldAt agg [Key "l"] = Some fa
    /\ (forall oa, objectOf fa = Some oa ->
          totalSeen oa
          = countKind "object" (flat_map (docOccurrences [Key "l"]) listDocs))
    /\ forall aa, arrayOf fa = Some aa ->
         arrTotalSeen aa
         = countKind "array" (flat_map (docOccurrences [Key "l"]) listDocs)
         /\ emptyCount aa
            = List.length
                (filter isEmptyArray (flat_map (docOccurrences [Key "l"]) listDocs))
         /\ (items aa = None <-> emptyCount aa = arrTotalSeen aa)
         /\ forall it, items aa = Some it ->
              presentCount it
              = List.length
                  (flat_map elementsOf
                     (flat_map (docOccurrences [Key "l"]) listDocs)).
Proof.
  eexists; eexists.
  split; [vm_compute; reflexivity |].
  split; [vm_compute; reflexivity |].
  eapply (nested_counters listDocs _ [Key "l"] _).
  - vm_compute; reflexivity.
  - vm_compute; reflexivity.
Defined.

End InferFacts.

(** * Properties of scripts/lintCollectionSchema.js *)

Module LintFacts.
Import Lint.

(** ** Binary64 numbers *)

Section DoubleFacts.
Local Open Scope Q_scope.

(** *** Powers of two *)

Lemma pow2_pos : forall e : Z, 0 < 2 ^ e.
Proof. intro e. apply Qpower_0_lt. reflexivity. Qed.

Lemma pow2_add : forall a b : Z, 2 ^ (a + b) == 2 ^ a * 2 ^ b.
Proof. intros a b. apply Qpower_plus. discriminate. Qed.

Lemma pow2_succ : forall a : Z, 2 ^ (a + 1) == 2 * 2 ^ a.
Proof. intro a. rewrite pow2_add. change (2 ^ 1) with 2. ring. Qed.

Lemma pow2_le : forall a b : Z, (a <= b)%Z -> 2 ^ a <= 2 ^ b.
Proof. intros a b H. apply Qpower_le_compat_l; [exact H | discriminate]. Qed.

Lemma pow2_lt : forall a b : Z, (a < b)%Z -> 2 ^ a < 2 ^ b.
Proof. intros a b H. apply Qpower_lt_compat_l; [exact H | reflexivity]. Qed.

Lemma pow2_cancel : forall e : Z, 2 ^ (- e) * 2 ^ e == 1.
Proof. intro e. rewrite <- pow2_add. now replace (- e + e)%Z with 0%Z by lia. Qed.

Lemma pow2_Z : forall n : Z, (0 <= n)%Z -> inject_Z (2 ^ n) == 2 ^ n.
Proof. intros n H. now rewrite Zpower_Qpower. Qed.

(** Scaling by a power of two. *)
Lemma scale_le : forall (x : Q) (a e : Z),
  2 ^ (a + e) <= x <-> 2 ^ a <= x * 2 ^ (- e).
Proof.
  intros x a e. rewrite pow2_add. pose proof (pow2_pos e) as He.
  pose proof (pow2_pos (- e)) as Hne. pose proof (pow2_cancel e) as Hc.
  split; intro H.
  - assert (H1 : 2 ^ a * 2 ^ e * 2 ^ (- e) <= x * 2 ^ (- e)).
    { apply Qmult_le_compat_r; [exact H | now apply Qlt_le_weak]. }
    setoid_replace (2 ^ a * 2 ^ e * 2 ^ (- e)) with (2 ^ a * (2 ^ (- e) * 2 ^ e))
      in H1 by ring.
    rewrite Hc in H1. now rewrite Qmult_1_r in H1.
  - assert (H1 : 2 ^ a * 2 ^ e <= x * 2 ^ (- e) * 2 ^ e).
    { apply Qmult_le_compat_r; [exact H | now apply Qlt_le_weak]. }
    setoid_replace (x * 2 ^ (- e) * 2 ^ e) with (x * (2 ^ (- e) * 2 ^ e))
      in H1 by ring.
    rewrite Hc in H1. now rewrite Qmult_1_r in H1.
Qed.

Lemma scale_lt : forall (x : Q) (a e : Z),
  x < 2 ^ (a + e) <-> x * 2 ^ (- e) < 2 ^ a.
Proof.
  intros x a e. split; intro H.
  - apply Qnot_le_lt. intro H'. apply scale_le in H'.
    exact (Qlt_not_le _ _ H H').
  - apply Qnot_le_lt. intro H'. apply scale_le in H'.
    exact (Qlt_not_le _ _ H H').
Qed.

(** *** Rounding to an integer *)

Lemma roundHalfEven_floor : forall y,
  roundHalfEven y = Qfloor y \/ roundHalfEven y = (Qfloor y + 1)%Z.
Proof.
  intro y. unfold roundHalfEven.
  destruct (Qcompare _ _); [destruct (Z.even _) | |]; auto.
Qed.

Lemma roundHalfEven_Z : forall z : Z, roundHalfEven (inject_Z z) = z.
Proof.
  intro z. unfold roundHalfEven. rewrite Qfloor_Z.
  assert (H : inject_Z z - inject_Z z < 1 # 2).
  { setoid_replace (inject_Z z - inject_Z z) with 0 by ring. reflexivity. }
  destruct (Qcompare_spec (inject_Z z - inject_Z z) (1 # 2)) as [E | E | E];
    [exfalso; lra | reflexivity | exfalso; lra].
Qed.

Lemma roundHalfEven_mono : forall x y,
  x <= y -> (roundHalfEven x <= roundHalfEven y)%Z.
Proof.
  intros x y H. pose proof (Qfloor_resp_le x y H) as Hf.
  destruct (Z.eq_dec (Qfloor x) (Qfloor y)) as [E | N].
  - unfold roundHalfEven. rewrite E.
    destruct (Qcompare_spec (x - inject_Z (Qfloor y)) (1 # 2)) as [Ex | Ex | Ex];
      destruct (Qcompare_spec (y - inject_Z (Qfloor y)) (1 # 2)) as [Ey | Ey | Ey];
      try (destruct (Z.even (Qfloor y))); try lia; exfalso; lra.
  - destruct (roundHalfEven_floor x) as [-> | ->];
      destruct (roundHalfEven_floor y) as [-> | ->]; lia.
Qed.

Lemma roundHalfEven_proper : forall x y,
  x == y -> roundHalfEven x = roundHalfEven y.
Proof.
  intros x y H. apply Z.le_antisymm; apply roundHalfEven_mono; rewrite H;
    apply Qle_refl.
Qed.

Lemma roundHalfEven_le_Z : forall (y : Q) (z : Z),
  y <= inject_Z z -> (roundHalfEven y <= z)%Z.
Proof.
  intros y z H. rewrite <- (roundHalfEven_Z z). now apply roundHalfEven_mono.
Qed.

Lemma roundHalfEven_ge_Z : forall (y : Q) (z : Z),
  inject_Z z <= y -> (z <= roundHalfEven y)%Z.
Proof.
  intros y z H. rewrite <- (roundHalfEven_Z z). now apply roundHalfEven_mono.
Qed.

Lemma pow2_52 : inject_Z (2 ^ 52) == 2 ^ 52.
Proof. apply pow2_Z. lia. Qed.

Lemma pow2_53 : inject_Z (2 ^ 53) == 2 ^ 53.
Proof. apply pow2_Z. lia. Qed.

(** *** The exponent *)

Lemma log2_between : forall x : Q,
  0 < x ->
  let k := (Z.log2 (Qnum x) - Z.log2 (Zpos (Qden x)))%Z in
  2 ^ (k - 1) < x /\ x < 2 ^ (k + 1).
Proof.
  intros [n d] Hx. cbn [Qnum Qden]. cbv zeta.
  assert (Hn : (0 < n)%Z).
  { unfold Qlt in Hx. cbn in Hx. lia. }
  destruct (Z.log2_spec n Hn) as [Hn1 Hn2].
  destruct (Z.log2_spec (Zpos d) (Pos2Z.is_pos d)) as [Hd1 Hd2].
  pose proof (Z.log2_nonneg n) as Ha. pose proof (Z.log2_nonneg (Zpos d)) as Hb.
  set (a := Z.log2 n) in *. set (b := Z.log2 (Zpos d)) in *.
  assert (Hxq : n # d == inject_Z n / inject_Z (Zpos d)) by apply Qmake_Qdiv.
  assert (Hdpos : 0 < inject_Z (Zpos d)) by reflexivity.
  assert (Qn1 : 2 ^ a <= inject_Z n).
  { rewrite <- pow2_Z by exact Ha. rewrite <- Zle_Qle. exact Hn1. }
  assert (Qn2 : inject_Z n < 2 ^ (a + 1)).
  { rewrite <- pow2_Z by lia. rewrite <- Zlt_Qlt.
    now replace (a + 1)%Z with (Z.succ a) by lia. }
  assert (Qd1 : 2 ^ b <= inject_Z (Zpos d)).
  { rewrite <- pow2_Z by exact Hb. rewrite <- Zle_Qle. exact Hd1. }
  assert (Qd2 : inject_Z (Zpos d) < 2 ^ (b + 1)).
  { rewrite <- pow2_Z by lia. rewrite <- Zlt_Qlt.
    now replace (b + 1)%Z with (Z.succ b) by lia. }
  rewrite Hxq. split.
  - apply Qlt_shift_div_l; [exact Hdpos |].
    apply Qlt_le_trans with (2 ^ (a - b - 1) * 2 ^ (b + 1)).
    + apply Qmult_lt_l; [apply pow2_pos | exact Qd2].
    + rewrite <- pow2_add. now replace (a - b - 1 + (b + 1))%Z with a by lia.
  - apply Qlt_shift_div_r; [exact Hdpos |].
    apply Qlt_le_trans with (2 ^ (a + 1)); [exact Qn2 |].
    replace (a + 1)%Z with (a - b + 1 + b)%Z by lia. rewrite pow2_add.
    apply Qmult_le_l; [apply pow2_pos | exact Qd1].
Qed.

Lemma binade_spec : forall x : Q,
  0 < x -> 2 ^ binade x <= x /\ x < 2 ^ (binade x + 1).
Proof.
  intros x Hx. destruct (log2_between x Hx) as [H1 H2]. unfold binade.
  set (k := (Z.log2 (Qnum x) - Z.log2 (Zpos (Qden x)))%Z) in *.
  destruct (Qle_bool (2 ^ k) x) eqn:E.
  - apply Qle_bool_iff in E. auto.
  - split; [now apply Qlt_le_weak |].
    replace (k - 1 + 1)%Z with k by lia.
    apply Qnot_le_lt. intro H. apply Qle_bool_iff in H. congruence.
Qed.

Lemma binade_unique : forall (x : Q) (b : Z),
  2 ^ b <= x -> x < 2 ^ (b + 1) -> binade x = b.
Proof.
  intros x b H1 H2.
  assert (Hx : 0 < x) by (eapply Qlt_le_trans; [apply pow2_pos | exact H1]).
  destruct (binade_spec x Hx) as [B1 B2].
  destruct (Z.lt_trichotomy (binade x) b) as [L | [E | G]]; [| exact E |].
  - exfalso. assert (H : 2 ^ (binade x + 1) <= 2 ^ b) by (apply pow2_le; lia).
    lra.
  - exfalso. assert (H : 2 ^ (b + 1) <= 2 ^ binade x) by (apply pow2_le; lia).
    lra.
Qed.

Lemma binade_mono : forall x y : Q,
  0 < x -> x <= y -> (binade x <= binade y)%Z.
Proof.
  intros x y Hx Hxy. assert (Hy : 0 < y) by lra.
  destruct (binade_spec x Hx) as [X1 X2]. destruct (binade_spec y Hy) as [Y1 Y2].
  destruct (Z_le_gt_dec (binade x) (binade y)) as [L | G]; [exact L |].
  exfalso. assert (H : 2 ^ (binade y + 1) <= 2 ^ binade x) by (apply pow2_le; lia).
  lra.
Qed.

Lemma ulpExponent_mono : forall x y : Q,
  0 < x -> x <= y -> (ulpExponent x <= ulpExponent y)%Z.
Proof.
  intros x y Hx Hxy. unfold ulpExponent.
  pose proof (binade_mono x y Hx Hxy). lia.
Qed.

(** The scaled number is below [2^53], and from [2^52] on unless the
    exponent is the least one. *)
Lemma scaled_below : forall x : Q,
  0 < x -> x * 2 ^ (- ulpExponent x) < 2 ^ 53.
Proof.
  intros x Hx. apply scale_lt. destruct (binade_spec x Hx) as [_ B2].
  eapply Qlt_le_trans; [exact B2 |]. apply pow2_le.
  unfold ulpExponent. lia.
Qed.

Lemma scaled_above : forall x : Q,
  0 < x -> (-1074 < ulpExponent x)%Z -> 2 ^ 52 <= x * 2 ^ (- ulpExponent x).
Proof.
  intros x Hx He. apply scale_le. destruct (binade_spec x Hx) as [B1 _].
  eapply Qle_trans; [| exact B1]. apply pow2_le.
  unfold ulpExponent in *. lia.
Qed.

(** *** The nearest number *)

Lemma nearestDouble_nonneg : forall x : Q, 0 < x -> 0 <= nearestDouble x.
Proof.
  intros x Hx. unfold nearestDouble.
  apply Qmult_le_0_compat; [| apply Qlt_le_weak, pow2_pos].
  change 0 with (inject_Z 0). rewrite <- Zle_Qle.
  rewrite <- (roundHalfEven_Z 0). apply roundHalfEven_mono.
  apply Qmult_le_0_compat; [now apply Qlt_le_weak | apply Qlt_le_weak, pow2_pos].
Qed.

Lemma nearestDouble_mono : forall x y : Q,
  0 < x -> x <= y -> nearestDouble x <= nearestDouble y.
Proof.
  intros x y Hx Hxy. assert (Hy : 0 < y) by lra.
  pose proof (ulpExponent_mono x y Hx Hxy) as He. unfold nearestDouble.
  set (ex := ulpExponent x) in *. set (ey := ulpExponent y) in *.
  destruct (Z.eq_dec ex ey) as [E | N].
  - rewrite E. apply Qmult_le_compat_r; [| apply Qlt_le_weak, pow2_pos].
    rewrite <- Zle_Qle. apply roundHalfEven_mono.
    apply Qmult_le_compat_r; [exact Hxy | apply Qlt_le_weak, pow2_pos].
  - assert (Hlt : (ex < ey)%Z) by lia.
    assert (Hx53 : inject_Z (roundHalfEven (x * 2 ^ (- ex))) <= 2 ^ 53).
    { apply Qle_trans with (inject_Z (2 ^ 53)); [| rewrite pow2_53; apply Qle_refl].
      rewrite <- Zle_Qle. apply roundHalfEven_le_Z.
      apply Qle_trans with (2 ^ 53); [| rewrite pow2_53; apply Qle_refl].
      apply Qlt_le_weak. now apply scaled_below. }
    assert (Hy52 : 2 ^ 52 <= inject_Z (roundHalfEven (y * 2 ^ (- ey)))).
    { apply Qle_trans with (inject_Z (2 ^ 52)); [rewrite pow2_52; apply Qle_refl |].
      rewrite <- Zle_Qle. apply roundHalfEven_ge_Z.
      apply Qle_trans with (2 ^ 52); [rewrite pow2_52; apply Qle_refl |].
      apply scaled_above; [exact Hy |].
      unfold ey in *. unfold ex in Hlt. unfold ulpExponent in *. lia. }
    apply Qle_trans with (2 ^ 53 * 2 ^ ex).
    + apply Qmult_le_compat_r; [exact Hx53 | apply Qlt_le_weak, pow2_pos].
    + apply Qle_trans with (2 ^ 52 * 2 ^ ey).
      * rewrite <- !pow2_add. apply pow2_le. lia.
      * apply Qmult_le_compat_r; [exact Hy52 | apply Qlt_le_weak, pow2_pos].
Qed.

Lemma nearestDouble_proper : forall x y : Q,
  0 < x -> x == y -> nearestDouble x == nearestDouble y.
Proof.
  intros x y Hx E. apply Qle_antisym; apply nearestDouble_mono; lra.
Qed.

(** A number that is already a multiple of its unit is kept. *)
Lemma nearestDouble_fixed : forall (m e : Z),
  (0 < m)%Z -> (m <= 2 ^ 53)%Z -> (-1074 <= e)%Z ->
  ((2 ^ 52 <= m)%Z \/ e = (-1074)%Z) ->
  nearestDouble (inject_Z m * 2 ^ e) == inject_Z m * 2 ^ e.
Proof.
  intros m e Hm Hm53 He Hnorm.
  set (y := inject_Z m * 2 ^ e).
  assert (Hmq : 0 < inject_Z m) by (change 0 with (inject_Z 0); now rewrite <- Zlt_Qlt).
  assert (Hy : 0 < y) by (apply Qmult_lt_0_compat; [exact Hmq | apply pow2_pos]).
  assert (Hscale : forall k, y * 2 ^ (- k) == inject_Z m * 2 ^ (e - k)).
  { intro k. unfold y. replace (e - k)%Z with (e + - k)%Z by lia.
    rewrite pow2_add. ring. }
  destruct (Z.eq_dec m (2 ^ 53)) as [E53 | N53].
  - (* the next binade *)
    assert (Hval : y == 2 ^ (53 + e)).
    { unfold y. rewrite E53, pow2_Z by lia. now rewrite pow2_add. }
    assert (Hb : binade y = (53 + e)%Z).
    { apply binade_unique; rewrite Hval; [apply Qle_refl | apply pow2_lt; lia]. }
    unfold nearestDouble. unfold ulpExponent. rewrite Hb.
    replace (Z.max (-1074) (53 + e - 52)) with (e + 1)%Z by lia.
    assert (Hu : y * 2 ^ (- (e + 1)) == inject_Z (2 ^ 52)).
    { rewrite Hval, <- pow2_add, pow2_Z by lia.
      now replace (53 + e + - (e + 1))%Z with 52%Z by lia. }
    rewrite (roundHalfEven_proper _ _ Hu), roundHalfEven_Z.
    rewrite pow2_Z by lia. rewrite <- pow2_add, Hval.
    now replace (52 + (e + 1))%Z with (53 + e)%Z by lia.
  - assert (Hlt53 : (m < 2 ^ 53)%Z) by lia.
    assert (Hexp : ulpExponent y = e).
    { unfold ulpExponent.
      assert (Qm53 : inject_Z m < 2 ^ 53).
      { rewrite <- pow2_Z by lia. now rewrite <- Zlt_Qlt. }
      destruct (Z_le_gt_dec (2 ^ 52) m) as [L52 | G52].
      - assert (Qm52 : 2 ^ 52 <= inject_Z m).
        { rewrite <- pow2_Z by lia. now rewrite <- Zle_Qle. }
        assert (Hb : binade y = (52 + e)%Z).
        { apply binade_unique.
          - apply scale_le. rewrite Hscale. replace (e - e)%Z with 0%Z by lia.
            change (2 ^ 0) with 1. now rewrite Qmult_1_r.
          - replace (52 + e + 1)%Z with (53 + e)%Z by lia.
            apply scale_lt. rewrite Hscale. replace (e - e)%Z with 0%Z by lia.
            change (2 ^ 0) with 1. now rewrite Qmult_1_r. }
        rewrite Hb. lia.
      - destruct Hnorm as [H | ->]; [lia |].
        assert (Qm52 : inject_Z m < 2 ^ 52).
        { rewrite <- pow2_Z by lia. rewrite <- Zlt_Qlt. lia. }
        assert (Hb : (binade y < 52 + -1074)%Z).
        { destruct (binade_spec y Hy) as [B1 _].
          destruct (Z_lt_ge_dec (binade y) (52 + -1074)) as [L | G]; [exact L |].
          exfalso.
          assert (H : 2 ^ (52 + -1074) <= y).
          { eapply Qle_trans; [| exact B1]. apply pow2_le. lia. }
          apply scale_le in H. rewrite Hscale in H.
          replace (-1074 - -1074)%Z with 0%Z in H by lia.
          change (2 ^ 0) with 1 in H. rewrite Qmult_1_r in H. lra. }
        lia. }
    unfold nearestDouble. rewrite Hexp.
    assert (Hu : y * 2 ^ (- e) == inject_Z m).
    { rewrite Hscale. replace (e - e)%Z with 0%Z by lia.
      change (2 ^ 0) with 1. now rewrite Qmult_1_r. }
    rewrite (roundHalfEven_proper _ _ Hu), roundHalfEven_Z. reflexivity.
Qed.

Lemma nearestDouble_idempotent : forall x : Q,
  0 < x -> 0 < nearestDouble x ->
  nearestDouble (nearestDouble x) == nearestDouble x.
Proof.
  intros x Hx Hpos. unfold nearestDouble at 2 3.
  set (e := ulpExponent x). set (m := roundHalfEven (x * 2 ^ (- e))).
  assert (Hm : (0 < m)%Z).
  { unfold nearestDouble in Hpos. fold e m in Hpos.
    destruct (Z_lt_le_dec 0 m) as [L | G]; [exact L |]. exfalso.
    assert (H : inject_Z m <= 0) by (change 0 with (inject_Z 0); now rewrite <- Zle_Qle).
    pose proof (pow2_pos e) as He.
    assert (H' : inject_Z m * 2 ^ e <= 0 * 2 ^ e).
    { apply Qmult_le_compat_r; [exact H | now apply Qlt_le_weak]. }
    lra. }
  assert (Hm53 : (m <= 2 ^ 53)%Z).
  { unfold m. apply roundHalfEven_le_Z.
    apply Qle_trans with (2 ^ 53); [| rewrite pow2_53; apply Qle_refl].
    apply Qlt_le_weak. now apply scaled_below. }
  assert (He : (-1074 <= e)%Z) by (unfold e, ulpExponent; lia).
  apply nearestDouble_fixed; auto.
  destruct (Z.eq_dec e (-1074)) as [E | N]; [now right | left].
  unfold m. apply roundHalfEven_ge_Z.
  apply Qle_trans with (2 ^ 52); [rewrite pow2_52; apply Qle_refl |].
  apply scaled_above; [exact Hx | fold e; lia].
Qed.

(** *** [toDouble] *)

Lemma toDouble_pos : forall x : Q, 0 < x -> toDouble x = nearestDouble x.
Proof.
  intros x H. unfold toDouble.
  destruct (Qcompare_spec x 0) as [E | E | E]; try reflexivity; exfalso; lra.
Qed.

Lemma toDouble_neg : forall x : Q, x < 0 -> toDouble x = - nearestDouble (- x).
Proof.
  intros x H. unfold toDouble.
  destruct (Qcompare_spec x 0) as [E | E | E]; try reflexivity; exfalso; lra.
Qed.

Lemma toDouble_zero : forall x : Q, x == 0 -> toDouble x = 0.
Proof.
  intros x H. unfold toDouble.
  destruct (Qcompare_spec x 0) as [E | E | E]; try reflexivity; exfalso; lra.
Qed.

Lemma toDouble_mono : forall x y : Q, x <= y -> toDouble x <= toDouble y.
Proof.
  intros x y H.
  destruct (Qcompare_spec x 0) as [Ex | Ex | Ex];
    destruct (Qcompare_spec y 0) as [Ey | Ey | Ey]; try (exfalso; lra).
  - rewrite (toDouble_zero x Ex), (toDouble_zero y Ey). apply Qle_refl.
  - rewrite (toDouble_zero x Ex), (toDouble_pos y Ey).
    now apply nearestDouble_nonneg.
  - rewrite (toDouble_neg x Ex), (toDouble_zero y Ey).
    assert (H0 : 0 <= nearestDouble (- x)) by (apply nearestDouble_nonneg; lra).
    lra.
  - rewrite (toDouble_neg x Ex), (toDouble_neg y Ey).
    assert (H0 : nearestDouble (- y) <= nearestDouble (- x))
      by (apply nearestDouble_mono; lra).
    lra.
  - rewrite (toDouble_neg x Ex), (toDouble_pos y Ey).
    assert (H0 : 0 <= nearestDouble (- x)) by (apply nearestDouble_nonneg; lra).
    assert (H1 : 0 <= nearestDouble y) by (now apply nearestDouble_nonneg).
    lra.
  - rewrite (toDouble_pos x Ex), (toDouble_pos y Ey).
    now apply nearestDouble_mono.
Qed.

Lemma toDouble_proper : forall x y : Q, x == y -> toDouble x == toDouble y.
Proof.
  intros x y E. apply Qle_antisym; apply toDouble_mono; lra.
Qed.

Lemma toDouble_idempotent : forall x : Q, toDouble (toDouble x) == toDouble x.
Proof.
  intro x. destruct (Qcompare_spec x 0) as [Ex | Ex | Ex].
  - rewrite (toDouble_zero x Ex). reflexivity.
  - rewrite (toDouble_neg x Ex).
    assert (Hx : 0 < - x) by lra.
    pose proof (nearestDouble_nonneg (- x) Hx) as H0.
    destruct (Qcompare_spec (nearestDouble (- x)) 0) as [E | E | E];
      [| exfalso; lra |].
    + rewrite toDouble_zero by lra. lra.
    + rewrite toDouble_neg by lra.
      assert (Hi : nearestDouble (- - nearestDouble (- x)) == nearestDouble (- x)).
      { rewrite (nearestDouble_proper (- - nearestDouble (- x)) (nearestDouble (- x)));
          [| lra | ring].
        now apply nearestDouble_idempotent. }
      lra.
  - rewrite (toDouble_pos x Ex).
    pose proof (nearestDouble_nonneg x Ex) as H0.
    destruct (Qcompare_spec (nearestDouble x) 0) as [E | E | E];
      [| exfalso; lra |].
    + rewrite toDouble_zero by lra. lra.
    + rewrite toDouble_pos by lra. now apply nearestDouble_idempotent.
Qed.

(** A numeral that a binary64 number reaches: the number it denotes is
    reached as well. *)
Lemma toDouble_le_rounded : forall x y : Q,
  x <= toDouble y -> toDouble x <= toDouble y.
Proof.
  intros x y H. rewrite <- (toDouble_idempotent y). now apply toDouble_mono.
Qed.

Lemma roundTo4_mono : forall x y : Q, x <= y -> roundTo4 x <= roundTo4 y.
Proof.
  intros x y H. unfold roundTo4.
  assert (Hf : (Qfloor (x * 10000 + (1 # 2)) <= Qfloor (y * 10000 + (1 # 2)))%Z).
  { apply Qfloor_resp_le. lra. }
  unfold Qle. cbn [Qnum Qden]. lia.
Qed.

Lemma toFixed4_mono : forall x y : Q, x <= y -> toFixed4 x <= toFixed4 y.
Proof.
  intros x y H. unfold toFixed4. now apply toDouble_mono, roundTo4_mono.
Qed.

(** The fractions of the program are binary64 numbers. *)
Lemma presenceFraction_double : forall totalDocs presentCount,
  toDouble (presenceFraction totalDocs presentCount)
  == presenceFraction totalDocs presentCount.
Proof.
  intros [| n] c; cbn [presenceFraction]; [reflexivity |].
  unfold ratio. apply toDouble_idempotent.
Qed.

(** Comparing with a numeral and comparing with the number it denotes. *)
Lemma threshold_reached : forall (thr : Q) totalDocs presentCount,
  Qle_bool thr (presenceFraction totalDocs presentCount) = true ->
  Qle_bool (toDouble thr) (presenceFraction totalDocs presentCount) = true.
Proof.
  intros thr T c H. apply Qle_bool_iff. apply Qle_bool_iff in H.
  rewrite <- presenceFraction_double. now apply toDouble_mono.
Qed.

End DoubleFacts.

(** ** Scan loop *)

Section ScanFacts.
Variable State : Type.
Variable onDoc : State -> Doc -> Result State.
Variable cfg : Config.

Lemma visit_Throw : forall ds n m,
  visit onDoc ds (n, Throw m) = (n, Throw m).
Proof. induction ds as [| d ds IH]; intros n m; [reflexivity | apply IH]. Qed.

Lemma visit_cons : forall d ds n s,
  visit onDoc (d :: ds) (n, Ok s) = visit onDoc ds (S n, onDoc s d).
Proof. reflexivity. Qed.

Lemma visit_app : forall l1 l2 st,
  visit onDoc (l1 ++ l2) st = visit onDoc l2 (visit onDoc l1 st).
Proof. intros. unfold visit. apply fold_left_app. Qed.

Lemma visit_count : forall ds n s n' s',
  visit onDoc ds (n, Ok s) = (n', Ok s') -> n' = n + List.length ds.
Proof.
  induction ds as [| d ds IH]; intros n s n' s' H.
  - cbn in H. inversion H. cbn. lia.
  - rewrite visit_cons in H.
    destruct (onDoc s d) as [s1 | m].
    + apply IH in H. cbn [List.length]. lia.
    + rewrite visit_Throw in H. discriminate H.
Qed.

Lemma remaining_reached : forall n l,
  limitReached cfg n = true -> remaining cfg n l = [].
Proof.
  intros n l H. unfold limitReached, remaining in *.
  destruct (SAMPLE_LIMIT cfg) as [limit |]; [| discriminate H].
  apply Nat.leb_le in H. replace (limit - n) with 0 by lia. reflexivity.
Qed.

Lemma remaining_cons : forall n d l,
  limitReached cfg n = false ->
  remaining cfg n (d :: l) = d :: remaining cfg (S n) l.
Proof.
  intros n d l H. unfold limitReached, remaining in *.
  destruct (SAMPLE_LIMIT cfg) as [limit |]; [| reflexivity].
  apply Nat.leb_gt in H. replace (limit - n) with (S (limit - S n)) by lia.
  reflexivity.
Qed.

Lemma remaining_nil : forall n, remaining cfg n [] = [].
Proof.
  intro n. unfold remaining. destruct (SAMPLE_LIMIT cfg); [apply firstn_nil | reflexivity].
Qed.

Lemma remaining_app : forall n l1 l2,
  remaining cfg n (l1 ++ l2)
  = remaining cfg n l1 ++ remaining cfg (n + List.length l1) l2.
Proof.
  intros n l1 l2. unfold remaining.
  destruct (SAMPLE_LIMIT cfg) as [limit |]; [| reflexivity].
  rewrite firstn_app. f_equal. f_equal. lia.
Qed.

Lemma remaining_after : forall n l1 l2,
  remaining cfg (n + List.length (remaining cfg n l1)) l2
  = remaining cfg (n + List.length l1) l2.
Proof.
  intros n l1 l2. unfold remaining.
  destruct (SAMPLE_LIMIT cfg) as [limit |]; [| reflexivity].
  rewrite length_firstn.
  destruct (Nat.le_ge_cases (limit - n) (List.length l1)) as [H | H].
  - rewrite Nat.min_l by exact H.
    replace (limit - (n + (limit - n))) with 0 by lia.
    replace (limit - (n + List.length l1)) with 0 by lia. reflexivity.
  - now rewrite Nat.min_r by exact H.
Qed.

Lemma scanPage_visit : forall page n s,
  limitReached cfg n = false ->
  scanPage onDoc cfg page n s = visit onDoc (remaining cfg n page) (n, Ok s).
Proof.
  induction page as [| d page IH]; intros n s Hn.
  - rewrite remaining_nil. reflexivity.
  - rewrite (remaining_cons n d page Hn). cbn [scanPage]. cbv zeta.
    rewrite visit_cons.
    destruct (onDoc s d) as [s' | m].
    + destruct (limitReached cfg (S n)) eqn:E.
      * now rewrite (remaining_reached (S n) page E).
      * apply IH. exact E.
    + now rewrite visit_Throw.
Qed.

Lemma scanPages_visit : forall fuel rest n s,
  1 <= BATCH_SIZE cfg -> List.length rest < fuel ->
  scanPages onDoc fuel cfg rest n s
  = visit onDoc (remaining cfg n rest) (n, Ok s).
Proof.
  induction fuel as [| fuel IH]; intros rest n s HB Hfuel; [lia |].
  cbn [scanPages]. destruct (limitReached cfg n) eqn:Hn.
  - now rewrite (remaining_reached n rest Hn).
  - cbv zeta. pose proof (firstn_skipn (BATCH_SIZE cfg) rest) as Hsplit.
    pose proof (length_firstn (BATCH_SIZE cfg) rest) as Hlen.
    destruct (firstn (BATCH_SIZE cfg) rest) as [| x snap'] eqn:Esnap.
    + destruct rest as [| y rest'].
      * now rewrite remaining_nil.
      * cbn [List.length] in Hlen. lia.
    + set (snap := x :: snap') in *.
      replace (remaining cfg n rest)
        with (remaining cfg n (snap ++ skipn (BATCH_SIZE cfg) rest))
        by (now rewrite Hsplit).
      rewrite remaining_app, visit_app.
      rewrite (scanPage_visit snap n s Hn).
      destruct (visit onDoc (remaining cfg n snap) (n, Ok s)) as [n' [s' | m]] eqn:Ev.
      * pose proof (visit_count _ _ _ _ _ Ev) as Hn'.
        destruct (List.length snap <? BATCH_SIZE cfg) eqn:Eshort.
        -- apply Nat.ltb_lt in Eshort.
           assert (Hall : skipn (BATCH_SIZE cfg) rest = []).
           { apply skipn_all2. lia. }
           rewrite Hall, remaining_nil. reflexivity.
        -- apply Nat.ltb_ge in Eshort.
           assert (HlenB : List.length snap = BATCH_SIZE cfg) by lia.
           rewrite HlenB. rewrite IH.
           ++ rewrite Hn', remaining_after, HlenB. reflexivity.
           ++ exact HB.
           ++ rewrite length_skipn. lia.
      * now rewrite visit_Throw.
Qed.

End ScanFacts.

Lemma scanStats_visit : forall cfg ds,
  scanStats cfg ds = visit (recordDoc cfg) ds (0, Ok []).
Proof. reflexivity. Qed.

Lemma visit_total : forall (State : Type) (f : State -> Doc -> State) ds n s,
  visit (fun s d => Ok (f s d)) ds (n, Ok s)
  = (n + List.length ds, Ok (fold_left f ds s)).
Proof.
  intros State f ds. induction ds as [| d ds IH]; intros n s.
  - cbn. now rewrite Nat.add_0_r.
  - rewrite visit_cons, IH. cbn [List.length]. f_equal. lia.
Qed.

(** The scan loop hands the scanned documents to its callback, in order,
    and stops at the first call that throws. *)
Lemma scanCollectionDocs_visit :
  forall (State : Type) (onDoc : State -> Doc -> Result State) cfg docs s0,
    scanCollectionDocs onDoc cfg docs s0
    = visit onDoc (scanned cfg docs) (0, Ok s0).
Proof.
  intros State onDoc cfg docs s0. unfold scanCollectionDocs, scanned.
  destruct (BATCH_SIZE cfg) as [| b] eqn:EB.
  - cbn [scanPages]. rewrite EB. cbn [firstn].
    now destruct (limitReached cfg 0).
  - rewrite scanPages_visit by (rewrite ?EB; lia).
    unfold remaining. destruct (SAMPLE_LIMIT cfg); [now rewrite Nat.sub_0_r |].
    reflexivity.
Qed.

(** Pass 1 and pass 2 on the scanned documents. *)
Lemma pass1_buildStats_eq : forall cfg docs,
  pass1_buildStats cfg docs
  = let st := scanStats cfg (scanned cfg docs) in
    match snd st with
    | Ok fs => (fst st, Ok (MkPass1 fs (fst st) (fst st)))
    | Throw m => (fst st, Throw m)
    end.
Proof.
  intros cfg docs. unfold pass1_buildStats.
  now rewrite scanCollectionDocs_visit, <- scanStats_visit.
Qed.

Lemma pass2_missingExamples_eq : forall cfg docs expected,
  pass2_missingExamples cfg docs expected
  = fold_left (missingStep cfg expected) (scanned cfg docs) [].
Proof.
  intros cfg docs expected. unfold pass2_missingExamples.
  now rewrite scanCollectionDocs_visit, visit_total.
Qed.

(** ** Flattening *)

Lemma flattenDoc_NoDup : forall v base out,
  NoDup (map fst out) -> NoDup (map fst (flattenDoc v base out)).
Proof.
  induction v using Value_nested_ind; intros base out Hnd; try exact Hnd.
  change (NoDup (map fst
    (fold_left
       (fun out kv =>
          let path :=
            if base == "" then fst kv
            else String.append base (String.append "." (fst kv)) in
          let v := snd kv in
          if isPlainObject v
             && negb (instanceof_Timestamp v)
             && negb (instanceof_GeoPoint v)
             && negb (instanceof_DocumentReference v)
          then flattenDoc v path out
          else Map_set path v out) es out))).
  revert out Hnd. induction H as [| kv es Hkv _ IH]; intros out Hnd; cbn [fold_left].
  - exact Hnd.
  - apply IH. cbv zeta.
    destruct (isPlainObject (snd kv) && negb (instanceof_Timestamp (snd kv))
              && negb (instanceof_GeoPoint (snd kv))
              && negb (instanceof_DocumentReference (snd kv))).
    + apply Hkv; auto.
    + apply Map_set_NoDup; auto.
Qed.

Lemma flat_NoDup : forall doc, NoDup (map fst (flat doc)).
Proof.
  intro doc. apply Object_fromEntries_NoDup, flattenDoc_NoDup. constructor.
Qed.

(** ** Pass 1 *)

Lemma recordField_Ok : forall cfg docId fs path value fs',
  recordField cfg docId fs path value = Ok fs' ->
  exists st,
    fs' = Map_set path st fs
    /\ presentCount st = S (countOf path fs).
Proof.
  intros cfg docId fs path value fs' H. unfold recordField in H. unfold countOf.
  destruct (lookupRule cfg path) as [rule |]; [destruct value |];
    try (inversion H; subst; eexists; split; [reflexivity |];
         cbn; destruct (Map_get path fs); reflexivity).
  destruct (regex rule) as [test | | |]; try discriminate H.
  inversion H; subst; eexists; split; [reflexivity |].
  cbn; destruct (Map_get path fs); reflexivity.
Qed.

Lemma countOf_set : forall f path st fs,
  countOf f (Map_set path st fs)
  = if path == f then presentCount st else countOf f fs.
Proof.
  intros f path st fs. unfold countOf. destruct (path == f) eqn:E.
  - string_cases. now rewrite Map_get_set_eq.
  - string_cases. now rewrite Map_get_set_neq.
Qed.

Lemma Map_has_set : forall (A : Type) f path (a : A) m,
  Map_has f (Map_set path a m) = (path == f) || Map_has f m.
Proof.
  intros A f path a m. rewrite !Map_has_get. destruct (path == f) eqn:E.
  - string_cases. now rewrite Map_get_set_eq.
  - string_cases. now rewrite Map_get_set_neq.
Qed.

(** The loop of [recordDoc] over entries with distinct keys. *)
Lemma recordEntries_Ok : forall cfg docId entries fs fs',
  NoDup (map fst entries) ->
  fold_left
    (fun acc kv =>
       match acc with
       | Ok fs0 => recordField cfg docId fs0 (fst kv) (snd kv)
       | Throw m => Throw m
       end) entries (Ok fs) = Ok fs' ->
  (NoDup (map fst fs) -> NoDup (map fst fs'))
  /\ forall f,
       countOf f fs' = countOf f fs + (if Map_has f entries then 1 else 0)
       /\ Map_has f fs' = Map_has f fs || Map_has f entries.
Proof.
  intros cfg docId entries. induction entries as [| [k v] es IH];
    intros fs fs' Hnd H; cbn [fold_left fst snd] in H.
  - inversion H; subst. split; auto. intro f. cbn. split; [lia |].
    now rewrite orb_false_r.
  - destruct (recordField cfg docId fs k v) as [fs1 | m] eqn:E1.
    + apply recordField_Ok in E1 as [st [-> Hpc]].
      inversion Hnd as [| ? ? Hnot Hnd']; subst.
      destruct (IH _ _ Hnd' H) as [Hkeys Hcount]. split.
      * intro Hfs. apply Hkeys. now apply Map_set_NoDup.
      * intro f. destruct (Hcount f) as [Hc Hh]. rewrite Hc, Hh.
        rewrite countOf_set, Map_has_set. cbn [Map_has existsb fst].
        fold (Map_has f es).
        destruct (k == f) eqn:Ek.
        -- string_cases.
           assert (Hes : Map_has f es = false).
           { destruct (Map_has f es) eqn:Ehas; auto.
             apply Map_has_In in Ehas. contradiction. }
           rewrite Hes, Hpc. cbn. split; [lia | now rewrite orb_true_r].
        -- cbn. split; [reflexivity |].
           destruct (Map_has f fs), (Map_has f es); reflexivity.
    + exfalso. clear - H. induction es; cbn in H; [discriminate | auto].
Qed.

Lemma recordDoc_Ok : forall cfg fs doc fs',
  recordDoc cfg fs doc = Ok fs' ->
  (NoDup (map fst fs) -> NoDup (map fst fs'))
  /\ forall f,
       countOf f fs' = countOf f fs + (if Map_has f (flat doc) then 1 else 0)
       /\ Map_has f fs' = Map_has f fs || Map_has f (flat doc).
Proof.
  intros cfg fs doc fs' H. apply (recordEntries_Ok cfg (id doc) (flat doc)); auto.
  apply flat_NoDup.
Qed.

Lemma scanStats_snoc : forall cfg ds d,
  scanStats cfg (ds ++ [d])
  = match snd (scanStats cfg ds) with
    | Ok fs => (S (fst (scanStats cfg ds)), recordDoc cfg fs d)
    | Throw m => scanStats cfg ds
    end.
Proof. intros. unfold scanStats. now rewrite fold_left_app. Qed.

Lemma holdersIn_snoc : forall f ds d,
  holdersIn f (ds ++ [d])
  = holdersIn f ds + (if Map_has f (flat d) then 1 else 0).
Proof.
  intros. unfold holdersIn. rewrite filter_app, length_app. cbn [filter].
  destruct (Map_has f (flat d)); reflexivity.
Qed.

(** The read counter never exceeds the documents handed over, and a
    scan that fails has read at least one document. *)
Lemma scanStats_read : forall cfg ds,
  fst (scanStats cfg ds) <= List.length ds
  /\ match snd (scanStats cfg ds) with
     | Ok _ => fst (scanStats cfg ds) = List.length ds
     | Throw _ => 1 <= fst (scanStats cfg ds)
     end.
Proof.
  intros cfg ds. induction ds as [| d ds IH] using rev_ind.
  - cbn. auto.
  - rewrite scanStats_snoc, length_app. cbn [List.length].
    destruct (scanStats cfg ds) as [n [fs | m]]; cbn [fst snd] in *.
    + destruct IH as [_ ->]. split; [lia |].
      destruct (recordDoc cfg fs d); lia.
    + destruct IH as [H1 H2]. split; lia.
Qed.

(** What the statistics of a successful scan hold. *)
Lemma scanStats_Ok : forall cfg ds n fs,
  scanStats cfg ds = (n, Ok fs) ->
  n = List.length ds
  /\ NoDup (map fst fs)
  /\ forall f,
       countOf f fs = holdersIn f ds
       /\ (Map_has f fs = true <-> 0 < holdersIn f ds).
Proof.
  intros cfg ds. induction ds as [| d ds IH] using rev_ind; intros n fs H.
  - cbn in H. inversion H; subst. split; [reflexivity |]. split; [constructor |].
    intro f. cbn. split; [reflexivity |]. split; [discriminate | lia].
  - rewrite scanStats_snoc in H.
    destruct (scanStats cfg ds) as [n0 [fs0 | m]] eqn:E0; cbn [fst snd] in H.
    + inversion H; subst n. destruct (IH n0 fs0 eq_refl) as [-> [Hnd Hall]].
      match goal with Hr : recordDoc _ _ _ = _ |- _ =>
        destruct (recordDoc_Ok _ _ _ _ Hr) as [Hkeys Hcount] end.
      split; [rewrite length_app; cbn; lia |]. split; [auto |].
      intro f. destruct (Hcount f) as [Hc Hh]. destruct (Hall f) as [Hc0 Hh0].
      rewrite holdersIn_snoc, Hc, Hh, Hc0. split; [reflexivity |].
      destruct (Map_has f (flat d)).
      * rewrite orb_true_r. split; [lia | reflexivity].
      * rewrite orb_false_r, Nat.add_0_r. exact Hh0.
    + discriminate H.
Qed.

(** ** Expected fields *)

Lemma Set_has_In : forall k s, Set_has k s = true <-> In k s.
Proof.
  intros k s. unfold Set_has. rewrite existsb_exists. split.
  - intros [x [Hin E]]. string_cases. exact Hin.
  - intro Hin. exists k. split; auto. apply String.eqb_refl.
Qed.

Lemma Set_add_In : forall k s x, In x (Set_add k s) <-> x = k \/ In x s.
Proof.
  intros k s x. unfold Set_add. destruct (Set_has k s) eqn:E.
  - apply Set_has_In in E. split; [auto | intros [-> | H]; auto].
  - rewrite in_app_iff. cbn. intuition.
Qed.

Lemma Set_add_NoDup : forall k s, NoDup s -> NoDup (Set_add k s).
Proof.
  intros k s H. unfold Set_add. destruct (Set_has k s) eqn:E; auto.
  apply NoDup_app; auto.
  - constructor; [intros [] | constructor].
  - intros x Hx [<- | []]. apply Set_has_In in Hx. congruence.
Qed.

Lemma expectedFields_spec : forall cfg pass1,
  NoDup (expectedFields cfg pass1)
  /\ forall f,
       In f (expectedFields cfg pass1)
       <-> exists st,
             In (f, st) (fieldStats pass1)
             /\ Qle_bool (toDouble (REQUIRED_THRESHOLD cfg))
                  (presenceFraction (totalDocs pass1) (presentCount st)) = true.
Proof.
  intros cfg pass1. unfold expectedFields.
  assert (H : forall l set0,
             NoDup set0 ->
             let res :=
               fold_left
                 (fun set entry =>
                    if Qle_bool (toDouble (REQUIRED_THRESHOLD cfg))
                         (presenceFraction (totalDocs pass1) (presentCount (snd entry)))
                    then Set_add (fst entry) set
                    else set) l set0 in
             NoDup res
             /\ forall f,
                  In f res
                  <-> In f set0
                      \/ exists st,
                           In (f, st) l
                           /\ Qle_bool (toDouble (REQUIRED_THRESHOLD cfg))
                                (presenceFraction (totalDocs pass1) (presentCount st))
                              = true).
  { induction l as [| [k st] l IH]; intros set0 Hnd; cbn [fold_left fst snd].
    - split; auto. intro f. split; [auto | intros [H | [st [[] _]]]; auto].
    - cbv zeta.
      destruct (Qle_bool (toDouble (REQUIRED_THRESHOLD cfg))
                  (presenceFraction (totalDocs pass1) (presentCount st))) eqn:E.
      + destruct (IH (Set_add k set0) (Set_add_NoDup k set0 Hnd)) as [Hres Hin].
        split; auto. intro f. rewrite Hin, Set_add_In. split.
        * intros [[-> | H] | [st' [H1 H2]]]; eauto.
          -- right. exists st. split; [now left | exact E].
          -- right. exists st'. split; [now right | exact H2].
        * intros [H | [st' [[H1 | H1] H2]]]; auto.
          -- inversion H1; subst. auto.
          -- right. eauto.
      + destruct (IH set0 Hnd) as [Hres Hin]. split; auto.
        intro f. rewrite Hin. split.
        * intros [H | [st' [H1 H2]]]; auto. right. exists st'. split; [now right | auto].
        * intros [H | [st' [[H1 | H1] H2]]]; auto.
          -- inversion H1; subst. congruence.
          -- right. eauto. }
  destruct (H (fieldStats pass1) [] (NoDup_nil _)) as [H1 H2].
  split; auto. intro f. rewrite H2. split; [intros [[] | H3]; auto | auto].
Qed.

(** ** Pass 2 *)

Lemma pushExample_length : forall (A : Type) (arr : list A) x N,
  List.length arr <= N -> List.length (pushExample arr x N) <= N.
Proof.
  intros A arr x N H. unfold pushExample.
  destruct (N <=? List.length arr) eqn:E; auto.
  apply Nat.leb_gt in E. rewrite length_app. cbn. lia.
Qed.

Lemma pushExample_firstn : forall (A : Type) (l : list A) x N,
  pushExample (firstn N l) x N = firstn N (l ++ [x]).
Proof.
  intros A l x N. unfold pushExample.
  destruct (N <=? List.length (firstn N l)) eqn:E.
  - apply Nat.leb_le in E. rewrite length_firstn in E.
    rewrite firstn_app. replace (N - List.length l) with 0 by lia.
    cbn. now rewrite app_nil_r.
  - apply Nat.leb_gt in E. rewrite length_firstn in E.
    rewrite (@firstn_all2 _ N l) by lia.
    rewrite firstn_all2; [reflexivity |]. rewrite length_app. cbn. lia.
Qed.

Lemma missingStep_get : forall cfg expected me doc f,
  NoDup expected ->
  Map_get f (missingStep cfg expected me doc)
  = if Set_has f expected && negb (Map_has f (flat doc))
    then Some (pushExample
                 (match Map_get f me with Some a => a | None => [] end)
                 (id doc) (EXAMPLES_PER_ISSUE cfg))
    else Map_get f me.
Proof.
  intros cfg expected me doc f. unfold missingStep. cbv zeta.
  revert me. induction expected as [| f0 rest IH]; intros me Hnd; cbn [fold_left].
  - reflexivity.
  - inversion Hnd as [| ? ? Hnot Hnd']; subst. rewrite IH by auto.
    rewrite Set_has_cons. destruct (f0 == f) eqn:E0.
    + string_cases.
      assert (Hrest : Set_has f rest = false).
      { destruct (Set_has f rest) eqn:E; auto. apply Set_has_In in E. contradiction. }
      rewrite Hrest. cbn [orb andb].
      destruct (Map_has f (flat doc)); cbn [negb]; [reflexivity |].
      now rewrite Map_get_set_eq.
    + string_cases. cbn [orb].
      destruct (Map_has f0 (flat doc)); [reflexivity |].
      now rewrite Map_get_set_neq by auto.
Qed.

Lemma lackingIn_snoc : forall f ds d,
  lackingIn f (ds ++ [d])
  = lackingIn f ds ++ (if Map_has f (flat d) then [] else [id d]).
Proof.
  intros. unfold lackingIn. rewrite filter_app, map_app. cbn [filter].
  destruct (Map_has f (flat d)); reflexivity.
Qed.

Lemma pass2_get : forall cfg expected ds f,
  NoDup expected ->
  Map_get f (fold_left (missingStep cfg expected) ds [])
  = if Set_has f expected
    then match lackingIn f ds with
         | [] => None
         | _ :: _ => Some (firstn (EXAMPLES_PER_ISSUE cfg) (lackingIn f ds))
         end
    else None.
Proof.
  intros cfg expected ds f Hnd. induction ds as [| d ds IH] using rev_ind.
  - cbn. destruct (Set_has f expected); reflexivity.
  - rewrite fold_left_app. cbn [fold_left]. rewrite missingStep_get by auto.
    rewrite IH, lackingIn_snoc. destruct (Set_has f expected); cbn [andb]; auto.
    destruct (Map_has f (flat d)); cbn [negb].
    + now rewrite app_nil_r.
    + destruct (lackingIn f ds) as [| x l] eqn:El.
      * cbn [app]. apply f_equal.
        pose proof (pushExample_firstn _ [] (id d) (EXAMPLES_PER_ISSUE cfg)) as Hp.
        rewrite firstn_nil in Hp. exact Hp.
      * rewrite pushExample_firstn. destruct ((x :: l) ++ [id d]) eqn:E; auto.
        destruct l; discriminate E.
Qed.

(** ** Report *)

Lemma insertBy_perm : forall (A : Type) (le : A -> A -> bool) x l,
  Permutation (insertBy le x l) (x :: l).
Proof.
  intros A le x l. induction l as [| y l IH]; cbn; auto.
  destruct (le x y); auto. rewrite IH. apply perm_swap.
Qed.

Lemma sortBy_perm : forall (A : Type) (le : A -> A -> bool) l,
  Permutation (sortBy le l) l.
Proof.
  intros A le l. induction l as [| x l IH]; cbn; auto.
  rewrite insertBy_perm. now constructor.
Qed.

Lemma sortBy_In : forall (A : Type) (le : A -> A -> bool) l x,
  In x (sortBy le l) <-> In x l.
Proof.
  intros. split; apply Permutation_in;
    [apply sortBy_perm | apply Permutation_sym, sortBy_perm].
Qed.

Lemma filterSome_In : forall (A : Type) (l : list (option A)) x,
  In x (filterSome l) <-> In (Some x) l.
Proof.
  intros A l x. induction l as [| [a |] l IH]; cbn.
  - tauto.
  - rewrite IH. split; intros [H | H]; auto; [left; congruence | left; congruence].
  - rewrite IH. split; [auto | intros [H | H]; [discriminate | auto]].
Qed.

(** What the report says of a field for which it holds an issue. *)
Lemma issueFor_buildReport : forall cfg pass1 me f i,
  issueFor (buildReport cfg pass1 me) f = Some i ->
  exists st,
    In (f, st) (fieldStats pass1)
    /\ Qle_bool (toDouble (REQUIRED_THRESHOLD cfg))
         (toFixed4 (presenceFraction (totalDocs pass1) (presentCount st))) = true
    /\ 0 < totalDocs pass1 - presentCount st
    /\ issue_field i = f
    /\ missing_count i = totalDocs pass1 - presentCount st
    /\ missing_pct i
       = toFixed4 (ratio (totalDocs pass1 - presentCount st) (totalDocs pass1))
    /\ examplesOf i = match Map_get f me with Some a => a | None => [] end.
Proof.
  intros cfg pass1 me f i H. unfold issueFor, buildReport in H.
  cbn [issues_missing_fields] in H.
  set (rows := map (fieldRow (totalDocs pass1)) (fieldStats pass1)) in *.
  set (issues := missingIssues cfg (totalDocs pass1) rows me) in *.
  assert (Hfind : find (fun i0 => issue_field i0 == f) issues = Some i).
  { destruct issues; [discriminate H | exact H]. }
  apply find_some in Hfind as [Hin Hf]. string_cases.
  unfold issues, missingIssues in Hin.
  apply sortBy_In, filterSome_In, in_map_iff in Hin as [row [Hissue Hrow]].
  unfold expectedRows in Hrow. apply sortBy_In, filter_In in Hrow as [Hrow Hthr].
  unfold rows in Hrow. apply in_map_iff in Hrow as [[f0 st] [<- Hentry]].
  unfold missingIssue in Hissue. cbn [fieldRow present_count field fst snd] in *.
  destruct (totalDocs pass1 - presentCount st <=? 0) eqn:Ez; [discriminate |].
  apply Nat.leb_gt in Ez. inversion Hissue; subst i. clear Hissue.
  cbn [issue_field missing_count missing_pct] in *.
  exists st. repeat split; auto.
  unfold examplesOf. cbn [example_doc_ids].
  destruct (Map_get f0 me) as [[| a l] |]; reflexivity.
Qed.

(** ** Run *)

Lemma run_Exit0 : forall cfg docs r,
  run cfg docs = Exit0 r ->
  exists fs,
    scanStats cfg (scanned cfg docs) = (List.length (scanned cfg docs), Ok fs)
    /\ let pass1 := MkPass1 fs (List.length (scanned cfg docs))
                      (List.length (scanned cfg docs)) in
       r = buildReport cfg pass1 (examplesOfRun cfg docs pass1).
Proof.
  intros cfg docs r H. unfold run in H. rewrite pass1_buildStats_eq in H. cbv zeta in H.
  destruct (scanStats cfg (scanned cfg docs)) as [n [fs | m]] eqn:E;
    cbn [fst snd] in H; [| discriminate H].
  destruct (scanStats_Ok _ _ _ _ E) as [-> _].
  exists fs. split; [reflexivity |]. cbv zeta. inversion H. reflexivity.
Qed.

Lemma run_Exit1 : forall cfg docs message n,
  run cfg docs = Exit1 message n ->
  scanStats cfg (scanned cfg docs) = (n, Throw message).
Proof.
  intros cfg docs message n H. unfold run in H. rewrite pass1_buildStats_eq in H. cbv zeta in H.
  destruct (scanStats cfg (scanned cfg docs)) as [n0 [fs | m]] eqn:E;
    cbn [fst snd] in H; [discriminate H |].
  now inversion H.
Qed.


Lemma examplesOfRun_get : forall cfg docs pass1 f,
  Map_get f (examplesOfRun cfg docs pass1)
  = if Set_has f (expectedFields cfg pass1)
    then match lackingIds cfg docs f with
         | [] => None
         | _ :: _ => Some (firstn (EXAMPLES_PER_ISSUE cfg) (lackingIds cfg docs f))
         end
    else None.
Proof.
  intros cfg docs pass1 f. unfold examplesOfRun.
  destruct (expectedFields_spec cfg pass1) as [Hnd _].
  destruct (expectedFields cfg pass1) as [| e es] eqn:E; [reflexivity |].
  rewrite pass2_missingExamples_eq. apply pass2_get. exact Hnd.
Qed.




(** The same happens under the default cap when only the rounded
    fraction reaches the threshold: two documents out of three hold the
    field, the threshold is 0.6667. *)
Lemma no_example_for_rounded_fraction :
  exists r i,
    run (usersConfig (6667 # 10000) 20) [fullDoc "1"; fullDoc "2"; partDoc "3"]
    = Exit0 r
    /\ issueFor r "x" = Some i
    /\ missing_count i = 1
    /\ examplesOf i = [].
Proof.
  eexists; eexists.
  split; [vm_compute; reflexivity |].
  split; [vm_compute; reflexivity |].
  split; reflexivity.
Qed.

(** ** Missing fields *)

(** C5 at the input where the code departs from it. The threshold is
    0.33333 and the field "x" is held by one document out of three: its
    presence fraction 1/3 reaches the threshold and it is not in every
    document, yet the report has no issue for it, because [buildReport]
    compares the fraction rounded to four decimals, 0.3333. *)
Theorem expected_field_lost_by_rounding :
  exists r,
    run (usersConfig (33333 # 100000) 20) threeDocs = Exit0 r
    /\ holders (usersConfig (33333 # 100000) 20) threeDocs "x" = 1
    /\ List.length (scanned (usersConfig (33333 # 100000) 20) threeDocs) = 3
    /\ Qle_bool (33333 # 100000) (presenceFraction 3 1) = true
    /\ Qle_bool (33333 # 100000) (toFixed4 (presenceFraction 3 1)) = false
    /\ issueFor r "x" = None.
Proof.
  eexists. split; [vm_compute; reflexivity |].
  repeat split; vm_compute; reflexivity.
Qed.

(** ** Thresholds of four decimals *)

Lemma issueFor_buildReport_Some : forall cfg pass1 me f st,
  In (f, st) (fieldStats pass1) ->
  Qle_bool (toDouble (REQUIRED_THRESHOLD cfg))
    (toFixed4 (presenceFraction (totalDocs pass1) (presentCount st))) = true ->
  0 < totalDocs pass1 - presentCount st ->
  exists i, issueFor (buildReport cfg pass1 me) f = Some i.
Proof.
  intros cfg pass1 me f st Hin Hthr Hpos.
  unfold issueFor, buildReport. cbn [issues_missing_fields].
  set (rows := map (fieldRow (totalDocs pass1)) (fieldStats pass1)).
  set (issues := missingIssues cfg (totalDocs pass1) rows me).
  set (row := fieldRow (totalDocs pass1) (f, st)).
  assert (Hrow : In row (expectedRows cfg rows)).
  { unfold expectedRows. apply sortBy_In, filter_In. split.
    - unfold rows, row. apply in_map. exact Hin.
    - exact Hthr. }
  destruct (missingIssue (totalDocs pass1) me row) as [i0 |] eqn:Ei.
  2:{ unfold missingIssue, row in Ei. cbn [fieldRow present_count fst snd] in Ei.
      destruct (totalDocs pass1 - presentCount st <=? 0) eqn:Ez; [| discriminate].
      apply Nat.leb_le in Ez. lia. }
  assert (Hin0 : In i0 issues).
  { unfold issues, missingIssues. apply sortBy_In, filterSome_In.
    rewrite <- Ei. apply in_map. exact Hrow. }
  assert (Hf0 : (issue_field i0 == f) = true).
  { unfold missingIssue, row in Ei. cbn [fieldRow present_count field fst snd] in Ei.
    destruct (totalDocs pass1 - presentCount st <=? 0); [discriminate |].
    inversion Ei. cbn [issue_field]. apply String.eqb_refl. }
  destruct issues as [| i1 issues']; [destruct Hin0 |].
  destruct (find (fun i => issue_field i == f) (i1 :: issues')) as [i |] eqn:Ef.
  - exists i. reflexivity.
  - pose proof (find_none _ _ Ef i0 Hin0) as Hn. cbv beta in Hn. congruence.
Qed.

(** When the threshold is written as a multiple of 0.0001, rounding the
    presence fraction cannot take it below the threshold, and the report
    has the issue of every field that reaches the threshold without being
    in every scanned document. *)
Lemma missing_issue_emitted : forall cfg docs r f,
  run cfg docs = Exit0 r ->
  (roundTo4 (REQUIRED_THRESHOLD cfg) == REQUIRED_THRESHOLD cfg)%Q ->
  0 < holders cfg docs f ->
  holders cfg docs f < List.length (scanned cfg docs) ->
  Qle_bool (REQUIRED_THRESHOLD cfg)
    (presenceFraction (List.length (scanned cfg docs)) (holders cfg docs f)) = true ->
  exists i,
    issueFor r f = Some i
    /\ issue_field i = f
    /\ missing_count i = List.length (scanned cfg docs) - holders cfg docs f
    /\ missing_pct i
       = toFixed4 (ratio (List.length (scanned cfg docs) - holders cfg docs f)
                     (List.length (scanned cfg docs)))
    /\ examplesOf i = firstn (EXAMPLES_PER_ISSUE cfg) (lackingIds cfg docs f).
Proof.
  intros cfg docs r f Hrun Hfix Hseen Hlack Hthr.
  destruct (run_Exit0 cfg docs r Hrun) as [fs [Hscan Hr]]. cbv zeta in Hr.
  destruct (scanStats_Ok _ _ _ _ Hscan) as [_ [Hnd Hstats]].
  destruct (Hstats f) as [Hc Hhas].
  change (holdersIn f (scanned cfg docs)) with (holders cfg docs f) in Hc, Hhas.
  apply Hhas in Hseen. rewrite Map_has_get in Hseen. unfold countOf in Hc.
  destruct (Map_get f fs) as [st |] eqn:Eg; [| discriminate Hseen].
  apply Map_get_In in Eg.
  assert (Hround : Qle_bool (toDouble (REQUIRED_THRESHOLD cfg))
            (toFixed4 (presenceFraction (List.length (scanned cfg docs))
                         (presentCount st))) = true).
  { rewrite Hc. apply Qle_bool_iff. unfold toFixed4. apply toDouble_mono.
    rewrite <- Hfix. apply roundTo4_mono. apply Qle_bool_iff. exact Hthr. }
  set (pass1 := MkPass1 fs (List.length (scanned cfg docs))
                  (List.length (scanned cfg docs))) in Hr.
  destruct (issueFor_buildReport_Some cfg pass1 (examplesOfRun cfg docs pass1) f st)
    as [i Hi]; [exact Eg | exact Hround | cbn [totalDocs pass1]; lia |].
  exists i. rewrite Hr. split; [exact Hi |].
  destruct (issueFor_buildReport cfg pass1 _ f i Hi)
    as [st' [Hin' [_ [_ [Hfield [Hcount [Hpct Hex]]]]]]].
  cbn [totalDocs fieldStats pass1] in Hin', Hcount, Hpct.
  assert (Hsame : Some st' = Some st).
  { rewrite <- (In_Map_get _ fs f st' Hnd Hin'). apply In_Map_get; assumption. }
  inversion Hsame; subst st'.
  rewrite Hc in Hcount, Hpct.
  split; [exact Hfield | split; [exact Hcount | split; [exact Hpct |]]].
  rewrite Hex, examplesOfRun_get.
  assert (Hexp : Set_has f (expectedFields cfg pass1) = true).
  { apply Set_has_In. apply (proj2 (expectedFields_spec cfg pass1)).
    exists st. split; [exact Eg |]. cbn [totalDocs pass1]. rewrite Hc.
    apply threshold_reached. exact Hthr. }
  rewrite Hexp. destruct (lackingIds cfg docs f); [now rewrite firstn_nil | reflexivity].
Qed.

(** ** Scan loop: the pages *)

(** X12. The page-by-page scan, for any batch size of at least 1: the
    callback is applied, in order, once to each document of the
    collection, or of its first [SAMPLE_LIMIT] documents when the limit is
    a number, and to no other; the scan stops at the first call that
    throws. So pass 1 computes the statistics of exactly these documents,
    and pass 2 collects its examples from exactly these documents. *)
Theorem scanCollectionDocs_visits_scanned :
  forall (cfg : Config) (docs : list Doc),
    1 <= BATCH_SIZE cfg ->
    (forall (State : Type) (onDoc : State -> Doc -> Result State) (s0 : State),
       scanCollectionDocs onDoc cfg docs s0
       = visit onDoc (scanned cfg docs) (0, Ok s0))
    /\ scanCollectionDocs (recordDoc cfg) cfg docs []
       = scanStats cfg (scanned cfg docs)
    /\ forall expected,
         scanCollectionDocs (fun me d => Ok (missingStep cfg expected me d))
           cfg docs []
         = (List.length (scanned cfg docs),
            Ok (pass2_missingExamples cfg docs expected)).
Proof.
  intros cfg docs HB.
  assert (Hgen : forall (State : Type) (onDoc : State -> Doc -> Result State) s0,
            scanCollectionDocs onDoc cfg docs s0
            = visit onDoc (scanned cfg docs) (0, Ok s0)).
  { intros State onDoc s0. unfold scanCollectionDocs.
    rewrite scanPages_visit by (auto; lia).
    unfold remaining, scanned.
    destruct (BATCH_SIZE cfg) as [| b]; [lia |].
    destruct (SAMPLE_LIMIT cfg); [now rewrite Nat.sub_0_r | reflexivity]. }
  split; [exact Hgen | split].
  - rewrite Hgen. reflexivity.
  - intro expected. rewrite Hgen, visit_total, pass2_missingExamples_eq.
    reflexivity.
Qed.

Lemma scanCollectionDocs_visits_scanned_witness :
  1 <= BATCH_SIZE pagedConfig
  /\ (forall (State : Type) (onDoc : State -> Doc -> Result State) (s0 : State),
        scanCollectionDocs onDoc pagedConfig tenDocs s0
        = visit onDoc (scanned pagedConfig tenDocs) (0, Ok s0))
  /\ scanCollectionDocs (recordDoc pagedConfig) pagedConfig tenDocs []
     = scanStats pagedConfig (scanned pagedConfig tenDocs)
  /\ forall expected,
       scanCollectionDocs (fun me d => Ok (missingStep pagedConfig expected me d))
         pagedConfig tenDocs []
       = (List.length (scanned pagedConfig tenDocs),
          Ok (pass2_missingExamples pagedConfig tenDocs expected)).
Proof.
  assert (H : 1 <= BATCH_SIZE pagedConfig) by (cbn; lia).
  split; [exact H |].
  exact (scanCollectionDocs_visits_scanned pagedConfig tenDocs H).
Defined.

(** ** Pass 1: what the statistics of a field hold *)

Lemma recordField_inv : forall cfg docId fs path value fs',
  recordField cfg docId fs path value = Ok fs' ->
  fs' = Map_set path
          (MkFieldStat
             (S (presentCount (statOr path fs)))
             (Map_set (detectKind value)
                (match Map_get (detectKind value) (kinds (statOr path fs)) with
                 | Some n => n
                 | None => 0
                 end + 1)
                (kinds (statOr path fs)))
             (Map_set (detectKind value)
                (pushExample
                   (match Map_get (detectKind value) (kindExamples (statOr path fs)) with
                    | Some a => a
                    | None => []
                    end)
                   docId (EXAMPLES_PER_ISSUE cfg))
                (kindExamples (statOr path fs)))
             (match violationOf cfg path docId value with
              | [] => regexViolations (statOr path fs)
              | x :: _ =>
                  pushExample (regexViolations (statOr path fs)) x
                    (EXAMPLES_PER_ISSUE cfg)
              end))
          fs.
Proof.
  intros cfg docId fs path value fs' H. unfold recordField in H.
  unfold statOr, violationOf.
  destruct (lookupRule cfg path) as [rule |]; [destruct value |];
    try (inversion H; subst; reflexivity).
  destruct (regex rule) as [test | | |]; try discriminate H.
  inversion H; subst. destruct (test s); reflexivity.
Qed.

Lemma statOr_set : forall f path st fs,
  statOr f (Map_set path st fs) = if path == f then st else statOr f fs.
Proof.
  intros f path st fs. unfold statOr. destruct (path == f) eqn:E.
  - string_cases. now rewrite Map_get_set_eq.
  - string_cases. now rewrite Map_get_set_neq.
Qed.

Section StatObservation.
Variable cfg : Config.
Variable A : Type.
(** What is read off the statistics of a field. *)
Variable obs : FieldStat -> A.
(** What one more value at the path does to it. *)
Variable g : string -> A -> string -> Value -> A.
Hypothesis obs_step : forall docId fs path value fs',
  recordField cfg docId fs path value = Ok fs' ->
  obs (statOr path fs') = g path (obs (statOr path fs)) docId value.

Lemma recordEntries_observed : forall docId entries fs fs',
  NoDup (map fst entries) ->
  fold_left
    (fun acc kv =>
       match acc with
       | Ok fs0 => recordField cfg docId fs0 (fst kv) (snd kv)
       | Throw m => Throw m
       end) entries (Ok fs) = Ok fs' ->
  forall f,
    obs (statOr f fs')
    = match Map_get f entries with
      | Some v => g f (obs (statOr f fs)) docId v
      | None => obs (statOr f fs)
      end.
Proof.
  intros docId entries. induction entries as [| [k v] es IH];
    intros fs fs' Hnd H f; cbn [fold_left fst snd] in H.
  - inversion H; subst. reflexivity.
  - destruct (recordField cfg docId fs k v) as [fs1 | m] eqn:E1.
    + inversion Hnd as [| ? ? Hnot Hnd']; subst.
      rewrite (IH _ _ Hnd' H f). cbn [Map_get].
      pose proof (obs_step _ _ _ _ _ E1) as Hstep.
      apply recordField_inv in E1.
      destruct (k == f) eqn:Ek.
      * string_cases.
        assert (Hes : Map_get f es = None) by (now apply Map_get_None).
        rewrite Hes. exact Hstep.
      * string_cases. rewrite E1, statOr_set.
        apply String.eqb_neq in Ek. now rewrite Ek.
    + exfalso. clear - H. induction es; cbn in H; [discriminate | auto].
Qed.

Lemma scanStats_observed : forall ds n fs,
  scanStats cfg ds = (n, Ok fs) ->
  forall f,
    obs (statOr f fs)
    = fold_left
        (fun a d => match valueAt f d with
                    | Some v => g f a (id d) v
                    | None => a
                    end)
        ds (obs makeFieldStat).
Proof.
  intro ds. induction ds as [| d ds IH] using rev_ind; intros n fs H f.
  - cbn in H. inversion H; subst. reflexivity.
  - rewrite scanStats_snoc in H.
    destruct (scanStats cfg ds) as [n0 [fs0 | m]] eqn:E0; cbn [fst snd] in H;
      [| discriminate H].
    inversion H as [[Hn Hr]]. rewrite fold_left_app. cbn [fold_left].
    rewrite <- (IH n0 fs0 eq_refl f).
    apply (recordEntries_observed (id d) (flat d) fs0 fs (flat_NoDup d) Hr f).
Qed.

End StatObservation.

(** *** The count of a kind *)

Lemma kindCount_step : forall cfg k docId fs path value fs',
  recordField cfg docId fs path value = Ok fs' ->
  kindCountOf k (statOr path fs')
  = seeKindCount k path (kindCountOf k (statOr path fs)) docId value.
Proof.
  intros cfg k docId fs path value fs' H. apply recordField_inv in H.
  rewrite H, statOr_set, String.eqb_refl. unfold kindCountOf, seeKindCount.
  cbn [kinds]. destruct (detectKind value == k) eqn:E; string_cases.
  - now rewrite Map_get_set_eq.
  - now rewrite Map_get_set_neq.
Qed.

Lemma fold_kindCount : forall f k ds a,
  fold_left
    (fun a d => match valueAt f d with
                | Some v => seeKindCount k f a (id d) v
                | None => a
                end) ds a
  = match docsOfKind f k ds with
    | [] => a
    | _ :: _ =>
        Some (match a with Some n => n | None => 0 end
              + List.length (docsOfKind f k ds))
    end.
Proof.
  intros f k ds. induction ds as [| d ds IH]; intro a; [reflexivity |].
  cbn [fold_left]. rewrite IH. unfold docsOfKind. cbn [filter].
  unfold hasKindAt, kindAt, seeKindCount.
  destruct (valueAt f d) as [v |]; [| reflexivity].
  destruct (detectKind v == k); [| reflexivity].
  destruct (filter _ ds); cbn [List.length]; f_equal; lia.
Qed.

(** *** The examples of a kind *)

Lemma kindExamples_step : forall cfg k docId fs path value fs',
  recordField cfg docId fs path value = Ok fs' ->
  kindExamplesOf k (statOr path fs')
  = seeKindExample (EXAMPLES_PER_ISSUE cfg) k path
      (kindExamplesOf k (statOr path fs)) docId value.
Proof.
  intros cfg k docId fs path value fs' H. apply recordField_inv in H.
  rewrite H, statOr_set, String.eqb_refl. unfold kindExamplesOf, seeKindExample.
  cbn [kindExamples]. destruct (detectKind value == k) eqn:E; string_cases.
  - now rewrite Map_get_set_eq.
  - now rewrite Map_get_set_neq.
Qed.

Lemma fold_kindExamples : forall N f k ds l,
  fold_left
    (fun a d => match valueAt f d with
                | Some v => seeKindExample N k f a (id d) v
                | None => a
                end) ds (Some (firstn N l))
  = Some (firstn N (l ++ map id (docsOfKind f k ds))).
Proof.
  intros N f k ds. induction ds as [| d ds IH]; intro l.
  - cbn. now rewrite app_nil_r.
  - cbn [fold_left]. unfold docsOfKind. cbn [filter].
    unfold hasKindAt, kindAt, seeKindExample at 2.
    destruct (valueAt f d) as [v |]; [| apply IH].
    destruct (detectKind v == k); [| apply IH].
    rewrite pushExample_firstn, IH. cbn [map]. now rewrite <- app_assoc.
Qed.

Lemma fold_kindExamples_fresh : forall N f k ds,
  fold_left
    (fun a d => match valueAt f d with
                | Some v => seeKindExample N k f a (id d) v
                | None => a
                end) ds None
  = match docsOfKind f k ds with
    | [] => None
    | _ :: _ => Some (firstn N (map id (docsOfKind f k ds)))
    end.
Proof.
  intros N f k ds. induction ds as [| d ds IH]; [reflexivity |].
  cbn [fold_left]. unfold docsOfKind. cbn [filter].
  unfold hasKindAt, kindAt, seeKindExample at 2.
  destruct (valueAt f d) as [v |]; [| apply IH].
  destruct (detectKind v == k); [| apply IH].
  replace (pushExample [] (id d) N) with (firstn N [id d]).
  - rewrite fold_kindExamples. reflexivity.
  - pose proof (pushExample_firstn string [] (id d) N) as Hp.
    rewrite firstn_nil in Hp. cbn [app] in Hp. now rewrite Hp.
Qed.

(** *** The regex violations *)

Lemma violations_step : forall cfg docId fs path value fs',
  recordField cfg docId fs path value = Ok fs' ->
  regexViolations (statOr path fs')
  = seeViolation cfg path (regexViolations (statOr path fs)) docId value.
Proof.
  intros cfg docId fs path value fs' H. apply recordField_inv in H.
  rewrite H, statOr_set, String.eqb_refl. reflexivity.
Qed.

Lemma violationOf_short : forall cfg f docId v,
  violationOf cfg f docId v = []
  \/ exists x, violationOf cfg f docId v = [x].
Proof.
  intros cfg f docId v. unfold violationOf.
  destruct (lookupRule cfg f) as [rule |]; [| now left].
  destruct v; try (now left).
  destruct (regex rule) as [test | | |]; [| now left | now left | now left].
  destruct (test s); [now left | right; eauto].
Qed.

Lemma fold_violations : forall cfg f ds l,
  fold_left
    (fun a d => match valueAt f d with
                | Some v => seeViolation cfg f a (id d) v
                | None => a
                end) ds (firstn (EXAMPLES_PER_ISSUE cfg) l)
  = firstn (EXAMPLES_PER_ISSUE cfg) (l ++ violationsIn cfg f ds).
Proof.
  intros cfg f ds. induction ds as [| d ds IH]; intro l.
  - cbn. now rewrite app_nil_r.
  - cbn [fold_left]. unfold violationsIn. cbn [flat_map].
    fold (violationsIn cfg f ds).
    destruct (valueAt f d) as [v |]; [| apply IH].
    unfold seeViolation at 2.
    destruct (violationOf_short cfg f (id d) v) as [-> | [x ->]]; [apply IH |].
    rewrite pushExample_firstn, IH. cbn [app]. now rewrite <- app_assoc.
Qed.

(** *** The kind seen first *)

Lemma Map_set_head : forall (A : Type) k (a : A) m,
  match Map_set k a m with
  | (k', _) :: _ => Some k'
  | [] => None
  end
  = match m with
    | (k', _) :: _ => Some k'
    | [] => Some k
    end.
Proof.
  intros A k a [| [k0 a0] m]; cbn; [reflexivity |].
  destruct (k0 == k); reflexivity.
Qed.

Lemma firstKind_step : forall cfg docId fs path value fs',
  recordField cfg docId fs path value = Ok fs' ->
  firstKindOf (statOr path fs')
  = seeFirstKind path (firstKindOf (statOr path fs)) docId value.
Proof.
  intros cfg docId fs path value fs' H. apply recordField_inv in H.
  rewrite H, statOr_set, String.eqb_refl. unfold firstKindOf, seeFirstKind.
  cbn [kindExamples]. rewrite Map_set_head.
  destruct (kindExamples (statOr path fs)) as [| [k0 a0] m]; reflexivity.
Qed.

Lemma fold_firstKind : forall f ds a,
  fold_left
    (fun a d => match valueAt f d with
                | Some v => seeFirstKind f a (id d) v
                | None => a
                end) ds a
  = match a with
    | Some k => Some k
    | None => firstKindIn f ds
    end.
Proof.
  intros f ds. induction ds as [| d ds IH]; intro a.
  - destruct a; reflexivity.
  - cbn [fold_left]. rewrite IH. unfold firstKindIn. cbn [flat_map].
    unfold kindAt. destruct (valueAt f d) as [v |]; [| reflexivity].
    destruct a; reflexivity.
Qed.

(** *** The closed forms after a scan that returns *)

Lemma scanStats_field : forall cfg ds n fs f st,
  scanStats cfg ds = (n, Ok fs) -> In (f, st) fs ->
  Map_get f fs = Some st
  /\ presentCount st = holdersIn f ds
  /\ 0 < holdersIn f ds
  /\ (forall k,
        Map_get k (kinds st)
        = match docsOfKind f k ds with
          | [] => None
          | _ :: _ => Some (List.length (docsOfKind f k ds))
          end)
  /\ (forall k,
        Map_get k (kindExamples st)
        = match docsOfKind f k ds with
          | [] => None
          | _ :: _ =>
              Some (firstn (EXAMPLES_PER_ISSUE cfg) (map id (docsOfKind f k ds)))
          end)
  /\ regexViolations st
     = firstn (EXAMPLES_PER_ISSUE cfg) (violationsIn cfg f ds)
  /\ firstKindOf st = firstKindIn f ds.
Proof.
  intros cfg ds n fs f st H Hin.
  destruct (scanStats_Ok cfg ds n fs H) as [_ [Hnd Hall]].
  pose proof (In_Map_get _ fs f st Hnd Hin) as Hg.
  assert (Hst : statOr f fs = st) by (unfold statOr; now rewrite Hg).
  destruct (Hall f) as [Hc Hh]. unfold countOf in Hc. rewrite Hg in Hc.
  split; [exact Hg | split; [exact Hc | split]].
  { apply Hh. rewrite Map_has_get, Hg. reflexivity. }
  split; [| split; [| split]].
  - intro k.
    pose proof (scanStats_observed cfg _ (kindCountOf k) (seeKindCount k)
                  (kindCount_step cfg k) ds n fs H f) as Ho.
    rewrite Hst, fold_kindCount in Ho. exact Ho.
  - intro k.
    pose proof (scanStats_observed cfg _ (kindExamplesOf k)
                  (seeKindExample (EXAMPLES_PER_ISSUE cfg) k)
                  (kindExamples_step cfg k) ds n fs H f) as Ho.
    rewrite Hst in Ho. cbn in Ho. unfold kindExamplesOf in Ho.
    rewrite Ho. apply fold_kindExamples_fresh.
  - pose proof (scanStats_observed cfg _ regexViolations (seeViolation cfg)
                  (violations_step cfg) ds n fs H f) as Ho.
    rewrite Hst in Ho. rewrite Ho. cbn [makeFieldStat regexViolations].
    pose proof (fold_violations cfg f ds []) as Hf. rewrite firstn_nil in Hf.
    exact Hf.
  - pose proof (scanStats_observed cfg _ firstKindOf seeFirstKind
                  (firstKind_step cfg) ds n fs H f) as Ho.
    rewrite Hst, fold_firstKind in Ho. exact Ho.
Qed.

(** *** The sum of the kind counts *)

Lemma list_sum_Map_set : forall k (m : list (string * nat)),
  list_sum (map snd
              (Map_set k (match Map_get k m with Some n => n | None => 0 end + 1) m))
  = list_sum (map snd m) + 1.
Proof.
  intros k m. induction m as [| [k0 n0] m IH]; cbn [Map_set Map_get]; [reflexivity |].
  unfold list_sum in *.
  destruct (k0 == k); cbn [map snd fold_right]; [lia |].
  rewrite IH. lia.
Qed.

Lemma kindTotal_step : forall cfg docId fs path value fs',
  recordField cfg docId fs path value = Ok fs' ->
  kindTotalOf (statOr path fs') = kindTotalOf (statOr path fs) + 1.
Proof.
  intros cfg docId fs path value fs' H. apply recordField_inv in H.
  rewrite H, statOr_set, String.eqb_refl. unfold kindTotalOf. cbn [kinds].
  apply list_sum_Map_set.
Qed.

Lemma fold_kindTotal : forall f ds a,
  fold_left
    (fun a (d : Doc) => match valueAt f d with
                        | Some v => a + 1
                        | None => a
                        end) ds a
  = a + holdersIn f ds.
Proof.
  intros f ds. induction ds as [| d ds IH]; intro a; [cbn; lia |].
  cbn [fold_left]. rewrite IH. unfold holdersIn. cbn [filter].
  rewrite Map_has_get. unfold valueAt.
  destruct (Map_get f (flat d)); cbn [List.length]; lia.
Qed.

Lemma pass1_Ok : forall cfg docs n pass1,
  pass1_buildStats cfg docs = (n, Ok pass1) ->
  scanStats cfg (scanned cfg docs) = (n, Ok (fieldStats pass1))
  /\ n = List.length (scanned cfg docs)
  /\ totalDocs pass1 = n /\ docsScanned pass1 = n.
Proof.
  intros cfg docs n pass1 H. rewrite pass1_buildStats_eq in H. cbv zeta in H.
  destruct (scanStats cfg (scanned cfg docs)) as [n0 [fs | m]] eqn:E;
    cbn [fst snd] in H; [| discriminate H].
  inversion H; subst. cbn. destruct (scanStats_Ok _ _ _ _ E) as [-> _]. auto.
Qed.

(** X13. The kind counts of pass 1. After a pass 1 that returns, the
    statistics of every field path hold, for each kind, the number of
    scanned documents whose flattened value at that path has the kind,
    and no entry for a kind that no document shows; the counts of the
    kinds add up to the field's [presentCount], which is the number of
    scanned documents that hold the path. *)
Theorem pass1_kind_counts :
  forall (cfg : Config) (docs : list Doc) n pass1 f st,
    pass1_buildStats cfg docs = (n, Ok pass1) ->
    In (f, st) (fieldStats pass1) ->
    (forall k,
       Map_get k (kinds st)
       = match docsOfKind f k (scanned cfg docs) with
         | [] => None
         | _ :: _ => Some (List.length (docsOfKind f k (scanned cfg docs)))
         end)
    /\ list_sum (map snd (kinds st)) = presentCount st
    /\ presentCount st = holders cfg docs f
    /\ 1 <= presentCount st <= totalDocs pass1.
Proof.
  intros cfg docs n pass1 f st H Hin.
  destruct (pass1_Ok cfg docs n pass1 H) as [Hs [Hn [Ht _]]].
  destruct (scanStats_field cfg _ n _ f st Hs Hin)
    as [Hg [Hc [Hpos [Hk _]]]].
  split; [exact Hk |].
  pose proof (scanStats_observed cfg _ kindTotalOf (fun _ a _ _ => a + 1)
                (kindTotal_step cfg) _ n _ Hs f) as Ho.
  unfold statOr in Ho. rewrite Hg in Ho. rewrite fold_kindTotal in Ho.
  cbn in Ho. unfold kindTotalOf in Ho.
  split; [congruence | split; [exact Hc |]].
  rewrite Hc, Ht, Hn. split; [exact Hpos |].
  unfold holdersIn. apply filter_length_le.
Qed.

Lemma pass1_kind_counts_witness :
  exists n pass1 st,
    pass1_buildStats datedConfig datedDocs = (n, Ok pass1)
    /\ In ("date", st) (fieldStats pass1)
    /\ (forall k,
          Map_get k (kinds st)
          = match docsOfKind "date" k (scanned datedConfig datedDocs) with
            | [] => None
            | _ :: _ =>
                Some (List.length
                        (docsOfKind "date" k (scanned datedConfig datedDocs)))
            end)
    /\ list_sum (map snd (kinds st)) = presentCount st
    /\ presentCount st = holders datedConfig datedDocs "date"
    /\ 1 <= presentCount st <= totalDocs pass1.
Proof.
  eexists; eexists; eexists.
  split; [vm_compute; reflexivity |].
  split; [left; reflexivity |].
  eapply (pass1_kind_counts datedConfig datedDocs _ _ "date" _).
  - vm_compute; reflexivity.
  - left; reflexivity.
Defined.

(** X14. The example ids of pass 1. After a pass 1 that returns, the
    statistics of every field path hold, for each kind that some scanned
    document shows at the path, the ids of the first
    [EXAMPLES_PER_ISSUE] scanned documents that show it, in scan order,
    and no list for any other kind. *)
Theorem pass1_kind_examples :
  forall (cfg : Config) (docs : list Doc) n pass1 f st,
    pass1_buildStats cfg docs = (n, Ok pass1) ->
    In (f, st) (fieldStats pass1) ->
    forall k,
      Map_get k (kindExamples st)
      = match docsOfKind f k (scanned cfg docs) with
        | [] => None
        | _ :: _ =>
            Some (firstn (EXAMPLES_PER_ISSUE cfg)
                    (map id (docsOfKind f k (scanned cfg docs))))
        end.
Proof.
  intros cfg docs n pass1 f st H Hin.
  destruct (pass1_Ok cfg docs n pass1 H) as [Hs _].
  destruct (scanStats_field cfg _ n _ f st Hs Hin)
    as [_ [_ [_ [_ [He _]]]]].
  exact He.
Qed.

Lemma pass1_kind_examples_witness :
  exists n pass1 st,
    pass1_buildStats datedConfig datedDocs = (n, Ok pass1)
    /\ In ("date", st) (fieldStats pass1)
    /\ forall k,
         Map_get k (kindExamples st)
         = match docsOfKind "date" k (scanned datedConfig datedDocs) with
           | [] => None
           | _ :: _ =>
               Some (firstn (EXAMPLES_PER_ISSUE datedConfig)
                       (map id (docsOfKind "date" k (scanned datedConfig datedDocs))))
           end.
Proof.
  eexists; eexists; eexists.
  split; [vm_compute; reflexivity |].
  split; [left; reflexivity |].
  eapply (pass1_kind_examples datedConfig datedDocs _ _ "date" _).
  - vm_compute; reflexivity.
  - left; reflexivity.
Defined.

Lemma firstn_In : forall (A : Type) n (l : list A) x,
  In x (firstn n l) -> In x l.
Proof.
  intros A n l x H. rewrite <- (firstn_skipn n l). apply in_or_app. now left.
Qed.

Lemma violationsIn_In : forall cfg f ds docId s,
  In (docId, s) (violationsIn cfg f ds)
  <-> exists d rule test,
        In d ds /\ id d = docId /\ valueAt f d = Some (VString s)
        /\ lookupRule cfg f = Some rule /\ regex rule = RegExp test
        /\ test s = false.
Proof.
  intros cfg f ds docId s. unfold violationsIn. rewrite in_flat_map. split.
  - intros [d [Hd Hin]]. destruct (valueAt f d) as [v |] eqn:Ev; [| destruct Hin].
    unfold violationOf in Hin.
    destruct (lookupRule cfg f) as [rule |] eqn:El; [| destruct Hin].
    destruct v; try (destruct Hin).
    destruct (regex rule) as [test | | |] eqn:Er;
      [| destruct Hin | destruct Hin | destruct Hin].
    destruct (test s0) eqn:Et; [destruct Hin |].
    destruct Hin as [Heq | []]. inversion Heq; subst.
    exists d, rule, test. auto 10.
  - intros [d [rule [test [Hd [Hid [Hv [Hl [Hr Ht]]]]]]]].
    exists d. split; [exact Hd |]. rewrite Hv. unfold violationOf.
    rewrite Hl, Hr, Ht, Hid. now left.
Qed.

(** X15. The regex violations of pass 1. After a pass 1 that returns,
    the [regexViolations] of every field path are the first
    [EXAMPLES_PER_ISSUE] pairs of a document id and a value, in scan
    order, among the scanned documents whose value at the path is a string
    that the regular expression of the path's rule rejects. A value that
    is not a string is never recorded, whatever it is. *)
Theorem pass1_regex_violations :
  forall (cfg : Config) (docs : list Doc) n pass1 f st,
    pass1_buildStats cfg docs = (n, Ok pass1) ->
    In (f, st) (fieldStats pass1) ->
    regexViolations st
    = firstn (EXAMPLES_PER_ISSUE cfg) (violationsIn cfg f (scanned cfg docs))
    /\ List.length (regexViolations st) <= EXAMPLES_PER_ISSUE cfg
    /\ (forall docId s,
          In (docId, s) (regexViolations st) ->
          exists d rule test,
            In d (scanned cfg docs) /\ id d = docId
            /\ valueAt f d = Some (VString s)
            /\ lookupRule cfg f = Some rule /\ regex rule = RegExp test
            /\ test s = false)
    /\ (regexViolations st = []
        <-> EXAMPLES_PER_ISSUE cfg = 0
            \/ violationsIn cfg f (scanned cfg docs) = []).
Proof.
  intros cfg docs n pass1 f st H Hin.
  destruct (pass1_Ok cfg docs n pass1 H) as [Hs _].
  destruct (scanStats_field cfg _ n _ f st Hs Hin)
    as [_ [_ [_ [_ [_ [Hv _]]]]]].
  split; [exact Hv |]. rewrite Hv.
  split; [apply firstn_le_length | split].
  - intros docId s Hi. apply firstn_In in Hi. now apply (violationsIn_In cfg f).
  - destruct (EXAMPLES_PER_ISSUE cfg) as [| N]; [cbn; tauto |].
    destruct (violationsIn cfg f (scanned cfg docs)) as [| x l]; cbn.
    + tauto.
    + split; [discriminate | intros [Hz | Hz]; discriminate Hz].
Qed.

Lemma pass1_regex_violations_witness :
  exists n pass1 st,
    pass1_buildStats datedConfig datedDocs = (n, Ok pass1)
    /\ In ("date", st) (fieldStats pass1)
    /\ regexViolations st
       = firstn (EXAMPLES_PER_ISSUE datedConfig)
           (violationsIn datedConfig "date" (scanned datedConfig datedDocs))
    /\ List.length (regexViolations st) <= EXAMPLES_PER_ISSUE datedConfig
    /\ (forall docId s,
          In (docId, s) (regexViolations st) ->
          exists d rule test,
            In d (scanned datedConfig datedDocs) /\ id d = docId
            /\ valueAt "date" d = Some (VString s)
            /\ lookupRule datedConfig "date" = Some rule
            /\ regex rule = RegExp test
            /\ test s = false)
    /\ (regexViolations st = []
        <-> EXAMPLES_PER_ISSUE datedConfig = 0
            \/ violationsIn datedConfig "date" (scanned datedConfig datedDocs) = []).
Proof.
  eexists; eexists; eexists.
  split; [vm_compute; reflexivity |].
  split; [left; reflexivity |].
  eapply (pass1_regex_violations datedConfig datedDocs _ _ "date" _).
  - vm_compute; reflexivity.
  - left; reflexivity.
Defined.

(** ** When a run fails *)

Lemma entryError_broken : forall cfg kv,
  brokenEntry cfg kv
  = match entryError cfg kv with Some _ => true | None => false end.
Proof.
  intros cfg [path value]. unfold brokenEntry, entryError. cbn [fst snd].
  destruct (lookupRule cfg path) as [rule |]; [destruct value |]; try reflexivity.
  destruct (regex rule); reflexivity.
Qed.

Lemma entryError_message : forall cfg kv m,
  entryError cfg kv = Some m -> In m testErrorMessages.
Proof.
  intros cfg [path value] m. unfold entryError. cbn [fst snd].
  destruct (lookupRule cfg path) as [rule |]; [destruct value |];
    try discriminate.
  destruct (regex rule); intro H; inversion H; subst; cbn; auto.
Qed.

Lemma docError_broken : forall cfg d,
  brokenDoc cfg d
  = match docError cfg d with Some _ => true | None => false end.
Proof.
  intros cfg d. unfold brokenDoc, docError.
  induction (flat d) as [| kv es IH]; cbn [existsb find]; [reflexivity |].
  destruct (brokenEntry cfg kv) eqn:E; cbn [orb]; [| exact IH].
  now rewrite <- entryError_broken.
Qed.

Lemma recordField_broken : forall cfg docId fs path value,
  match entryError cfg (path, value) with
  | Some m => recordField cfg docId fs path value = Throw m
  | None => exists fs', recordField cfg docId fs path value = Ok fs'
  end.
Proof.
  intros cfg docId fs path value. unfold entryError, recordField. cbn [fst snd].
  destruct (lookupRule cfg path) as [rule |]; [destruct value |]; eauto.
  destruct (regex rule); eauto.
Qed.

Lemma recordDoc_broken : forall cfg fs d,
  match docError cfg d with
  | Some m => recordDoc cfg fs d = Throw m
  | None => exists fs', recordDoc cfg fs d = Ok fs'
  end.
Proof.
  intros cfg fs d. unfold docError, recordDoc.
  generalize (flat d) as entries. intro entries. revert fs.
  induction entries as [| [k v] es IH]; intro fs; cbn [find fold_left fst snd].
  - eauto.
  - pose proof (recordField_broken cfg (id d) fs k v) as Hf.
    rewrite entryError_broken.
    destruct (entryError cfg (k, v)) as [m |] eqn:Em.
    + rewrite Em, Hf. clear. induction es; cbn; auto.
    + destruct Hf as [fs' ->]. apply IH.
Qed.

Lemma visit_unbroken : forall cfg ds n s,
  Forall (fun d => brokenDoc cfg d = false) ds ->
  exists s', visit (recordDoc cfg) ds (n, Ok s) = (n + List.length ds, Ok s').
Proof.
  intros cfg ds. induction ds as [| d ds IH]; intros n s Hall.
  - exists s. cbn. now rewrite Nat.add_0_r.
  - inversion Hall as [| ? ? Hd Hds]; subst. rewrite visit_cons.
    pose proof (recordDoc_broken cfg s d) as Hr. rewrite docError_broken in Hd.
    destruct (docError cfg d); [discriminate Hd |].
    destruct Hr as [s1 ->]. destruct (IH (S n) s1 Hds) as [s' ->].
    exists s'. cbn [List.length]. f_equal. lia.
Qed.

Lemma scanStats_first_broken : forall cfg ds n s,
  match visit (recordDoc cfg) ds (n, Ok s) with
  | (n', Ok _) =>
      n' = n + List.length ds /\ Forall (fun d => brokenDoc cfg d = false) ds
  | (n', Throw m) =>
      exists before d after,
        ds = before ++ d :: after
        /\ n' = n + S (List.length before)
        /\ Forall (fun d => brokenDoc cfg d = false) before
        /\ docError cfg d = Some m
  end.
Proof.
  intros cfg ds. induction ds as [| d ds IH]; intros n s.
  - cbn. split; [lia | constructor].
  - rewrite visit_cons. pose proof (recordDoc_broken cfg s d) as Hd.
    pose proof (docError_broken cfg d) as Eb.
    destruct (docError cfg d) as [m |] eqn:Ed.
    + rewrite Hd, visit_Throw.
      exists [], d, ds.
      split; [reflexivity | split; [cbn [List.length]; lia |]].
      split; [constructor | exact Ed].
    + destruct Hd as [s' ->]. specialize (IH (S n) s').
      destruct (visit (recordDoc cfg) ds (S n, Ok s')) as [n' [s'' | m]].
      * destruct IH as [-> Hall].
        split; [cbn [List.length]; lia | now constructor].
      * destruct IH as [before [d' [after [-> [-> [Hb Hd']]]]]].
        exists (d :: before), d', after.
        split; [reflexivity | split; [cbn [List.length]; lia |]].
        split; [now constructor | exact Hd'].
Qed.

(** The run ends at the first document on which pass 1 throws. *)
Lemma run_first_broken : forall cfg docs before d after m,
  scanned cfg docs = before ++ d :: after ->
  Forall (fun d => brokenDoc cfg d = false) before ->
  docError cfg d = Some m ->
  run cfg docs = Exit1 m (S (List.length before)).
Proof.
  intros cfg docs before d after m Hs Hb Hd.
  unfold run. rewrite pass1_buildStats_eq. cbv zeta.
  rewrite scanStats_visit, Hs, visit_app.
  destruct (visit_unbroken cfg before 0 [] Hb) as [s' ->].
  rewrite visit_cons. pose proof (recordDoc_broken cfg s' d) as Hr.
  rewrite Hd in Hr. rewrite Hr, visit_Throw. reflexivity.
Qed.

(** X16. When pass 1 throws. When a scanned document holds a string at
    a flat path whose rule lookup gives an object without a regular
    expression, and no document before it does, the run reads the
    documents up to that one and ends with exit code 1 and the message
    of the TypeError of [rule.regex.test], which depends on what the
    [regex] of the first such entry of the document holds. Since the rule
    table is a plain object, the lookup also finds the functions inherited
    from [Object.prototype]: a string field named "constructor" or
    "toString" makes a document such a one, under any rule table that has
    no rule of that name. *)
Theorem run_fails_on_string_without_regex :
  forall (cfg : Config) (docs : list Doc),
    (forall before d after,
       scanned cfg docs = before ++ d :: after ->
       Forall (fun d => brokenDoc cfg d = false) before ->
       brokenDoc cfg d = true ->
       exists path s rule,
         find (brokenEntry cfg) (flat d) = Some (path, VString s)
         /\ lookupRule cfg path = Some rule
         /\ run cfg docs
            = Exit1 (testErrorMessage (regex rule)) (S (List.length before)))
    /\ forall d name s,
         In name Object_prototype_names ->
         Map_get name (STRING_REGEX_RULES cfg) = None ->
         Map_get name (flat d) = Some (VString s) ->
         brokenDoc cfg d = true
         /\ entryError cfg (name, VString s)
            = Some "Cannot read properties of undefined (reading 'test')".
Proof.
  intros cfg docs. split.
  - intros before d after Hs Hb Hd.
    rewrite docError_broken in Hd. unfold docError in Hd.
    destruct (find (brokenEntry cfg) (flat d)) as [[path v] |] eqn:Ef;
      [| discriminate Hd].
    destruct (entryError cfg (path, v)) as [m |] eqn:Em; [| discriminate Hd].
    assert (Hde : docError cfg d = Some m) by (unfold docError; now rewrite Ef).
    pose proof (run_first_broken cfg docs before d after m Hs Hb Hde) as Hrun.
    unfold entryError in Em. cbn [fst snd] in Em.
    destruct (lookupRule cfg path) as [rule |] eqn:El; [| discriminate Em].
    destruct v; try discriminate Em.
    exists path, s, rule. split; [reflexivity | split; [exact El |]].
    rewrite Hrun. destruct (regex rule); inversion Em; reflexivity.
  - intros d name s Hname Hrule Hv.
    assert (He : entryError cfg (name, VString s)
                 = Some "Cannot read properties of undefined (reading 'test')").
    { unfold entryError, lookupRule. cbn [fst snd]. rewrite Hrule.
      apply Set_has_In in Hname. now rewrite Hname. }
    split; [| exact He].
    unfold brokenDoc. apply existsb_exists.
    exists (name, VString s). split; [now apply Map_get_In |].
    now rewrite entryError_broken, He.
Qed.

Lemma run_fails_on_string_without_regex_witness :
  scanned otherRuleConfig ruleDocs
  = [fullDoc "1"] ++ MkDoc "2" [("date", VString "x"); ("toString", VString "y")]
      :: [fullDoc "3"]
  /\ run otherRuleConfig ruleDocs = Exit1 "rule.regex.test is not a function" 2
  /\ brokenDoc otherRuleConfig (MkDoc "4" [("toString", VString "y")]) = true.
Proof.
  split; [reflexivity |].
  destruct (run_fails_on_string_without_regex otherRuleConfig ruleDocs)
    as [Hfirst Hproto].
  split.
  - destruct (Hfirst [fullDoc "1"]
                (MkDoc "2" [("date", VString "x"); ("toString", VString "y")])
                [fullDoc "3"] eq_refl)
      as [path [s [rule [Ef [El Hrun]]]]].
    + repeat constructor.
    + reflexivity.
    + vm_compute in Ef. inversion Ef; subst path s.
      vm_compute in El. inversion El; subst rule. exact Hrun.
  - apply (Hproto (MkDoc "4" [("toString", VString "y")]) "toString" "y").
    + cbn. tauto.
    + reflexivity.
    + reflexivity.
Defined.

(** ** Configuration *)

Lemma scanStats_withThresholds : forall cfg required rare ds,
  scanStats (withThresholds cfg required rare) ds = scanStats cfg ds.
Proof. reflexivity. Qed.

(** C9, as the code has it. The program checks no option before it reads
    documents. Whether a run fails, and after how many documents, does
    not depend on the two thresholds, whatever their values, and a run
    that ends with a report echoes the thresholds it was given. A rule
    whose [regex] is no regular expression takes effect only when pass 1
    meets a string at the path of the rule: the run has read the
    documents up to that one when it ends, with exit code 1 and the
    message of the TypeError of [rule.regex.test], which is one of three
    and names no option. *)
Theorem no_configuration_check :
  forall cfg docs,
    (forall required rare,
       match run (withThresholds cfg required rare) docs, run cfg docs with
       | Exit0 _, Exit0 _ => True
       | Exit1 message n, Exit1 message' n' => message = message' /\ n = n'
       | _, _ => False
       end)
    /\ (forall r,
          run cfg docs = Exit0 r ->
          meta_docs_scanned r = List.length (scanned cfg docs)
          /\ meta_required_threshold r = REQUIRED_THRESHOLD cfg
          /\ meta_rare_field_max_pct r = RARE_FIELD_MAX_PCT cfg)
    /\ (forall before d after,
          scanned cfg docs = before ++ d :: after ->
          Forall (fun d => brokenDoc cfg d = false) before ->
          brokenDoc cfg d = true ->
          exists message,
            run cfg docs = Exit1 message (S (List.length before))
            /\ docError cfg d = Some message
            /\ In message testErrorMessages).
Proof.
  intros cfg docs. split; [| split].
  - intros required rare. unfold run. rewrite !pass1_buildStats_eq. cbv zeta.
    change (scanned (withThresholds cfg required rare) docs) with (scanned cfg docs).
    rewrite scanStats_withThresholds.
    destruct (scanStats cfg (scanned cfg docs)) as [n [fs | m]]; cbn [fst snd];
      auto.
  - intros r H. destruct (run_Exit0 cfg docs r H) as [fs [_ ->]]. repeat split.
  - intros before d after Hs Hb Hd. rewrite docError_broken in Hd.
    destruct (docError cfg d) as [m |] eqn:Ed; [| discriminate Hd].
    exists m. split; [now apply (run_first_broken cfg docs before d after) |].
    split; [reflexivity |]. unfold docError in Ed.
    destruct (find (brokenEntry cfg) (flat d)) as [kv |]; [| discriminate Ed].
    now apply (entryError_message cfg kv).
Qed.

Lemma no_configuration_check_witness :
  (exists r,
     run badConfig [fullDoc "1"] = Exit0 r
     /\ meta_docs_scanned r = List.length (scanned badConfig [fullDoc "1"])
     /\ meta_required_threshold r = REQUIRED_THRESHOLD badConfig
     /\ meta_rare_field_max_pct r = RARE_FIELD_MAX_PCT badConfig)
  /\ scanned brokenRuleConfig brokenRuleDocs
     = [fullDoc "1"] ++ MkDoc "2" [("date", VString "2024-01-01")]
         :: [fullDoc "3"]
  /\ exists message,
       run brokenRuleConfig brokenRuleDocs = Exit1 message 2
       /\ docError brokenRuleConfig (MkDoc "2" [("date", VString "2024-01-01")])
          = Some message
       /\ In message testErrorMessages.
Proof.
  split.
  - eexists. split; [vm_compute; reflexivity |].
    apply (proj1 (proj2 (no_configuration_check badConfig [fullDoc "1"]))).
    vm_compute; reflexivity.
  - split; [reflexivity |].
    apply (proj2 (proj2 (no_configuration_check brokenRuleConfig brokenRuleDocs))
             [fullDoc "1"] (MkDoc "2" [("date", VString "2024-01-01")])
             [fullDoc "3"]).
    + reflexivity.
    + repeat constructor.
    + reflexivity.
Defined.

(** An out-of-range threshold is not rejected: with
    [REQUIRED_THRESHOLD = 1.5] the run reads the collection and prints a
    report. *)
Lemma invalid_threshold_is_accepted :
  thresholdsInRange badConfig = false
  /\ exists r,
       run badConfig [fullDoc "1"] = Exit0 r
       /\ meta_docs_scanned r = 1
       /\ meta_required_threshold r = (3 # 2)%Q.
Proof.
  split; [reflexivity |]. eexists. split; [vm_compute; reflexivity |].
  split; reflexivity.
Qed.

(** A rule without a usable regular expression makes the run fail only
    when pass 1 meets a string under that path: here at the second
    document, after the first one was read. *)
Lemma malformed_rule_fails_during_scan :
  run brokenRuleConfig
    [fullDoc "1"; MkDoc "2" [("date", VString "2024-01-01")]; fullDoc "3"]
  = Exit1 "Cannot read properties of undefined (reading 'test')" 2.
Proof. vm_compute. reflexivity. Qed.

(** With a page size of 0 the first page is empty: no document is read,
    and the run ends with exit code 0 and the report of an empty
    collection. *)
Lemma zero_batch_size_reads_nothing :
  exists r,
    run zeroBatchConfig tenDocs = Exit0 r
    /\ meta_docs_scanned r = 0
    /\ summary_fields_total r = 0.
Proof. eexists. split; [vm_compute; reflexivity |]. split; reflexivity. Qed.

(** ** The other issues of the report *)

Lemma issuesOf_nonEmpty : forall (A : Type) (l : list A),
  issuesOf (nonEmpty l) = l.
Proof. intros A [| x l]; reflexivity. Qed.

Section StatInvariant.
Variable cfg : Config.
Variable P : FieldStat -> Prop.
Hypothesis P_fresh : P makeFieldStat.
Hypothesis P_step : forall docId fs path value fs',
  recordField cfg docId fs path value = Ok fs' ->
  P (statOr path fs) -> P (statOr path fs').

Lemma recordEntries_invariant : forall docId entries fs fs',
  fold_left
    (fun acc kv =>
       match acc with
       | Ok fs0 => recordField cfg docId fs0 (fst kv) (snd kv)
       | Throw m => Throw m
       end) entries (Ok fs) = Ok fs' ->
  (forall f, P (statOr f fs)) -> forall f, P (statOr f fs').
Proof.
  intros docId entries. induction entries as [| [k v] es IH];
    intros fs fs' H Hall; cbn [fold_left fst snd] in H.
  - inversion H; subst. exact Hall.
  - destruct (recordField cfg docId fs k v) as [fs1 | m] eqn:E1.
    + apply (IH fs1 fs' H). intro f.
      pose proof (P_step _ _ _ _ _ E1 (Hall k)) as Hstep.
      apply recordField_inv in E1.
      destruct (String.eqb_spec k f) as [<- | Hne]; [exact Hstep |].
      rewrite E1, statOr_set. apply String.eqb_neq in Hne. rewrite Hne. apply Hall.
    + exfalso. clear - H. induction es; cbn in H; [discriminate | auto].
Qed.

Lemma scanStats_invariant : forall ds n fs,
  scanStats cfg ds = (n, Ok fs) -> forall f, P (statOr f fs).
Proof.
  intro ds. induction ds as [| d ds IH] using rev_ind; intros n fs H.
  - cbn in H. inversion H; subst. intro f. exact P_fresh.
  - rewrite scanStats_snoc in H.
    destruct (scanStats cfg ds) as [n0 [fs0 | m]] eqn:E0; cbn [fst snd] in H;
      [| discriminate H].
    inversion H as [[Hn Hr]].
    apply (recordEntries_invariant (id d) (flat d) fs0 fs Hr).
    apply (IH n0 fs0 eq_refl).
Qed.

End StatInvariant.

Lemma distinctKinds_scan : forall cfg ds n fs f st,
  scanStats cfg ds = (n, Ok fs) -> In (f, st) fs -> distinctKinds st.
Proof.
  intros cfg ds n fs f st H Hin.
  destruct (scanStats_Ok cfg ds n fs H) as [_ [Hnd _]].
  pose proof (scanStats_invariant cfg distinctKinds) as Hinv.
  assert (Hst : statOr f fs = st).
  { unfold statOr. now rewrite (In_Map_get _ fs f st Hnd Hin). }
  rewrite <- Hst. apply (Hinv) with (ds := ds) (n := n); auto.
  - split; constructor.
  - intros docId fs0 path value fs' E [H1 H2]. apply recordField_inv in E.
    rewrite E, statOr_set, String.eqb_refl. split; cbn [kinds kindExamples];
      now apply Map_set_NoDup.
Qed.

(** *** Sorting *)

Lemma insertBy_Sorted : forall (A : Type) (le : A -> A -> bool) x l,
  (forall a b, le a b = false -> le b a = true) ->
  Sorted (fun a b => le a b = true) l ->
  Sorted (fun a b => le a b = true) (insertBy le x l).
Proof.
  intros A le x l Htot Hs. induction Hs as [| y l Hl IH Hhd]; cbn.
  - constructor; constructor.
  - destruct (le x y) eqn:E.
    + constructor; [constructor; assumption | constructor; exact E].
    + constructor; [exact IH |].
      destruct l as [| z l]; cbn.
      * constructor. now apply Htot.
      * destruct (le x z); constructor; [now apply Htot | now inversion Hhd].
Qed.

Lemma sortBy_Sorted : forall (A : Type) (le : A -> A -> bool) l,
  (forall a b, le a b = false -> le b a = true) ->
  Sorted (fun a b => le a b = true) (sortBy le l).
Proof.
  intros A le l Htot. induction l as [| x l IH]; cbn; [constructor |].
  now apply insertBy_Sorted.
Qed.

Lemma Sorted_impl : forall (A : Type) (R R' : A -> A -> Prop) l,
  (forall a b, R a b -> R' a b) -> Sorted R l -> Sorted R' l.
Proof.
  intros A R R' l Himp Hs. induction Hs as [| x l Hl IH Hhd]; constructor; auto.
  destruct Hhd; constructor; auto.
Qed.

(** *** [mapResult] *)

Lemma mapResult_Some : forall (A B : Type) (f : A -> option B) l,
  (forall x, In x l -> exists y, f x = Some y) ->
  exists ys, mapResult f l = Some ys.
Proof.
  intros A B f l. induction l as [| x l IH]; intro H; cbn; [eauto |].
  destruct (H x (or_introl eq_refl)) as [y ->].
  destruct IH as [ys ->]; [intros; apply H; now right | eauto].
Qed.

Lemma mapResult_In : forall (A B : Type) (f : A -> option B) l ys y,
  mapResult f l = Some ys ->
  (In y ys <-> exists x, In x l /\ f x = Some y).
Proof.
  intros A B f l. induction l as [| x l IH]; intros ys y H; cbn in H.
  - inversion H; subst. cbn. split; [tauto | intros [? [[] _]]].
  - destruct (f x) as [y0 |] eqn:Ex; [| discriminate H].
    destruct (mapResult f l) as [ys0 |]; [| discriminate H].
    inversion H; subst ys. cbn. rewrite (IH ys0 y eq_refl). split.
    + intros [<- | [x' [H1 H2]]]; [exists x; auto | exists x'; auto].
    + intros [x' [[<- | H1] H2]]; [left; congruence | right; eauto].
Qed.

(** *** Type mismatches *)

Lemma typeMismatchIssues_spec : forall T fs,
  NoDup (map fst fs) ->
  exists issues,
    typeMismatchIssues fs (map (fieldRow T) fs) = Some issues
    /\ (forall i, In i issues
                  <-> exists f st, In (f, st) fs /\ hasMismatch st = true
                                   /\ i = mismatchOf f st)
    /\ Sorted (fun a b => List.length (tm_kinds b) <= List.length (tm_kinds a))
         issues.
Proof.
  intros T fs Hnd. unfold typeMismatchIssues.
  set (conv := fun f : FieldRow =>
                 match Map_get (field f) fs with
                 | Some stat =>
                     Some (MkTypeMismatchIssue (field f) (row_kinds f)
                             (filter (fun ka => negb (List.length (snd ka) =? 0))
                                (kindExamples stat)))
                 | None => None
                 end).
  assert (Hconv : forall f st, In (f, st) fs ->
                    conv (fieldRow T (f, st)) = Some (mismatchOf f st)).
  { intros f st Hin. unfold conv. cbn [fieldRow field fst snd row_kinds].
    now rewrite (In_Map_get _ fs f st Hnd Hin). }
  destruct (mapResult_Some _ _ conv (filter type_mismatch (map (fieldRow T) fs)))
    as [ys Eys].
  { intros x Hx. apply filter_In in Hx as [Hx _].
    apply in_map_iff in Hx as [[f st] [<- Hin]]. rewrite (Hconv f st Hin). eauto. }
  rewrite Eys. eexists. split; [reflexivity | split].
  - intro i. rewrite sortBy_In, (mapResult_In _ _ conv _ ys i Eys). split.
    + intros [x [Hx Hc]]. apply filter_In in Hx as [Hx Htm].
      apply in_map_iff in Hx as [[f st] [<- Hin]].
      rewrite (Hconv f st Hin) in Hc. inversion Hc. exists f, st. auto.
    + intros [f [st [Hin [Hm ->]]]]. exists (fieldRow T (f, st)).
      split; [| now apply Hconv].
      apply filter_In. split; [now apply in_map | exact Hm].
  - eapply Sorted_impl;
      [| apply (sortBy_Sorted _
                  (fun a b => List.length (tm_kinds b) <=? List.length (tm_kinds a)))].
    + intros a b H. now apply Nat.leb_le.
    + intros a b H. apply Nat.leb_gt in H. apply Nat.leb_le. lia.
Qed.

(** *** Rare fields *)

Lemma Qle_bool_total : forall a b : Q, Qle_bool a b = false -> Qle_bool b a = true.
Proof.
  intros a b H. apply Qle_bool_iff. apply Qlt_le_weak. apply Qnot_le_lt.
  intro Hle. apply Qle_bool_iff in Hle. congruence.
Qed.

Lemma rareIssues_spec : forall cfg T fs,
  NoDup (map fst fs) ->
  exists issues,
    rareIssues cfg fs (map (fieldRow T) fs) = Some issues
    /\ (forall i, In i issues
                  <-> exists f st, In (f, st) fs /\ isRare cfg T st = true
                                   /\ i = rareOf T f st)
    /\ Sorted (fun a b => (rare_present_pct a <= rare_present_pct b)%Q) issues.
Proof.
  intros cfg T fs Hnd. unfold rareIssues.
  set (conv := fun f : FieldRow =>
                 match Map_get (field f) fs with
                 | Some stat =>
                     let ex :=
                       match kindExamples stat with
                       | (anyKind, arr) :: _ => arr
                       | [] => []
                       end in
                     Some (MkRareIssue (field f) (present_count f) (present_pct f)
                             (match ex with [] => None | _ :: _ => Some ex end))
                 | None => None
                 end).
  assert (Hconv : forall f st, In (f, st) fs ->
                    conv (fieldRow T (f, st)) = Some (rareOf T f st)).
  { intros f st Hin. unfold conv.
    cbn [fieldRow field fst snd present_count present_pct].
    rewrite (In_Map_get _ fs f st Hnd Hin). cbv zeta. unfold rareOf, firstExamples.
    destruct (kindExamples st) as [| [k [| x l]] m]; reflexivity. }
  destruct (mapResult_Some _ _ conv
              (filter
                 (fun f => Qle_bool (present_pct f) (toDouble (RARE_FIELD_MAX_PCT cfg)))
                 (map (fieldRow T) fs))) as [ys Eys].
  { intros x Hx. apply filter_In in Hx as [Hx _].
    apply in_map_iff in Hx as [[f st] [<- Hin]]. rewrite (Hconv f st Hin). eauto. }
  rewrite Eys. eexists. split; [reflexivity | split].
  - intro i. rewrite sortBy_In, (mapResult_In _ _ conv _ ys i Eys). split.
    + intros [x [Hx Hc]]. apply filter_In in Hx as [Hx Hr].
      apply in_map_iff in Hx as [[f st] [<- Hin]].
      rewrite (Hconv f st Hin) in Hc. inversion Hc. exists f, st. auto.
    + intros [f [st [Hin [Hm ->]]]]. exists (fieldRow T (f, st)).
      split; [| now apply Hconv].
      apply filter_In. split; [now apply in_map | exact Hm].
  - eapply Sorted_impl;
      [| apply (sortBy_Sorted _
                  (fun a b => Qle_bool (rare_present_pct a) (rare_present_pct b)))].
    + intros a b H. now apply Qle_bool_iff.
    + intros a b. apply Qle_bool_total.
Qed.

(** *** Regex issues *)

Lemma regexIssues_In : forall cfg fs i,
  In i (regexIssues cfg fs)
  <-> exists f rule st,
        In (f, rule) (STRING_REGEX_RULES cfg) /\ Map_get f fs = Some st
        /\ regexViolations st <> []
        /\ i = MkRegexIssue f (note rule) (regexViolations st).
Proof.
  intros cfg fs i. unfold regexIssues. rewrite filterSome_In, in_map_iff. split.
  - intros [[f rule] [Hi Hin]]. cbn [fst snd] in Hi.
    destruct (Map_get f fs) as [st |] eqn:Eg; [| discriminate Hi].
    destruct (regexViolations st) as [| x l] eqn:Ev; [discriminate Hi |].
    inversion Hi. exists f, rule, st. rewrite Ev.
    split; [exact Hin | split; [exact Eg | split; [discriminate | reflexivity]]].
  - intros [f [rule [st [Hin [Hg [Hne ->]]]]]]. exists (f, rule).
    split; [| exact Hin]. cbn [fst snd]. rewrite Hg.
    destruct (regexViolations st); [contradiction | reflexivity].
Qed.

(** *** Field-name variants *)

Section VariantFacts.
Variable String_toLowerCase : string -> string.

Local Abbreviation normalize := (normalizeFieldName String_toLowerCase).
Local Abbreviation record := (recordVariant String_toLowerCase).




End VariantFacts.

(** ** The report of a run *)

Lemma runRest_eq : forall lower cfg docs r,
  run cfg docs = Exit0 r ->
  exists fs mismatches rares,
    scanStats cfg (scanned cfg docs) = (List.length (scanned cfg docs), Ok fs)
    /\ NoDup (map fst fs)
    /\ r = buildReport cfg
             (MkPass1 fs (List.length (scanned cfg docs))
                (List.length (scanned cfg docs)))
             (examplesOfRun cfg docs
                (MkPass1 fs (List.length (scanned cfg docs))
                   (List.length (scanned cfg docs))))
    /\ typeMismatchIssues fs
         (map (fieldRow (List.length (scanned cfg docs))) fs) = Some mismatches
    /\ rareIssues cfg fs
         (map (fieldRow (List.length (scanned cfg docs))) fs) = Some rares
    /\ runRest lower cfg docs
       = Some (MkReportRest
                 (List.length mismatches)
                 (List.length (regexIssues cfg fs))
                 (List.length rares)
                 (docsWithIssuesEstimate
                    (missingIssues cfg (List.length (scanned cfg docs))
                       (map (fieldRow (List.length (scanned cfg docs))) fs)
                       (examplesOfRun cfg docs
                          (MkPass1 fs (List.length (scanned cfg docs))
                             (List.length (scanned cfg docs)))))
                    mismatches (regexIssues cfg fs))
                 (nonEmpty mismatches) (nonEmpty (regexIssues cfg fs))
                 (nonEmpty rares)
                 (fieldNameVariantIssues cfg fs
                    (variantGroupsOf lower cfg (scanned cfg docs)))).
Proof.
  intros lower cfg docs r H.
  destruct (run_Exit0 cfg docs r H) as [fs [Hscan Hr]]. cbv zeta in Hr.
  destruct (scanStats_Ok _ _ _ _ Hscan) as [_ [Hnd _]].
  destruct (typeMismatchIssues_spec (List.length (scanned cfg docs)) fs Hnd)
    as [mismatches [Em _]].
  destruct (rareIssues_spec cfg (List.length (scanned cfg docs)) fs Hnd)
    as [rares [Er _]].
  exists fs, mismatches, rares.
  split; [exact Hscan | split; [exact Hnd | split; [exact Hr |]]].
  split; [exact Em | split; [exact Er |]].
  unfold runRest. rewrite pass1_buildStats_eq. cbv zeta. rewrite Hscan. cbn [fst snd].
  unfold buildReportRest. cbv zeta. cbn [fieldStats totalDocs].
  rewrite Em, Er. reflexivity.
Qed.

Lemma kind_seen : forall f k ds,
  docsOfKind f k ds <> [] <-> exists d, In d ds /\ kindAt f d = Some k.
Proof.
  intros f k ds. unfold docsOfKind. split.
  - intro H. destruct (filter (hasKindAt f k) ds) as [| d l] eqn:E; [contradiction |].
    assert (Hin : In d (filter (hasKindAt f k) ds)) by (rewrite E; now left).
    apply filter_In in Hin as [Hd Hk]. exists d. split; [exact Hd |].
    unfold hasKindAt in Hk. destruct (kindAt f d) as [k' |]; [| discriminate Hk].
    string_cases. reflexivity.
  - intros [d [Hd Hk]] E.
    assert (Hin : In d (filter (hasKindAt f k) ds)).
    { apply filter_In. split; [exact Hd |]. unfold hasKindAt.
      rewrite Hk. apply String.eqb_refl. }
    rewrite E in Hin. destruct Hin.
Qed.

Lemma Map_get_keys : forall (A : Type) k (m : list (string * A)),
  In k (map fst m) <-> Map_get k m <> None.
Proof.
  intros A k m. rewrite <- Map_has_In, Map_has_get.
  destruct (Map_get k m); split; congruence.
Qed.

Lemma filter_two : forall (A : Type) (p : A -> bool) l,
  NoDup l ->
  (1 < List.length (filter p l)
   <-> exists a b, a <> b /\ In a l /\ In b l /\ p a = true /\ p b = true).
Proof.
  intros A p l Hnd. split.
  - intro H. pose proof (NoDup_filter p Hnd) as Hnf.
    destruct (filter p l) as [| a [| b m]] eqn:E; cbn in H; try lia.
    assert (Ha : In a (filter p l)) by (rewrite E; now left).
    assert (Hb : In b (filter p l)) by (rewrite E; right; now left).
    apply filter_In in Ha as [Ha1 Ha2]. apply filter_In in Hb as [Hb1 Hb2].
    exists a, b. split; [| auto]. intros ->.
    inversion Hnf as [| ? ? Hnot _]. apply Hnot. now left.
  - intros [a [b [Hne [Ha [Hb [Hpa Hpb]]]]]].
    assert (Ha' : In a (filter p l)) by (apply filter_In; auto).
    assert (Hb' : In b (filter p l)) by (apply filter_In; auto).
    destruct (filter p l) as [| x [| y m]]; cbn; try lia.
    + destruct Ha'.
    + destruct Ha' as [<- | []]. destruct Hb' as [<- | []]. contradiction.
Qed.

Lemma Map_get_filter_value : forall (A : Type) (q : string * A -> bool) k
  (m : list (string * A)),
  NoDup (map fst m) ->
  Map_get k (filter q m)
  = match Map_get k m with
    | Some a => if q (k, a) then Some a else None
    | None => None
    end.
Proof.
  intros A q k m Hnd. induction m as [| [k0 a0] m IH]; [reflexivity |].
  inversion Hnd as [| ? ? Hnot Hnd']; subst. cbn [filter Map_get].
  destruct (String.eqb_spec k0 k) as [-> | Hne].
  - destruct (q (k, a0)); cbn [Map_get].
    + now rewrite String.eqb_refl.
    + rewrite (IH Hnd').
      assert (Hn : Map_get k m = None) by (now apply Map_get_None).
      now rewrite Hn.
  - apply String.eqb_neq in Hne.
    destruct (q (k0, a0)); cbn [Map_get]; [rewrite Hne |]; apply (IH Hnd').
Qed.

Lemma hasMismatch_seen : forall cfg ds n fs f st,
  scanStats cfg ds = (n, Ok fs) -> In (f, st) fs ->
  (hasMismatch st = true
   <-> exists d1 d2 k1 k2,
         In d1 ds /\ In d2 ds
         /\ kindAt f d1 = Some k1 /\ kindAt f d2 = Some k2
         /\ k1 <> k2 /\ k1 <> "null" /\ k2 <> "null").
Proof.
  intros cfg ds n fs f st H Hin.
  destruct (distinctKinds_scan cfg ds n fs f st H Hin) as [Hnd _].
  destruct (scanStats_field cfg ds n fs f st H Hin) as [_ [_ [_ [Hk _]]]].
  assert (Hkey : forall k, In k (map fst (kinds st))
                           <-> exists d, In d ds /\ kindAt f d = Some k).
  { intro k. rewrite Map_get_keys, Hk, <- kind_seen.
    destruct (docsOfKind f k ds); split; congruence. }
  unfold hasMismatch. rewrite Nat.ltb_lt, (filter_two _ _ _ Hnd). split.
  - intros [a [b [Hne [Ha [Hb [Hpa Hpb]]]]]].
    apply Hkey in Ha as [d1 [Hd1 Hk1]]. apply Hkey in Hb as [d2 [Hd2 Hk2]].
    apply negb_true_iff, String.eqb_neq in Hpa, Hpb.
    exists d1, d2, a, b. auto 10.
  - intros [d1 [d2 [k1 [k2 [Hd1 [Hd2 [Hk1 [Hk2 [Hne [Hn1 Hn2]]]]]]]]]].
    exists k1, k2. split; [exact Hne |].
    split; [apply Hkey; eauto | split; [apply Hkey; eauto |]].
    split; apply negb_true_iff, String.eqb_neq; assumption.
Qed.

(** X17. The type mismatches of the report. A run that ends with a
    report lists a field path under [type_mismatches] exactly when two
    scanned documents show two different kinds, neither of them null, at
    that path. The issue of a path gives, for each kind, the number of
    scanned documents that show it (null included) and the ids of the
    first [EXAMPLES_PER_ISSUE] of them; the issues are listed by
    decreasing number of kinds. *)
Theorem type_mismatch_issues :
  forall (lower : string -> string) (cfg : Config) (docs : list Doc) r,
    run cfg docs = Exit0 r ->
    exists rest,
      runRest lower cfg docs = Some rest
      /\ (forall f,
            (exists i, In i (issuesOf (issues_type_mismatches rest))
                       /\ tm_field i = f)
            <-> exists d1 d2 k1 k2,
                  In d1 (scanned cfg docs) /\ In d2 (scanned cfg docs)
                  /\ kindAt f d1 = Some k1 /\ kindAt f d2 = Some k2
                  /\ k1 <> k2 /\ k1 <> "null" /\ k2 <> "null")
      /\ (forall i k,
            In i (issuesOf (issues_type_mismatches rest)) ->
            Map_get k (tm_kinds i)
            = match docsOfKind (tm_field i) k (scanned cfg docs) with
              | [] => None
              | _ :: _ =>
                  Some (List.length (docsOfKind (tm_field i) k (scanned cfg docs)))
              end
            /\ Map_get k (tm_example_doc_ids_by_kind i)
               = nonEmpty
                   (firstn (EXAMPLES_PER_ISSUE cfg)
                      (map id (docsOfKind (tm_field i) k (scanned cfg docs)))))
      /\ Sorted (fun a b => List.length (tm_kinds b) <= List.length (tm_kinds a))
           (issuesOf (issues_type_mismatches rest))
      /\ summary_type_mismatch_issues rest
         = List.length (issuesOf (issues_type_mismatches rest)).
Proof.
  intros lower cfg docs r H.
  destruct (runRest_eq lower cfg docs r H)
    as [fs [mismatches [rares [Hscan [Hnd [_ [Em [_ Erest]]]]]]]].
  eexists. split; [exact Erest |].
  cbn [issues_type_mismatches summary_type_mismatch_issues].
  rewrite issuesOf_nonEmpty.
  destruct (typeMismatchIssues_spec (List.length (scanned cfg docs)) fs Hnd)
    as [issues [Em' [Hin Hsorted]]].
  assert (issues = mismatches) by congruence. subst issues. clear Em'.
  split; [| split; [| split; [exact Hsorted | reflexivity]]].
  - intro f. split.
    + intros [i [Hi Hf]]. apply Hin in Hi as [f0 [st [Hst [Hm ->]]]].
      cbn in Hf. subst f0. now apply (hasMismatch_seen cfg _ _ fs f st Hscan Hst).
    + intro Hseen.
      assert (Hex : exists st, In (f, st) fs).
      { destruct Hseen as [d1 [_ [k1 [_ [Hd1 [_ [Hk1 _]]]]]]].
        destruct (scanStats_Ok _ _ _ _ Hscan) as [_ [_ Hall]].
        destruct (Hall f) as [_ Hh].
        assert (Hpos : 0 < holdersIn f (scanned cfg docs)).
        { unfold holdersIn. unfold kindAt, valueAt in Hk1.
          assert (Hd : In d1 (filter (fun d => Map_has f (flat d)) (scanned cfg docs))).
          { apply filter_In. split; [exact Hd1 |]. rewrite Map_has_get.
            destruct (Map_get f (flat d1)); [reflexivity | discriminate Hk1]. }
          destruct (filter _ (scanned cfg docs)); [destruct Hd | cbn; lia]. }
        apply Hh in Hpos. rewrite Map_has_get in Hpos.
        destruct (Map_get f fs) as [st |] eqn:Eg; [| discriminate Hpos].
        exists st. now apply Map_get_In. }
      destruct Hex as [st Hst]. exists (mismatchOf f st). split; [| reflexivity].
      apply Hin. exists f, st. split; [exact Hst | split; [| reflexivity]].
      now apply (hasMismatch_seen cfg _ _ fs f st Hscan Hst).
  - intros i k Hi. apply Hin in Hi as [f [st [Hst [_ ->]]]].
    cbn [tm_field tm_kinds tm_example_doc_ids_by_kind mismatchOf].
    destruct (scanStats_field cfg _ _ fs f st Hscan Hst)
      as [_ [_ [_ [Hk [He _]]]]].
    destruct (distinctKinds_scan cfg _ _ fs f st Hscan Hst) as [_ Hnd2].
    split; [apply Hk |].
    rewrite (Map_get_filter_value _ _ k _ Hnd2), He. cbn [snd].
    destruct (docsOfKind f k (scanned cfg docs)) as [| d l]; [now rewrite firstn_nil |].
    destruct (firstn (EXAMPLES_PER_ISSUE cfg) (map id (d :: l))); reflexivity.
Qed.

Lemma type_mismatch_issues_witness :
  exists r,
    run datedConfig datedDocs = Exit0 r
    /\ exists rest,
         runRest (fun s => s) datedConfig datedDocs = Some rest
         /\ (forall f,
               (exists i, In i (issuesOf (issues_type_mismatches rest))
                          /\ tm_field i = f)
               <-> exists d1 d2 k1 k2,
                     In d1 (scanned datedConfig datedDocs)
                     /\ In d2 (scanned datedConfig datedDocs)
                     /\ kindAt f d1 = Some k1 /\ kindAt f d2 = Some k2
                     /\ k1 <> k2 /\ k1 <> "null" /\ k2 <> "null")
         /\ (forall i k,
               In i (issuesOf (issues_type_mismatches rest)) ->
               Map_get k (tm_kinds i)
               = match docsOfKind (tm_field i) k (scanned datedConfig datedDocs) with
                 | [] => None
                 | _ :: _ =>
                     Some (List.length
                             (docsOfKind (tm_field i) k
                                (scanned datedConfig datedDocs)))
                 end
               /\ Map_get k (tm_example_doc_ids_by_kind i)
                  = nonEmpty
                      (firstn (EXAMPLES_PER_ISSUE datedConfig)
                         (map id (docsOfKind (tm_field i) k
                                    (scanned datedConfig datedDocs)))))
         /\ Sorted (fun a b => List.length (tm_kinds b) <= List.length (tm_kinds a))
              (issuesOf (issues_type_mismatches rest))
         /\ summary_type_mismatch_issues rest
            = List.length (issuesOf (issues_type_mismatches rest)).
Proof.
  eexists. split; [vm_compute; reflexivity |].
  eapply (type_mismatch_issues (fun s => s) datedConfig datedDocs _).
  vm_compute; reflexivity.
Defined.

Lemma field_seen : forall cfg ds n fs f,
  scanStats cfg ds = (n, Ok fs) ->
  (0 < holdersIn f ds <-> exists st, In (f, st) fs).
Proof.
  intros cfg ds n fs f H.
  destruct (scanStats_Ok _ _ _ _ H) as [_ [Hnd Hall]].
  destruct (Hall f) as [_ Hh]. rewrite <- Hh, Map_has_get. split.
  - destruct (Map_get f fs) as [st |] eqn:Eg; [| discriminate].
    intros _. exists st. now apply Map_get_In.
  - intros [st Hin]. now rewrite (In_Map_get _ fs f st Hnd Hin).
Qed.

Lemma firstExamples_seen : forall cfg ds n fs f st,
  scanStats cfg ds = (n, Ok fs) -> In (f, st) fs ->
  exists k0,
    firstKindIn f ds = Some k0
    /\ firstExamples st
       = firstn (EXAMPLES_PER_ISSUE cfg) (map id (docsOfKind f k0 ds)).
Proof.
  intros cfg ds n fs f st H Hin.
  destruct (scanStats_field cfg ds n fs f st H Hin)
    as [_ [Hc [Hpos [Hk [He [_ Hf]]]]]].
  unfold firstKindOf in Hf. unfold firstExamples.
  destruct (kindExamples st) as [| [k0 arr] m] eqn:Ek.
  - exfalso.
    assert (Hnone : forall k, docsOfKind f k ds = []).
    { intro k. specialize (He k). cbn in He.
      destruct (docsOfKind f k ds); [reflexivity | discriminate He]. }
    assert (Hno : holdersIn f ds = 0).
    { unfold holdersIn. clear - Hnone.
      induction ds as [| d ds IH]; [reflexivity |]. cbn [filter].
      assert (Htl : forall k, docsOfKind f k ds = []).
      { intro k. specialize (Hnone k). unfold docsOfKind in *. cbn [filter] in Hnone.
        destruct (hasKindAt f k d); [discriminate Hnone | exact Hnone]. }
      rewrite Map_has_get. destruct (Map_get f (flat d)) as [v |] eqn:Ev.
      - specialize (Hnone (detectKind v)). unfold docsOfKind in Hnone.
        cbn [filter] in Hnone. unfold hasKindAt, kindAt, valueAt in Hnone.
        rewrite Ev, String.eqb_refl in Hnone. discriminate Hnone.
      - apply IH. exact Htl. }
    lia.
  - exists k0. split; [now symmetry |].
    specialize (He k0). cbn [Map_get] in He. rewrite String.eqb_refl in He.
    destruct (docsOfKind f k0 ds) as [| d l]; [discriminate He |].
    now inversion He.
Qed.

(** The quotients of the program are rounded twice: the division gives a
    binary64 number, and [toFixed(4)] rounds that number, not the exact
    quotient. 1001 documents out of 20000 give 0.05 and not 0.0501, so
    that the field is rare under [RARE_FIELD_MAX_PCT = 0.05]; 3 out of
    160 give 0.0187, and 18999 out of 20000 give 0.9499. *)
Example fractions_round_the_double :
  Qle_bool (toFixed4 (presenceFraction (Z.to_nat 20000) (Z.to_nat 1001)))
    (toDouble (5 # 100)) = true
  /\ Qle_bool (roundTo4 (1001 # 20000)) (5 # 100) = false
  /\ (toFixed4 (presenceFraction (Z.to_nat 20000) (Z.to_nat 1001))
      == toDouble (500 # 10000))%Q
  /\ (toFixed4 (presenceFraction 160 3) == toDouble (187 # 10000))%Q
  /\ (toFixed4 (presenceFraction (Z.to_nat 20000) (Z.to_nat 18999))
      == toDouble (9499 # 10000))%Q.
Proof. repeat split; vm_compute; reflexivity. Qed.

(** X18. The rare fields of the report. A run that ends with a report
    lists a field path under [rare_fields] exactly when some scanned
    document holds the path and its presence fraction, the binary64
    quotient rounded by [toFixed(4)], is at most the number that
    [RARE_FIELD_MAX_PCT] denotes. The issue gives the number of scanned
    documents that hold the path, the rounded fraction, and as examples
    the ids of the first [EXAMPLES_PER_ISSUE] scanned documents that show,
    at the path, the kind of the first value seen there; the issues are
    listed by increasing fraction. *)
Theorem rare_field_issues :
  forall (lower : string -> string) (cfg : Config) (docs : list Doc) r,
    run cfg docs = Exit0 r ->
    exists rest,
      runRest lower cfg docs = Some rest
      /\ (forall f,
            (exists i, In i (issuesOf (issues_rare_fields rest))
                       /\ rare_field i = f)
            <-> 0 < holders cfg docs f
                /\ Qle_bool
                     (toFixed4 (presenceFraction (List.length (scanned cfg docs))
                                  (holders cfg docs f)))
                     (toDouble (RARE_FIELD_MAX_PCT cfg)) = true)
      /\ (forall i,
            In i (issuesOf (issues_rare_fields rest)) ->
            rare_present_count i = holders cfg docs (rare_field i)
            /\ rare_present_pct i
               = toFixed4 (presenceFraction (List.length (scanned cfg docs))
                             (holders cfg docs (rare_field i)))
            /\ exists k0,
                 firstKindIn (rare_field i) (scanned cfg docs) = Some k0
                 /\ rare_example_doc_ids i
                    = nonEmpty
                        (firstn (EXAMPLES_PER_ISSUE cfg)
                           (map id (docsOfKind (rare_field i) k0 (scanned cfg docs)))))
      /\ Sorted (fun a b => (rare_present_pct a <= rare_present_pct b)%Q)
           (issuesOf (issues_rare_fields rest))
      /\ summary_rare_fields_issues rest
         = List.length (issuesOf (issues_rare_fields rest)).
Proof.
  intros lower cfg docs r H.
  destruct (runRest_eq lower cfg docs r H)
    as [fs [mismatches [rares [Hscan [Hnd [_ [_ [Er Erest]]]]]]]].
  eexists. split; [exact Erest |].
  cbn [issues_rare_fields summary_rare_fields_issues].
  rewrite issuesOf_nonEmpty.
  destruct (rareIssues_spec cfg (List.length (scanned cfg docs)) fs Hnd)
    as [issues [Er' [Hin Hsorted]]].
  assert (issues = rares) by congruence. subst issues. clear Er'.
  assert (Hcount : forall f st, In (f, st) fs -> presentCount st = holders cfg docs f).
  { intros f st Hst.
    destruct (scanStats_field cfg _ _ fs f st Hscan Hst) as [_ [Hc _]]. exact Hc. }
  split; [| split; [| split; [exact Hsorted | reflexivity]]].
  - intro f. split.
    + intros [i [Hi Hf]]. apply Hin in Hi as [f0 [st [Hst [Hr ->]]]].
      cbn in Hf. subst f0. unfold isRare in Hr. rewrite (Hcount f st Hst) in Hr.
      split; [| exact Hr]. apply (field_seen cfg _ _ fs f Hscan). eauto.
    + intros [Hpos Hr]. apply (field_seen cfg _ _ fs f Hscan) in Hpos as [st Hst].
      exists (rareOf (List.length (scanned cfg docs)) f st). split; [| reflexivity].
      apply Hin. exists f, st. split; [exact Hst | split; [| reflexivity]].
      unfold isRare. now rewrite (Hcount f st Hst).
  - intros i Hi. apply Hin in Hi as [f [st [Hst [_ ->]]]].
    cbn [rare_field rare_present_count rare_present_pct rare_example_doc_ids rareOf].
    rewrite (Hcount f st Hst).
    split; [reflexivity | split; [reflexivity |]].
    destruct (firstExamples_seen cfg _ _ fs f st Hscan Hst) as [k0 [Hk0 Hex]].
    exists k0. split; [exact Hk0 | now rewrite Hex].
Qed.

Lemma rare_field_issues_witness :
  exists r,
    run rareConfig datedDocs = Exit0 r
    /\ exists rest,
         runRest (fun s => s) rareConfig datedDocs = Some rest
         /\ (forall f,
               (exists i, In i (issuesOf (issues_rare_fields rest))
                          /\ rare_field i = f)
               <-> 0 < holders rareConfig datedDocs f
                   /\ Qle_bool
                        (toFixed4
                           (presenceFraction
                              (List.length (scanned rareConfig datedDocs))
                              (holders rareConfig datedDocs f)))
                        (toDouble (RARE_FIELD_MAX_PCT rareConfig)) = true)
         /\ (forall i,
               In i (issuesOf (issues_rare_fields rest)) ->
               rare_present_count i = holders rareConfig datedDocs (rare_field i)
               /\ rare_present_pct i
                  = toFixed4
                      (presenceFraction (List.length (scanned rareConfig datedDocs))
                         (holders rareConfig datedDocs (rare_field i)))
               /\ exists k0,
                    firstKindIn (rare_field i) (scanned rareConfig datedDocs)
                    = Some k0
                    /\ rare_example_doc_ids i
                       = nonEmpty
                           (firstn (EXAMPLES_PER_ISSUE rareConfig)
                              (map id (docsOfKind (rare_field i) k0
                                         (scanned rareConfig datedDocs)))))
         /\ Sorted (fun a b => (rare_present_pct a <= rare_present_pct b)%Q)
              (issuesOf (issues_rare_fields rest))
         /\ summary_rare_fields_issues rest
            = List.length (issuesOf (issues_rare_fields rest)).
Proof.
  eexists. split; [vm_compute; reflexivity |].
  eapply (rare_field_issues (fun s => s) rareConfig datedDocs _).
  vm_compute; reflexivity.
Defined.

Lemma flat_map_nil_lint : forall (A B : Type) (f : A -> list B) l,
  Forall (fun x => f x = []) l -> flat_map f l = [].
Proof.
  intros A B f l H. induction H as [| x l Hx _ IH]; [reflexivity |].
  cbn. now rewrite Hx, IH.
Qed.

Lemma violations_seen : forall cfg ds n fs f,
  scanStats cfg ds = (n, Ok fs) ->
  match Map_get f fs with
  | Some st =>
      regexViolations st
      = firstn (EXAMPLES_PER_ISSUE cfg) (violationsIn cfg f ds)
  | None => violationsIn cfg f ds = []
  end.
Proof.
  intros cfg ds n fs f H. destruct (Map_get f fs) as [st |] eqn:Eg.
  - apply Map_get_In in Eg.
    destruct (scanStats_field cfg ds n fs f st H Eg) as [_ [_ [_ [_ [_ [Hv _]]]]]].
    exact Hv.
  - destruct (scanStats_Ok _ _ _ _ H) as [_ [_ Hall]].
    destruct (Hall f) as [Hc _]. unfold countOf in Hc. rewrite Eg in Hc.
    unfold violationsIn. apply flat_map_nil_lint. apply Forall_forall.
    intros d Hd. unfold valueAt. destruct (Map_get f (flat d)) as [v |] eqn:Ev;
      [| reflexivity].
    exfalso. unfold holdersIn in Hc.
    assert (Hin : In d (filter (fun d0 => Map_has f (flat d0)) ds)).
    { apply filter_In. split; [exact Hd |]. rewrite Map_has_get. now rewrite Ev. }
    destruct (filter _ ds); [destruct Hin | discriminate Hc].
Qed.

(** X19. The regex violations of the report. A run that ends with a
    report lists, for each rule of [STRING_REGEX_RULES], an issue exactly
    when [EXAMPLES_PER_ISSUE] is positive and some scanned document holds,
    at the path of the rule, a string that the regular expression
    rejects; the issue carries the note of the rule and, as examples, the
    first [EXAMPLES_PER_ISSUE] pairs of document id and rejected string, in
    scan order. Values that are not strings are not reported. *)
Theorem regex_violation_issues :
  forall (lower : string -> string) (cfg : Config) (docs : list Doc) r,
    run cfg docs = Exit0 r ->
    exists rest,
      runRest lower cfg docs = Some rest
      /\ (forall i,
            In i (issuesOf (issues_regex_violations rest))
            <-> exists f rule,
                  In (f, rule) (STRING_REGEX_RULES cfg)
                  /\ 0 < EXAMPLES_PER_ISSUE cfg
                  /\ violationsIn cfg f (scanned cfg docs) <> []
                  /\ i = MkRegexIssue f (note rule)
                           (firstn (EXAMPLES_PER_ISSUE cfg)
                              (violationsIn cfg f (scanned cfg docs))))
      /\ (forall i docId s,
            In i (issuesOf (issues_regex_violations rest)) ->
            In (docId, s) (rx_examples i) ->
            exists d rule test,
              In d (scanned cfg docs) /\ id d = docId
              /\ valueAt (rx_field i) d = Some (VString s)
              /\ lookupRule cfg (rx_field i) = Some rule
              /\ regex rule = RegExp test /\ test s = false)
      /\ summary_regex_issues rest
         = List.length (issuesOf (issues_regex_violations rest)).
Proof.
  intros lower cfg docs r H.
  destruct (runRest_eq lower cfg docs r H)
    as [fs [mismatches [rares [Hscan [Hnd [_ [_ [_ Erest]]]]]]]].
  eexists. split; [exact Erest |].
  cbn [issues_regex_violations summary_regex_issues].
  rewrite issuesOf_nonEmpty.
  assert (Hiff : forall i,
            In i (regexIssues cfg fs)
            <-> exists f rule,
                  In (f, rule) (STRING_REGEX_RULES cfg)
                  /\ 0 < EXAMPLES_PER_ISSUE cfg
                  /\ violationsIn cfg f (scanned cfg docs) <> []
                  /\ i = MkRegexIssue f (note rule)
                           (firstn (EXAMPLES_PER_ISSUE cfg)
                              (violationsIn cfg f (scanned cfg docs)))).
  { intro i. rewrite regexIssues_In. split.
    - intros [f [rule [st [Hin [Hg [Hne ->]]]]]].
      pose proof (violations_seen cfg _ _ fs f Hscan) as Hv. rewrite Hg in Hv.
      exists f, rule. rewrite Hv in Hne |- *.
      split; [exact Hin |].
      destruct (EXAMPLES_PER_ISSUE cfg) as [| N]; [now contradiction Hne |].
      split; [lia | split; [| reflexivity]].
      intro E. rewrite E in Hne. now apply Hne.
    - intros [f [rule [Hin [Hpos [Hne ->]]]]].
      pose proof (violations_seen cfg _ _ fs f Hscan) as Hv.
      destruct (Map_get f fs) as [st |] eqn:Eg; [| contradiction].
      exists f, rule, st. rewrite Hv.
      split; [exact Hin | split; [exact Eg | split; [| reflexivity]]].
      destruct (EXAMPLES_PER_ISSUE cfg) as [| N]; [lia |].
      destruct (violationsIn cfg f (scanned cfg docs)); [contradiction | discriminate]. }
  split; [exact Hiff | split; [| reflexivity]].
  intros i docId s Hi Hex. apply Hiff in Hi as [f [rule [_ [_ [_ ->]]]]].
  cbn [rx_examples rx_field] in *. apply firstn_In in Hex.
  now apply (violationsIn_In cfg f).
Qed.

Lemma regex_violation_issues_witness :
  exists r,
    run datedConfig datedDocs = Exit0 r
    /\ exists rest,
         runRest (fun s => s) datedConfig datedDocs = Some rest
         /\ (forall i,
               In i (issuesOf (issues_regex_violations rest))
               <-> exists f rule,
                     In (f, rule) (STRING_REGEX_RULES datedConfig)
                     /\ 0 < EXAMPLES_PER_ISSUE datedConfig
                     /\ violationsIn datedConfig f (scanned datedConfig datedDocs) <> []
                     /\ i = MkRegexIssue f (note rule)
                              (firstn (EXAMPLES_PER_ISSUE datedConfig)
                                 (violationsIn datedConfig f
                                    (scanned datedConfig datedDocs))))
         /\ (forall i docId s,
               In i (issuesOf (issues_regex_violations rest)) ->
               In (docId, s) (rx_examples i) ->
               exists d rule test,
                 In d (scanned datedConfig datedDocs) /\ id d = docId
                 /\ valueAt (rx_field i) d = Some (VString s)
                 /\ lookupRule datedConfig (rx_field i) = Some rule
                 /\ regex rule = RegExp test /\ test s = false)
         /\ summary_regex_issues rest
            = List.length (issuesOf (issues_regex_violations rest)).
Proof.
  eexists. split; [vm_compute; reflexivity |].
  eapply (regex_violation_issues (fun s => s) datedConfig datedDocs _).
  vm_compute; reflexivity.
Defined.

(** *** Field-name variants *)





(** *** The estimate of the documents with issues *)

Lemma Set_size_le : forall (l ids : list string),
  (forall x, In x l -> In x ids) -> Set_size l <= List.length ids.
Proof.
  intros l ids Hincl. unfold Set_size.
  assert (H : forall l s,
            NoDup s ->
            NoDup (fold_left (fun set x => Set_add x set) l s)
            /\ forall x, In x (fold_left (fun set x => Set_add x set) l s)
                         -> In x s \/ In x l).
  { clear. induction l as [| a l IH]; intros s Hs; cbn [fold_left].
    - split; [exact Hs | auto].
    - destruct (IH (Set_add a s) (Set_add_NoDup a s Hs)) as [H1 H2].
      split; [exact H1 |]. intros x Hx. apply H2 in Hx as [Hx | Hx].
      + apply Set_add_In in Hx as [-> | Hx]; [right; now left | now left].
      + right. now right. }
  destruct (H l [] (NoDup_nil _)) as [Hnd Hin].
  apply NoDup_incl_length; [exact Hnd |].
  intros x Hx. apply Hin in Hx as [[] | Hx]. now apply Hincl.
Qed.

Lemma missingIssues_In : forall cfg T rows me i,
  In i (missingIssues cfg T rows me) ->
  exists row, In row rows /\ missingIssue T me row = Some i.
Proof.
  intros cfg T rows me i H. unfold missingIssues in H.
  apply sortBy_In, filterSome_In, in_map_iff in H as [row [Hi Hrow]].
  unfold expectedRows in Hrow. apply sortBy_In, filter_In in Hrow as [Hrow _].
  eauto.
Qed.

Lemma lackingIds_scanned : forall cfg docs f x,
  In x (lackingIds cfg docs f) -> In x (map id (scanned cfg docs)).
Proof.
  intros cfg docs f x H. unfold lackingIds in H.
  apply in_map_iff in H as [d [<- Hd]]. apply filter_In in Hd as [Hd _].
  now apply in_map.
Qed.

(** X21. The count [docs_with_issues_examples_count] of the report
    never exceeds the number of scanned documents: every id that it
    counts, once, is the id of a scanned document that a missing-field
    issue, a type mismatch or a regex violation gives as an example. *)
Theorem docs_with_issues_bounded :
  forall (lower : string -> string) (cfg : Config) (docs : list Doc) r,
    run cfg docs = Exit0 r ->
    exists rest,
      runRest lower cfg docs = Some rest
      /\ summary_docs_with_issues_examples_count rest <= meta_docs_scanned r
      /\ meta_docs_scanned r = List.length (scanned cfg docs).
Proof.
  intros lower cfg docs r H.
  destruct (runRest_eq lower cfg docs r H)
    as [fs [mismatches [rares [Hscan [Hnd [Hr [Em [_ Erest]]]]]]]].
  eexists. split; [exact Erest |].
  cbn [summary_docs_with_issues_examples_count]. rewrite Hr.
  cbn [meta_docs_scanned buildReport docsScanned]. split; [| reflexivity].
  rewrite <- (length_map id (scanned cfg docs)).
  apply Set_size_le. intros x Hx.
  apply in_app_or in Hx as [Hx | Hx]; [| apply in_app_or in Hx as [Hx | Hx]].
  - apply in_flat_map in Hx as [i [Hi Hx]].
    apply missingIssues_In in Hi as [row [_ Hi]]. unfold missingIssue in Hi.
    cbv zeta in Hi.
    match type of Hi with
    | context [if ?c then _ else _] => destruct c; [discriminate Hi |]
    end.
    inversion Hi; subst i. cbn [example_doc_ids] in Hx.
    rewrite examplesOfRun_get in Hx.
    destruct (Set_has (field row) (expectedFields cfg _)); [| destruct Hx].
    destruct (lackingIds cfg docs (field row)) as [| y l] eqn:El; [destruct Hx |].
    destruct (firstn (EXAMPLES_PER_ISSUE cfg) (y :: l)) eqn:Ef; [destruct Hx |].
    rewrite <- Ef in Hx. apply firstn_In in Hx. rewrite <- El in Hx.
    now apply (lackingIds_scanned cfg docs (field row)).
  - apply in_flat_map in Hx as [i [Hi Hx]].
    destruct (typeMismatchIssues_spec (List.length (scanned cfg docs)) fs Hnd)
      as [issues [Em' [Hin _]]].
    assert (issues = mismatches) by congruence. subst issues.
    apply Hin in Hi as [f [st [Hst [_ ->]]]].
    cbn [tm_example_doc_ids_by_kind mismatchOf] in Hx.
    apply in_flat_map in Hx as [[k arr] [Hka Hx]]. cbn [snd] in Hx.
    apply filter_In in Hka as [Hka _].
    destruct (distinctKinds_scan cfg _ _ fs f st Hscan Hst) as [_ Hnd2].
    destruct (scanStats_field cfg _ _ fs f st Hscan Hst)
      as [_ [_ [_ [_ [He _]]]]].
    specialize (He k). rewrite (In_Map_get _ _ k arr Hnd2 Hka) in He.
    destruct (docsOfKind f k (scanned cfg docs)) as [| d l] eqn:Ed;
      [discriminate He |].
    inversion He; subst arr. apply firstn_In in Hx.
    change (id d :: map id l) with (map id (d :: l)) in Hx.
    apply in_map_iff in Hx as [d' [<- Hd']]. rewrite <- Ed in Hd'.
    apply filter_In in Hd' as [Hd' _]. now apply in_map.
  - apply in_flat_map in Hx as [i [Hi Hx]].
    apply regexIssues_In in Hi as [f [rule [st [_ [Hg [_ ->]]]]]].
    cbn [rx_examples] in Hx. apply in_map_iff in Hx as [[docId s] [<- Hx]].
    cbn [fst]. pose proof (violations_seen cfg _ _ fs f Hscan) as Hv.
    rewrite Hg in Hv. rewrite Hv in Hx. apply firstn_In in Hx.
    apply violationsIn_In in Hx as [d [_ [_ [Hd [<- _]]]]]. now apply in_map.
Qed.

Lemma docs_with_issues_bounded_witness :
  exists r,
    run datedConfig datedDocs = Exit0 r
    /\ exists rest,
         runRest asciiToLowerCase datedConfig datedDocs = Some rest
         /\ summary_docs_with_issues_examples_count rest <= meta_docs_scanned r
         /\ meta_docs_scanned r = List.length (scanned datedConfig datedDocs).
Proof.
  eexists. split; [vm_compute; reflexivity |].
  eapply (docs_with_issues_bounded asciiToLowerCase datedConfig datedDocs _).
  vm_compute; reflexivity.
Defined.

(** *** The counts of the report *)

Lemma expectedRows_length : forall cfg rows,
  List.length (expectedRows cfg rows) <= List.length rows.
Proof.
  intros cfg rows. unfold expectedRows.
  rewrite (Permutation_length (sortBy_perm _ _ _)). apply filter_length_le.
Qed.

Lemma filterSome_length : forall (A : Type) (l : list (option A)),
  List.length (filterSome l) <= List.length l.
Proof.
  intros A l. induction l as [| [a |] l IH]; cbn; lia.
Qed.

(** X22. The counts of the report of a run. [docs_scanned] and
    [docs_total_seen] are the number of scanned documents;
    [fields_total] is the number of distinct flat paths that the scanned
    documents hold; the missing-field issues are at most as many as the
    expected fields, which are at most as many as the fields; every
    missing-field issue has a positive [missing_count], at most the number
    of scanned documents, and the issues are listed by decreasing
    [missing_count]. *)
Theorem report_counts :
  forall (cfg : Config) (docs : list Doc) r,
    run cfg docs = Exit0 r ->
    meta_docs_scanned r = List.length (scanned cfg docs)
    /\ meta_docs_total_seen r = List.length (scanned cfg docs)
    /\ (exists paths,
          NoDup paths
          /\ (forall f, In f paths <-> 0 < holders cfg docs f)
          /\ summary_fields_total r = List.length paths)
    /\ summary_missing_fields_issues r <= summary_expected_fields_count r
    /\ summary_expected_fields_count r <= summary_fields_total r
    /\ summary_missing_fields_issues r
       = List.length (issuesOf (issues_missing_fields r))
    /\ Forall (fun i => 0 < missing_count i
                        /\ missing_count i <= List.length (scanned cfg docs))
         (issuesOf (issues_missing_fields r))
    /\ Sorted (fun a b => missing_count b <= missing_count a)
         (issuesOf (issues_missing_fields r)).
Proof.
  intros cfg docs r H.
  destruct (run_Exit0 cfg docs r H) as [fs [Hscan Hr]]. cbv zeta in Hr.
  destruct (scanStats_Ok _ _ _ _ Hscan) as [_ [Hnd Hall]].
  rewrite Hr. unfold buildReport. cbv zeta.
  cbn [meta_docs_scanned meta_docs_total_seen summary_fields_total
       summary_missing_fields_issues summary_expected_fields_count
       issues_missing_fields docsScanned totalDocs fieldStats].
  set (T := List.length (scanned cfg docs)).
  set (rows := map (fieldRow T) fs).
  set (me := examplesOfRun cfg docs (MkPass1 fs T T)).
  assert (Hl : issuesOf (match missingIssues cfg T rows me with
                         | [] => None
                         | _ :: _ => Some (missingIssues cfg T rows me)
                         end) = missingIssues cfg T rows me).
  { destruct (missingIssues cfg T rows me); reflexivity. }
  rewrite Hl.
  split; [reflexivity | split; [reflexivity | split; [| split; [| split]]]].
  - exists (map fst fs). split; [exact Hnd | split].
    + intro f. rewrite <- Map_has_In. destruct (Hall f) as [_ Hh]. exact Hh.
    + unfold rows. now rewrite !length_map.
  - unfold missingIssues. rewrite (Permutation_length (sortBy_perm _ _ _)).
    eapply Nat.le_trans; [apply filterSome_length |]. now rewrite length_map.
  - apply expectedRows_length.
  - split; [reflexivity | split].
    + apply Forall_forall. intros i Hi.
      apply missingIssues_In in Hi as [row [_ Hi]]. unfold missingIssue in Hi.
      cbv zeta in Hi. destruct (T - present_count row <=? 0) eqn:Ez;
        [discriminate Hi |].
      apply Nat.leb_gt in Ez. inversion Hi; subst i. cbn [missing_count]. lia.
    + unfold missingIssues. eapply Sorted_impl;
        [| apply (sortBy_Sorted _
                    (fun a b => missing_count b <=? missing_count a))].
      * intros a b Hab. now apply Nat.leb_le.
      * intros a b Hab. apply Nat.leb_gt in Hab. apply Nat.leb_le. lia.
Qed.

Lemma report_counts_witness :
  exists r,
    run (usersConfig (9 # 10) 2) tenDocs = Exit0 r
    /\ meta_docs_scanned r = List.length (scanned (usersConfig (9 # 10) 2) tenDocs)
    /\ meta_docs_total_seen r
       = List.length (scanned (usersConfig (9 # 10) 2) tenDocs)
    /\ (exists paths,
          NoDup paths
          /\ (forall f, In f paths <-> 0 < holders (usersConfig (9 # 10) 2) tenDocs f)
          /\ summary_fields_total r = List.length paths)
    /\ summary_missing_fields_issues r <= summary_expected_fields_count r
    /\ summary_expected_fields_count r <= summary_fields_total r
    /\ summary_missing_fields_issues r
       = List.length (issuesOf (issues_missing_fields r))
    /\ Forall (fun i => 0 < missing_count i
                        /\ missing_count i
                           <= List.length (scanned (usersConfig (9 # 10) 2) tenDocs))
         (issuesOf (issues_missing_fields r))
    /\ Sorted (fun a b => missing_count b <= missing_count a)
         (issuesOf (issues_missing_fields r)).
Proof.
  eexists. split; [vm_compute; reflexivity |].
  eapply (report_counts (usersConfig (9 # 10) 2) tenDocs _).
  vm_compute; reflexivity.
Defined.

(** ** Flattening: the leaves *)

Lemma flattenDoc_leaves : forall v base out,
  Forall (fun kv => isNestedMap (snd kv) = false) out ->
  Forall (fun kv => isNestedMap (snd kv) = false) (flattenDoc v base out).
Proof.
  induction v using Value_nested_ind; intros base out Hout; try exact Hout.
  change (Forall (fun kv => isNestedMap (snd kv) = false)
    (fold_left
       (fun out kv =>
          let path :=
            if base == "" then fst kv
            else String.append base (String.append "." (fst kv)) in
          let v := snd kv in
          if isPlainObject v
             && negb (instanceof_Timestamp v)
             && negb (instanceof_GeoPoint v)
             && negb (instanceof_DocumentReference v)
          then flattenDoc v path out
          else Map_set path v out) es out)).
  revert out Hout. induction H as [| kv es Hkv _ IH]; intros out Hout;
    cbn [fold_left].
  - exact Hout.
  - apply IH. cbv zeta.
    destruct (isPlainObject (snd kv) && negb (instanceof_Timestamp (snd kv))
              && negb (instanceof_GeoPoint (snd kv))
              && negb (instanceof_DocumentReference (snd kv))) eqn:E.
    + apply Hkv; auto.
    + apply Map_set_Forall; auto.
Qed.

Lemma isNestedMap_object : forall v,
  isNestedMap v = true <-> detectKind v = "object".
Proof. intro v. destruct v; cbn; split; congruence. Qed.

(** X23. The flattened form of a document holds each path once, and no
    value of it is a map: [flattenDoc] descends into every map, however
    deep, and keeps arrays, scalars and store values as they are. So no
    field path of pass 1 ever shows the kind "object": after a pass 1 that
    returns, no statistics count that kind. *)
Theorem flattened_values_are_leaves :
  forall (cfg : Config) (docs : list Doc) (doc : Doc),
    NoDup (map fst (flat doc))
    /\ Forall (fun kv => detectKind (snd kv) <> "object") (flat doc)
    /\ (forall f, kindAt f doc <> Some "object")
    /\ forall n pass1 f st,
         pass1_buildStats cfg docs = (n, Ok pass1) ->
         In (f, st) (fieldStats pass1) ->
         Map_get "object" (kinds st) = None.
Proof.
  intros cfg docs doc.
  assert (Hleaves : forall d, Forall (fun kv => detectKind (snd kv) <> "object") (flat d)).
  { intro d. unfold flat.
    eapply Permutation_Forall; [symmetry; apply Object_fromEntries_perm |].
    eapply Forall_impl; [| apply (flattenDoc_leaves _ "" []); constructor].
    intros kv Hkv Hobj. apply isNestedMap_object in Hobj. congruence. }
  assert (Hkind : forall d f, kindAt f d <> Some "object").
  { intros d f. unfold kindAt, valueAt.
    destruct (Map_get f (flat d)) as [v |] eqn:Eg; [| discriminate].
    apply Map_get_In in Eg. specialize (Hleaves d). rewrite Forall_forall in Hleaves.
    intro Hk. inversion Hk as [Hv]. exact (Hleaves _ Eg Hv). }
  split; [apply flat_NoDup | split; [apply Hleaves | split; [apply Hkind |]]].
  intros n pass1 f st H Hin.
  destruct (pass1_Ok cfg docs n pass1 H) as [Hs _].
  destruct (scanStats_field cfg _ n _ f st Hs Hin) as [_ [_ [_ [Hk _]]]].
  rewrite Hk.
  destruct (docsOfKind f "object" (scanned cfg docs)) as [| d l] eqn:Ed;
    [reflexivity |].
  exfalso. assert (Hd : In d (docsOfKind f "object" (scanned cfg docs)))
    by (rewrite Ed; now left).
  apply filter_In in Hd as [_ Hd]. unfold hasKindAt in Hd.
  destruct (kindAt f d) as [k |] eqn:Ek; [| discriminate Hd].
  string_cases. exact (Hkind d f Ek).
Qed.

(** ** Flattening: the paths *)

Lemma fold_left_flat_map :
  forall (A B C : Type) (f : C -> B -> C) (g : A -> list B) (l : list A) (c : C),
    fold_left f (flat_map g l) c
    = fold_left (fun c a => fold_left f (g a) c) l c.
Proof.
  intros A B C f g l. induction l as [| a l IH]; intro c; cbn; [reflexivity |].
  rewrite fold_left_app. apply IH.
Qed.

Lemma fold_left_map_arg :
  forall (A B C : Type) (f : C -> B -> C) (g : A -> B) (l : list A) (c : C),
    fold_left f (map g l) c = fold_left (fun c a => f c (g a)) l c.
Proof.
  intros A B C f g l. induction l as [| a l IH]; intro c; cbn; auto.
Qed.

(** [flattenDoc] assigns the leaves, one after the other, each at its
    path. *)
Lemma flattenDoc_assigns : forall v base out,
  flattenDoc v base out
  = fold_left (fun out l => Map_set (pathOf base (fst l)) (snd l) out)
      (leavesOf v) out.
Proof.
  induction v using Value_nested_ind; intros base out; try reflexivity.
  change (fold_left
       (fun out kv =>
          let path :=
            if base == "" then fst kv
            else String.append base (String.append "." (fst kv)) in
          let v := snd kv in
          if isPlainObject v
             && negb (instanceof_Timestamp v)
             && negb (instanceof_GeoPoint v)
             && negb (instanceof_DocumentReference v)
          then flattenDoc v path out
          else Map_set path v out) es out
     = fold_left (fun out l => Map_set (pathOf base (fst l)) (snd l) out)
         (leavesOf (VObject es)) out).
  cbn [leavesOf]. rewrite fold_left_flat_map.
  revert out. induction H as [| kv es Hkv _ IH]; intro out; cbn [fold_left].
  - reflexivity.
  - rewrite <- IH. f_equal. cbv zeta. fold (isNestedMap (snd kv)).
    fold (childPath base (fst kv)).
    destruct (isNestedMap (snd kv)).
    + rewrite Hkv, fold_left_map_arg. reflexivity.
    + reflexivity.
Qed.

(** Of the assignments at one path, the last one is read. *)
Lemma assigned_get :
  forall (ls : list (list string * Value)) (base p : string),
    Map_get p
      (fold_left (fun out l => Map_set (pathOf base (fst l)) (snd l) out) ls [])
    = option_map snd (find (fun l => pathOf base (fst l) == p) (rev ls)).
Proof.
  intros ls base p. induction ls as [| l ls IH] using rev_ind; [reflexivity |].
  rewrite fold_left_app, rev_app_distr. cbn [fold_left rev app find].
  destruct (pathOf base (fst l) == p) eqn:E.
  - string_cases. cbn. apply Map_get_set_eq.
  - string_cases. rewrite Map_get_set_neq by exact E. exact IH.
Qed.

Lemma distinctKeys_NoDup : forall ks,
  Infer.distinctKeys ks = true -> NoDup ks.
Proof.
  induction ks as [| k ks IH]; cbn; intro H; constructor.
  - apply andb_prop in H as [H _]. intro Hin. apply Set_has_In in Hin.
    rewrite Hin in H. discriminate H.
  - apply andb_prop in H as [_ H]. auto.
Qed.

(** The leaves are what the chains of keys lead to. *)
Lemma leavesOf_lookup : forall v,
  wellKeyed v = true ->
  forall ks x,
    In (ks, x) (leavesOf v)
    <-> ks <> [] /\ lookupPath ks v = Some x /\ isNestedMap x = false.
Proof.
  induction v using Value_nested_ind; intros Hw ks x;
    try (cbn; split; [intros [] | intros [Hne [Hl _]]; destruct ks;
                                   [congruence | discriminate Hl]]).
  cbn [wellKeyed] in Hw. apply andb_prop in Hw as [Hd Hall].
  apply distinctKeys_NoDup in Hd. rewrite forallb_forall in Hall.
  rewrite Forall_forall in H.
  cbn [leavesOf]. rewrite in_flat_map. split.
  - intros [[k v] [Hin Hx]]. cbn [fst snd] in Hx.
    pose proof (Hall _ Hin) as Hkv. cbn [fst snd] in Hkv.
    apply andb_prop in Hkv as [_ Hwv].
    destruct (isNestedMap v) eqn:En.
    + apply in_map_iff in Hx as [[ks' x'] [E Hin']]. cbn [fst snd] in E.
      inversion E; subst. apply (H _ Hin Hwv) in Hin' as [Hne [Hl Hx]].
      split; [discriminate |]. split; [| exact Hx].
      cbn [lookupPath]. rewrite (In_Map_get _ _ _ _ Hd Hin). exact Hl.
    + destruct Hx as [E | []]. inversion E; subst.
      split; [discriminate |]. split; [| exact En].
      cbn [lookupPath]. rewrite (In_Map_get _ _ _ _ Hd Hin). reflexivity.
  - intros [Hne [Hl Hx]]. destruct ks as [| k ks]; [congruence |].
    cbn [lookupPath] in Hl. destruct (Map_get k es) as [v |] eqn:Eg;
      [| discriminate Hl]. cbn [obind] in Hl.
    apply Map_get_In in Eg. exists (k, v). split; [exact Eg |]. cbn [fst snd].
    pose proof (Hall _ Eg) as Hkv. cbn [fst snd] in Hkv.
    apply andb_prop in Hkv as [_ Hwv].
    destruct (isNestedMap v) eqn:En.
    + apply in_map_iff. exists (ks, x). split; [reflexivity |].
      apply (H _ Eg Hwv). split; [| split; [exact Hl | exact Hx]].
      intros ->. cbn in Hl. inversion Hl; subst. congruence.
    + left. destruct ks as [| k' ks]; [cbn in Hl; congruence |].
      cbn [lookupPath] in Hl. destruct v; try discriminate Hl.
      cbn in En. discriminate En.
Qed.

(** The keys that lead to a leaf are plain. *)
Lemma leavesOf_plain : forall v,
  wellKeyed v = true ->
  forall ks x, In (ks, x) (leavesOf v) -> Forall (fun k => plainKey k = true) ks.
Proof.
  induction v using Value_nested_ind; intros Hw ks x Hin; try destruct Hin.
  cbn [wellKeyed] in Hw. apply andb_prop in Hw as [_ Hall].
  rewrite forallb_forall in Hall. rewrite Forall_forall in H.
  cbn [leavesOf] in Hin. apply in_flat_map in Hin as [[k v] [Hin Hx]].
  cbn [fst snd] in Hx. pose proof (Hall _ Hin) as Hkv. cbn [fst snd] in Hkv.
  apply andb_prop in Hkv as [Hk Hwv].
  destruct (isNestedMap v).
  - apply in_map_iff in Hx as [[ks' x'] [E Hin']]. cbn [fst snd] in E.
    inversion E; subst. constructor; [exact Hk |]. exact (H _ Hin Hwv _ _ Hin').
  - destruct Hx as [E | []]. inversion E; subst. constructor; [exact Hk | constructor].
Qed.

(** The keys followed through the maps of a well-keyed value are plain. *)
Lemma lookupPath_plain : forall ks v x,
  wellKeyed v = true -> lookupPath ks v = Some x ->
  Forall (fun k => plainKey k = true) ks.
Proof.
  induction ks as [| k ks IH]; intros v x Hw Hl; [constructor |].
  cbn [lookupPath] in Hl. destruct v; try discriminate Hl.
  destruct (Map_get k entries) as [y |] eqn:Eg; [| discriminate Hl].
  cbn [obind] in Hl. apply Map_get_In in Eg.
  cbn [wellKeyed] in Hw. apply andb_prop in Hw as [_ Hall].
  rewrite forallb_forall in Hall. apply Hall in Eg. cbn [fst snd] in Eg.
  apply andb_prop in Eg as [Hk Hwy]. constructor; [exact Hk |].
  exact (IH _ _ Hwy Hl).
Qed.

(** *** Paths of plain keys *)

Lemma append_assoc : forall a b c : string,
  String.append (String.append a b) c = String.append a (String.append b c).
Proof. induction a as [| x a IH]; intros b c; cbn; [reflexivity | now rewrite IH]. Qed.

Lemma append_nonempty : forall a b : string,
  b <> "" -> String.append a b <> "".
Proof. intros [| x a] b H; cbn; [exact H | discriminate]. Qed.

Lemma pathOf_dotted : forall keys base,
  base <> "" -> pathOf base keys = String.append base (dotted keys).
Proof.
  induction keys as [| k keys IH]; intros base Hb; cbn [pathOf fold_left dotted fold_right].
  - clear Hb. induction base as [| x base IHb]; cbn; [reflexivity | now rewrite <- IHb].
  - fold (pathOf (childPath base k) keys). unfold childPath.
    apply String.eqb_neq in Hb. rewrite Hb. rewrite IH.
    + fold (dotted keys). rewrite !append_assoc. reflexivity.
    + apply append_nonempty. discriminate.
Qed.

Lemma pathOf_plain : forall k keys,
  k <> "" -> pathOf "" (k :: keys) = String.append k (dotted keys).
Proof.
  intros k keys Hk. cbn [pathOf fold_left]. unfold childPath at 2. cbn [String.eqb].
  now apply pathOf_dotted.
Qed.

Lemma plainKey_inv : forall k,
  plainKey k = true -> k <> "" /\ containsChar "." k = false.
Proof.
  intros k H. unfold plainKey in H. apply andb_prop in H as [H1 H2].
  apply negb_true_iff in H1, H2. string_cases. auto.
Qed.

(** Up to its first dot, a path is its first key. *)
Lemma first_key_inj : forall k1 k2 r1 r2 : string,
  containsChar "." k1 = false -> containsChar "." k2 = false ->
  (r1 = "" \/ exists r, r1 = String "." r) ->
  (r2 = "" \/ exists r, r2 = String "." r) ->
  String.append k1 r1 = String.append k2 r2 -> k1 = k2 /\ r1 = r2.
Proof.
  induction k1 as [| a k1 IH]; intros k2 r1 r2 H1 H2 Hr1 Hr2 E.
  - destruct k2 as [| b k2]; [auto |]. cbn in E, H2.
    apply orb_false_elim in H2 as [Hb _].
    destruct Hr1 as [-> | [r ->]]; [discriminate E |].
    inversion E; subst. cbn in Hb. discriminate Hb.
  - cbn in H1. apply orb_false_elim in H1 as [Ha H1].
    destruct k2 as [| b k2].
    + cbn in E. destruct Hr2 as [-> | [r ->]]; [discriminate E |].
      inversion E; subst. cbn in Ha. discriminate Ha.
    + cbn in E, H2. apply orb_false_elim in H2 as [_ H2].
      inversion E; subst.
      destruct (IH k2 r1 r2 H1 H2 Hr1 Hr2 H3) as [-> ->]. auto.
Qed.

Lemma dotted_shape : forall keys,
  dotted keys = "" \/ exists r, dotted keys = String "." r.
Proof. intros [| k keys]; cbn; eauto. Qed.

Lemma dotted_inj : forall ks1 ks2,
  Forall (fun k => plainKey k = true) ks1 ->
  Forall (fun k => plainKey k = true) ks2 ->
  dotted ks1 = dotted ks2 -> ks1 = ks2.
Proof.
  induction ks1 as [| k1 ks1 IH]; intros ks2 H1 H2 E.
  - destruct ks2; [reflexivity | discriminate E].
  - destruct ks2 as [| k2 ks2]; [discriminate E |].
    inversion H1 as [| ? ? Hk1 H1']; inversion H2 as [| ? ? Hk2 H2']; subst.
    cbn in E. inversion E as [E'].
    apply plainKey_inv in Hk1 as [_ Hk1]. apply plainKey_inv in Hk2 as [_ Hk2].
    destruct (first_key_inj k1 k2 _ _ Hk1 Hk2 (dotted_shape ks1) (dotted_shape ks2) E')
      as [-> Ed].
    f_equal. now apply IH.
Qed.

(** Two chains of plain keys with the same path are the same chain. *)
Lemma pathOf_inj : forall ks1 ks2,
  Forall (fun k => plainKey k = true) ks1 ->
  Forall (fun k => plainKey k = true) ks2 ->
  ks1 <> [] -> ks2 <> [] ->
  pathOf "" ks1 = pathOf "" ks2 -> ks1 = ks2.
Proof.
  intros [| k1 ks1] [| k2 ks2] H1 H2 N1 N2 E; try congruence.
  inversion H1 as [| ? ? Hk1 H1']; inversion H2 as [| ? ? Hk2 H2']; subst.
  apply plainKey_inv in Hk1 as [Hn1 Hk1]. apply plainKey_inv in Hk2 as [Hn2 Hk2].
  rewrite !pathOf_plain in E by assumption.
  destruct (first_key_inj k1 k2 _ _ Hk1 Hk2 (dotted_shape ks1) (dotted_shape ks2) E)
    as [-> Ed].
  f_equal. now apply dotted_inj.
Qed.

Lemma pathOf_concat : forall keys,
  Forall (fun k => plainKey k = true) keys ->
  pathOf "" keys = String.concat "." keys.
Proof.
  intros [| k keys] H; [reflexivity |].
  inversion H as [| ? ? Hk _]; subst. apply plainKey_inv in Hk as [Hn _].
  rewrite pathOf_plain by exact Hn. clear H Hn.
  revert k. induction keys as [| k' keys IH]; intro k; cbn [dotted fold_right String.concat].
  - clear. induction k as [| x k IHk]; cbn; [reflexivity | now rewrite IHk].
  - fold (dotted keys). rewrite IH. reflexivity.
Qed.

(** X24. Flattening loses nothing when the keys are plain. For a
    document whose maps, at every depth, have only keys that are not empty
    and hold no dot, the flattened form holds a value at a path exactly
    when the path is the keys of a chain, joined by dots, that leads
    through nested maps to that value, and the value is not itself a map.
    So every leaf of the document is found at its dotted path, and a
    map, be it empty, is held at none. *)
Theorem flattenDoc_lossless : forall doc : Doc,
  wellKeyed (VObject (data doc)) = true ->
  (forall p x,
     Map_get p (flat doc) = Some x
     <-> exists keys,
           keys <> [] /\ String.concat "." keys = p
           /\ lookupPath keys (VObject (data doc)) = Some x
           /\ isNestedMap x = false)
  /\ forall keys x,
       lookupPath keys (VObject (data doc)) = Some x ->
       isNestedMap x = true ->
       Map_get (String.concat "." keys) (flat doc) = None.
Proof.
  intros doc Hw.
  assert (Hget : forall p x,
     Map_get p (flat doc) = Some x
     <-> exists keys,
           keys <> [] /\ String.concat "." keys = p
           /\ lookupPath keys (VObject (data doc)) = Some x
           /\ isNestedMap x = false).
  { intros p x. unfold flat.
    rewrite Object_fromEntries_get, flattenDoc_assigns, assigned_get. split.
    - intro H.
      destruct (find _ _) as [[ks y] |] eqn:Ef; [| discriminate H].
      cbn in H. inversion H; subst y. apply find_some in Ef as [Hin Ep].
      cbn [fst] in Ep. string_cases. apply in_rev in Hin.
      pose proof (leavesOf_plain _ Hw _ _ Hin) as Hpl.
      apply (leavesOf_lookup _ Hw) in Hin as [Hne [Hl Hx]].
      exists ks. rewrite <- pathOf_concat by exact Hpl. auto.
    - intros [ks [Hne [Ep [Hl Hx]]]].
      assert (Hin : In (ks, x) (leavesOf (VObject (data doc)))).
      { apply (leavesOf_lookup _ Hw). auto. }
      pose proof (leavesOf_plain _ Hw _ _ Hin) as Hpl.
      rewrite <- pathOf_concat in Ep by exact Hpl.
      destruct (find _ _) as [[ks' y] |] eqn:Ef.
      + apply find_some in Ef as [Hin' Ep']. cbn [fst] in Ep'. string_cases.
        apply in_rev in Hin'.
        pose proof (leavesOf_plain _ Hw _ _ Hin') as Hpl'.
        apply (leavesOf_lookup _ Hw) in Hin' as [Hne' [Hl' _]].
        assert (ks' = ks) by (apply pathOf_inj; auto). subst ks'.
        cbn. congruence.
      + exfalso. apply in_rev in Hin.
        pose proof (find_none _ _ Ef (ks, x) Hin) as Hno. cbn [fst] in Hno.
        rewrite Ep, String.eqb_refl in Hno. discriminate Hno. }
  split; [exact Hget |].
  intros keys x Hl Hx.
  destruct (Map_get _ (flat doc)) as [y |] eqn:Eg; [| reflexivity].
  exfalso. apply Hget in Eg as [keys' [Hne [Ep [Hl' Hy]]]].
  pose proof (lookupPath_plain _ _ _ Hw Hl) as Hpl.
  pose proof (lookupPath_plain _ _ _ Hw Hl') as Hpl'.
  rewrite <- !pathOf_concat in Ep by assumption.
  destruct keys as [| k keys].
  - destruct keys' as [| k' keys']; [congruence |].
    inversion Hpl' as [| ? ? Hk _]; subst. apply plainKey_inv in Hk as [Hn _].
    rewrite pathOf_plain in Ep by exact Hn.
    destruct k'; [congruence | discriminate Ep].
  - assert (keys' = k :: keys) by (apply pathOf_inj; auto; discriminate).
    subst keys'. congruence.
Qed.

Lemma flattenDoc_lossless_witness :
  wellKeyed (VObject (data addressDoc)) = true
  /\ Map_get "address.city" (flat addressDoc) = Some (VString "Oslo")
  /\ Map_get "address.none" (flat addressDoc) = None.
Proof.
  split; [reflexivity |].
  destruct (flattenDoc_lossless addressDoc eq_refl) as [Hget Hmap]. split.
  - apply Hget. exists ["address"; "city"]. repeat split; discriminate.
  - apply (Hmap ["address"; "none"] (VObject [])); reflexivity.
Defined.

End LintFacts.
